(** * refa: interval character sets and the FA-to-regex conversion

    A shallow embedding of [src/char-set.ts] and [src/to-regex.ts].

    Conventions of the embedding.
    - A JavaScript [number] holding a code point or a quantifier bound is a
      [Z]; the value [Infinity] of a quantifier maximum is a constructor of
      its own.  Array lengths and indices are [nat].
    - An array of ranges is a [list]; the element at an index past the end
      ([undefined] in the source) is the empty remainder of the list.
    - [throw] is the [Err] case of [Result]; the two [RangeError]s of
      [CharSet] and the [Error]s of the graph are told apart by the
      constructor of [Error]. *)

From Stdlib Require Import ZArith List Bool Lia Arith PeanoNat Setoid Morphisms.
From Stdlib Require Import Permutation.
Import ListNotations.
Open Scope Z_scope.

(* ================================================================= *)
(** ** Errors and results *)

(** Which of the two [throw]s of [checkRange] was taken. *)
Inductive RangeCheck : Type :=
| MinOutOfRange   (* "min=... has to be >= 0 and <= max." *)
| MaxOverMaximum. (* "max=... has to be <= maximum=..." *)

Inductive Error : Type :=
| DomainMismatch                      (* RangeError of checkCompatibility *)
| RangeOutOfBounds (which : RangeCheck) (* RangeError of checkRange *)
| AlreadyLinked                       (* "The two nodes are already linked" *)
| NotLinked                           (* "The two nodes are not linked" *)
| TooManyNodes                        (* TooManyNodesError *)
| StateEliminationFailed              (* "State elimination failed." *)
| Unreachable                         (* assertNever / a dereferenced undefined *)
| OutOfFuel.                          (* not of the source: a loop of the model ran out of fuel *)

Inductive Result (A : Type) : Type :=
| Ok (a : A)
| Err (e : Error).
Arguments Ok {A} a.
Arguments Err {A} e.

Definition rbind {A B : Type} (m : Result A) (k : A -> Result B) : Result B :=
  match m with
  | Ok a => k a
  | Err e => Err e
  end.

Declare Scope result_scope.
Delimit Scope result_scope with result.
Notation "x <- m ;; k" := (rbind m (fun x => k))
  (at level 61, m at next level, right associativity) : result_scope.

Definition isOk {A : Type} (m : Result A) : bool :=
  match m with Ok _ => true | Err _ => false end.

(* ================================================================= *)
(** ** char-set.ts *)

Record CharRange : Type := mkRange { min : Z; max : Z }.

Record CharSet : Type := mkCharSet { maximum : Z; ranges : list CharRange }.

Definition isEmpty (this : CharSet) : bool :=
  (length (ranges this) =? 0)%nat.

Definition isAll (this : CharSet) : bool :=
  match ranges this with
  | [r] => (min r =? 0) && (max r =? maximum this)
  | _ => false
  end.

Definition size (this : CharSet) : Z :=
  fold_left (fun size r => size + (max r - min r + 1)) (ranges this) 0.

(** The caches only avoid allocating; the value returned is this one. *)
Definition empty (maximum : Z) : CharSet := mkCharSet maximum [].
Definition all (maximum : Z) : CharSet := mkCharSet maximum [mkRange 0 maximum].

Definition checkCompatibility (this value : CharSet) : Result unit :=
  if negb (maximum value =? maximum this) then Err DomainMismatch else Ok tt.

(** An argument that is either a [CharSet] or an iterable of ranges. *)
Inductive RangesOrSet : Type :=
| OfSet (s : CharSet)
| OfRanges (rs : list CharRange).

Definition toRanges (this : CharSet) (value : RangesOrSet) : Result (list CharRange) :=
  match value with
  | OfSet s => (_ <- checkCompatibility this s ;; Ok (ranges s))%result
  | OfRanges rs => Ok rs
  end.

Definition checkRange (this : CharSet) (range : CharRange) : Result CharRange :=
  if (min range <? 0) || (min range >? max range) || (max range >? maximum this)
  then Err (RangeOutOfBounds MinOutOfRange)
  else if max range >? maximum this
  then Err (RangeOutOfBounds MaxOverMaximum)
  else Ok range.

Definition rangeEqb (a b : CharRange) : bool :=
  (min a =? min b) && (max a =? max b).

(** The loop of [equals]; the lengths are known to agree. *)
Fixpoint equalsLoop (thisR otherR : list CharRange) : bool :=
  match thisR, otherR with
  | t :: thisR', o :: otherR' =>
      if negb (min t =? min o) || negb (max t =? max o) then false
      else equalsLoop thisR' otherR'
  | _, _ => true
  end.

(** [other === this] implies that every later test succeeds, so the first
    line of the source needs no case of its own. *)
Definition equals (this other : CharSet) : bool :=
  if negb (maximum this =? maximum other) then false
  else if negb (length (ranges this) =? length (ranges other))%nat then false
  else equalsLoop (ranges this) (ranges other).

Fixpoint compareLoop (thisR otherR : list CharRange) : Z :=
  match thisR, otherR with
  | t :: thisR', o :: otherR' =>
      if negb (min t =? min o) then min t - min o
      else if negb (max t =? max o) then max t - max o
      else compareLoop thisR' otherR'
  | _, _ => 0
  end.

Definition compare (this other : CharSet) : Z :=
  if negb (maximum this =? maximum other) then maximum this - maximum other
  else match ranges this, ranges other with
       | [], [] => 0
       | [], _ :: _ => -1
       | _ :: _, [] => 1
       | t :: _, o :: _ =>
           if negb (min t =? min o) then min t - min o
           else if negb (length (ranges this) =? length (ranges other))%nat
           then Z.of_nat (length (ranges this)) - Z.of_nat (length (ranges other))
           else compareLoop (ranges this) (ranges other)
       end.

(** *** The range-list algorithms *)

(** [optimizeSortedRanges]: [current] is [ranges[i - deleteCount]], the last
    slot written, and the list is [ranges[i + 1 ..]]. *)
Fixpoint optimizeSortedLoop (current : CharRange) (rest : list CharRange)
  : list CharRange :=
  match rest with
  | [] => [current]
  | next :: rest' =>
      if max current >=? max next then optimizeSortedLoop current rest'
      else if min next <=? max current + 1
      then optimizeSortedLoop (mkRange (min current) (max next)) rest'
      else current :: optimizeSortedLoop next rest'
  end.

Definition optimizeSortedRanges (ranges : list CharRange) : list CharRange :=
  match ranges with
  | [] => []
  | first :: rest => optimizeSortedLoop first rest
  end.

(** [ranges.sort((a, b) => a.min - b.min)]: a stable sort on [min]. *)
Fixpoint insertByMin (r : CharRange) (sorted : list CharRange) : list CharRange :=
  match sorted with
  | [] => [r]
  | s :: sorted' =>
      if min s <=? min r then s :: insertByMin r sorted' else r :: sorted
  end.

Definition sortByMin (ranges : list CharRange) : list CharRange :=
  fold_left (fun sorted r => insertByMin r sorted) ranges [].

Definition optimizeRanges (ranges : list CharRange) : list CharRange :=
  optimizeSortedRanges (sortByMin ranges).

(** The three loops of [unionRanges]: the merge and the two "append rest". *)
Fixpoint unionMerge (fuel : nat) (a b : list CharRange) : list CharRange :=
  match fuel with
  | O => []
  | S fuel' =>
      match a, b with
      | aRange :: a', bRange :: b' =>
          if min aRange <=? min bRange
          then aRange :: unionMerge fuel' a' b
          else bRange :: unionMerge fuel' a b'
      | _ :: _, [] => a
      | [], _ => b
      end
  end.

Definition unionRanges (a b : list CharRange) : list CharRange :=
  optimizeSortedRanges (unionMerge (S (length a + length b)) a b).

Fixpoint intersectLoop (fuel : nat) (a b : list CharRange) : list CharRange :=
  match fuel with
  | O => []
  | S fuel' =>
      match a, b with
      | aRange :: a', bRange :: b' =>
          if max aRange <? min bRange then intersectLoop fuel' a' b
          else if max bRange <? min aRange then intersectLoop fuel' a b'
          else
            mkRange (Z.max (min aRange) (min bRange)) (Z.min (max aRange) (max bRange))
            :: (if max aRange <? max bRange then intersectLoop fuel' a' b
                else if max bRange <? max aRange then intersectLoop fuel' a b'
                else intersectLoop fuel' a' b')
      | _, _ => []
      end
  end.

Definition intersectRanges (a b : list CharRange) : list CharRange :=
  intersectLoop (S (length a + length b)) a b.

(** [withoutRanges]: the head of [a] is the variable [aRange], which the
    loop may replace by the part of it to the right of [bRange]. *)
Fixpoint withoutLoop (fuel : nat) (a b : list CharRange) : list CharRange :=
  match fuel with
  | O => []
  | S fuel' =>
      match a, b with
      | aRange :: a', bRange :: b' =>
          if max aRange <? min bRange then aRange :: withoutLoop fuel' a' b
          else if max bRange <? min aRange then withoutLoop fuel' a b'
          else if min aRange <? min bRange then
            mkRange (min aRange) (min bRange - 1)
            :: (if max bRange <? max aRange
                then withoutLoop fuel' (mkRange (max bRange + 1) (max aRange) :: a') b'
                else withoutLoop fuel' a' b)
          else
            if max aRange >? max bRange
            then withoutLoop fuel' (mkRange (max bRange + 1) (max aRange) :: a') b'
            else withoutLoop fuel' a' b
      | _, [] => a
      | [], _ => []
      end
  end.

Definition withoutRanges (a b : list CharRange) : list CharRange :=
  withoutLoop (S (length a + length b)) a b.

(** The [for] loop of [negateRanges]: [previous] is [ranges[i - 1]]. *)
Fixpoint negateGaps (previous : CharRange) (rest : list CharRange) : list CharRange :=
  match rest with
  | [] => []
  | r :: rest' => mkRange (max previous + 1) (min r - 1) :: negateGaps r rest'
  end.

Definition negateRanges (ranges : list CharRange) (maximum : Z) : list CharRange :=
  match ranges with
  | [] => [mkRange 0 maximum]
  | first :: rest =>
      let last := List.last ranges first in
      (if min first >? 0 then [mkRange 0 (min first - 1)] else [])
      ++ negateGaps first rest
      ++ (if max last <? maximum then [mkRange (max last + 1) maximum] else [])
  end.

(** *** The operations of the class *)

Definition negate (this : CharSet) : CharSet :=
  mkCharSet (maximum this) (negateRanges (ranges this) (maximum this)).

(** The inner loop of the variadic [union]: every range is checked and pushed. *)
Fixpoint pushChecked (this : CharSet) (rs newRanges : list CharRange)
  : Result (list CharRange) :=
  match rs with
  | [] => Ok newRanges
  | range :: rs' =>
      (r <- checkRange this range ;; pushChecked this rs' (newRanges ++ [r]))%result
  end.

Fixpoint pushAll (this : CharSet) (data : list RangesOrSet) (newRanges : list CharRange)
  : Result (list CharRange) :=
  match data with
  | [] => Ok newRanges
  | rangesOrSet :: data' =>
      (rs <- toRanges this rangesOrSet ;;
       newRanges' <- pushChecked this rs newRanges ;;
       pushAll this data' newRanges')%result
  end.

Definition union (this : CharSet) (data : list RangesOrSet) : Result CharSet :=
  match data with
  | [OfSet first] =>
      (_ <- checkCompatibility this first ;;
       if (length (ranges first) =? 0)%nat then Ok this
       else Ok (mkCharSet (maximum this) (unionRanges (ranges this) (ranges first))))%result
  | _ =>
      (newRanges <- pushAll this data (ranges this) ;;
       Ok (mkCharSet (maximum this) (optimizeRanges newRanges)))%result
  end.

(** The first lines of [intersect] and [without]: the other operand as a set. *)
Definition asOther (this : CharSet) (data : RangesOrSet) : Result CharSet :=
  match data with
  | OfSet s => (_ <- checkCompatibility this s ;; Ok s)%result
  | OfRanges rs => union (empty (maximum this)) [OfRanges rs]
  end.

Definition intersect (this : CharSet) (data : RangesOrSet) : Result CharSet :=
  (other <- asOther this data ;;
   let newRanges := intersectRanges (ranges this) (ranges other) in
   if (length newRanges =? 0)%nat then Ok (empty (maximum this))
   else Ok (mkCharSet (maximum this) newRanges))%result.

Definition without (this : CharSet) (data : RangesOrSet) : Result CharSet :=
  (other <- asOther this data ;;
   let newRanges := withoutRanges (ranges this) (ranges other) in
   if (length newRanges =? 0)%nat then Ok (empty (maximum this))
   else Ok (mkCharSet (maximum this) newRanges))%result.

(** The binary searches.  [nth_error] past the end cannot happen while
    [low < high <= l]; the source would then read a field of [undefined]. *)
Fixpoint hasEveryLoop (fuel : nat) (ranges : list CharRange) (min0 max0 : Z)
  (low high : nat) : bool :=
  match fuel with
  | O => false
  | S fuel' =>
      if (low <? high)%nat then
        let m := (low + Nat.div2 (high - low))%nat in
        match nth_error ranges m with
        | None => false
        | Some mRange =>
            let mMin := min mRange in
            if mMin =? min0 then max0 <=? max mRange
            else if mMin <? min0 then
              if max0 <=? max mRange then true
              else hasEveryLoop fuel' ranges min0 max0 (m + 1)%nat high
            else hasEveryLoop fuel' ranges min0 max0 low m
        end
      else false
  end.

Definition hasEveryOfRange (ranges : list CharRange) (range : CharRange) : bool :=
  let l := length ranges in
  match ranges with
  | [] => false
  | first :: _ =>
      let last := List.last ranges first in
      if (min range <? min first) || (max range >? max last) then false
      else if (l =? 1)%nat then true
      else hasEveryLoop (S l) ranges (min range) (max range) 0%nat l
  end.

Fixpoint commonCharacterLoop (fuel : nat) (ranges : list CharRange) (min0 max0 : Z)
  (low high : nat) : option Z :=
  match fuel with
  | O => None
  | S fuel' =>
      if (low <? high)%nat then
        let m := (low + Nat.div2 (high - low))%nat in
        match nth_error ranges m with
        | None => None
        | Some mRange =>
            let mMin := min mRange in
            if mMin =? min0 then Some min0
            else if mMin <? min0 then
              if min0 <=? max mRange then Some min0
              else commonCharacterLoop fuel' ranges min0 max0 (m + 1)%nat high
            else
              if mMin <=? max0 then Some mMin
              else commonCharacterLoop fuel' ranges min0 max0 low m
        end
      else None
  end.

Definition commonCharacterOfRange (ranges : list CharRange) (range : CharRange)
  : option Z :=
  let l := length ranges in
  match ranges with
  | [] => None
  | first :: _ =>
      let last := List.last ranges first in
      if (max range <? min first) || (min range >? max last) then None
      else commonCharacterLoop (S l) ranges (min range) (max range) 0%nat l
  end.

Definition has (this : CharSet) (character : Z) : bool :=
  hasEveryOfRange (ranges this) (mkRange character character).

(** An argument that is either a [CharSet] or a single [CharRange]. *)
Inductive SetOrRange : Type :=
| ASet (s : CharSet)
| ARange (r : CharRange).

Fixpoint isSupersetLoop (fuel : nat) (thisRanges otherRanges : list CharRange) : bool :=
  match fuel with
  | O => false
  | S fuel' =>
      match thisRanges, otherRanges with
      | thisItem :: this', otherItem :: other' =>
          if (min thisItem <=? min otherItem) && (max thisItem >=? max otherItem)
          then isSupersetLoop fuel' thisRanges other'
          else if max thisItem <? min otherItem
          then isSupersetLoop fuel' this' otherRanges
          else false
      | _, [] => true
      | [], _ :: _ => false
      end
  end.

Definition isSupersetOf (this : CharSet) (other : SetOrRange) : bool :=
  match other with
  | ARange r => hasEveryOfRange (ranges this) r
  | ASet o =>
      isSupersetLoop (S (length (ranges this) + length (ranges o)))
        (ranges this) (ranges o)
  end.

Definition isSubsetOf (this : CharSet) (other : SetOrRange) : bool :=
  match other with
  | ASet o => isSupersetOf o (ASet this)
  | ARange r =>
      match ranges this with
      | [] => true
      | first :: _ =>
          (min r <=? min first) && (max (List.last (ranges this) first) <=? max r)
      end
  end.

Fixpoint commonCharacterSweep (fuel : nat) (thisRanges otherRanges : list CharRange)
  : option Z :=
  match fuel with
  | O => None
  | S fuel' =>
      match thisRanges, otherRanges with
      | thisItem :: this', otherItem :: other' =>
          if max otherItem <? min thisItem
          then commonCharacterSweep fuel' thisRanges other'
          else if max thisItem <? min otherItem
          then commonCharacterSweep fuel' this' otherRanges
          else Some (Z.max (min thisItem) (min otherItem))
      | _, _ => None
      end
  end.

Definition commonCharacter (this : CharSet) (other : SetOrRange) : option Z :=
  match other with
  | ARange r => commonCharacterOfRange (ranges this) r
  | ASet o =>
      commonCharacterSweep (S (length (ranges this) + length (ranges o)))
        (ranges this) (ranges o)
  end.

Definition isDisjointWith (this : CharSet) (other : SetOrRange) : bool :=
  match commonCharacter this other with
  | None => true
  | Some _ => false
  end.

(* ================================================================= *)
(** ** The AST ([ast.ts], as [to-regex.ts] uses it)

    A [Simple<Node>] carries no source position.  A [Concatenation] node is
    the list of its elements, so [alternatives] is a list of lists.  The
    bounds of a quantifier are JavaScript numbers: [min] a natural number
    and [max] a natural number or [Infinity]. *)

Inductive Bound : Type :=
| Fin (n : nat)
| Infinity.

Inductive AssertionKind : Type := Ahead | Behind.

#[local] Set Warnings "-register-all".

Inductive Element : Type :=
| CharacterClass (characters : CharSet)
| Alternation (alternatives : list (list Element))
| Quantifier (alternatives : list (list Element)) (min : nat) (max : Bound)
| Assertion (kind : AssertionKind) (negate : bool) (alternatives : list (list Element)).

Definition Concatenation : Type := list Element.

Inductive Expression : Type :=
| mkExpression (alternatives : list Concatenation).

Definition expressionAlternatives (e : Expression) : list Concatenation :=
  match e with mkExpression alternatives => alternatives end.

(** [RegexFANodeTransition]: a [Concatenation] or an element. *)
Inductive Transition : Type :=
| TConcat (elements : Concatenation)
| TElem (e : Element).

(** Arithmetic of JavaScript numbers on the bounds. *)
Definition boundEqb (a b : Bound) : bool :=
  match a, b with
  | Fin n, Fin m => (n =? m)%nat
  | Infinity, Infinity => true
  | _, _ => false
  end.

Definition boundAdd (a b : Bound) : Bound :=
  match a, b with
  | Fin n, Fin m => Fin (n + m)
  | _, _ => Infinity
  end.

Definition boundIsZero (a : Bound) : bool :=
  match a with Fin O => true | _ => false end.

Definition boundIsOne (a : Bound) : bool :=
  match a with Fin 1 => true | _ => false end.

Definition safeMultiply (a b : Bound) : Bound :=
  if boundIsZero a || boundIsZero b then Fin 0
  else match a, b with
       | Fin n, Fin m => Fin (n * m)
       | _, _ => Infinity
       end.

Definition assertionKindEqb (a b : AssertionKind) : bool :=
  match a, b with
  | Ahead, Ahead | Behind, Behind => true
  | _, _ => false
  end.

(** *** Structural equality *)

Section ListCompare.
Context {A : Type} (eqb : A -> A -> bool).

(** The loops of [structurallyEqualAlternatives] and
    [structurallyEqualConcatenation]: equal lengths and elementwise equal. *)
Fixpoint allEqual (a b : list A) : bool :=
  match a, b with
  | [], [] => true
  | x :: a', y :: b' => if negb (eqb x y) then false else allEqual a' b'
  | _, _ => false
  end.
End ListCompare.

Fixpoint structurallyEqual (a b : Element) : bool :=
  match a, b with
  | Alternation aAlts, Alternation bAlts =>
      allEqual (allEqual structurallyEqual) aAlts bAlts
  | Assertion aKind aNegate aAlts, Assertion bKind bNegate bAlts =>
      if negb (assertionKindEqb aKind bKind) || negb (Bool.eqb aNegate bNegate)
      then false
      else allEqual (allEqual structurallyEqual) aAlts bAlts
  | CharacterClass aChars, CharacterClass bChars => equals aChars bChars
  | Quantifier aAlts aMin aMax, Quantifier bAlts bMin bMax =>
      if negb (aMin =? bMin)%nat || negb (boundEqb aMax bMax) then false
      else allEqual (allEqual structurallyEqual) aAlts bAlts
  | _, _ => false
  end.

Definition structurallyEqualConcatenation (a b : Concatenation) : bool :=
  allEqual structurallyEqual a b.

Definition structurallyEqualAlternatives (a b : list Concatenation) : bool :=
  allEqual structurallyEqualConcatenation a b.

(** [structurallyEqual] on two transitions. *)
Definition structurallyEqualT (a b : Transition) : bool :=
  match a, b with
  | TConcat x, TConcat y => structurallyEqualConcatenation x y
  | TElem x, TElem y => structurallyEqual x y
  | _, _ => false
  end.

(** *** Helpers of the simplifier *)

Definition isQuantifier (e : Element) : bool :=
  match e with Quantifier _ _ _ => true | _ => false end.

(** [getSingleElement(parent, "Quantifier")]. *)
Definition getSingleQuantifier (alternatives : list Concatenation)
  : option (list Concatenation * nat * Bound) :=
  match alternatives with
  | [[Quantifier alts qmin qmax]] => Some (alts, qmin, qmax)
  | _ => None
  end.

Fixpoint canMatchEmptyString (value : Element) : bool :=
  match value with
  | Assertion _ _ _ => false
  | CharacterClass _ => false
  | Alternation alternatives =>
      existsb (forallb canMatchEmptyString) alternatives
  | Quantifier alternatives qmin _ =>
      (qmin =? 0)%nat || existsb (forallb canMatchEmptyString) alternatives
  end.

Definition canMatchEmptyStringConcat (value : Concatenation) : bool :=
  forallb canMatchEmptyString value.

Definition canMatchEmptyStringExpr (value : Expression) : bool :=
  existsb canMatchEmptyStringConcat (expressionAlternatives value).

(** [equalToQuantifiedElement(quant, element)], [quantAlts] being
    [quant.alternatives]; the first function is the case of an element. *)
Definition equalToQuantifiedElement (quantAlts : list Concatenation) (element : Element)
  : bool :=
  match element with
  | Alternation alternatives => structurallyEqualAlternatives quantAlts alternatives
  | _ =>
      match quantAlts with
      | [alt] =>
          match alt with
          | [e] => structurallyEqual e element
          | _ => false
          end
      | _ => false
      end
  end.

Definition equalToQuantifiedConcat (quantAlts : list Concatenation) (element : Concatenation)
  : bool :=
  match element with
  | [e] => equalToQuantifiedElement quantAlts e
  | _ =>
      match quantAlts with
      | [alt] => structurallyEqualConcatenation alt element
      | _ => false
      end
  end.

(** The number of nodes of a tree: the bound for the loops that splice
    children into the array they walk. *)
Fixpoint nodeCount (e : Element) : nat :=
  match e with
  | CharacterClass _ => 1
  | Alternation alts
  | Quantifier alts _ _
  | Assertion _ _ alts =>
      S (list_sum (map (fun c => S (list_sum (map nodeCount c))) alts))
  end.

Definition nodeCountConcat (c : Concatenation) : nat :=
  S (list_sum (map nodeCount c)).

Definition nodeCountAlternatives (alts : list Concatenation) : nat :=
  list_sum (map nodeCountConcat alts).

Definition nodeCountExpr (e : Expression) : nat :=
  S (nodeCountAlternatives (expressionAlternatives e)).

Definition nodeCountT (t : Transition) : nat :=
  match t with
  | TConcat c => nodeCountConcat c
  | TElem e => nodeCount e
  end.

(** *** [inlineAlternatives]

    [todo] is [parent.alternatives] from index [i] on; what is left of [i]
    is final.  Splicing moves the alternatives of the inner alternation to
    the front of [todo] ([i--] then [i++]). *)
Fixpoint inlineAlternativesLoop (fuel : nat) (todo : list Concatenation)
  : list Concatenation * bool :=
  match fuel with
  | O => (todo, false)
  | S fuel' =>
      match todo with
      | [] => ([], false)
      | concat :: rest =>
          match concat with
          | [Alternation alternatives] =>
              let '(r, _) := inlineAlternativesLoop fuel' (alternatives ++ rest) in
              (r, true)
          | _ =>
              let '(r, inlined) := inlineAlternativesLoop fuel' rest in
              (concat :: r, inlined)
          end
      end
  end.

Definition inlineAlternatives (alternatives : list Concatenation)
  : list Concatenation * bool :=
  inlineAlternativesLoop (S (nodeCountAlternatives alternatives)) alternatives.

(** *** [optimizeEmptyString] *)

Definition isEmptyConcat (c : Concatenation) : bool :=
  (length c =? 0)%nat.

(** The [for] loop that looks for [x{1,n}]: the first alternative that is a
    single quantifier with [min === 1] gets [min = 0]. *)
Fixpoint lowerFirstQuantifier (alternatives : list Concatenation)
  : list Concatenation * bool :=
  match alternatives with
  | [] => ([], false)
  | alt :: rest =>
      match alt with
      | [Quantifier qalts 1%nat qmax] => ([Quantifier qalts 0 qmax] :: rest, true)
      | _ =>
          let '(rest', changed) := lowerFirstQuantifier rest in
          (alt :: rest', changed)
      end
  end.

Definition optimizeEmptyString (alternatives : list Concatenation)
  : list Concatenation * bool :=
  if (2 <=? length alternatives)%nat && existsb isEmptyConcat alternatives then
    let filtered := filter (fun c => negb (isEmptyConcat c)) alternatives in
    if (length filtered =? 0)%nat then ([[]], true)
    else if existsb canMatchEmptyStringConcat filtered then (filtered, true)
    else
      let '(lowered, changed) := lowerFirstQuantifier filtered in
      if changed then (lowered, true)
      else ([[Quantifier filtered 0 (Fin 1)]], true)
  else (alternatives, false).

(** *** [factorOutCommonPreAndSuffix] *)

(** [alternatives.map(c => c.elements).sort((a, b) => a.length - b.length)[0]]:
    the sort is stable, so this is the first alternative of least length. *)
Fixpoint shortestOf (best : Concatenation) (alternatives : list Concatenation)
  : Concatenation :=
  match alternatives with
  | [] => best
  | c :: rest =>
      if (length c <? length best)%nat then shortestOf c rest
      else shortestOf best rest
  end.

(** [structurallyEqual(e, x)] where [x] may be [undefined]. *)
Definition equalToSome (e : Element) (x : option Element) : bool :=
  match x with
  | Some e' => structurallyEqual e e'
  | None => false
  end.

(** The first [for] loop, from [i] on; [fuel] bounds [shortest.length - i]. *)
Fixpoint prefixLoop (fuel : nat) (shortest : Concatenation)
  (alternatives : list Concatenation) (i : nat) : nat :=
  match fuel with
  | O => 0
  | S fuel' =>
      match nth_error shortest i with
      | None => 0
      | Some e =>
          if forallb (fun c => equalToSome e (nth_error c i)) alternatives
          then S (prefixLoop fuel' shortest alternatives (S i))
          else 0
      end
  end.

(** The second [for] loop, which stops at [shortest.length - prefixLength]. *)
Fixpoint suffixLoop (fuel : nat) (shortest : Concatenation)
  (alternatives : list Concatenation) (i : nat) : nat :=
  match fuel with
  | O => 0
  | S fuel' =>
      match nth_error shortest (length shortest - 1 - i) with
      | None => 0
      | Some e =>
          if forallb (fun c => equalToSome e (nth_error c (length c - 1 - i)))
               alternatives
          then S (suffixLoop fuel' shortest alternatives (S i))
          else 0
      end
  end.

(** [alt.elements.splice(0, prefixLength)] and
    [alt.elements.splice(alt.elements.length - suffixLength, suffixLength)]. *)
Definition stripAffixes (prefixLength suffixLength : nat) (alt : Concatenation)
  : Concatenation :=
  let rest := skipn prefixLength alt in
  firstn (length rest - suffixLength) rest.

Definition factorOutCommonPreAndSuffix (alternatives : list Concatenation)
  : list Concatenation * bool :=
  match alternatives with
  | first :: (_ :: _) as rest =>
      let shortest := shortestOf first rest in
      let prefixLength := prefixLoop (length shortest) shortest alternatives 0 in
      let suffixLength :=
        suffixLoop (length shortest - prefixLength) shortest alternatives 0 in
      if (0 <? prefixLength)%nat || (0 <? suffixLength)%nat then
        let prefix := firstn prefixLength shortest in
        let suffix := skipn (length shortest - suffixLength) shortest in
        let stripped := map (stripAffixes prefixLength suffixLength) alternatives in
        ([prefix ++ [Alternation stripped] ++ suffix], true)
      else (alternatives, false)
  | _ => (alternatives, false)
  end.

(** *** [inlineConcat]

    [todo] is [concat.elements] from index [i] on. *)
Definition inlineableQuantifier (alternatives : list Concatenation) (qmin : nat)
  (qmax : Bound) : bool :=
  boundIsOne qmax
  && ((qmin =? 1)%nat
      || ((qmin =? 0)%nat && existsb canMatchEmptyStringConcat alternatives)).

Fixpoint inlineConcatLoop (fuel : nat) (todo : Concatenation) : Concatenation * bool :=
  match fuel with
  | O => (todo, false)
  | S fuel' =>
      match todo with
      | [] => ([], false)
      | e0 :: rest =>
          (* the first [if]: a quantifier that is replaced by an alternation *)
          let '(e, inlined1) :=
            match e0 with
            | Quantifier alternatives qmin qmax =>
                if inlineableQuantifier alternatives qmin qmax
                then (Alternation alternatives, true)
                else (e0, false)
            | _ => (e0, false)
            end in
          (* the second [if]: an alternation with one alternative is spliced *)
          match e with
          | Alternation [single] =>
              let '(r, _) := inlineConcatLoop fuel' (single ++ rest) in
              (r, true)
          | _ =>
              let '(r, inlined) := inlineConcatLoop fuel' rest in
              (e :: r, inlined1 || inlined)
          end
      end
  end.

Definition inlineConcat (concat : Concatenation) : Concatenation * bool :=
  inlineConcatLoop (S (nodeCountConcat concat)) concat.

(** *** [letQuantifiersConsumeNeighbors] *)

Section FilterMut.
Context {T : Type}.

(** Modelled from the spec: [filterMut(array, filter)] of [util.ts], which
    is not part of the sources at hand.  It walks the array once, calls
    [filter(element, previous)] with the last element kept so far
    ([undefined] at the start) and drops the elements for which the
    callback returns [false].  The callbacks of this file return [false]
    exactly when they have changed [previous] and set [optimized]; [step]
    returns that changed [previous], and [None] when the callback returns
    [true].  [keptRev] is the kept part, last element first. *)
Fixpoint filterMutLoop (step : T -> option T -> option T)
  (keptRev todo : list T) (changed : bool) : list T * bool :=
  match todo with
  | [] => (rev keptRev, changed)
  | element :: todo' =>
      match step element (hd_error keptRev) with
      | Some previous' => filterMutLoop step (previous' :: tl keptRev) todo' true
      | None => filterMutLoop step (element :: keptRev) todo' changed
      end
  end.

Definition filterMut (step : T -> option T -> option T) (array : list T)
  : list T * bool :=
  filterMutLoop step [] array false.
End FilterMut.

(** The callback of [consumeNonQuantifierLeftToRight]: [a*a -> a+]. *)
Definition consumeElement (after : Element) (quant : option Element) : option Element :=
  match quant with
  | Some (Quantifier alternatives qmin qmax) =>
      if equalToQuantifiedElement alternatives after
      then Some (Quantifier alternatives (qmin + 1) (boundAdd qmax (Fin 1)))
      else None
  | _ => None
  end.

(** The callback of the last [filterMut]: [a{2,6}a{1,3} -> a{3,9}]. *)
Definition consumeQuantifier (after : Element) (quant : option Element) : option Element :=
  match quant, after with
  | Some (Quantifier alternatives qmin qmax), Quantifier afterAlts afterMin afterMax =>
      if structurallyEqualAlternatives alternatives afterAlts
      then Some (Quantifier alternatives (qmin + afterMin) (boundAdd qmax afterMax))
      else None
  | _, _ => None
  end.

Definition letQuantifiersConsumeNeighbors (elements : list Element)
  : list Element * bool :=
  let '(e1, o1) := filterMut consumeElement elements in
  let '(e2, o2) := filterMut consumeElement (rev e1) in
  let '(e3, o3) := filterMut consumeQuantifier (rev e2) in
  (e3, o1 || o2 || o3).

(** *** [optimize] *)

Definition onNodeWithAlternatives (alternatives : list Concatenation)
  : list Concatenation * bool :=
  let '(a1, o1) := inlineAlternatives alternatives in
  let '(a2, o2) := optimizeEmptyString a1 in
  let '(a3, o3) := factorOutCommonPreAndSuffix a2 in
  (a3, o1 || o2 || o3).

Definition onConcatenationLeave (elements : Concatenation) : Concatenation * bool :=
  let '(e1, o1) := inlineConcat elements in
  let '(e2, o2) := letQuantifiersConsumeNeighbors e1 in
  (e2, o1 || o2).

Definition zeroOrOne (n : nat) : bool := (n =? 0)%nat || (n =? 1)%nat.

(** [onQuantifierLeave], on the fields of the quantifier. *)
Definition onQuantifierLeave (alternatives : list Concatenation) (qmin : nat) (qmax : Bound)
  : Element * bool :=
  let '(a, o) := onNodeWithAlternatives alternatives in
  if zeroOrOne qmin then
    match getSingleQuantifier a with
    | Some (eAlts, eMin, eMax) =>
        if zeroOrOne eMin
        then (Quantifier eAlts (qmin * eMin) (safeMultiply qmax eMax), true)
        else (Quantifier a qmin qmax, o)
    | None => (Quantifier a qmin qmax, o)
    end
  else (Quantifier a qmin qmax, o).

Section VisitList.
Context {A : Type} (visit : A -> A * bool).

(** Visiting the children of a node in order; the flag is the [optimized]
    variable of [optimize]. *)
Fixpoint visitList (l : list A) : list A * bool :=
  match l with
  | [] => ([], false)
  | x :: l' =>
      let '(x', o1) := visit x in
      let '(l'', o2) := visitList l' in
      (x' :: l'', o1 || o2)
  end.
End VisitList.

(** Modelled from the spec: [visitAst] of [ast.ts], which is not part of the
    sources at hand.  The traversal is post-order: the children of a node
    are visited in order, then the [Leave] handler of the node runs.
    [optimize] has no handler for [CharacterClass]. *)
Fixpoint visitElement (e : Element) : Element * bool :=
  let visitConcatenation := fun c : Concatenation =>
    let '(c1, o1) := visitList visitElement c in
    let '(c2, o2) := onConcatenationLeave c1 in
    (c2, o1 || o2) in
  match e with
  | CharacterClass _ => (e, false)
  | Alternation alternatives =>
      let '(a1, o1) := visitList visitConcatenation alternatives in
      let '(a2, o2) := onNodeWithAlternatives a1 in
      (Alternation a2, o1 || o2)
  | Assertion kind neg alternatives =>
      let '(a1, o1) := visitList visitConcatenation alternatives in
      let '(a2, o2) := onNodeWithAlternatives a1 in
      (Assertion kind neg a2, o1 || o2)
  | Quantifier alternatives qmin qmax =>
      let '(a1, o1) := visitList visitConcatenation alternatives in
      let '(q, o2) := onQuantifierLeave a1 qmin qmax in
      (q, o1 || o2)
  end.

Definition visitConcatenation (c : Concatenation) : Concatenation * bool :=
  let '(c1, o1) := visitList visitElement c in
  let '(c2, o2) := onConcatenationLeave c1 in
  (c2, o1 || o2).

Definition optimize (expr : Expression) : Expression * bool :=
  let '(a1, o1) := visitList visitConcatenation (expressionAlternatives expr) in
  let '(a2, o2) := onNodeWithAlternatives a1 in
  (mkExpression a2, o1 || o2).

(* ================================================================= *)
(** ** to-regex.ts: the transition factory

    A computation that uses the factory is a tree of its two effects: a
    [Tick] for every call of [_incrementCounter] and a [Throw].  [run]
    gives the tree its meaning for a ceiling [max] and a counter. *)

Inductive TC (A : Type) : Type :=
| Ret (a : A)
| Tick (k : TC A)
| Throw (e : Error).
Arguments Ret {A} a.
Arguments Tick {A} k.
Arguments Throw {A} e.

Fixpoint tbind {A B : Type} (m : TC A) (f : A -> TC B) : TC B :=
  match m with
  | Ret a => f a
  | Tick k => Tick (tbind k f)
  | Throw e => Throw e
  end.

Declare Scope tc_scope.
Delimit Scope tc_scope with tc.
Notation "x <- m ;; k" := (tbind m (fun x => k))
  (at level 61, m at next level, right associativity) : tc_scope.
Notation "' pat <- m ;; k" := (tbind m (fun x => match x with pat => k end))
  (at level 61, pat pattern, m at next level, right associativity) : tc_scope.
Notation "m ;;; k" := (tbind m (fun _ => k))
  (at level 61, right associativity) : tc_scope.
Open Scope tc_scope.

Definition liftResult {A : Type} (r : Result A) : TC A :=
  match r with
  | Ok a => Ret a
  | Err e => Throw e
  end.

(** [if (++this._counter > this.max) throw new TooManyNodesError(...)]. *)
Fixpoint run {A : Type} (max : Z) (m : TC A) (counter : Z) : Result (A * Z) :=
  match m with
  | Ret a => Ok (a, counter)
  | Tick k =>
      if counter + 1 >? max then Err TooManyNodes else run max k (counter + 1)
  | Throw e => Err e
  end.

Definition incrementCounter : TC unit := Tick (Ret tt).

Module tc.
Definition concat (elements : Concatenation) : TC Concatenation :=
  incrementCounter ;;; Ret elements.
Definition emptyConcat : TC Concatenation :=
  incrementCounter ;;; Ret [].
Definition alter (alternatives : list Concatenation) : TC Element :=
  incrementCounter ;;; Ret (Alternation alternatives).
Definition emptyAlter : TC Element :=
  incrementCounter ;;; Ret (Alternation []).
Definition expression (alternatives : list Concatenation) : TC Expression :=
  incrementCounter ;;; Ret (mkExpression alternatives).
Definition emptyExpression : TC Expression :=
  incrementCounter ;;; Ret (mkExpression []).
Definition char (characters : CharSet) : TC Element :=
  incrementCounter ;;; Ret (CharacterClass characters).
Definition quant (alternatives : list Concatenation) (qmin : nat) (qmax : Bound)
  : TC Element :=
  incrementCounter ;;; Ret (Quantifier alternatives qmin qmax).
Definition quantStar (alternatives : list Concatenation) : TC Element :=
  incrementCounter ;;; Ret (Quantifier alternatives 0 Infinity).
Definition quantPlus (alternatives : list Concatenation) : TC Element :=
  incrementCounter ;;; Ret (Quantifier alternatives 1 Infinity).

Section MapM.
Context {A B : Type} (f : A -> TC B).
(** [array.map(f)] for an [f] that uses the factory. *)
Fixpoint mapM (l : list A) : TC (list B) :=
  match l with
  | [] => Ret []
  | x :: l' => y <- f x ;; ys <- mapM l' ;; Ret (y :: ys)
  end.
End MapM.

(** [copy]; an assertion is the [default] case, [assertNever]. *)
Fixpoint copyElement (e : Element) : TC Element :=
  match e with
  | Alternation alternatives =>
      alts <- mapM (fun a => es <- mapM copyElement a ;; concat es) alternatives ;;
      alter alts
  | CharacterClass characters => char characters
  | Quantifier alternatives qmin qmax =>
      alts <- mapM (fun a => es <- mapM copyElement a ;; concat es) alternatives ;;
      quant alts qmin qmax
  | Assertion _ _ _ => Throw Unreachable
  end.

Definition copyConcat (c : Concatenation) : TC Concatenation :=
  es <- mapM copyElement c ;; concat es.

Definition copy (t : Transition) : TC Transition :=
  match t with
  | TConcat c => c' <- copyConcat c ;; Ret (TConcat c')
  | TElem e => e' <- copyElement e ;; Ret (TElem e')
  end.
End tc.

(* ================================================================= *)
(** ** to-regex.ts: the graph

    A [RegexFANode] is an object with identity: a node is its index in the
    [heap] of the [NodeList].  A [Map] is the list of its entries in
    insertion order and a [Set] the list of its members in insertion order. *)

Definition NodeMap : Type := list (nat * Transition).

Fixpoint mapGet (m : NodeMap) (key : nat) : option Transition :=
  match m with
  | [] => None
  | (k, v) :: m' => if (k =? key)%nat then Some v else mapGet m' key
  end.

Definition mapHas (m : NodeMap) (key : nat) : bool :=
  match mapGet m key with Some _ => true | None => false end.

(** [Map.set]: an existing key keeps its place. *)
Fixpoint mapSet (m : NodeMap) (key : nat) (value : Transition) : NodeMap :=
  match m with
  | [] => [(key, value)]
  | (k, v) :: m' =>
      if (k =? key)%nat then (k, value) :: m' else (k, v) :: mapSet m' key value
  end.

Fixpoint mapDelete (m : NodeMap) (key : nat) : NodeMap :=
  match m with
  | [] => []
  | (k, v) :: m' => if (k =? key)%nat then m' else (k, v) :: mapDelete m' key
  end.

Definition mapKeys (m : NodeMap) : list nat := map fst m.

Definition setHas (s : list nat) (x : nat) : bool := existsb (Nat.eqb x) s.

Definition setAdd (s : list nat) (x : nat) : list nat :=
  if setHas s x then s else s ++ [x].

Definition setDelete (s : list nat) (x : nat) : list nat :=
  filter (fun y => negb (y =? x)%nat) s.

(** Modelled from the spec: [firstOf] of [util.ts], which is not part of the
    sources at hand: the first item of an iterable, or [undefined]. *)
Definition firstOf {A : Type} (iterable : list A) : option A := hd_error iterable.

Record RegexFANode : Type := mkNode {
  out : NodeMap;
  in_ : NodeMap
}.

Record NodeList : Type := mkNodeList {
  heap : list RegexFANode;
  initial : nat;
  finals : list nat
}.

Definition emptyNode : RegexFANode := mkNode [] [].

Definition getNode (nodeList : NodeList) (n : nat) : RegexFANode :=
  nth n (heap nodeList) emptyNode.

Fixpoint replaceNth {A : Type} (l : list A) (n : nat) (x : A) : list A :=
  match l, n with
  | [], _ => []
  | _ :: l', O => x :: l'
  | y :: l', S n' => y :: replaceNth l' n' x
  end.

Definition setNode (nodeList : NodeList) (n : nat) (node : RegexFANode) : NodeList :=
  mkNodeList (replaceNth (heap nodeList) n node) (initial nodeList) (finals nodeList).

Definition setOut (nodeList : NodeList) (n : nat) (m : NodeMap) : NodeList :=
  setNode nodeList n (mkNode m (in_ (getNode nodeList n))).

Definition setIn (nodeList : NodeList) (n : nat) (m : NodeMap) : NodeList :=
  setNode nodeList n (mkNode (out (getNode nodeList n)) m).

Definition setFinals (nodeList : NodeList) (f : list nat) : NodeList :=
  mkNodeList (heap nodeList) (initial nodeList) f.

(** [createNode]: a fresh object. *)
Definition createNode (nodeList : NodeList) : nat * NodeList :=
  (length (heap nodeList),
   mkNodeList (heap nodeList ++ [emptyNode]) (initial nodeList) (finals nodeList)).

(** [new NodeList()]. *)
Definition newNodeList : NodeList := mkNodeList [emptyNode] 0 [].

Definition linkNodes (nodeList : NodeList) (from to : nat) (transition : Transition)
  : Result NodeList :=
  if mapHas (out (getNode nodeList from)) to then Err AlreadyLinked
  else
    let nl1 := setOut nodeList from (mapSet (out (getNode nodeList from)) to transition) in
    Ok (setIn nl1 to (mapSet (in_ (getNode nl1 to)) from transition)).

Definition unlinkNodes (nodeList : NodeList) (from to : nat)
  : option Transition * NodeList :=
  match mapGet (out (getNode nodeList from)) to with
  | Some t =>
      let nl1 := setOut nodeList from (mapDelete (out (getNode nodeList from)) to) in
      (Some t, setIn nl1 to (mapDelete (in_ (getNode nl1 to)) from))
  | None => (None, nodeList)
  end.

Definition relinkNodes (nodeList : NodeList) (from to : nat) (newTransition : Transition)
  : Result NodeList :=
  if negb (mapHas (out (getNode nodeList from)) to) then Err NotLinked
  else
    let nl1 := setOut nodeList from (mapSet (out (getNode nodeList from)) to newTransition) in
    Ok (setIn nl1 to (mapSet (in_ (getNode nl1 to)) from newTransition)).

(* ================================================================= *)
(** ** to-regex.ts: building the graph *)

(** [FAIterator<T, Iterable<[T, CharSet]>>] with states named by numbers. *)
Record FAIterator : Type := mkFAIterator {
  fa_initial : nat;
  getOut : nat -> list (nat * CharSet);
  isFinal : nat -> bool
}.

Section DFS.
Context {St : Type} (next : nat -> St -> TC (list nat * St)).

(** Modelled from the spec: [DFS(initial, next)] of [util.ts], which is not
    part of the sources at hand.  A depth-first traversal with a stack and
    a set of visited elements; [next] is called once for every element
    reached and returns the elements to go to.  [St] is what the callback
    changes.  The traversal of an infinite FA does not end: [OutOfFuel]
    is the model running out of [fuel], not an error of the source. *)
Fixpoint DFSLoop (fuel : nat) (visited stack : list nat) (st : St) : TC St :=
  match fuel with
  | O => Throw OutOfFuel
  | S fuel' =>
      match stack with
      | [] => Ret st
      | n :: stack' =>
          if setHas visited n then DFSLoop fuel' visited stack' st
          else
            '(successors, st') <- next n st ;;
            DFSLoop fuel' (n :: visited) (successors ++ stack') st'
      end
  end.

Definition DFS (fuel : nat) (start : nat) (st : St) : TC St :=
  DFSLoop fuel [] [start] st.
End DFS.

(** The comparator of the sort of the outgoing transitions. *)
Fixpoint compareRangeLists (a b : list CharRange) : Z :=
  match a, b with
  | aR :: a', bR :: b' =>
      if negb (min aR =? min bR) then min aR - min bR
      else if negb (max aR =? max bR) then max aR - max bR
      else compareRangeLists a' b'
  | _, _ => Z.of_nat (length a) - Z.of_nat (length b)
  end.

Definition compareOut (a b : CharSet) : Z :=
  let diff := Z.b2z (isEmpty a) - Z.b2z (isEmpty b) in
  if negb (diff =? 0) then diff
  else compareRangeLists (ranges a) (ranges b).

Section Sort.
Context {A : Type} (compareFn : A -> A -> Z).

(** [Array.prototype.sort(compareFn)]: a stable sort. *)
Fixpoint insertSorted (x : A) (sorted : list A) : list A :=
  match sorted with
  | [] => [x]
  | y :: sorted' =>
      if compareFn x y <? 0 then x :: sorted else y :: insertSorted x sorted'
  end.

Definition sortStable (l : list A) : list A :=
  fold_left (fun sorted x => insertSorted x sorted) l [].
End Sort.

Definition sortOut (outEdges : list (nat * CharSet)) : list (nat * CharSet) :=
  sortStable (fun x y => compareOut (snd x) (snd y)) outEdges.

(** What the callback of the first [DFS] changes: the node list and the
    cache of [translate]. *)
Record Build : Type := mkBuild {
  b_nodeList : NodeList;
  b_cache : list (nat * nat)
}.

Fixpoint cacheGet (cache : list (nat * nat)) (key : nat) : option nat :=
  match cache with
  | [] => None
  | (k, v) :: cache' => if (k =? key)%nat then Some v else cacheGet cache' key
  end.

(** Modelled from the spec: [cachedFunc] of [util.ts], which is not part of
    the sources at hand: [translate(n)] creates the node of [n] at the first
    call and returns the same node afterwards. *)
Definition translate (n : nat) (st : Build) : nat * Build :=
  match cacheGet (b_cache st) n with
  | Some node => (node, st)
  | None =>
      let '(node, nl) := createNode (b_nodeList st) in
      (node, mkBuild nl (b_cache st ++ [(n, node)]))
  end.

(** One call of [out.forEach]'s callback. *)
Definition linkOut (n : nat) (st : Build) (edge : nat * CharSet) : TC Build :=
  let '(outNode, charSet) := edge in
  let '(from, st1) := translate n st in
  let '(to, st2) := translate outNode st1 in
  t <- tc.char charSet ;;
  nl <- liftResult (linkNodes (b_nodeList st2) from to (TElem t)) ;;
  Ret (mkBuild nl (b_cache st2)).

Section FoldM.
Context {A St : Type} (f : St -> A -> TC St).
(** [forEach] with a callback that uses the factory. *)
Fixpoint foldM (l : list A) (st : St) : TC St :=
  match l with
  | [] => Ret st
  | x :: l' => st' <- f st x ;; foldM l' st'
  end.
End FoldM.

(** The callback of the first [DFS]. *)
Definition visitState (iter : FAIterator) (n : nat) (st : Build)
  : TC (list nat * Build) :=
  let st1 :=
    if isFinal iter n then
      let '(node, st') := translate n st in
      mkBuild (setFinals (b_nodeList st') (setAdd (finals (b_nodeList st')) node))
              (b_cache st')
    else st in
  let outEdges := sortOut (getOut iter n) in
  st2 <- foldM (linkOut n) outEdges st1 ;;
  Ret (map fst outEdges, st2).

Definition unlinkAll (nodeList : NodeList) (edges : list (nat * nat)) : NodeList :=
  fold_left (fun nl e => snd (unlinkNodes nl (fst e) (snd e))) edges nodeList.

(** The callback of [dead.forEach]. *)
Definition isolate (nodeList : NodeList) (n : nat) : NodeList :=
  let nl1 :=
    unlinkAll nodeList
      (map (fun outNode => (n, outNode)) (mapKeys (out (getNode nodeList n)))) in
  unlinkAll nl1 (map (fun inNode => (inNode, n)) (mapKeys (in_ (getNode nl1 n)))).

Definition createNodeList (fuel : nat) (iter : FAIterator) : TC (option NodeList) :=
  let nodeList := newNodeList in
  let '(tempInitial, nodeList) := createNode nodeList in
  eps <- tc.emptyConcat ;;
  nodeList <- liftResult (linkNodes nodeList (initial nodeList) tempInitial (TConcat eps)) ;;
  let st := mkBuild nodeList [(fa_initial iter, tempInitial)] in
  st <- DFS (visitState iter) fuel (fa_initial iter) st ;;
  let nodeList := b_nodeList st in
  if (length (finals nodeList) =? 0)%nat then Ret None
  else
    let '(tempFinal, nodeList) := createNode nodeList in
    nodeList <- foldM (fun nl n =>
                         eps <- tc.emptyConcat ;;
                         liftResult (linkNodes nl n tempFinal (TConcat eps)))
                      (finals nodeList) nodeList ;;
    let nodeList := setFinals nodeList [tempFinal] in
    alive <- DFS (fun n alive =>
                    Ret (mapKeys (in_ (getNode nodeList n)), setAdd alive n))
                 fuel tempFinal [] ;;
    dead <- DFS (fun n dead =>
                   Ret (mapKeys (out (getNode nodeList n)),
                        if negb (setHas alive n) then setAdd dead n else dead))
                fuel (initial nodeList) [] ;;
    Ret (Some (fold_left isolate dead nodeList)).

(* ================================================================= *)
(** ** to-regex.ts: state elimination *)

(** The inner functions of [eliminateStates].  Up to the definition of
    [Elimination.union], [union] is the method of [CharSet]. *)
Module Elimination.

Definition asConcatenation (a : Transition) : TC Concatenation :=
  match a with
  | TConcat c => Ret c
  | TElem e => tc.concat [e]
  end.

(** [if (x.type === "Alternation") factorOutCommonPreAndSuffix(x)]. *)
Definition factored (e : Element) : Element :=
  match e with
  | Alternation alternatives =>
      Alternation (fst (factorOutCommonPreAndSuffix alternatives))
  | _ => e
  end.

Definition concat (a b : Transition) : TC Transition :=
  match a with
  | TConcat aElements =>
      if (length aElements =? 0)%nat then Ret b
      else
        match b with
        | TConcat bElements =>
            Ret (TConcat (fst (inlineConcat (aElements ++ bElements))))
        | TElem bElem =>
            Ret (TConcat (fst (inlineConcat (aElements ++ [factored bElem]))))
        end
  | TElem aElem =>
      match b with
      | TConcat bElements =>
          if (length bElements =? 0)%nat then Ret a
          else Ret (TConcat (fst (inlineConcat (factored aElem :: bElements))))
      | TElem bElem =>
          newConcat <- tc.concat [factored aElem; factored bElem] ;;
          Ret (TConcat (fst (inlineConcat newConcat)))
      end
  end.

(** [unionAlternationAndCharClass(alternation, char)]; [done] are the
    alternatives the loop has passed. *)
Fixpoint unionAlternationAndCharClass (done todo : list Concatenation)
  (char : Element) (characters : CharSet) : TC (list Concatenation) :=
  match todo with
  | [] =>
      c <- asConcatenation (TElem char) ;;
      Ret (done ++ [c])
  | alt :: todo' =>
      match alt with
      | [CharacterClass firstCharacters] =>
          u <- liftResult (union firstCharacters [OfSet characters]) ;;
          Ret (done ++ [CharacterClass u] :: todo')
      | _ => unionAlternationAndCharClass (done ++ [alt]) todo' char characters
      end
  end.

(** The [for] loop of [union] over [b.alternatives]. *)
Fixpoint unionAlternatives (aAlternatives bAlternatives : list Concatenation)
  : TC (list Concatenation) :=
  match bAlternatives with
  | [] => Ret aAlternatives
  | alt :: rest =>
      match alt with
      | [CharacterClass characters] =>
          a' <- unionAlternationAndCharClass [] aAlternatives
                  (CharacterClass characters) characters ;;
          unionAlternatives a' rest
      | _ => unionAlternatives (aAlternatives ++ [alt]) rest
      end
  end.

Definition union (a b : Transition) : TC Transition :=
  match a, b with
  | TElem (CharacterClass aChars), TElem (CharacterClass bChars) =>
      u <- liftResult (union aChars [OfSet bChars]) ;;
      Ret (TElem (CharacterClass u))
  | TElem (Alternation aAlts), _ =>
      if (length aAlts =? 0)%nat then Ret b
      else
        match b with
        | TElem (Alternation bAlts) =>
            if (length bAlts =? 0)%nat then Ret a
            else
              alts <- unionAlternatives aAlts bAlts ;;
              Ret (TElem (Alternation alts))
        | TElem (CharacterClass bChars) =>
            alts <- unionAlternationAndCharClass [] aAlts
                      (CharacterClass bChars) bChars ;;
            Ret (TElem (Alternation alts))
        | _ =>
            c <- asConcatenation b ;;
            Ret (TElem (Alternation (aAlts ++ [c])))
        end
  | _, TElem (Alternation bAlts) =>
      if (length bAlts =? 0)%nat then Ret a
      else
        match a with
        | TElem (CharacterClass aChars) =>
            alts <- unionAlternationAndCharClass [] bAlts
                      (CharacterClass aChars) aChars ;;
            Ret (TElem (Alternation alts))
        | _ =>
            c <- asConcatenation a ;;
            Ret (TElem (Alternation (bAlts ++ [c])))
        end
  | _, _ =>
      ca <- asConcatenation a ;;
      cb <- asConcatenation b ;;
      e <- tc.alter [ca; cb] ;;
      Ret (TElem e)
  end.

Definition star (a : Transition) : TC Transition :=
  match a with
  | TElem (Quantifier alternatives qmin qmax) =>
      if boundIsZero qmax then c <- tc.emptyConcat ;; Ret (TConcat c)
      else if zeroOrOne qmin then Ret (TElem (Quantifier alternatives 0 Infinity))
      else
        c <- asConcatenation a ;;
        q <- tc.quantStar [c] ;;
        Ret (TElem q)
  | TElem (Alternation alternatives) =>
      q <- tc.quantStar alternatives ;; Ret (TElem q)
  | TConcat elements =>
      if (length elements =? 0)%nat then Ret a
      else q <- tc.quantStar [elements] ;; Ret (TElem q)
  | _ =>
      c <- asConcatenation a ;;
      q <- tc.quantStar [c] ;;
      Ret (TElem q)
  end.

Definition plus (a : Transition) : TC Transition :=
  match a with
  | TElem (Quantifier alternatives qmin qmax) =>
      if boundIsZero qmax then c <- tc.emptyConcat ;; Ret (TConcat c)
      else if (qmin =? 0)%nat then Ret (TElem (Quantifier alternatives 0 Infinity))
      else if (qmin =? 1)%nat then Ret (TElem (Quantifier alternatives qmin Infinity))
      else
        c <- asConcatenation a ;;
        q <- tc.quantPlus [c] ;;
        Ret (TElem q)
  | TElem (Alternation alternatives) =>
      q <- tc.quantPlus alternatives ;; Ret (TElem q)
  | TConcat elements =>
      if (length elements =? 0)%nat then Ret a
      else q <- tc.quantPlus [elements] ;; Ret (TElem q)
  | _ =>
      c <- asConcatenation a ;;
      q <- tc.quantPlus [c] ;;
      Ret (TElem q)
  end.

Definition linkWithUnion (nodeList : NodeList) (from to : nat) (trans : Transition)
  : TC NodeList :=
  let '(currentTrans, nl1) := unlinkNodes nodeList from to in
  trans' <- match currentTrans with
            | Some current => union current trans
            | None => Ret trans
            end ;;
  liftResult (linkNodes nl1 from to trans').

(** A non-null assertion [x!] whose value is then taken apart. *)
Definition unwrap {A : Type} (x : option A) : TC A :=
  match x with
  | Some a => Ret a
  | None => Throw Unreachable
  end.

Definition removeTrivialReflexiveTransition (nodeList : NodeList) (state : nat)
  : TC NodeList :=
  let node := getNode nodeList state in
  if mapHas (out node) state then
    if (length (in_ node) =? 2)%nat && (length (out node) =? 2)%nat then
      let '(ref, nl) := unlinkNodes nodeList state state in
      refTrans <- unwrap ref ;;
      '(outState, outTrans) <- unwrap (firstOf (out (getNode nl state))) ;;
      '(inState, inTrans) <- unwrap (firstOf (in_ (getNode nl state))) ;;
      if structurallyEqualT inTrans refTrans then
        t <- plus refTrans ;; liftResult (relinkNodes nl inState state t)
      else if structurallyEqualT refTrans outTrans then
        t <- plus refTrans ;; liftResult (relinkNodes nl state outState t)
      else
        s <- star refTrans ;;
        t <- concat s outTrans ;;
        liftResult (relinkNodes nl state outState t)
    else if (length (out node) =? 2)%nat then
      let '(ref, nl) := unlinkNodes nodeList state state in
      refTrans <- unwrap ref ;;
      '(outState, outTrans) <- unwrap (firstOf (out (getNode nl state))) ;;
      if structurallyEqualT refTrans outTrans then
        t <- plus refTrans ;; liftResult (relinkNodes nl state outState t)
      else
        s <- star refTrans ;;
        t <- concat s outTrans ;;
        liftResult (relinkNodes nl state outState t)
    else if (length (in_ node) =? 2)%nat then
      let '(ref, nl) := unlinkNodes nodeList state state in
      refTrans <- unwrap ref ;;
      '(inState, inTrans) <- unwrap (firstOf (in_ (getNode nl state))) ;;
      if structurallyEqualT inTrans refTrans then
        t <- plus refTrans ;; liftResult (relinkNodes nl inState state t)
      else
        s <- star refTrans ;;
        t <- concat inTrans s ;;
        liftResult (relinkNodes nl inState state t)
    else Ret nodeList
  else Ret nodeList.

(** What the inner functions of [eliminateStates] change. *)
Record State : Type := mkState {
  nodeList : NodeList;
  remainingStates : list nat
}.

Definition removeTrivialConcat (st : State) (state : nat)
  : TC (option (list nat) * State) :=
  let node := getNode (nodeList st) state in
  if (length (in_ node) =? 1)%nat && (length (out node) =? 1)%nat then
    '(inState, inTrans) <- unwrap (firstOf (in_ node)) ;;
    '(outState, outTrans) <- unwrap (firstOf (out node)) ;;
    let nl1 := snd (unlinkNodes (nodeList st) inState state) in
    let nl2 := snd (unlinkNodes nl1 state outState) in
    t <- concat inTrans outTrans ;;
    nl3 <- linkWithUnion nl2 inState outState t ;;
    Ret (Some [inState; outState],
         mkState nl3 (setDelete (remainingStates st) state))
  else Ret (None, st).

(** The callback of [toProcess.forEach]; the pair is the state and
    [newToProcess]. *)
Definition processState (acc : State * list nat) (state : nat)
  : TC (State * list nat) :=
  let '(st, newToProcess) := acc in
  if negb (setHas (remainingStates st) state) then Ret acc
  else
    nl <- removeTrivialReflexiveTransition (nodeList st) state ;;
    '(affected, st') <- removeTrivialConcat (mkState nl (remainingStates st)) state ;;
    match affected with
    | Some states => Ret (st', fold_left setAdd states newToProcess)
    | None => Ret (st', newToProcess)
    end.

Fixpoint trivialOperations (fuel : nat) (st : State) (toProcess : list nat)
  : TC State :=
  match fuel with
  | O => Throw OutOfFuel
  | S fuel' =>
      if (0 <? length toProcess)%nat then
        '(st', newToProcess) <- foldM processState toProcess (st, []) ;;
        trivialOperations fuel' st' newToProcess
      else Ret st
  end.

(** The body of the two nested [forEach] of [removeState]. *)
Definition bridge (refStar : option Transition) (inEdge outEdge : nat * Transition)
  (nl : NodeList) : TC NodeList :=
  let '(inState, inTrans) := inEdge in
  let '(outState, outTrans) := outEdge in
  match refStar with
  | Some r =>
      i <- tc.copy inTrans ;;
      r' <- tc.copy r ;;
      o <- tc.copy outTrans ;;
      ro <- concat r' o ;;
      t <- concat i ro ;;
      linkWithUnion nl inState outState t
  | None =>
      i <- tc.copy inTrans ;;
      o <- tc.copy outTrans ;;
      t <- concat i o ;;
      linkWithUnion nl inState outState t
  end.

Definition removeState (st : State) (state : nat) : TC (list nat * State) :=
  let node := getNode (nodeList st) state in
  let affected :=
    setDelete (fold_left setAdd (mapKeys (in_ node) ++ mapKeys (out node)) []) state in
  let '(refTrans, nl) := unlinkNodes (nodeList st) state state in
  refStar <- match refTrans with
             | Some r => s <- star r ;; Ret (Some s)
             | None => Ret None
             end ;;
  let node := getNode nl state in
  nl <- foldM (fun nl inEdge =>
                 foldM (fun nl outEdge => bridge refStar inEdge outEdge nl)
                       (out node) nl)
              (in_ node) nl ;;
  let nl := unlinkAll nl (map (fun inState => (inState, state))
                              (mapKeys (in_ (getNode nl state)))) in
  let nl := unlinkAll nl (map (fun outState => (state, outState))
                              (mapKeys (out (getNode nl state)))) in
  Ret (affected, mkState nl (setDelete (remainingStates st) state)).

(** The cost function given to [minOf]. *)
Definition cost (nl : NodeList) (state : nat) : Z :=
  let node := getNode nl state in
  if mapHas (out node) state then
    (Z.of_nat (length (in_ node)) - 1) * (Z.of_nat (length (out node)) - 1) * 3
  else Z.of_nat (length (in_ node)) * Z.of_nat (length (out node)) * 2.

(** Modelled from the spec: [minOf(iterable, cost)] of [util.ts], which is
    not part of the sources at hand: the first item of least cost, or
    [undefined] for no items. *)
Fixpoint minOfFrom (costOf : nat -> Z) (best : nat) (rest : list nat) : nat :=
  match rest with
  | [] => best
  | x :: rest' =>
      if costOf x <? costOf best then minOfFrom costOf x rest'
      else minOfFrom costOf best rest'
  end.

Definition minOf (iterable : list nat) (costOf : nat -> Z) : option nat :=
  match iterable with
  | [] => None
  | x :: rest => Some (minOfFrom costOf x rest)
  end.

Fixpoint mainLoop (fuel : nat) (st : State) : TC State :=
  match fuel with
  | O => Throw OutOfFuel
  | S fuel' =>
      if (0 <? length (remainingStates st))%nat then
        pickedState <- unwrap (minOf (remainingStates st) (cost (nodeList st))) ;;
        '(affected, st1) <- removeState st pickedState ;;
        st2 <- trivialOperations fuel st1 affected ;;
        mainLoop fuel' st2
      else Ret st
  end.

End Elimination.

Definition eliminateStates (fuel : nat) (nodeList : NodeList) : TC NodeList :=
  let initial := initial nodeList in
  final <- Elimination.unwrap (firstOf (finals nodeList)) ;;
  remainingStates <-
    DFS (fun n remaining =>
           Ret (mapKeys (out (getNode nodeList n)),
                if negb (n =? initial)%nat && negb (n =? final)%nat
                then setAdd remaining n else remaining))
        fuel initial [] ;;
  let st := Elimination.mkState nodeList remainingStates in
  st <- Elimination.trivialOperations fuel st remainingStates ;;
  st <- Elimination.mainLoop fuel st ;;
  Ret (Elimination.nodeList st).

Definition stateElimination (fuel : nat) (iter : FAIterator) : TC Expression :=
  nodeList <- createNodeList fuel iter ;;
  match nodeList with
  | None => tc.emptyExpression
  | Some nodeList =>
      nodeList <- eliminateStates fuel nodeList ;;
      finalState <- Elimination.unwrap (firstOf (finals nodeList)) ;;
      let finalIn := in_ (getNode nodeList finalState) in
      if negb (length finalIn =? 1)%nat || negb (mapHas finalIn (initial nodeList))
      then Throw StateEliminationFailed
      else
        transition <- Elimination.unwrap (mapGet finalIn (initial nodeList)) ;;
        match transition with
        | TElem (Alternation alternatives) => tc.expression alternatives
        | TConcat c => tc.expression [c]
        | TElem e => c <- tc.concat [e] ;; tc.expression [c]
        end
  end.

(** [ToRegexOptions]; [None] is an option left [undefined]. *)
Record ToRegexOptions : Type := mkOptions {
  maximumNodes : option Z;
  maximumOptimizationPasses : option nat
}.

Definition defaultOptions : ToRegexOptions := mkOptions None None.

(** The [while] loop of [faToRegex]; [None] passes is [Infinity]. *)
Fixpoint optimizeLoop (fuel : nat) (optimizationPasses : option nat)
  (expression : Expression) : Result Expression :=
  match fuel with
  | O => Err OutOfFuel
  | S fuel' =>
      match optimizationPasses with
      | Some O => Ok expression
      | _ =>
          let '(expression', optimized) := optimize expression in
          if optimized
          then optimizeLoop fuel' (option_map Nat.pred optimizationPasses) expression'
          else Ok expression'
      end
  end.

(** [faToRegex], together with the final value of the factory's counter. *)
Definition faToRegexCounting (fuel : nat) (iter : FAIterator) (options : ToRegexOptions)
  : Result (Expression * Z) :=
  let maxAstNodes := match maximumNodes options with Some n => n | None => 10000 end in
  let optimizationPasses := maximumOptimizationPasses options in
  (r <- run maxAstNodes (stateElimination fuel iter) 0 ;;
   let '(expression, counter) := r in
   expression' <- optimizeLoop fuel optimizationPasses expression ;;
   Ok (expression', counter))%result.

Definition faToRegex (fuel : nat) (iter : FAIterator) (options : ToRegexOptions)
  : Result Expression :=
  (r <- faToRegexCounting fuel iter options ;; Ok (fst r))%result.

(* ================================================================= *)
(** * Specification vocabulary *)

(** ** Character sets *)

(** The set of characters a range list stands for. *)
Definition InRange (c : Z) (r : CharRange) : Prop := min r <= c <= max r.

Definition InRanges (c : Z) (rs : list CharRange) : Prop :=
  exists r, In r rs /\ InRange c r.

Definition inRanges (c : Z) (rs : list CharRange) : bool :=
  existsb (fun r => (min r <=? c) && (c <=? max r)) rs.

(** The four properties that the documentation of [CharSet.ranges] asks for. *)
Definition SortedByMin (rs : list CharRange) : Prop :=
  forall i j ri rj, (i < j)%nat ->
    nth_error rs i = Some ri -> nth_error rs j = Some rj -> min ri < min rj.

Definition PairwiseDisjoint (rs : list CharRange) : Prop :=
  forall i j ri rj, i <> j ->
    nth_error rs i = Some ri -> nth_error rs j = Some rj ->
    forall c, ~ (InRange c ri /\ InRange c rj).

Definition NonAdjacent (rs : list CharRange) : Prop :=
  forall i ri rj,
    nth_error rs i = Some ri -> nth_error rs (S i) = Some rj -> max ri + 1 < min rj.

Definition WithinBounds (maximum : Z) (rs : list CharRange) : Prop :=
  forall r, In r rs -> 0 <= min r /\ min r <= max r /\ max r <= maximum.

Record NormalRanges (maximum : Z) (rs : list CharRange) : Prop := {
  nr_sorted : SortedByMin rs;
  nr_disjoint : PairwiseDisjoint rs;
  nr_nonadjacent : NonAdjacent rs;
  nr_bounds : WithinBounds maximum rs
}.

(** A set in normal form; its [maximum] is a code point. *)
Definition NormalForm (s : CharSet) : Prop :=
  0 <= maximum s /\ NormalRanges (maximum s) (ranges s).

(** The same, as one recursive predicate: every range is non-empty, below
    [maximum], and starts at least two after the end of the one before it
    ([lo] for the first). *)
Fixpoint normalFrom (lo maximum : Z) (rs : list CharRange) : Prop :=
  match rs with
  | [] => True
  | r :: rs' =>
      lo <= min r /\ min r <= max r /\ max r <= maximum
      /\ normalFrom (max r + 2) maximum rs'
  end.

Fixpoint normalFromb (lo maximum : Z) (rs : list CharRange) : bool :=
  match rs with
  | [] => true
  | r :: rs' =>
      (lo <=? min r) && (min r <=? max r) && (max r <=? maximum)
      && normalFromb (max r + 2) maximum rs'
  end.

(** Sorted by [min] (ties allowed), every range non-empty and within
    [lo .. maximum]: what [optimizeSortedRanges] expects. *)
Fixpoint sortedFrom (lo maximum : Z) (rs : list CharRange) : Prop :=
  match rs with
  | [] => True
  | r :: rs' =>
      lo <= min r /\ min r <= max r /\ max r <= maximum
      /\ sortedFrom (min r) maximum rs'
  end.

(* ================================================================= *)
(** ** Words and languages *)

Definition Word : Type := list Z.
Definition Lang : Type := Word -> Prop.

Definition langSame (L1 L2 : Lang) : Prop := forall w, L1 w <-> L2 w.

Definition langEmpty : Lang := fun _ => False.
Definition langUnit : Lang := fun w => w = [].
Definition langOr (L1 L2 : Lang) : Lang := fun w => L1 w \/ L2 w.
Definition langCat (L1 L2 : Lang) : Lang :=
  fun w => exists w1 w2, w = w1 ++ w2 /\ L1 w1 /\ L2 w2.

Fixpoint langPow (L : Lang) (n : nat) : Lang :=
  match n with
  | O => langUnit
  | S n' => langCat L (langPow L n')
  end.

Definition inBound (n : nat) (b : Bound) : Prop :=
  match b with
  | Fin m => (n <= m)%nat
  | Infinity => True
  end.

(** Between [qmin] and [qmax] repetitions. *)
Definition langQuant (L : Lang) (qmin : nat) (qmax : Bound) : Lang :=
  fun w => exists n, (qmin <= n)%nat /\ inBound n qmax /\ langPow L n w.

Definition langStar (L : Lang) : Lang := langQuant L 0 Infinity.

(** The language of an AST.  A character class matches the words of one
    character of its set.  An assertion is given no words: the conversion
    never makes one ([copy] throws on it) and the simplifier only moves it. *)
Fixpoint langElement (e : Element) : Lang :=
  let langConcat :=
    fix langConcat (c : list Element) : Lang :=
      match c with
      | [] => langUnit
      | x :: c' => langCat (langElement x) (langConcat c')
      end in
  let langAlts :=
    fix langAlts (a : list (list Element)) : Lang :=
      match a with
      | [] => langEmpty
      | c :: a' => langOr (langConcat c) (langAlts a')
      end in
  match e with
  | CharacterClass characters =>
      fun w => exists c, w = [c] /\ InRanges c (ranges characters)
  | Alternation alternatives => langAlts alternatives
  | Quantifier alternatives qmin qmax => langQuant (langAlts alternatives) qmin qmax
  | Assertion _ _ _ => langEmpty
  end.

Fixpoint langConcat (c : Concatenation) : Lang :=
  match c with
  | [] => langUnit
  | x :: c' => langCat (langElement x) (langConcat c')
  end.

Fixpoint langAlts (a : list Concatenation) : Lang :=
  match a with
  | [] => langEmpty
  | c :: a' => langOr (langConcat c) (langAlts a')
  end.

Definition langExpr (e : Expression) : Lang := langAlts (expressionAlternatives e).

Definition langT (t : Transition) : Lang :=
  match t with
  | TConcat c => langConcat c
  | TElem e => langElement e
  end.

(** ** The language of an automaton *)

(** [Run iter q w q']: reading [w] can take the automaton from [q] to [q']. *)
Inductive Run (iter : FAIterator) : nat -> Word -> nat -> Prop :=
| RunNil (q : nat) : Run iter q [] q
| RunStep (q q' q'' : nat) (characters : CharSet) (c : Z) (w : Word) :
    In (q', characters) (getOut iter q) ->
    InRanges c (ranges characters) ->
    Run iter q' w q'' ->
    Run iter q (c :: w) q''.

Definition Accepts (iter : FAIterator) (w : Word) : Prop :=
  exists q, Run iter (fa_initial iter) w q /\ isFinal iter q = true.

(** The states the iterator can reach, whatever the sets on the way. *)
Inductive Reachable (iter : FAIterator) : nat -> Prop :=
| ReachInitial : Reachable iter (fa_initial iter)
| ReachStep (q q' : nat) (characters : CharSet) :
    Reachable iter q -> In (q', characters) (getOut iter q) -> Reachable iter q'.

(** Every set on a transition is a [CharSet] in normal form. *)
Definition NormalSets (iter : FAIterator) : Prop :=
  forall q q' characters, In (q', characters) (getOut iter q) -> NormalForm characters.

(** ** The language of a graph *)

(** The words along the edges of a graph with a language on every edge. *)
Inductive pathLang (G : nat -> nat -> Lang) : nat -> nat -> Lang :=
| PathNil (u : nat) : pathLang G u u []
| PathStep (u v x : nat) (w1 w2 : Word) :
    G u v w1 -> pathLang G v x w2 -> pathLang G u x (w1 ++ w2).

Definition edge (nodeList : NodeList) (u v : nat) : option Transition :=
  mapGet (out (getNode nodeList u)) v.

Definition edgeLang (nodeList : NodeList) (u v : nat) : Lang :=
  fun w => exists t, edge nodeList u v = Some t /\ langT t w.

(** ** Well-formed trees: no assertion, every set in normal form, and
    [min <= max] in every quantifier *)

Fixpoint wfElement (e : Element) : Prop :=
  let wfConcat :=
    fix wfConcat (c : list Element) : Prop :=
      match c with
      | [] => True
      | x :: c' => wfElement x /\ wfConcat c'
      end in
  let wfAlts :=
    fix wfAlts (a : list (list Element)) : Prop :=
      match a with
      | [] => True
      | c :: a' => wfConcat c /\ wfAlts a'
      end in
  match e with
  | CharacterClass characters => NormalForm characters
  | Alternation alternatives => wfAlts alternatives
  | Quantifier alternatives qmin qmax => inBound qmin qmax /\ wfAlts alternatives
  | Assertion _ _ _ => False
  end.

Definition wfConcat (c : Concatenation) : Prop := Forall wfElement c.
Definition wfAlts (a : list Concatenation) : Prop := Forall wfConcat a.
Definition wfT (t : Transition) : Prop :=
  match t with
  | TConcat c => wfConcat c
  | TElem e => wfElement e
  end.

(** The two nested recursions are unfolded by their equations, never by
    simplification. *)
Arguments wfElement : simpl never.
Arguments langElement : simpl never.

(* ================================================================= *)
(** * Properties *)

(** ** Range validation and compatibility *)

Lemma checkCompatibility_spec (this value : CharSet) :
  checkCompatibility this value
  = if maximum value =? maximum this then Ok tt else Err DomainMismatch.
Proof.
  unfold checkCompatibility. destruct (maximum value =? maximum this); reflexivity.
Qed.

(** C10: in [checkRange] the second [throw] (max > maximum) is never taken:
    a range for which [min < 0], [min > max] or [max > maximum] holds takes
    the first [throw], and every other range is returned unchanged. *)
Theorem checkRange_second_throw_unreachable (this : CharSet) (range : CharRange) :
  checkRange this range <> Err (RangeOutOfBounds MaxOverMaximum)
  /\ ((min range < 0 \/ min range > max range \/ max range > maximum this)
      /\ checkRange this range = Err (RangeOutOfBounds MinOutOfRange)
      \/ ~ (min range < 0 \/ min range > max range \/ max range > maximum this)
         /\ checkRange this range = Ok range).
Proof.
  unfold checkRange.
  destruct (min range <? 0) eqn:E1; simpl.
  - apply Z.ltb_lt in E1. split; [discriminate | left; split; [lia | reflexivity]].
  - apply Z.ltb_ge in E1.
    destruct (min range >? max range) eqn:E2; simpl.
    + apply Z.gtb_lt in E2. split; [discriminate | left; split; [lia | reflexivity]].
    + destruct (max range >? maximum this) eqn:E3.
      * apply Z.gtb_lt in E3. split; [discriminate | left; split; [lia | reflexivity]].
      * split; [discriminate |].
        right. split; [| reflexivity].
        rewrite Z.gtb_ltb in E2, E3. apply Z.ltb_ge in E2, E3. lia.
Qed.

(* ================================================================= *)
(** ** Normal form of range lists *)

(** Turns the boolean tests of the source into arithmetic facts. *)
Ltac zcmp :=
  repeat match goal with
  | H : (_ <? _) = true |- _ => apply Z.ltb_lt in H
  | H : (_ <? _) = false |- _ => apply Z.ltb_ge in H
  | H : (_ <=? _) = true |- _ => apply Z.leb_le in H
  | H : (_ <=? _) = false |- _ => apply Z.leb_gt in H
  | H : (_ >? _) = _ |- _ => rewrite Z.gtb_ltb in H
  | H : (_ >=? _) = _ |- _ => rewrite Z.geb_leb in H
  | H : (_ =? _) = true |- _ => apply Z.eqb_eq in H
  | H : (_ =? _) = false |- _ => apply Z.eqb_neq in H
  end.

Lemma normalFrom_weaken (lo lo' m : Z) (rs : list CharRange) :
  lo <= lo' -> normalFrom lo' m rs -> normalFrom lo m rs.
Proof. destruct rs; simpl; intuition lia. Qed.

Lemma sortedFrom_weaken (lo lo' m : Z) (rs : list CharRange) :
  lo <= lo' -> sortedFrom lo' m rs -> sortedFrom lo m rs.
Proof. destruct rs; simpl; intuition lia. Qed.

Lemma normalFrom_sortedFrom (rs : list CharRange) : forall lo m,
  normalFrom lo m rs -> sortedFrom lo m rs.
Proof.
  induction rs as [|r rs IH]; simpl; intros lo m H; [exact I|].
  destruct H as (H1 & H2 & H3 & H4). repeat split; try lia.
  apply IH. apply normalFrom_weaken with (lo' := max r + 2); [lia | exact H4].
Qed.

Lemma normalFromb_spec (rs : list CharRange) : forall lo m,
  normalFromb lo m rs = true <-> normalFrom lo m rs.
Proof.
  induction rs as [|r rs IH]; simpl; intros lo m; [tauto|].
  rewrite !andb_true_iff, !Z.leb_le, IH. tauto.
Qed.

(** *** The recursive predicate and the documented four properties agree *)

Lemma normalFrom_nth (rs : list CharRange) : forall lo m i ri,
  normalFrom lo m rs -> nth_error rs i = Some ri ->
  lo <= min ri /\ min ri <= max ri /\ max ri <= m.
Proof.
  induction rs as [|r rs IH]; intros lo m i ri H Hi.
  - destruct i; discriminate.
  - destruct H as (H1 & H2 & H3 & H4). destruct i as [|i]; simpl in Hi.
    + injection Hi as <-. lia.
    + destruct (IH _ _ _ _ H4 Hi) as (? & ? & ?). lia.
Qed.

Lemma normalFrom_gap (rs : list CharRange) : forall lo m i j ri rj,
  normalFrom lo m rs -> (i < j)%nat ->
  nth_error rs i = Some ri -> nth_error rs j = Some rj ->
  max ri + 2 <= min rj.
Proof.
  induction rs as [|r rs IH]; intros lo m i j ri rj H Hij Hi Hj.
  - destruct i; discriminate.
  - destruct H as (H1 & H2 & H3 & H4).
    destruct j as [|j]; [lia|]. simpl in Hj.
    destruct i as [|i]; simpl in Hi.
    + injection Hi as <-. destruct (normalFrom_nth rs _ _ _ _ H4 Hj) as (? & _). lia.
    + apply (IH _ _ i j ri rj H4); [lia | assumption | assumption].
Qed.

Lemma normalFrom_NormalRanges (m : Z) (rs : list CharRange) :
  normalFrom 0 m rs -> NormalRanges m rs.
Proof.
  intros H. constructor.
  - intros i j ri rj Hij Hi Hj.
    pose proof (normalFrom_gap rs _ _ _ _ _ _ H Hij Hi Hj).
    pose proof (normalFrom_nth rs _ _ _ _ H Hi). lia.
  - intros i j ri rj Hij Hi Hj c [Hci Hcj]. unfold InRange in *.
    destruct (Nat.lt_ge_cases i j) as [L|L].
    + pose proof (normalFrom_gap rs _ _ _ _ _ _ H L Hi Hj). lia.
    + assert (L' : (j < i)%nat) by lia.
      pose proof (normalFrom_gap rs _ _ _ _ _ _ H L' Hj Hi). lia.
  - intros i ri rj Hi Hj.
    pose proof (normalFrom_gap rs _ _ _ _ _ _ H (Nat.lt_succ_diag_r i) Hi Hj). lia.
  - intros r Hr. apply In_nth_error in Hr. destruct Hr as [i Hi].
    apply (normalFrom_nth rs _ _ _ _ H Hi).
Qed.

Lemma NormalRanges_normalFrom_gen (m : Z) (rs : list CharRange) : forall lo,
  (forall r, In r rs -> min r <= max r /\ max r <= m) ->
  NonAdjacent rs ->
  (forall r, nth_error rs 0 = Some r -> lo <= min r) ->
  normalFrom lo m rs.
Proof.
  induction rs as [|r rs IH]; intros lo Hb Hn Hlo; simpl; [exact I|].
  destruct (Hb r (or_introl eq_refl)) as [B1 B2].
  repeat split; try assumption.
  - apply Hlo. reflexivity.
  - apply IH.
    + intros r' Hr'. apply Hb. right. exact Hr'.
    + intros i ri rj Hi Hj. apply (Hn (S i) ri rj); assumption.
    + intros r' Hr'. pose proof (Hn 0%nat r r' eq_refl Hr'). lia.
Qed.

Lemma NormalRanges_normalFrom (m : Z) (rs : list CharRange) :
  NormalRanges m rs -> normalFrom 0 m rs.
Proof.
  intros [_ _ Hn Hb]. apply NormalRanges_normalFrom_gen.
  - intros r Hr. destruct (Hb r Hr) as (? & ? & ?). lia.
  - exact Hn.
  - intros r Hr. apply nth_error_In in Hr. destruct (Hb r Hr) as (? & _). lia.
Qed.

Lemma NormalForm_normalFrom (s : CharSet) :
  NormalForm s <-> 0 <= maximum s /\ normalFrom 0 (maximum s) (ranges s).
Proof.
  unfold NormalForm. split; intros [H0 H]; split; try assumption.
  - apply NormalRanges_normalFrom, H.
  - apply normalFrom_NormalRanges, H.
Qed.

(** *** [optimizeSortedRanges] and the merge of [unionRanges] *)

Lemma optimizeSortedLoop_normal (rest : list CharRange) : forall current lo m,
  lo <= min current -> min current <= max current -> max current <= m ->
  sortedFrom (min current) m rest ->
  normalFrom lo m (optimizeSortedLoop current rest).
Proof.
  induction rest as [|next rest IH]; intros current lo m Hlo Hv Hm Hs; simpl.
  - repeat split; assumption.
  - destruct Hs as (S1 & S2 & S3 & S4).
    destruct (max current >=? max next) eqn:E1; zcmp.
    + apply IH; try assumption.
      apply sortedFrom_weaken with (lo' := min next); assumption.
    + destruct (min next <=? max current + 1) eqn:E2; zcmp.
      * apply IH; simpl; try lia.
        apply sortedFrom_weaken with (lo' := min next); assumption.
      * simpl. repeat split; try lia. apply IH; try lia. exact S4.
Qed.

Lemma optimizeSortedRanges_normal (rs : list CharRange) (lo m : Z) :
  sortedFrom lo m rs -> normalFrom lo m (optimizeSortedRanges rs).
Proof.
  destruct rs as [|r rs]; simpl; [trivial|].
  intros (H1 & H2 & H3 & H4). apply optimizeSortedLoop_normal; assumption.
Qed.

Lemma unionMerge_sorted (n : nat) : forall a b lo m,
  (length a + length b < n)%nat ->
  sortedFrom lo m a -> sortedFrom lo m b ->
  sortedFrom lo m (unionMerge n a b).
Proof.
  induction n as [|n IH]; intros a b lo m Hn Ha Hb; [lia|].
  simpl. destruct a as [|ar a']; [destruct b; assumption|].
  destruct b as [|br b']; [assumption|].
  destruct Ha as (A1 & A2 & A3 & A4). destruct Hb as (B1 & B2 & B3 & B4).
  simpl in Hn.
  destruct (min ar <=? min br) eqn:E; zcmp; simpl; repeat split; try assumption.
  - apply IH; [simpl; lia | assumption | simpl; repeat split; assumption].
  - apply IH; [simpl; lia | simpl; repeat split; try assumption; lia | assumption].
Qed.

Lemma unionRanges_normal (a b : list CharRange) (m : Z) :
  normalFrom 0 m a -> normalFrom 0 m b -> normalFrom 0 m (unionRanges a b).
Proof.
  intros Ha Hb. unfold unionRanges.
  apply optimizeSortedRanges_normal, unionMerge_sorted;
    [lia | apply normalFrom_sortedFrom, Ha | apply normalFrom_sortedFrom, Hb].
Qed.

(** *** The stable sort of the variadic [union] *)

Lemma insertByMin_sorted (sorted : list CharRange) : forall r lo m,
  lo <= min r -> min r <= max r -> max r <= m ->
  sortedFrom lo m sorted -> sortedFrom lo m (insertByMin r sorted).
Proof.
  induction sorted as [|s sorted IH]; intros r lo m H1 H2 H3 Hs; simpl.
  - repeat split; assumption.
  - destruct Hs as (S1 & S2 & S3 & S4).
    destruct (min s <=? min r) eqn:E; zcmp; simpl; repeat split; try assumption; try lia.
    apply IH; assumption.
Qed.

Lemma sortByMin_sorted_gen (rs : list CharRange) : forall acc m,
  Forall (fun r => 0 <= min r /\ min r <= max r /\ max r <= m) rs ->
  sortedFrom 0 m acc ->
  sortedFrom 0 m (fold_left (fun sorted r => insertByMin r sorted) rs acc).
Proof.
  induction rs as [|r rs IH]; intros acc m Hall Hacc; simpl; [assumption|].
  inversion Hall as [|? ? (V1 & V2 & V3) Hall']; subst.
  apply IH; [assumption|]. apply insertByMin_sorted; assumption.
Qed.

Lemma optimizeRanges_normal (rs : list CharRange) (m : Z) :
  Forall (fun r => 0 <= min r /\ min r <= max r /\ max r <= m) rs ->
  normalFrom 0 m (optimizeRanges rs).
Proof.
  intros H. apply optimizeSortedRanges_normal.
  apply sortByMin_sorted_gen; [assumption | exact I].
Qed.

(** *** [intersectRanges], [withoutRanges], [negateRanges] *)

Ltac by_IH IH Ha Hb :=
  eapply normalFrom_weaken; [| eapply IH; [| exact Ha | exact Hb]; simpl; lia]; lia.

Lemma intersectLoop_normal (n : nat) : forall a b la lb m,
  (length a + length b < n)%nat ->
  normalFrom la m a -> normalFrom lb m b ->
  normalFrom (Z.max la lb) m (intersectLoop n a b).
Proof.
  induction n as [|n IH]; intros a b la lb m Hn Ha Hb; [lia|].
  simpl. destruct a as [|ar a']; [exact I|]. destruct b as [|br b']; [exact I|].
  pose proof Ha as Ha0. pose proof Hb as Hb0.
  destruct Ha as (A1 & A2 & A3 & A4). destruct Hb as (B1 & B2 & B3 & B4).
  simpl in Hn.
  destruct (max ar <? min br) eqn:E1; zcmp.
  { by_IH IH A4 Hb0. }
  destruct (max br <? min ar) eqn:E2; zcmp.
  { by_IH IH Ha0 B4. }
  simpl. repeat split; try lia.
  destruct (max ar <? max br) eqn:E3; zcmp.
  { by_IH IH A4 Hb0. }
  destruct (max br <? max ar) eqn:E4; zcmp.
  { by_IH IH Ha0 B4. }
  by_IH IH A4 B4.
Qed.

Lemma intersectRanges_normal (a b : list CharRange) (m : Z) :
  normalFrom 0 m a -> normalFrom 0 m b -> normalFrom 0 m (intersectRanges a b).
Proof.
  intros Ha Hb. unfold intersectRanges.
  apply (intersectLoop_normal (S (length a + length b)) a b 0 0 m (Nat.lt_succ_diag_r _) Ha Hb).
Qed.

Lemma withoutLoop_normal (n : nat) : forall a b la lb m,
  (length a + length b < n)%nat ->
  normalFrom la m a -> normalFrom lb m b ->
  normalFrom la m (withoutLoop n a b).
Proof.
  induction n as [|n IH]; intros a b la lb m Hn Ha Hb; [lia|].
  simpl. destruct a as [|ar a']; [destruct b; exact I|].
  destruct b as [|br b']; [exact Ha|].
  pose proof Ha as Ha0. pose proof Hb as Hb0.
  destruct Ha as (A1 & A2 & A3 & A4). destruct Hb as (B1 & B2 & B3 & B4).
  simpl in Hn.
  assert (Hcut : max br < max ar ->
                 normalFrom (max br + 1) m (mkRange (max br + 1) (max ar) :: a')).
  { intros L. simpl. repeat split; try lia. exact A4. }
  destruct (max ar <? min br) eqn:E1; zcmp.
  { simpl. repeat split; try assumption.
    eapply IH; [| exact A4 | exact Hb0]; simpl; lia. }
  destruct (max br <? min ar) eqn:E2; zcmp.
  { eapply IH; [| exact Ha0 | exact B4]; simpl; lia. }
  destruct (min ar <? min br) eqn:E3; zcmp.
  - simpl. repeat split; try lia.
    destruct (max br <? max ar) eqn:E4; zcmp.
    + by_IH IH (Hcut E4) B4.
    + by_IH IH A4 Hb0.
  - destruct (max ar >? max br) eqn:E4; zcmp.
    + by_IH IH (Hcut E4) B4.
    + by_IH IH A4 Hb0.
Qed.

Lemma withoutRanges_normal (a b : list CharRange) (m : Z) :
  normalFrom 0 m a -> normalFrom 0 m b -> normalFrom 0 m (withoutRanges a b).
Proof.
  intros Ha Hb. unfold withoutRanges.
  apply (withoutLoop_normal (S (length a + length b)) a b 0 0 m (Nat.lt_succ_diag_r _) Ha Hb).
Qed.

Lemma last_cons_default (rs : list CharRange) : forall r d,
  List.last (r :: rs) d = List.last rs r.
Proof.
  induction rs as [|r' rs IH]; intros r d; [reflexivity|].
  change (List.last (r :: r' :: rs) d) with (List.last (r' :: rs) d).
  rewrite !IH. reflexivity.
Qed.

Lemma negateGaps_normal (rest : list CharRange) : forall previous lo m,
  normalFrom (max previous + 2) m rest ->
  lo <= max previous + 1 -> max previous <= m ->
  normalFrom lo m
    (negateGaps previous rest
     ++ (if max (List.last rest previous) <? m
         then [mkRange (max (List.last rest previous) + 1) m] else [])).
Proof.
  induction rest as [|r rest IH]; intros previous lo m Hn Hlo Hm.
  - simpl. destruct (max previous <? m) eqn:E; zcmp; simpl; repeat split; lia.
  - destruct Hn as (N1 & N2 & N3 & N4).
    rewrite last_cons_default. simpl. repeat split; try lia.
    apply IH; [exact N4 | lia | lia].
Qed.

Lemma negateRanges_normal (rs : list CharRange) (m : Z) :
  0 <= m -> normalFrom 0 m rs -> normalFrom 0 m (negateRanges rs m).
Proof.
  intros H0 H. unfold negateRanges. destruct rs as [|first rest].
  - simpl. repeat split; lia.
  - destruct H as (N1 & N2 & N3 & N4). rewrite last_cons_default.
    destruct (min first >? 0) eqn:E; zcmp.
    + simpl. repeat split; try lia. apply negateGaps_normal; [exact N4 | lia | lia].
    + simpl. apply negateGaps_normal; [exact N4 | lia | lia].
Qed.

(* ================================================================= *)
(** ** The characters of a range list *)

Lemma InRanges_nil (c : Z) : ~ InRanges c [].
Proof. intros (r & [] & _). Qed.

Lemma InRanges_cons (c : Z) (r : CharRange) (rs : list CharRange) :
  InRanges c (r :: rs) <-> InRange c r \/ InRanges c rs.
Proof.
  unfold InRanges. split.
  - intros (r' & [<- | Hin] & Hc); [left; exact Hc | right; exists r'; tauto].
  - intros [Hc | (r' & Hin & Hc)]; [exists r | exists r']; simpl; tauto.
Qed.

Lemma InRanges_app (c : Z) (rs1 rs2 : list CharRange) :
  InRanges c (rs1 ++ rs2) <-> InRanges c rs1 \/ InRanges c rs2.
Proof.
  induction rs1 as [|r rs1 IH]; simpl.
  - split; [tauto | intros [H | H]; [destruct (InRanges_nil c H) | exact H]].
  - rewrite !InRanges_cons, IH. tauto.
Qed.

Lemma inRanges_spec (c : Z) (rs : list CharRange) :
  inRanges c rs = true <-> InRanges c rs.
Proof.
  unfold inRanges, InRanges, InRange. rewrite existsb_exists.
  split; intros (r & Hin & Hc); exists r; split; try assumption.
  - apply andb_true_iff in Hc. rewrite !Z.leb_le in Hc. exact Hc.
  - apply andb_true_iff. rewrite !Z.leb_le. exact Hc.
Qed.

Lemma sortedFrom_lower (rs : list CharRange) : forall lo m c,
  sortedFrom lo m rs -> InRanges c rs -> lo <= c.
Proof.
  induction rs as [|r rs IH]; intros lo m c Hs Hc.
  - destruct (InRanges_nil c Hc).
  - destruct Hs as (S1 & S2 & S3 & S4). apply InRanges_cons in Hc.
    destruct Hc as [Hc | Hc]; [unfold InRange in Hc; lia|].
    pose proof (IH _ _ _ S4 Hc). lia.
Qed.

Lemma normalFrom_lower (rs : list CharRange) (lo m c : Z) :
  normalFrom lo m rs -> InRanges c rs -> lo <= c.
Proof. intros H. apply sortedFrom_lower with (m := m), normalFrom_sortedFrom, H. Qed.

Lemma normalFrom_nonempty (rs : list CharRange) (lo m : Z) :
  normalFrom lo m rs -> rs <> [] -> exists c, InRanges c rs.
Proof.
  destruct rs as [|r rs]; [congruence|]. intros (H1 & H2 & H3 & H4) _.
  exists (min r). apply InRanges_cons. left. unfold InRange. lia.
Qed.

(** *** [optimizeSortedRanges] keeps the characters *)

Lemma optimizeSortedLoop_In (c : Z) (rest : list CharRange) : forall current m,
  min current <= max current ->
  sortedFrom (min current) m rest ->
  (InRanges c (optimizeSortedLoop current rest)
   <-> InRange c current \/ InRanges c rest).
Proof.
  induction rest as [|next rest IH]; intros current m Hv Hs; simpl.
  - rewrite InRanges_cons. tauto.
  - destruct Hs as (S1 & S2 & S3 & S4). rewrite (InRanges_cons c next rest).
    destruct (max current >=? max next) eqn:E1; zcmp.
    + rewrite (IH current m Hv);
        [| apply sortedFrom_weaken with (lo' := min next); assumption].
      unfold InRange. intuition lia.
    + destruct (min next <=? max current + 1) eqn:E2; zcmp.
      * rewrite (IH (mkRange (min current) (max next)) m); simpl; try lia;
          [| apply sortedFrom_weaken with (lo' := min next); assumption].
        unfold InRange; simpl. intuition lia.
      * rewrite InRanges_cons, (IH next m S2 S4). tauto.
Qed.

Lemma optimizeSortedRanges_In (c : Z) (rs : list CharRange) (lo m : Z) :
  sortedFrom lo m rs -> (InRanges c (optimizeSortedRanges rs) <-> InRanges c rs).
Proof.
  destruct rs as [|r rs]; simpl; [tauto|]. intros (H1 & H2 & H3 & H4).
  rewrite (optimizeSortedLoop_In c rs r m H2 H4), InRanges_cons. tauto.
Qed.

Lemma unionMerge_In (c : Z) (n : nat) : forall a b,
  (length a + length b < n)%nat ->
  (InRanges c (unionMerge n a b) <-> InRanges c a \/ InRanges c b).
Proof.
  induction n as [|n IH]; intros a b Hn; [lia|].
  simpl. destruct a as [|ar a'].
  - pose proof (InRanges_nil c). destruct b; tauto.
  - destruct b as [|br b']; [pose proof (InRanges_nil c); tauto|].
    simpl in Hn. destruct (min ar <=? min br).
    + rewrite InRanges_cons, IH by (simpl; lia). rewrite (InRanges_cons c ar a'). tauto.
    + rewrite InRanges_cons, IH by (simpl; lia). rewrite (InRanges_cons c br b'). tauto.
Qed.

Lemma unionRanges_In (c : Z) (a b : list CharRange) (m : Z) :
  normalFrom 0 m a -> normalFrom 0 m b ->
  (InRanges c (unionRanges a b) <-> InRanges c a \/ InRanges c b).
Proof.
  intros Ha Hb. unfold unionRanges.
  rewrite (optimizeSortedRanges_In c _ 0 m).
  - apply unionMerge_In. lia.
  - apply unionMerge_sorted;
      [lia | apply normalFrom_sortedFrom, Ha | apply normalFrom_sortedFrom, Hb].
Qed.

(** *** [intersectRanges] and [withoutRanges] compute the set operations *)

(** The facts about a non-empty normal list used by the three sweeps. *)
Lemma normalFrom_tail_lower (r : CharRange) (rs : list CharRange) (lo m c : Z) :
  normalFrom lo m (r :: rs) -> InRanges c rs -> max r + 2 <= c.
Proof. intros (_ & _ & _ & H). apply (normalFrom_lower rs _ m c H). Qed.

Lemma intersectLoop_In (c : Z) (n : nat) : forall a b la lb m,
  (length a + length b < n)%nat ->
  normalFrom la m a -> normalFrom lb m b ->
  (InRanges c (intersectLoop n a b) <-> InRanges c a /\ InRanges c b).
Proof.
  induction n as [|n IH]; intros a b la lb m Hn Ha Hb; [lia|].
  pose proof (InRanges_nil c) as Hnil.
  simpl. destruct a as [|ar a']; [tauto|]. destruct b as [|br b']; [tauto|].
  pose proof (normalFrom_tail_lower ar a' la m c Ha) as Ta.
  pose proof (normalFrom_tail_lower br b' lb m c Hb) as Tb.
  pose proof Ha as Ha0. pose proof Hb as Hb0.
  destruct Ha as (A1 & A2 & A3 & A4). destruct Hb as (B1 & B2 & B3 & B4).
  simpl in Hn.
  assert (IHa : InRanges c (intersectLoop n a' (br :: b'))
                <-> InRanges c a' /\ InRanges c (br :: b')).
  { eapply IH; [| exact A4 | exact Hb0]; simpl; lia. }
  assert (IHb : InRanges c (intersectLoop n (ar :: a') b')
                <-> InRanges c (ar :: a') /\ InRanges c b').
  { eapply IH; [| exact Ha0 | exact B4]; simpl; lia. }
  assert (IHab : InRanges c (intersectLoop n a' b')
                <-> InRanges c a' /\ InRanges c b').
  { eapply IH; [| exact A4 | exact B4]; simpl; lia. }
  rewrite (InRanges_cons c ar a') in *. rewrite (InRanges_cons c br b') in *.
  unfold InRange in *.
  destruct (max ar <? min br) eqn:E1; zcmp; [rewrite IHa; intuition lia|].
  destruct (max br <? min ar) eqn:E2; zcmp; [rewrite IHb; intuition lia|].
  rewrite InRanges_cons. unfold InRange; simpl.
  destruct (max ar <? max br) eqn:E3; zcmp; [rewrite IHa; intuition lia|].
  destruct (max br <? max ar) eqn:E4; zcmp; [rewrite IHb; intuition lia|].
  rewrite IHab; intuition lia.
Qed.

Lemma intersectRanges_In (c : Z) (a b : list CharRange) (m : Z) :
  normalFrom 0 m a -> normalFrom 0 m b ->
  (InRanges c (intersectRanges a b) <-> InRanges c a /\ InRanges c b).
Proof.
  intros Ha Hb. unfold intersectRanges.
  apply (intersectLoop_In c (S (length a + length b)) a b 0 0 m (Nat.lt_succ_diag_r _) Ha Hb).
Qed.

Lemma withoutLoop_In (c : Z) (n : nat) : forall a b la lb m,
  (length a + length b < n)%nat ->
  normalFrom la m a -> normalFrom lb m b ->
  (InRanges c (withoutLoop n a b) <-> InRanges c a /\ ~ InRanges c b).
Proof.
  induction n as [|n IH]; intros a b la lb m Hn Ha Hb; [lia|].
  pose proof (InRanges_nil c) as Hnil.
  simpl. destruct a as [|ar a']; [destruct b; tauto|].
  destruct b as [|br b']; [tauto|].
  pose proof (normalFrom_tail_lower ar a' la m c Ha) as Ta.
  pose proof (normalFrom_tail_lower br b' lb m c Hb) as Tb.
  pose proof Ha as Ha0. pose proof Hb as Hb0.
  destruct Ha as (A1 & A2 & A3 & A4). destruct Hb as (B1 & B2 & B3 & B4).
  simpl in Hn.
  assert (IHa : InRanges c (withoutLoop n a' (br :: b'))
                <-> InRanges c a' /\ ~ InRanges c (br :: b')).
  { eapply IH; [| exact A4 | exact Hb0]; simpl; lia. }
  assert (IHb : InRanges c (withoutLoop n (ar :: a') b')
                <-> InRanges c (ar :: a') /\ ~ InRanges c b').
  { eapply IH; [| exact Ha0 | exact B4]; simpl; lia. }
  assert (IHcut : max br < max ar ->
            (InRanges c (withoutLoop n (mkRange (max br + 1) (max ar) :: a') b')
             <-> InRanges c (mkRange (max br + 1) (max ar) :: a') /\ ~ InRanges c b')).
  { intros L. eapply (IH _ b' (max br + 1)); [simpl; lia | | exact B4].
    simpl. repeat split; try lia. exact A4. }
  rewrite (InRanges_cons c ar a') in *. rewrite (InRanges_cons c br b') in *.
  rewrite (InRanges_cons c (mkRange (max br + 1) (max ar)) a') in IHcut.
  unfold InRange in *. simpl in IHcut.
  assert (Hpos : c < min br \/ (min br <= c <= max br) \/ max br < c) by lia.
  destruct (max ar <? min br) eqn:E1; zcmp.
  { rewrite InRanges_cons, IHa. unfold InRange. intuition lia. }
  destruct (max br <? min ar) eqn:E2; zcmp; [rewrite IHb; intuition lia|].
  destruct (min ar <? min br) eqn:E3; zcmp.
  - rewrite InRanges_cons. unfold InRange; simpl.
    destruct (max br <? max ar) eqn:E4; zcmp.
    + rewrite (IHcut E4). intuition lia.
    + rewrite IHa. intuition lia.
  - destruct (max ar >? max br) eqn:E4; zcmp.
    + rewrite (IHcut E4). intuition lia.
    + rewrite IHa. intuition lia.
Qed.

Lemma withoutRanges_In (c : Z) (a b : list CharRange) (m : Z) :
  normalFrom 0 m a -> normalFrom 0 m b ->
  (InRanges c (withoutRanges a b) <-> InRanges c a /\ ~ InRanges c b).
Proof.
  intros Ha Hb. unfold withoutRanges.
  apply (withoutLoop_In c (S (length a + length b)) a b 0 0 m (Nat.lt_succ_diag_r _) Ha Hb).
Qed.

(* ================================================================= *)
(** ** Containment, equality and the normal form as a canonical form *)

Lemma isSupersetLoop_spec (n : nat) : forall a b la lb m,
  (length a + length b < n)%nat ->
  normalFrom la m a -> normalFrom lb m b ->
  (isSupersetLoop n a b = true <-> forall c, InRanges c b -> InRanges c a).
Proof.
  induction n as [|n IH]; intros a b la lb m Hn Ha Hb; [lia|].
  simpl. destruct a as [|ar a'].
  - destruct b as [|br b'].
    + split; [intros _ c Hc; exact Hc | reflexivity].
    + split; [discriminate|]. intros H. destruct Hb as (B1 & B2 & B3 & B4).
      destruct (InRanges_nil (min br)). apply H, InRanges_cons. left.
      unfold InRange. lia.
  - destruct b as [|br b'].
    + split; [intros _ c Hc; destruct (InRanges_nil c Hc) | reflexivity].
    + pose proof Ha as Ha0. pose proof Hb as Hb0.
      destruct Ha as (A1 & A2 & A3 & A4). destruct Hb as (B1 & B2 & B3 & B4).
      simpl in Hn.
      destruct ((min ar <=? min br) && (max ar >=? max br)) eqn:E1.
      * apply andb_true_iff in E1. destruct E1 as [E1 E1']. zcmp.
        rewrite (IH (ar :: a') b' la (max br + 2) m) by (simpl; try lia; assumption).
        split; intros H c Hc.
        -- apply InRanges_cons in Hc. destruct Hc as [Hc | Hc]; [| apply H, Hc].
           apply InRanges_cons. left. unfold InRange in *. lia.
        -- apply H, InRanges_cons. right. exact Hc.
      * apply andb_false_iff in E1.
        destruct (max ar <? min br) eqn:E2; zcmp.
        -- rewrite (IH a' (br :: b') (max ar + 2) lb m) by (simpl; try lia; assumption).
           split; intros H c Hc.
           ++ apply InRanges_cons. right. apply H, Hc.
           ++ assert (L : min br <= c).
              { apply (normalFrom_lower (br :: b') (min br) m c); [| exact Hc].
                simpl. repeat split; try lia. exact B4. }
              destruct (proj1 (InRanges_cons c ar a') (H c Hc)) as [Hin | Hin];
                [unfold InRange in Hin; lia | exact Hin].
        -- split; [discriminate|]. intros H. exfalso.
           assert (Hw : exists c, InRange c br /\ ~ InRange c ar /\ c < max ar + 2).
           { unfold InRange. destruct E1 as [E1 | E1]; zcmp.
             - exists (min br). lia.
             - destruct (Z_lt_le_dec (min br) (min ar)).
               + exists (min br). lia.
               + exists (max ar + 1). lia. }
           destruct Hw as (c & Hc1 & Hc2 & Hc3).
           assert (Hc : InRanges c (br :: b')) by (apply InRanges_cons; left; exact Hc1).
           destruct (proj1 (InRanges_cons c ar a') (H c Hc)) as [Hin | Hin];
             [exact (Hc2 Hin)|].
           pose proof (normalFrom_lower a' _ m c A4 Hin). lia.
Qed.

Lemma CharRange_eq (r1 r2 : CharRange) :
  min r1 = min r2 -> max r1 = max r2 -> r1 = r2.
Proof. destruct r1, r2; simpl; intros -> ->; reflexivity. Qed.

(** Two normal range lists with the same characters are the same list. *)
Lemma normalFrom_canonical (a : list CharRange) : forall b la lb m,
  normalFrom la m a -> normalFrom lb m b ->
  (forall c, InRanges c a <-> InRanges c b) -> a = b.
Proof.
  induction a as [|ar a' IH]; intros b la lb m Ha Hb Hext.
  - destruct b as [|br b']; [reflexivity|]. destruct Hb as (B1 & B2 & B3 & B4).
    destruct (InRanges_nil (min br)). apply Hext, InRanges_cons. left.
    unfold InRange. lia.
  - destruct b as [|br b'].
    + destruct Ha as (A1 & A2 & A3 & A4).
      destruct (InRanges_nil (min ar)). apply Hext, InRanges_cons. left.
      unfold InRange. lia.
    + pose proof (fun c => normalFrom_tail_lower ar a' la m c Ha) as Ta.
      pose proof (fun c => normalFrom_tail_lower br b' lb m c Hb) as Tb.
      destruct Ha as (A1 & A2 & A3 & A4). destruct Hb as (B1 & B2 & B3 & B4).
      assert (Hext' : forall c, InRange c ar \/ InRanges c a'
                                <-> InRange c br \/ InRanges c b').
      { intros c. rewrite <- !InRanges_cons. apply Hext. }
      unfold InRange in Hext'.
      assert (Hmin : min ar = min br).
      { pose proof (Hext' (min ar)) as H1. pose proof (Hext' (min br)) as H2.
        pose proof (Ta (min br)). pose proof (Tb (min ar)).
        destruct (proj1 H1) as [?|?]; [left; lia | |];
        destruct (proj2 H2) as [?|?]; try (left; lia); intuition lia. }
      assert (Hmax : max ar = max br).
      { destruct (Z.lt_trichotomy (max ar) (max br)) as [L | [L | L]]; [| exact L |].
        - pose proof (Hext' (max ar + 1)) as H1. pose proof (Ta (max ar + 1)).
          destruct (proj2 H1) as [?|?]; [left; lia | lia | intuition lia].
        - pose proof (Hext' (max br + 1)) as H1. pose proof (Tb (max br + 1)).
          destruct (proj1 H1) as [?|?]; [left; lia | lia | intuition lia]. }
      rewrite (CharRange_eq ar br Hmin Hmax). f_equal.
      apply (IH b' _ _ m A4 B4). intros c.
      pose proof (Hext' c) as H1. pose proof (Ta c). pose proof (Tb c).
      split; intros Hc.
      * destruct (proj1 H1 (or_intror Hc)) as [?|?]; [intuition lia | assumption].
      * destruct (proj2 H1 (or_intror Hc)) as [?|?]; [intuition lia | assumption].
Qed.

Lemma equalsLoop_spec (a : list CharRange) : forall b,
  length a = length b -> (equalsLoop a b = true <-> a = b).
Proof.
  induction a as [|t a IH]; intros [|o b] Hlen; simpl in *; try discriminate.
  - tauto.
  - injection Hlen as Hlen.
    destruct (min t =? min o) eqn:E1; simpl; zcmp.
    + destruct (max t =? max o) eqn:E2; simpl; zcmp.
      * rewrite (IH b Hlen). rewrite (CharRange_eq t o E1 E2).
        split; [intros -> | intros H; injection H as ->]; reflexivity.
      * split; [discriminate | intros H; injection H as -> _; congruence].
    + split; [discriminate | intros H; injection H as -> _; congruence].
Qed.

Lemma equals_spec (this other : CharSet) :
  equals this other = true <-> this = other.
Proof.
  unfold equals. destruct this as [m1 r1], other as [m2 r2]; simpl.
  destruct (m1 =? m2) eqn:E1; simpl; zcmp.
  - destruct (length r1 =? length r2)%nat eqn:E2; simpl.
    + apply Nat.eqb_eq in E2. rewrite (equalsLoop_spec r1 r2 E2).
      split; [intros -> | intros H; injection H as _ ->]; congruence.
    + apply Nat.eqb_neq in E2.
      split; [discriminate | intros H; injection H as _ ->; congruence].
  - split; [discriminate | intros H; injection H as -> _; congruence].
Qed.

Lemma withoutRanges_empty (a b : list CharRange) (m : Z) :
  normalFrom 0 m a -> normalFrom 0 m b ->
  (withoutRanges a b = [] <-> forall c, InRanges c a -> InRanges c b).
Proof.
  intros Ha Hb. pose proof (withoutRanges_normal a b m Ha Hb) as Hn.
  split.
  - intros E c Hc. destruct (inRanges c b) eqn:Eb; [apply inRanges_spec, Eb|].
    exfalso. apply (InRanges_nil c). rewrite <- E.
    apply (withoutRanges_In c a b m Ha Hb). split; [exact Hc|].
    intros Hcb. apply inRanges_spec in Hcb. congruence.
  - intros H. destruct (withoutRanges a b) as [|r rs] eqn:E; [reflexivity|].
    exfalso. destruct (normalFrom_nonempty (r :: rs) 0 m Hn) as [c Hc]; [discriminate|].
    rewrite <- E in Hc. apply (withoutRanges_In c a b m Ha Hb) in Hc.
    destruct Hc as [Hca Hcb]. exact (Hcb (H c Hca)).
Qed.

Lemma unionRanges_absorbs (a b : list CharRange) (m : Z) :
  normalFrom 0 m a -> normalFrom 0 m b ->
  (unionRanges a b = a <-> forall c, InRanges c b -> InRanges c a).
Proof.
  intros Ha Hb. split.
  - intros E c Hc. rewrite <- E. apply (unionRanges_In c a b m Ha Hb). right. exact Hc.
  - intros H. apply (normalFrom_canonical (unionRanges a b) a 0 0 m);
      [apply unionRanges_normal; assumption | exact Ha |].
    intros c. rewrite (unionRanges_In c a b m Ha Hb). split; [intros [?|?]; auto | auto].
Qed.

(** C4: for sets in normal form with the same [maximum], [b.without(a)] and
    [a.union(b)] return, and the three statements [a.isSupersetOf(b)],
    [b.without(a).isEmpty] and [a.union(b).equals(a)] are equivalent. *)
Theorem superset_without_union_equivalent (a b : CharSet) :
  NormalForm a -> NormalForm b -> maximum a = maximum b ->
  exists d u,
    without b (OfSet a) = Ok d /\ union a [OfSet b] = Ok u
    /\ (isSupersetOf a (ASet b) = true <-> isEmpty d = true)
    /\ (isEmpty d = true <-> equals u a = true).
Proof.
  intros Ha Hb Hm.
  apply NormalForm_normalFrom in Ha. apply NormalForm_normalFrom in Hb.
  destruct Ha as [Ha0 Ha], Hb as [Hb0 Hb]. rewrite <- Hm in Hb.
  destruct a as [m ra], b as [mb rb]; simpl in *. subst mb.
  assert (Hsup : isSupersetOf (mkCharSet m ra) (ASet (mkCharSet m rb)) = true
                 <-> forall c, InRanges c rb -> InRanges c ra).
  { unfold isSupersetOf, ranges.
    apply (isSupersetLoop_spec _ ra rb 0 0 m); [lia | exact Ha | exact Hb]. }
  pose proof (withoutRanges_empty rb ra m Hb Ha) as Hwo.
  pose proof (unionRanges_absorbs ra rb m Ha Hb) as Hun.
  unfold without, union, asOther, checkCompatibility; simpl.
  rewrite Z.eqb_refl; simpl.
  exists (if (length (withoutRanges rb ra) =? 0)%nat then empty m
          else mkCharSet m (withoutRanges rb ra)).
  exists (if (length rb =? 0)%nat then mkCharSet m ra
          else mkCharSet m (unionRanges ra rb)).
  split; [destruct (length (withoutRanges rb ra) =? 0)%nat; reflexivity|].
  split; [destruct (length rb =? 0)%nat; reflexivity|].
  assert (Hd : isEmpty
                 (if (length (withoutRanges rb ra) =? 0)%nat then empty m
                  else mkCharSet m (withoutRanges rb ra)) = true
               <-> withoutRanges rb ra = []).
  { unfold isEmpty. destruct (withoutRanges rb ra); simpl; split; intros; congruence. }
  assert (Hu : equals
                 (if (length rb =? 0)%nat then mkCharSet m ra
                  else mkCharSet m (unionRanges ra rb)) (mkCharSet m ra) = true
               <-> forall c, InRanges c rb -> InRanges c ra).
  { rewrite equals_spec. destruct rb as [|r rb']; simpl.
    - split; [intros _ c Hc; destruct (InRanges_nil c Hc) | reflexivity].
    - rewrite <- Hun. split; [intros H; injection H as ->; reflexivity | intros ->; reflexivity]. }
  rewrite Hd, Hu, Hsup, Hwo. tauto.
Qed.

(* ================================================================= *)
(** ** The operations of [CharSet] keep the normal form *)

Definition validFor (m : Z) (r : CharRange) : Prop :=
  0 <= min r /\ min r <= max r /\ max r <= m.

Lemma checkRange_Ok (this : CharSet) (range r : CharRange) :
  checkRange this range = Ok r -> r = range /\ validFor (maximum this) range.
Proof.
  unfold checkRange, validFor.
  destruct (min range <? 0) eqn:E1; simpl; [discriminate|].
  destruct (min range >? max range) eqn:E2; simpl; [discriminate|].
  destruct (max range >? maximum this) eqn:E3; [discriminate|].
  intros H; injection H as <-. zcmp. split; [reflexivity | lia].
Qed.

Lemma checkRange_valid (this : CharSet) (range : CharRange) :
  validFor (maximum this) range -> checkRange this range = Ok range.
Proof.
  unfold checkRange, validFor. intros (H1 & H2 & H3).
  destruct (min range <? 0) eqn:E1; zcmp; [lia|].
  destruct (min range >? max range) eqn:E2; zcmp; [lia|].
  destruct (max range >? maximum this) eqn:E3; zcmp; [lia|]. reflexivity.
Qed.

Lemma pushChecked_valid (this : CharSet) (rs : list CharRange) : forall acc new,
  pushChecked this rs acc = Ok new ->
  Forall (validFor (maximum this)) acc -> Forall (validFor (maximum this)) new.
Proof.
  induction rs as [|range rs IH]; intros acc new H Hacc; simpl in H.
  - injection H as <-. exact Hacc.
  - destruct (checkRange this range) as [r|e] eqn:E; [|discriminate]. simpl in H.
    apply checkRange_Ok in E. destruct E as [-> V].
    apply (IH _ _ H). apply Forall_app. split; [exact Hacc | constructor; [exact V | constructor]].
Qed.

Lemma pushAll_valid (this : CharSet) (data : list RangesOrSet) : forall acc new,
  pushAll this data acc = Ok new ->
  Forall (validFor (maximum this)) acc -> Forall (validFor (maximum this)) new.
Proof.
  induction data as [|d data IH]; intros acc new H Hacc; simpl in H.
  - injection H as <-. exact Hacc.
  - destruct (toRanges this d) as [rs|e]; [|discriminate]. simpl in H.
    destruct (pushChecked this rs acc) as [acc'|e] eqn:E; [|discriminate]. simpl in H.
    apply (IH _ _ H). apply (pushChecked_valid this rs acc acc' E Hacc).
Qed.

Lemma normalFrom_Forall_valid (rs : list CharRange) : forall lo m,
  0 <= lo -> normalFrom lo m rs -> Forall (validFor m) rs.
Proof.
  induction rs as [|r rs IH]; intros lo m Hlo H; constructor.
  - destruct H as (H1 & H2 & H3 & _). unfold validFor. lia.
  - destruct H as (H1 & H2 & H3 & H4). apply (IH (max r + 2) m); [lia | exact H4].
Qed.

Lemma union_variadic_normal (this : CharSet) (data : list RangesOrSet) (r : CharSet) :
  normalFrom 0 (maximum this) (ranges this) ->
  rbind (pushAll this data (ranges this))
        (fun newRanges => Ok (mkCharSet (maximum this) (optimizeRanges newRanges))) = Ok r ->
  maximum r = maximum this /\ normalFrom 0 (maximum r) (ranges r).
Proof.
  intros Hn H. destruct (pushAll this data (ranges this)) as [new|e] eqn:E; [|discriminate].
  simpl in H. injection H as <-. simpl. split; [reflexivity|].
  apply optimizeRanges_normal.
  apply (pushAll_valid this data _ _ E).
  apply (normalFrom_Forall_valid _ 0); [lia | exact Hn].
Qed.

Lemma union_normal (this : CharSet) (data : list RangesOrSet) (r : CharSet) :
  normalFrom 0 (maximum this) (ranges this) ->
  (forall o, In (OfSet o) data -> normalFrom 0 (maximum o) (ranges o)) ->
  union this data = Ok r ->
  maximum r = maximum this /\ normalFrom 0 (maximum r) (ranges r).
Proof.
  intros Hn Hdata H. unfold union in H.
  destruct data as [|[first|rs] [|d2 data']];
    try (apply (union_variadic_normal this _ r Hn H)).
  unfold checkCompatibility in H.
  destruct (maximum first =? maximum this) eqn:Em; simpl in H; [|discriminate]. zcmp.
  destruct (length (ranges first) =? 0)%nat; injection H as <-.
  - split; [reflexivity | exact Hn].
  - simpl. split; [reflexivity|]. apply unionRanges_normal; [exact Hn|].
    rewrite <- Em. apply Hdata. left. reflexivity.
Qed.

Lemma asOther_normal (this : CharSet) (x : RangesOrSet) (other : CharSet) :
  (forall o, x = OfSet o -> normalFrom 0 (maximum o) (ranges o)) ->
  asOther this x = Ok other ->
  maximum other = maximum this /\ normalFrom 0 (maximum this) (ranges other).
Proof.
  intros Hx H. destruct x as [s|rs]; simpl in H.
  - unfold checkCompatibility in H.
    destruct (maximum s =? maximum this) eqn:Em; simpl in H; [|discriminate]. zcmp.
    injection H as <-. split; [exact Em|]. rewrite <- Em. apply Hx. reflexivity.
  - destruct (union_normal (empty (maximum this)) [OfRanges rs] other) as [E N];
      [exact I | intros o [Ho|[]]; discriminate | exact H |].
    simpl in E. rewrite E in N. split; assumption.
Qed.

(** C2: applied to sets in normal form, [negate], [union], [intersect] and
    [without] return a set whose ranges are sorted by ascending [min],
    pairwise disjoint, non-adjacent ([r_i.max + 1 < r_{i+1}.min]) and within
    [0 <= min <= max <= maximum].  An argument given as an iterable of ranges
    needs no normal form: its ranges are validated and normalised. *)
Theorem operations_return_normal_form (s : CharSet) :
  NormalForm s ->
  NormalForm (negate s)
  /\ (forall data r, (forall o, In (OfSet o) data -> NormalForm o) ->
        union s data = Ok r -> NormalForm r)
  /\ (forall x r, (forall o, x = OfSet o -> NormalForm o) ->
        intersect s x = Ok r -> NormalForm r)
  /\ (forall x r, (forall o, x = OfSet o -> NormalForm o) ->
        without s x = Ok r -> NormalForm r).
Proof.
  intros Hs. apply NormalForm_normalFrom in Hs. destruct Hs as [H0 Hs].
  split; [|split; [|split]].
  - apply NormalForm_normalFrom. simpl. split; [exact H0|].
    apply negateRanges_normal; assumption.
  - intros data r Hdata H. apply NormalForm_normalFrom.
    destruct (union_normal s data r Hs) as [E N]; [| exact H | rewrite E; split; [exact H0 | rewrite <- E; exact N]].
    intros o Ho. apply (proj1 (NormalForm_normalFrom o)), Hdata, Ho.
  - intros x r Hx H. apply NormalForm_normalFrom. unfold intersect in H.
    destruct (asOther s x) as [other|e] eqn:E; [|discriminate]. simpl in H.
    destruct (asOther_normal s x other) as [Em No]; [| exact E |].
    { intros o Ho. apply (proj1 (NormalForm_normalFrom o)), Hx, Ho. }
    pose proof (intersectRanges_normal (ranges s) (ranges other) (maximum s) Hs No) as N.
    destruct (length (intersectRanges (ranges s) (ranges other)) =? 0)%nat;
      injection H as <-; simpl; split; try assumption. exact I.
  - intros x r Hx H. apply NormalForm_normalFrom. unfold without in H.
    destruct (asOther s x) as [other|e] eqn:E; [|discriminate]. simpl in H.
    destruct (asOther_normal s x other) as [Em No]; [| exact E |].
    { intros o Ho. apply (proj1 (NormalForm_normalFrom o)), Hx, Ho. }
    pose proof (withoutRanges_normal (ranges s) (ranges other) (maximum s) Hs No) as N.
    destruct (length (withoutRanges (ranges s) (ranges other)) =? 0)%nat;
      injection H as <-; simpl; split; try assumption. exact I.
Qed.

(** C9: [negate], [union], [intersect] and [without] return a set with the
    receiver's [maximum], whenever they return. *)
Theorem operations_preserve_maximum (s : CharSet) :
  maximum (negate s) = maximum s
  /\ (forall data r, union s data = Ok r -> maximum r = maximum s)
  /\ (forall x r, intersect s x = Ok r -> maximum r = maximum s)
  /\ (forall x r, without s x = Ok r -> maximum r = maximum s).
Proof.
  split; [reflexivity|]. split; [|split].
  - intros data r H. unfold union in H.
    assert (V : forall d, rbind (pushAll s d (ranges s))
                  (fun newRanges => Ok (mkCharSet (maximum s) (optimizeRanges newRanges))) = Ok r ->
                maximum r = maximum s).
    { intros d Hd. destruct (pushAll s d (ranges s)); [|discriminate].
      simpl in Hd. injection Hd as <-. reflexivity. }
    destruct data as [|[first|rs] [|d2 data']]; try (apply (V _ H)).
    destruct (checkCompatibility s first); [|discriminate]. simpl in H.
    destruct (length (ranges first) =? 0)%nat; injection H as <-; reflexivity.
  - intros x r H. unfold intersect in H.
    destruct (asOther s x) as [other|e]; [|discriminate]. simpl in H.
    destruct (length (intersectRanges (ranges s) (ranges other)) =? 0)%nat;
      injection H as <-; reflexivity.
  - intros x r H. unfold without in H.
    destruct (asOther s x) as [other|e]; [|discriminate]. simpl in H.
    destruct (length (withoutRanges (ranges s) (ranges other)) =? 0)%nat;
      injection H as <-; reflexivity.
Qed.

(** C3, as the code has it: between sets of different [maximum], [union],
    [intersect] and [without] fail with the error of [checkCompatibility],
    [equals] returns [false] and [compare] the difference of the maxima;
    [isSupersetOf], [isSubsetOf], [isDisjointWith] and [commonCharacter] never
    read [maximum] and return what they return on the ranges alone.  With
    equal [maximum], [union], [intersect] and [without] return. *)
Theorem compatibility_of_binary_operations (a b : CharSet) :
  (maximum a <> maximum b ->
     union a [OfSet b] = Err DomainMismatch
     /\ intersect a (OfSet b) = Err DomainMismatch
     /\ without a (OfSet b) = Err DomainMismatch
     /\ equals a b = false
     /\ compare a b = maximum a - maximum b)
  /\ (forall m1 m2,
        let a' := mkCharSet m1 (ranges a) in
        let b' := mkCharSet m2 (ranges b) in
        isSupersetOf a (ASet b) = isSupersetOf a' (ASet b')
        /\ isSubsetOf a (ASet b) = isSubsetOf a' (ASet b')
        /\ isDisjointWith a (ASet b) = isDisjointWith a' (ASet b')
        /\ commonCharacter a (ASet b) = commonCharacter a' (ASet b'))
  /\ (maximum a = maximum b ->
        isOk (union a [OfSet b]) = true
        /\ isOk (intersect a (OfSet b)) = true
        /\ isOk (without a (OfSet b)) = true).
Proof.
  split; [|split].
  - intros Hm. unfold union, intersect, without, asOther, checkCompatibility, equals, compare.
    assert (E1 : (maximum b =? maximum a) = false) by (apply Z.eqb_neq; congruence).
    assert (E2 : (maximum a =? maximum b) = false) by (apply Z.eqb_neq; congruence).
    rewrite E1, E2. simpl. repeat split; reflexivity.
  - intros m1 m2. simpl. repeat split; reflexivity.
  - intros Hm. unfold union, intersect, without, asOther, checkCompatibility.
    rewrite Hm, Z.eqb_refl. simpl.
    destruct (length (ranges b) =? 0)%nat;
    destruct (length (intersectRanges (ranges a) (ranges b)) =? 0)%nat;
    destruct (length (withoutRanges (ranges a) (ranges b)) =? 0)%nat;
    repeat split; reflexivity.
Qed.

(** C3 fails as stated: here the two sets have different [maximum], and the
    six operations that do not call [checkCompatibility] return a value. *)
Lemma binary_operations_without_domain_check :
  let a := all 1 in
  let b := all 2 in
  maximum a <> maximum b
  /\ isSupersetOf a (ASet b) = false
  /\ isSubsetOf a (ASet b) = true
  /\ isDisjointWith a (ASet b) = false
  /\ commonCharacter a (ASet b) = Some 0
  /\ equals a b = false
  /\ compare a b = -1.
Proof. simpl. repeat split; try reflexivity. discriminate. Qed.

(** *** The theorems at concrete sets *)

Definition digits : CharSet := mkCharSet 127 [mkRange 48 57].
Definition hexDigits : CharSet :=
  mkCharSet 127 [mkRange 48 57; mkRange 65 70; mkRange 97 102].

Lemma digits_normal : NormalForm digits.
Proof. apply NormalForm_normalFrom. simpl. lia. Qed.

Lemma hexDigits_normal : NormalForm hexDigits.
Proof. apply NormalForm_normalFrom. simpl. lia. Qed.

Lemma superset_without_union_equivalent_witness :
  exists d u,
    without digits (OfSet hexDigits) = Ok d /\ union hexDigits [OfSet digits] = Ok u
    /\ (isSupersetOf hexDigits (ASet digits) = true <-> isEmpty d = true)
    /\ (isEmpty d = true <-> equals u hexDigits = true).
Proof.
  apply (superset_without_union_equivalent hexDigits digits);
    [exact hexDigits_normal | exact digits_normal | reflexivity].
Defined.

Lemma operations_return_normal_form_witness :
  NormalForm (negate hexDigits)
  /\ NormalForm (mkCharSet 127 (unionRanges (ranges hexDigits) (ranges digits)))
  /\ NormalForm (mkCharSet 127 (intersectRanges (ranges hexDigits) (ranges digits)))
  /\ NormalForm (mkCharSet 127 (withoutRanges (ranges hexDigits) (ranges digits))).
Proof.
  destruct (operations_return_normal_form hexDigits hexDigits_normal)
    as (Hneg & Huni & Hint & Hwo).
  split; [exact Hneg|]. split; [|split].
  - apply (Huni [OfSet digits]); [| reflexivity].
    intros o [Ho | []]. injection Ho as <-. exact digits_normal.
  - apply (Hint (OfSet digits)); [| reflexivity].
    intros o Ho. injection Ho as <-. exact digits_normal.
  - apply (Hwo (OfSet digits)); [| reflexivity].
    intros o Ho. injection Ho as <-. exact digits_normal.
Defined.

Lemma operations_preserve_maximum_witness :
  maximum (negate digits) = 127
  /\ (forall r, union digits [OfRanges [mkRange 100 120; mkRange 0 50]] = Ok r ->
        maximum r = 127).
Proof.
  destruct (operations_preserve_maximum digits) as (Hneg & Huni & _).
  split; [exact Hneg | intros r; apply Huni].
Defined.

Lemma compatibility_of_binary_operations_witness :
  union (all 1) [OfSet (all 2)] = Err DomainMismatch
  /\ isOk (union digits [OfSet hexDigits]) = true.
Proof.
  split.
  - apply (compatibility_of_binary_operations (all 1) (all 2)). simpl. discriminate.
  - apply (compatibility_of_binary_operations digits hexDigits). reflexivity.
Defined.

(* ================================================================= *)
(** ** The simplifier *)

(** Induction on an AST: the hypothesis holds for every element of every
    alternative of a node. *)
Section ElementInduction.
Variable P : Element -> Prop.
Hypothesis HChar : forall characters, P (CharacterClass characters).
Hypothesis HAlt : forall alternatives,
  Forall (Forall P) alternatives -> P (Alternation alternatives).
Hypothesis HQuant : forall alternatives qmin qmax,
  Forall (Forall P) alternatives -> P (Quantifier alternatives qmin qmax).
Hypothesis HAssert : forall kind neg alternatives,
  Forall (Forall P) alternatives -> P (Assertion kind neg alternatives).

Fixpoint Element_nested_ind (e : Element) : P e :=
  let concatInd :=
    fix concatInd (c : list Element) : Forall P c :=
      match c with
      | [] => Forall_nil P
      | x :: c' => Forall_cons x (Element_nested_ind x) (concatInd c')
      end in
  let altsInd :=
    fix altsInd (a : list (list Element)) : Forall (Forall P) a :=
      match a with
      | [] => Forall_nil (Forall P)
      | c :: a' => Forall_cons c (concatInd c) (altsInd a')
      end in
  match e with
  | CharacterClass characters => HChar characters
  | Alternation alternatives => HAlt alternatives (altsInd alternatives)
  | Quantifier alternatives qmin qmax =>
      HQuant alternatives qmin qmax (altsInd alternatives)
  | Assertion kind neg alternatives =>
      HAssert kind neg alternatives (altsInd alternatives)
  end.
End ElementInduction.

(** *** A pass that reports no change has changed nothing *)

Ltac pair_inj H :=
  injection H; clear H; intros; subst.

Lemma inlineAlternativesLoop_unchanged (fuel : nat) : forall todo r,
  inlineAlternativesLoop fuel todo = (r, false) -> r = todo.
Proof.
  induction fuel as [|fuel IH]; intros todo r H; simpl in H.
  - pair_inj H. reflexivity.
  - destruct todo as [|concat rest]; [pair_inj H; reflexivity|].
    assert (Hgen : (let '(r0, inlined) := inlineAlternativesLoop fuel rest in
                    (concat :: r0, inlined)) = (r, false) -> r = concat :: rest).
    { destruct (inlineAlternativesLoop fuel rest) as [r0 o] eqn:E.
      intros H'. pair_inj H'. rewrite (IH _ _ E). reflexivity. }
    destruct concat as [|e c']; [apply Hgen, H|].
    destruct e; try (apply Hgen, H).
    destruct c'; [|apply Hgen, H].
    destruct (inlineAlternativesLoop fuel (alternatives ++ rest)). discriminate.
Qed.

Lemma inlineAlternatives_unchanged (alternatives r : list Concatenation) :
  inlineAlternatives alternatives = (r, false) -> r = alternatives.
Proof. apply inlineAlternativesLoop_unchanged. Qed.

Lemma optimizeEmptyString_unchanged (alternatives r : list Concatenation) :
  optimizeEmptyString alternatives = (r, false) -> r = alternatives.
Proof.
  unfold optimizeEmptyString.
  destruct ((2 <=? length alternatives)%nat && existsb isEmptyConcat alternatives).
  - destruct (length (filter _ alternatives) =? 0)%nat; [discriminate|].
    destruct (existsb canMatchEmptyStringConcat _); [discriminate|].
    destruct (lowerFirstQuantifier _) as [l [|]]; discriminate.
  - intros H. pair_inj H. reflexivity.
Qed.

Lemma factorOutCommonPreAndSuffix_unchanged (alternatives r : list Concatenation) :
  factorOutCommonPreAndSuffix alternatives = (r, false) -> r = alternatives.
Proof.
  unfold factorOutCommonPreAndSuffix.
  destruct alternatives as [|first [|second rest]];
    try (intros H; pair_inj H; reflexivity).
  match goal with |- context [if ?b then _ else _] => destruct b end;
    [discriminate | intros H; pair_inj H; reflexivity].
Qed.

Lemma inlineConcatLoop_unchanged (fuel : nat) : forall todo r,
  inlineConcatLoop fuel todo = (r, false) -> r = todo.
Proof.
  induction fuel as [|fuel IH]; intros todo r H; simpl in H.
  - pair_inj H. reflexivity.
  - destruct todo as [|e0 rest]; [pair_inj H; reflexivity|].
    assert (Hkeep : forall e o1,
              (let '(r0, inlined) := inlineConcatLoop fuel rest in
               (e :: r0, o1 || inlined)) = (r, false) -> o1 = false /\ r = e :: rest).
    { intros e o1. destruct (inlineConcatLoop fuel rest) as [r0 o] eqn:E.
      intros H'. injection H' as <- Ho. apply orb_false_iff in Ho.
      destruct Ho as [-> ->]. rewrite (IH _ _ E). split; reflexivity. }
    assert (Hsplice : forall single,
              (let '(r0, _) := inlineConcatLoop fuel (single ++ rest) in
               (r0, true)) = (r, false) -> r = e0 :: rest).
    { intros single. destruct (inlineConcatLoop fuel (single ++ rest)). discriminate. }
    destruct e0 as [cs | alts | alts qmin qmax | k n alts].
    + apply (Hkeep _ _ H).
    + destruct alts as [|single [|second alts']];
        try (apply (Hkeep _ _ H)). apply (Hsplice _ H).
    + destruct (inlineableQuantifier alts qmin qmax).
      * destruct alts as [|single [|second alts']];
          try (destruct (Hkeep _ _ H); discriminate). apply (Hsplice _ H).
      * apply (Hkeep _ _ H).
    + apply (Hkeep _ _ H).
Qed.

Lemma inlineConcat_unchanged (concat r : Concatenation) :
  inlineConcat concat = (r, false) -> r = concat.
Proof. apply inlineConcatLoop_unchanged. Qed.

Lemma filterMutLoop_unchanged {T : Type} (step : T -> option T -> option T)
  (todo : list T) : forall keptRev changed r,
  filterMutLoop step keptRev todo changed = (r, false) ->
  changed = false /\ r = rev keptRev ++ todo.
Proof.
  induction todo as [|element todo IH]; intros keptRev changed r H; simpl in H.
  - pair_inj H. rewrite app_nil_r. split; reflexivity.
  - destruct (step element (hd_error keptRev)) as [previous'|].
    + destruct (IH _ _ _ H) as [Hc _]. discriminate.
    + destruct (IH _ _ _ H) as [Hc ->]. split; [exact Hc|].
      simpl. rewrite <- app_assoc. reflexivity.
Qed.

Lemma filterMut_unchanged {T : Type} (step : T -> option T -> option T)
  (array r : list T) :
  filterMut step array = (r, false) -> r = array.
Proof.
  intros H. apply filterMutLoop_unchanged in H. destruct H as [_ ->]. reflexivity.
Qed.

Lemma letQuantifiersConsumeNeighbors_unchanged (elements r : list Element) :
  letQuantifiersConsumeNeighbors elements = (r, false) -> r = elements.
Proof.
  unfold letQuantifiersConsumeNeighbors.
  destruct (filterMut consumeElement elements) as [e1 o1] eqn:E1.
  destruct (filterMut consumeElement (rev e1)) as [e2 o2] eqn:E2.
  destruct (filterMut consumeQuantifier (rev e2)) as [e3 o3] eqn:E3.
  intros H. injection H as <- Ho.
  apply orb_false_iff in Ho. destruct Ho as [Ho ->].
  apply orb_false_iff in Ho. destruct Ho as [-> ->].
  apply filterMut_unchanged in E1, E2, E3. subst.
  rewrite !rev_involutive. reflexivity.
Qed.

Lemma onNodeWithAlternatives_unchanged (alternatives r : list Concatenation) :
  onNodeWithAlternatives alternatives = (r, false) -> r = alternatives.
Proof.
  unfold onNodeWithAlternatives.
  destruct (inlineAlternatives alternatives) as [a1 o1] eqn:E1.
  destruct (optimizeEmptyString a1) as [a2 o2] eqn:E2.
  destruct (factorOutCommonPreAndSuffix a2) as [a3 o3] eqn:E3.
  intros H. injection H as <- Ho.
  apply orb_false_iff in Ho. destruct Ho as [Ho ->].
  apply orb_false_iff in Ho. destruct Ho as [-> ->].
  apply inlineAlternatives_unchanged in E1.
  apply optimizeEmptyString_unchanged in E2.
  apply factorOutCommonPreAndSuffix_unchanged in E3. congruence.
Qed.

Lemma onConcatenationLeave_unchanged (elements r : Concatenation) :
  onConcatenationLeave elements = (r, false) -> r = elements.
Proof.
  unfold onConcatenationLeave.
  destruct (inlineConcat elements) as [e1 o1] eqn:E1.
  destruct (letQuantifiersConsumeNeighbors e1) as [e2 o2] eqn:E2.
  intros H. injection H as <- Ho.
  apply orb_false_iff in Ho. destruct Ho as [-> ->].
  apply inlineConcat_unchanged in E1.
  apply letQuantifiersConsumeNeighbors_unchanged in E2. congruence.
Qed.

Lemma onQuantifierLeave_unchanged (alternatives : list Concatenation) (qmin : nat)
  (qmax : Bound) (r : Element) :
  onQuantifierLeave alternatives qmin qmax = (r, false) ->
  r = Quantifier alternatives qmin qmax.
Proof.
  unfold onQuantifierLeave.
  destruct (onNodeWithAlternatives alternatives) as [a o] eqn:E.
  assert (Hplain : (Quantifier a qmin qmax, o) = (r, false) ->
                   r = Quantifier alternatives qmin qmax).
  { intros H. injection H as <- ->.
    apply onNodeWithAlternatives_unchanged in E. congruence. }
  destruct (zeroOrOne qmin); [|exact Hplain].
  destruct (getSingleQuantifier a) as [[[eAlts eMin] eMax]|]; [|exact Hplain].
  destruct (zeroOrOne eMin); [discriminate | exact Hplain].
Qed.

Lemma visitList_unchanged {A : Type} (visit : A -> A * bool) (l : list A) :
  Forall (fun x => forall x', visit x = (x', false) -> x' = x) l ->
  forall l', visitList visit l = (l', false) -> l' = l.
Proof.
  induction l as [|x l IH]; intros Hall l' H; simpl in H.
  - pair_inj H. reflexivity.
  - inversion Hall as [|? ? Hx Hl]; subst.
    destruct (visit x) as [x' o1] eqn:Ex.
    destruct (visitList visit l) as [l'' o2] eqn:El.
    injection H as <- Ho. apply orb_false_iff in Ho. destruct Ho as [-> ->].
    rewrite (Hx _ eq_refl), (IH Hl _ eq_refl). reflexivity.
Qed.

Lemma visitConcatenation_unchanged (c : Concatenation) :
  Forall (fun e => forall e', visitElement e = (e', false) -> e' = e) c ->
  forall c', visitConcatenation c = (c', false) -> c' = c.
Proof.
  intros Hall c' H. unfold visitConcatenation in H.
  destruct (visitList visitElement c) as [c1 o1] eqn:E1.
  destruct (onConcatenationLeave c1) as [c2 o2] eqn:E2.
  injection H as <- Ho. apply orb_false_iff in Ho. destruct Ho as [-> ->].
  apply (visitList_unchanged visitElement c Hall) in E1.
  apply onConcatenationLeave_unchanged in E2. congruence.
Qed.

Lemma visitAlternatives_unchanged (alternatives : list Concatenation) :
  Forall (Forall (fun e => forall e', visitElement e = (e', false) -> e' = e))
    alternatives ->
  forall a', visitList visitConcatenation alternatives = (a', false) ->
  a' = alternatives.
Proof.
  intros Hall. apply visitList_unchanged.
  apply Forall_impl with (2 := Hall).
  intros c Hc. apply visitConcatenation_unchanged, Hc.
Qed.

Lemma visitElement_eq (e : Element) :
  visitElement e =
  match e with
  | CharacterClass _ => (e, false)
  | Alternation alternatives =>
      let '(a1, o1) := visitList visitConcatenation alternatives in
      let '(a2, o2) := onNodeWithAlternatives a1 in
      (Alternation a2, o1 || o2)
  | Assertion kind neg alternatives =>
      let '(a1, o1) := visitList visitConcatenation alternatives in
      let '(a2, o2) := onNodeWithAlternatives a1 in
      (Assertion kind neg a2, o1 || o2)
  | Quantifier alternatives qmin qmax =>
      let '(a1, o1) := visitList visitConcatenation alternatives in
      let '(q, o2) := onQuantifierLeave a1 qmin qmax in
      (q, o1 || o2)
  end.
Proof. destruct e; reflexivity. Qed.

Lemma visitElement_unchanged (e : Element) :
  forall e', visitElement e = (e', false) -> e' = e.
Proof.
  induction e as [cs | alts IH | alts qmin qmax IH | k n alts IH]
    using Element_nested_ind; intros e' H; rewrite visitElement_eq in H.
  - pair_inj H. reflexivity.
  - destruct (visitList visitConcatenation alts) as [a1 o1] eqn:E1.
    destruct (onNodeWithAlternatives a1) as [a2 o2] eqn:E2.
    injection H as <- Ho. apply orb_false_iff in Ho. destruct Ho as [-> ->].
    apply (visitAlternatives_unchanged alts IH) in E1.
    apply onNodeWithAlternatives_unchanged in E2. congruence.
  - destruct (visitList visitConcatenation alts) as [a1 o1] eqn:E1.
    destruct (onQuantifierLeave a1 qmin qmax) as [q o2] eqn:E2.
    injection H as <- Ho. apply orb_false_iff in Ho. destruct Ho as [-> ->].
    apply (visitAlternatives_unchanged alts IH) in E1.
    apply onQuantifierLeave_unchanged in E2. congruence.
  - destruct (visitList visitConcatenation alts) as [a1 o1] eqn:E1.
    destruct (onNodeWithAlternatives a1) as [a2 o2] eqn:E2.
    injection H as <- Ho. apply orb_false_iff in Ho. destruct Ho as [-> ->].
    apply (visitAlternatives_unchanged alts IH) in E1.
    apply onNodeWithAlternatives_unchanged in E2. congruence.
Qed.

Lemma optimize_unchanged (expr expr' : Expression) :
  optimize expr = (expr', false) -> expr' = expr.
Proof.
  destruct expr as [alts]. unfold optimize. simpl.
  destruct (visitList visitConcatenation alts) as [a1 o1] eqn:E1.
  destruct (onNodeWithAlternatives a1) as [a2 o2] eqn:E2.
  intros H. injection H as <- Ho. apply orb_false_iff in Ho. destruct Ho as [-> ->].
  apply visitAlternatives_unchanged in E1.
  - apply onNodeWithAlternatives_unchanged in E2. congruence.
  - apply Forall_forall. intros c _. apply Forall_forall. intros e _.
    apply visitElement_unchanged.
Qed.

(** C7, second half: when a pass returns [false] the expression is
    structurally unchanged, and one further pass returns [false] again and
    leaves it unchanged. *)
Theorem optimize_fixed_point (expr expr' : Expression) :
  optimize expr = (expr', false) ->
  expr' = expr /\ optimize expr' = (expr', false).
Proof.
  intros H. pose proof (optimize_unchanged expr expr' H) as ->.
  split; [reflexivity | exact H].
Qed.

Definition letter (c : Z) : Element :=
  CharacterClass (mkCharSet 65535 [mkRange c c]).

(** The expression [(?:|a|b)] and the expression [(?:ab|ac)]. *)
Definition emptyOrAOrB : Expression :=
  mkExpression [[]; [letter 97]; [letter 98]].
Definition abOrAc : Expression :=
  mkExpression [[letter 97; letter 98]; [letter 97; letter 99]].

(** C7, first half, fails: one pass turns [(?:|a|b)] (6 nodes) into
    [(?:a|b)?] (7 nodes), and [ab|ac] (7 nodes) into [a(?:b|c)] (8 nodes). *)
Lemma optimize_can_grow_node_count :
  optimize emptyOrAOrB
  = (mkExpression [[Quantifier [[letter 97]; [letter 98]] 0 (Fin 1)]], true)
  /\ (nodeCountExpr emptyOrAOrB < nodeCountExpr (fst (optimize emptyOrAOrB)))%nat
  /\ optimize abOrAc
     = (mkExpression [[letter 97; Alternation [[letter 98]; [letter 99]]]], true)
  /\ (nodeCountExpr abOrAc < nodeCountExpr (fst (optimize abOrAc)))%nat.
Proof. vm_compute. repeat split; apply Nat.lt_succ_diag_r. Qed.

Lemma optimize_fixed_point_witness :
  let expr := mkExpression [[letter 97; Alternation [[letter 98]; [letter 99]]]] in
  expr = expr /\ optimize expr = (expr, false).
Proof. apply optimize_fixed_point. reflexivity. Defined.

(* ================================================================= *)
(** ** The factory and its counter *)

(** What a computation returns and how many nodes the factory counts for
    it, when it does not throw. *)
Fixpoint outcome {A : Type} (m : TC A) : option (A * Z) :=
  match m with
  | Ret a => Some (a, 0)
  | Tick k =>
      match outcome k with
      | Some (a, n) => Some (a, n + 1)
      | None => None
      end
  | Throw _ => None
  end.

Lemma outcome_nonneg {A : Type} (m : TC A) : forall a n,
  outcome m = Some (a, n) -> 0 <= n.
Proof.
  induction m as [a' | k IH | e]; simpl; intros a n H.
  - injection H as _ <-. lia.
  - destruct (outcome k) as [[a1 n1]|]; [|discriminate].
    injection H as _ <-. pose proof (IH _ _ eq_refl). lia.
  - discriminate.
Qed.

Lemma outcome_bind {A B : Type} (m : TC A) (f : A -> TC B) :
  outcome (tbind m f)
  = match outcome m with
    | Some (a, n) =>
        match outcome (f a) with
        | Some (b, n') => Some (b, n + n')
        | None => None
        end
    | None => None
    end.
Proof.
  induction m as [a | k IH | e]; simpl.
  - destruct (outcome (f a)) as [[b n']|]; reflexivity.
  - rewrite IH. destruct (outcome k) as [[a n]|]; [|reflexivity].
    destruct (outcome (f a)) as [[b n']|]; [|reflexivity].
    f_equal. f_equal. lia.
  - reflexivity.
Qed.

(** A run that returns is the outcome, with every count within the ceiling. *)
Lemma run_Ok {A : Type} (max : Z) (m : TC A) : forall c a c',
  run max m c = Ok (a, c') ->
  exists n, outcome m = Some (a, n) /\ c' = c + n /\ (n = 0 \/ c' <= max).
Proof.
  induction m as [a' | k IH | e]; simpl; intros c a c' H.
  - injection H as <- <-. exists 0. split; [reflexivity | lia].
  - destruct (c + 1 >? max) eqn:E; [discriminate|]. zcmp.
    destruct (IH _ _ _ H) as (n & Ho & -> & Hb). rewrite Ho.
    exists (n + 1). split; [reflexivity|]. pose proof (outcome_nonneg k _ _ Ho). lia.
  - discriminate.
Qed.

Lemma run_of_outcome {A : Type} (max : Z) (m : TC A) : forall c a n,
  outcome m = Some (a, n) ->
  run max m c = if c + n <=? max then Ok (a, c + n)
                else if n =? 0 then Ok (a, c) else Err TooManyNodes.
Proof.
  induction m as [a' | k IH | e]; simpl; intros c a n H.
  - injection H as <- <-. rewrite Z.add_0_r. destruct (c <=? max); reflexivity.
  - destruct (outcome k) as [[a1 n1]|] eqn:Ho; [|discriminate].
    injection H as <- <-. pose proof (outcome_nonneg k _ _ Ho) as Hn.
    destruct (c + 1 >? max) eqn:E; zcmp.
    + destruct (c + (n1 + 1) <=? max) eqn:E1; zcmp; [lia|].
      destruct (n1 + 1 =? 0) eqn:E2; zcmp; [lia | reflexivity].
    + rewrite (IH (c + 1) a1 n1 eq_refl).
      replace (c + 1 + n1) with (c + (n1 + 1)) by lia.
      destruct (c + (n1 + 1) <=? max) eqn:E1; [reflexivity|]. zcmp.
      destruct (n1 =? 0) eqn:E2; zcmp; [lia|].
      destruct (n1 + 1 =? 0) eqn:E3; zcmp; [lia | reflexivity].
  - discriminate.
Qed.

Lemma run_throw {A : Type} (max : Z) (m : TC A) : forall c,
  outcome m = None -> exists e, run max m c = Err e.
Proof.
  induction m as [a' | k IH | e]; simpl; intros c H.
  - discriminate.
  - destruct (outcome k) as [[a1 n1]|] eqn:Ho; [discriminate|].
    destruct (c + 1 >? max); [exists TooManyNodes; reflexivity | apply IH; reflexivity].
  - exists e. reflexivity.
Qed.

(** Every method of the factory counts one node. *)
Lemma factory_methods_count_one :
  (forall es, outcome (tc.concat es) = Some (es, 1))
  /\ outcome tc.emptyConcat = Some ([], 1)
  /\ (forall alts, outcome (tc.alter alts) = Some (Alternation alts, 1))
  /\ outcome tc.emptyAlter = Some (Alternation [], 1)
  /\ (forall alts, outcome (tc.expression alts) = Some (mkExpression alts, 1))
  /\ outcome tc.emptyExpression = Some (mkExpression [], 1)
  /\ (forall cs, outcome (tc.char cs) = Some (CharacterClass cs, 1))
  /\ (forall alts qmin qmax,
        outcome (tc.quant alts qmin qmax) = Some (Quantifier alts qmin qmax, 1))
  /\ (forall alts, outcome (tc.quantStar alts) = Some (Quantifier alts 0 Infinity, 1))
  /\ (forall alts, outcome (tc.quantPlus alts) = Some (Quantifier alts 1 Infinity, 1)).
Proof. repeat split. Qed.

(** *** [copy] counts every node of the copy *)

Fixpoint assertionFree (e : Element) : bool :=
  match e with
  | CharacterClass _ => true
  | Alternation alts | Quantifier alts _ _ => forallb (forallb assertionFree) alts
  | Assertion _ _ _ => false
  end.

Definition assertionFreeT (t : Transition) : bool :=
  match t with
  | TConcat c => forallb assertionFree c
  | TElem e => assertionFree e
  end.

Lemma mapM_outcome {A : Type} (f : A -> TC A) (size : A -> nat) (l : list A) :
  Forall (fun x => outcome (f x) = Some (x, Z.of_nat (size x))) l ->
  outcome (tc.mapM f l) = Some (l, Z.of_nat (list_sum (map size l))).
Proof.
  induction l as [|x l IH]; intros Hall; simpl; [reflexivity|].
  inversion Hall as [|? ? Hx Hl]; subst.
  rewrite outcome_bind, Hx, outcome_bind, (IH Hl). simpl.
  f_equal. f_equal. lia.
Qed.

Lemma copyConcat_outcome (c : Concatenation) :
  Forall (fun e => outcome (tc.copyElement e) = Some (e, Z.of_nat (nodeCount e))) c ->
  outcome (tc.copyConcat c) = Some (c, Z.of_nat (nodeCountConcat c)).
Proof.
  intros Hall. unfold tc.copyConcat.
  rewrite outcome_bind, (mapM_outcome tc.copyElement nodeCount c Hall). simpl.
  unfold nodeCountConcat. f_equal. f_equal. lia.
Qed.

Lemma copyAlternatives_outcome (alts : list Concatenation) :
  Forall (Forall (fun e =>
            assertionFree e = true ->
            outcome (tc.copyElement e) = Some (e, Z.of_nat (nodeCount e)))) alts ->
  forallb (forallb assertionFree) alts = true ->
  outcome (tc.mapM (fun a => tbind (tc.mapM tc.copyElement a) tc.concat) alts)
  = Some (alts, Z.of_nat (nodeCountAlternatives alts)).
Proof.
  intros IH Hfree.
  apply (mapM_outcome (fun a => tbind (tc.mapM tc.copyElement a) tc.concat)
                      nodeCountConcat alts).
  rewrite forallb_forall in Hfree. rewrite Forall_forall in IH |- *.
  intros c Hc. apply copyConcat_outcome.
  pose proof (Hfree c Hc) as Hfc. rewrite forallb_forall in Hfc.
  pose proof (IH c Hc) as IHc. rewrite Forall_forall in IHc |- *.
  intros e He. apply (IHc e He), (Hfc e He).
Qed.

Lemma copyElement_outcome (e : Element) :
  assertionFree e = true ->
  outcome (tc.copyElement e) = Some (e, Z.of_nat (nodeCount e)).
Proof.
  induction e as [cs | alts IH | alts qmin qmax IH | k n alts IH]
    using Element_nested_ind; intros Hfree; simpl in Hfree.
  - reflexivity.
  - change (tc.copyElement (Alternation alts))
      with (tbind (tc.mapM (fun a => tbind (tc.mapM tc.copyElement a) tc.concat) alts)
                  tc.alter).
    rewrite outcome_bind, (copyAlternatives_outcome alts IH Hfree).
    change (nodeCount (Alternation alts)) with (S (nodeCountAlternatives alts)).
    rewrite Nat2Z.inj_succ. reflexivity.
  - change (tc.copyElement (Quantifier alts qmin qmax))
      with (tbind (tc.mapM (fun a => tbind (tc.mapM tc.copyElement a) tc.concat) alts)
                  (fun a' => tc.quant a' qmin qmax)).
    rewrite outcome_bind, (copyAlternatives_outcome alts IH Hfree).
    change (nodeCount (Quantifier alts qmin qmax)) with (S (nodeCountAlternatives alts)).
    rewrite Nat2Z.inj_succ. reflexivity.
  - discriminate.
Qed.

Lemma copy_outcome (t : Transition) :
  assertionFreeT t = true ->
  outcome (tc.copy t) = Some (t, Z.of_nat (nodeCountT t)).
Proof.
  destruct t as [c | e]; simpl; intros Hfree.
  - rewrite outcome_bind, copyConcat_outcome; [simpl; f_equal; f_equal; lia|].
    rewrite forallb_forall in Hfree. apply Forall_forall.
    intros e He. apply copyElement_outcome, Hfree, He.
  - rewrite outcome_bind, (copyElement_outcome e Hfree). simpl.
    f_equal. f_equal. lia.
Qed.

(** *** The conversion stays within the ceiling *)

Definition ceiling (options : ToRegexOptions) : Z :=
  match maximumNodes options with Some n => n | None => 10000 end.

Lemma stateElimination_first_tick (fuel : nat) (iter : FAIterator) :
  exists k, stateElimination fuel iter = Tick k.
Proof. eexists. reflexivity. Qed.

(** What a method of the factory does with the counter at [c]:
    [_incrementCounter], then the node. *)
Definition countedNode {A : Type} (max c : Z) (node : A) : Result (A * Z) :=
  if c + 1 >? max then Err TooManyNodes else Ok (node, c + 1).

(** C8, as the code has it: each of the ten methods of the factory counts
    one node, and [copy] one for every node of the copy; a count above the
    ceiling is [TooManyNodes] at once; the counter of a conversion that
    returns is the number of nodes that state elimination has made through
    the factory, at least one and at most [maximumNodes] (default 10000);
    and a state elimination that makes more is [TooManyNodes].  The nodes
    that [factorOutCommonPreAndSuffix], [inlineConcat] and
    [optimizeEmptyString] write as object literals are not counted. *)
Theorem factory_respects_ceiling :
  (forall (max c : Z),
      (forall es, run max (tc.concat es) c = countedNode max c es)
      /\ run max tc.emptyConcat c = countedNode max c []
      /\ (forall alts, run max (tc.alter alts) c = countedNode max c (Alternation alts))
      /\ run max tc.emptyAlter c = countedNode max c (Alternation [])
      /\ (forall alts,
            run max (tc.expression alts) c = countedNode max c (mkExpression alts))
      /\ run max tc.emptyExpression c = countedNode max c (mkExpression [])
      /\ (forall cs, run max (tc.char cs) c = countedNode max c (CharacterClass cs))
      /\ (forall alts qmin qmax,
            run max (tc.quant alts qmin qmax) c
            = countedNode max c (Quantifier alts qmin qmax))
      /\ (forall alts,
            run max (tc.quantStar alts) c = countedNode max c (Quantifier alts 0 Infinity))
      /\ (forall alts,
            run max (tc.quantPlus alts) c = countedNode max c (Quantifier alts 1 Infinity)))
  /\ (forall (max c : Z) (t : Transition),
        assertionFreeT t = true ->
        run max (tc.copy t) c
        = if c + Z.of_nat (nodeCountT t) <=? max
          then Ok (t, c + Z.of_nat (nodeCountT t))
          else Err TooManyNodes)
  /\ (forall fuel iter options expression counter,
        faToRegexCounting fuel iter options = Ok (expression, counter) ->
        (exists eliminated,
           outcome (stateElimination fuel iter) = Some (eliminated, counter))
        /\ 1 <= counter <= ceiling options)
  /\ (forall fuel iter options eliminated n,
        outcome (stateElimination fuel iter) = Some (eliminated, n) ->
        ceiling options < n ->
        faToRegexCounting fuel iter options = Err TooManyNodes).
Proof.
  split; [|split; [|split]].
  - intros max c. repeat split.
  - intros max c t Hfree. rewrite (run_of_outcome max _ c _ _ (copy_outcome t Hfree)).
    destruct (c + Z.of_nat (nodeCountT t) <=? max); [reflexivity|].
    assert (Hpos : (0 < nodeCountT t)%nat).
    { destruct t as [c0 | e]; simpl; [unfold nodeCountConcat; lia|].
      destruct e; simpl; lia. }
    destruct (Z.of_nat (nodeCountT t) =? 0) eqn:E; zcmp; [lia | reflexivity].
  - intros fuel iter options expression counter H.
    unfold faToRegexCounting in H. fold (ceiling options) in H.
    destruct (run (ceiling options) (stateElimination fuel iter) 0)
      as [[e0 c0]|err] eqn:Erun; [|discriminate].
    simpl in H.
    destruct (optimizeLoop fuel (maximumOptimizationPasses options) e0); [|discriminate].
    injection H as _ <-.
    destruct (run_Ok _ _ _ _ _ Erun) as (n0 & Ho0 & Ec0 & _).
    split; [exists e0; rewrite Ho0, Ec0; reflexivity|].
    destruct (stateElimination_first_tick fuel iter) as [k Hk].
    rewrite Hk in Erun. simpl in Erun.
    destruct (1 >? ceiling options) eqn:E; [discriminate|]. zcmp.
    destruct (run_Ok _ _ _ _ _ Erun) as (n & Ho & -> & Hb).
    pose proof (outcome_nonneg _ _ _ Ho). lia.
  - intros fuel iter options eliminated n Ho Hn.
    unfold faToRegexCounting. fold (ceiling options).
    rewrite (run_of_outcome (ceiling options) _ 0 _ _ Ho).
    destruct (0 + n <=? ceiling options) eqn:E1; zcmp; [lia|].
    destruct (n =? 0) eqn:E2; zcmp; [|reflexivity].
    destruct (stateElimination_first_tick fuel iter) as [k Hk].
    rewrite Hk in Ho. simpl in Ho.
    destruct (outcome k) as [[a1 n1]|] eqn:Hok; [|discriminate].
    injection Ho as _ Hn1. pose proof (outcome_nonneg k _ _ Hok). lia.
Qed.

(** Modelled as a table: the automaton with the given start state, for
    every state its outgoing transitions, and its final states. *)
Definition tableFA (start : nat) (table : list (nat * list (nat * CharSet)))
  (finalStates : list nat) : FAIterator :=
  mkFAIterator start
    (fun n =>
       match find (fun row => (fst row =? n)%nat) table with
       | Some row => snd row
       | None => []
       end)
    (fun n => existsb (Nat.eqb n) finalStates).

Definition letterSet (c : Z) : CharSet := mkCharSet 65535 [mkRange c c].

(** [0 -a-> 1 -b-> 3], [0 -a-> 2 -c-> 3], [3] final: the language [ab|ac]. *)
Definition abOrAcFA : FAIterator :=
  tableFA 0
    [(0%nat, [(1%nat, letterSet 97); (2%nat, letterSet 97)]);
     (1%nat, [(3%nat, letterSet 98)]);
     (2%nat, [(3%nat, letterSet 99)])]
    [3%nat].

(** The copy of a tree of two nodes takes the counter from 1 to 3, and the
    conversion of [ab|ac], which makes ten nodes through the factory, is
    [TooManyNodes] under a ceiling of nine. *)
Lemma factory_respects_ceiling_witness :
  run 3 (tc.copy (TConcat [CharacterClass (all 127)])) 1
  = Ok (TConcat [CharacterClass (all 127)], 3)
  /\ faToRegexCounting 20 abOrAcFA (mkOptions (Some 9) None) = Err TooManyNodes.
Proof.
  split.
  - apply (proj1 (proj2 factory_respects_ceiling) 3 1
             (TConcat [CharacterClass (all 127)])).
    reflexivity.
  - apply (proj2 (proj2 (proj2 factory_respects_ceiling)) 20%nat abOrAcFA
             (mkOptions (Some 9) None) abOrAc 10).
    + vm_compute. reflexivity.
    + unfold ceiling. simpl. lia.
Defined.

(** C8 fails as stated: with [maximumNodes = 10] the conversion of [ab|ac]
    returns.  State elimination ends with the counter at the ceiling and the
    tree [ab|ac] of 7 nodes; the simplifier, which has no access to the
    factory, returns [a(?:b|c)] of 8 nodes: its [Concatenation] and its
    [Alternation] are the object literals of [factorOutCommonPreAndSuffix].
    So the conversion has constructed more than 10 nodes. *)
Lemma optimizer_builds_uncounted_nodes :
  run 10 (stateElimination 20 abOrAcFA) 0 = Ok (abOrAc, 10)
  /\ faToRegexCounting 20 abOrAcFA (mkOptions (Some 10) None)
     = Ok (mkExpression [[letter 97; Alternation [[letter 98]; [letter 99]]]], 10)
  /\ nodeCountExpr abOrAc = 7%nat
  /\ nodeCountExpr (mkExpression [[letter 97; Alternation [[letter 98]; [letter 99]]]])
     = 8%nat.
Proof. vm_compute. repeat split. Qed.

(* ================================================================= *)
(** ** The order of the outgoing transitions *)

Lemma compareOut_empty_nonempty (a b : CharSet) :
  isEmpty a = true -> isEmpty b = false -> 0 < compareOut a b.
Proof. unfold compareOut. intros -> ->. simpl. lia. Qed.

Lemma compareOut_nonempty_empty (a b : CharSet) :
  isEmpty a = false -> isEmpty b = true -> compareOut a b < 0.
Proof. unfold compareOut. intros -> ->. simpl. lia. Qed.

(** After a transition with an empty set only such transitions follow. *)
Fixpoint emptyLast (l : list (nat * CharSet)) : Prop :=
  match l with
  | [] => True
  | e :: l' =>
      (isEmpty (snd e) = true -> Forall (fun e' => isEmpty (snd e') = true) l')
      /\ emptyLast l'
  end.

Lemma insertSorted_Forall {A : Type} (cmp : A -> A -> Z) (P : A -> Prop) (x : A)
  (l : list A) :
  P x -> Forall P l -> Forall P (insertSorted cmp x l).
Proof.
  intros Hx Hl. induction Hl as [|y l Hy Hl IH]; simpl.
  - constructor; [exact Hx | constructor].
  - destruct (cmp x y <? 0); repeat constructor; assumption.
Qed.

Lemma insertSorted_emptyLast (x : nat * CharSet) (l : list (nat * CharSet)) :
  emptyLast l ->
  emptyLast (insertSorted (fun x y => compareOut (snd x) (snd y)) x l).
Proof.
  induction l as [|y l IH]; intros Hl; simpl.
  - split; [intros _; constructor | exact I].
  - destruct Hl as [Hy Hl].
    destruct (compareOut (snd x) (snd y) <? 0) eqn:E; zcmp; simpl.
    + split; [| split; assumption].
      intros Hx. destruct (isEmpty (snd y)) eqn:Ey.
      * constructor; [exact Ey | apply Hy; reflexivity].
      * pose proof (compareOut_empty_nonempty _ _ Hx Ey). lia.
    + split; [| apply IH, Hl].
      intros HyE. apply insertSorted_Forall; [| apply Hy, HyE].
      destruct (isEmpty (snd x)) eqn:Ex; [reflexivity|].
      pose proof (compareOut_nonempty_empty _ _ Ex HyE). lia.
Qed.

Lemma sortOut_emptyLast (outEdges : list (nat * CharSet)) : emptyLast (sortOut outEdges).
Proof.
  unfold sortOut, sortStable.
  assert (G : forall acc, emptyLast acc ->
            emptyLast (fold_left
              (fun sorted x =>
                 insertSorted (fun x y => compareOut (snd x) (snd y)) x sorted)
              outEdges acc)).
  { induction outEdges as [|x l IH]; intros acc Hacc; simpl; [exact Hacc|].
    apply IH, insertSorted_emptyLast, Hacc. }
  apply G. exact I.
Qed.

Lemma emptyLast_nth (l : list (nat * CharSet)) : forall i j ei ej,
  emptyLast l -> (i < j)%nat ->
  nth_error l i = Some ei -> nth_error l j = Some ej ->
  isEmpty (snd ei) = true -> isEmpty (snd ej) = true.
Proof.
  induction l as [|e l IH]; intros i j ei ej Hl Hij Hi Hj Hei.
  - destruct i; discriminate.
  - destruct Hl as [He Hl]. destruct j as [|j]; [lia|]. simpl in Hj.
    destruct i as [|i]; simpl in Hi.
    + injection Hi as <-. pose proof (He Hei) as Hall.
      rewrite Forall_forall in Hall. apply Hall, (nth_error_In _ _ Hj).
    + apply (IH i j ei ej Hl); [lia | assumption | assumption | assumption].
Qed.

(** C6, as the code has it: the outgoing transitions of a visited state are
    linked in the order of [sortOut], in which every transition with a
    non-empty [CharSet] comes before every transition with an empty one. *)
Theorem nonempty_transitions_are_emitted_first (iter : FAIterator) (n : nat)
  (st : Build) :
  (exists st1,
     visitState iter n st
     = tbind (foldM (linkOut n) (sortOut (getOut iter n)) st1)
             (fun st2 => Ret (map fst (sortOut (getOut iter n)), st2)))
  /\ forall i j ei ej, (i < j)%nat ->
       nth_error (sortOut (getOut iter n)) i = Some ei ->
       nth_error (sortOut (getOut iter n)) j = Some ej ->
       isEmpty (snd ei) = true -> isEmpty (snd ej) = true.
Proof.
  split.
  - unfold visitState. eexists. reflexivity.
  - intros i j ei ej. apply emptyLast_nth, sortOut_emptyLast.
Qed.

(** C6 fails as stated: the transition with the empty set is given first
    and emitted last. *)
Lemma empty_transition_is_emitted_last :
  sortOut [(1%nat, empty 65535); (2%nat, letterSet 97)]
  = [(2%nat, letterSet 97); (1%nat, empty 65535)].
Proof. reflexivity. Qed.

Lemma nonempty_transitions_are_emitted_first_witness :
  isEmpty (snd (3%nat, empty 65535)) = true.
Proof.
  pose (iter := tableFA 0 [(0%nat, [(1%nat, empty 65535); (2%nat, letterSet 97);
                                    (3%nat, empty 65535)])] []).
  apply (proj2 (nonempty_transitions_are_emitted_first iter 0 (mkBuild newNodeList []))
           1%nat 2%nat (1%nat, empty 65535) (3%nat, empty 65535));
    [lia | reflexivity | reflexivity | reflexivity].
Defined.

(* ================================================================= *)
(** ** The algebra of languages *)

#[export] Instance langSame_Equivalence : Equivalence langSame.
Proof.
  split.
  - intros L w. reflexivity.
  - intros L1 L2 H w. symmetry. apply H.
  - intros L1 L2 L3 H1 H2 w. rewrite (H1 w). apply H2.
Qed.

#[export] Instance langOr_Proper : Proper (langSame ==> langSame ==> langSame) langOr.
Proof. intros L1 L1' H1 L2 L2' H2 w. unfold langOr. rewrite (H1 w), (H2 w). reflexivity. Qed.

#[export] Instance langCat_Proper : Proper (langSame ==> langSame ==> langSame) langCat.
Proof.
  intros L1 L1' H1 L2 L2' H2 w. unfold langCat.
  split; intros (w1 & w2 & Hw & Hw1 & Hw2); exists w1, w2;
    (split; [exact Hw | split; [apply H1, Hw1 | apply H2, Hw2]]).
Qed.

#[export] Instance langPow_Proper : Proper (langSame ==> eq ==> langSame) langPow.
Proof.
  intros L L' H n n' <-. induction n as [|n IH]; simpl.
  - reflexivity.
  - apply langCat_Proper; [exact H | exact IH].
Qed.

#[export] Instance langQuant_Proper :
  Proper (langSame ==> eq ==> eq ==> langSame) langQuant.
Proof.
  intros L L' H qmin ? <- qmax ? <- w. unfold langQuant.
  split; intros (n & H1 & H2 & H3); exists n; (split; [exact H1 | split; [exact H2|]]);
    apply (langPow_Proper L L' H n n eq_refl w); exact H3.
Qed.

Lemma langCat_assoc (L1 L2 L3 : Lang) :
  langSame (langCat (langCat L1 L2) L3) (langCat L1 (langCat L2 L3)).
Proof.
  intros w. split.
  - intros (w12 & w3 & -> & (w1 & w2 & -> & H1 & H2) & H3).
    exists w1, (w2 ++ w3). rewrite app_assoc. split; [reflexivity|].
    split; [exact H1 | exists w2, w3; auto].
  - intros (w1 & w23 & -> & H1 & (w2 & w3 & -> & H2 & H3)).
    exists (w1 ++ w2), w3. rewrite app_assoc. split; [reflexivity|].
    split; [exists w1, w2; auto | exact H3].
Qed.

Lemma langCat_unit_l (L : Lang) : langSame (langCat langUnit L) L.
Proof.
  intros w. split.
  - intros (w1 & w2 & -> & -> & H). exact H.
  - intros H. exists [], w. split; [reflexivity | split; [reflexivity | exact H]].
Qed.

Lemma langCat_unit_r (L : Lang) : langSame (langCat L langUnit) L.
Proof.
  intros w. split.
  - intros (w1 & w2 & -> & H & ->). rewrite app_nil_r. exact H.
  - intros H. exists w, []. rewrite app_nil_r.
    split; [reflexivity | split; [exact H | reflexivity]].
Qed.

Lemma langCat_empty_l (L : Lang) : langSame (langCat langEmpty L) langEmpty.
Proof. intros w. split; [intros (w1 & w2 & _ & [] & _) | intros []]. Qed.

Lemma langCat_empty_r (L : Lang) : langSame (langCat L langEmpty) langEmpty.
Proof. intros w. split; [intros (w1 & w2 & _ & _ & []) | intros []]. Qed.

Lemma langOr_empty_l (L : Lang) : langSame (langOr langEmpty L) L.
Proof. intros w. unfold langOr, langEmpty. tauto. Qed.

Lemma langOr_empty_r (L : Lang) : langSame (langOr L langEmpty) L.
Proof. intros w. unfold langOr, langEmpty. tauto. Qed.

Lemma langOr_comm (L1 L2 : Lang) : langSame (langOr L1 L2) (langOr L2 L1).
Proof. intros w. unfold langOr. tauto. Qed.

Lemma langOr_assoc (L1 L2 L3 : Lang) :
  langSame (langOr (langOr L1 L2) L3) (langOr L1 (langOr L2 L3)).
Proof. intros w. unfold langOr. tauto. Qed.

Lemma langOr_idem (L : Lang) : langSame (langOr L L) L.
Proof. intros w. unfold langOr. tauto. Qed.

Lemma langCat_or_l (L1 L2 L3 : Lang) :
  langSame (langCat (langOr L1 L2) L3) (langOr (langCat L1 L3) (langCat L2 L3)).
Proof.
  intros w. unfold langCat, langOr. split.
  - intros (w1 & w2 & Hw & [H | H] & H3); [left | right]; exists w1, w2; auto.
  - intros [(w1 & w2 & Hw & H & H3) | (w1 & w2 & Hw & H & H3)]; exists w1, w2; auto.
Qed.

Lemma langCat_or_r (L1 L2 L3 : Lang) :
  langSame (langCat L1 (langOr L2 L3)) (langOr (langCat L1 L2) (langCat L1 L3)).
Proof.
  intros w. unfold langCat, langOr. split.
  - intros (w1 & w2 & Hw & H1 & [H | H]); [left | right]; exists w1, w2; auto.
  - intros [(w1 & w2 & Hw & H1 & H) | (w1 & w2 & Hw & H1 & H)]; exists w1, w2; auto.
Qed.

(** *** Powers and quantifiers *)

Lemma langPow_add (L : Lang) (n m : nat) :
  langSame (langPow L (n + m)) (langCat (langPow L n) (langPow L m)).
Proof.
  induction n as [|n IH]; simpl.
  - rewrite langCat_unit_l. reflexivity.
  - rewrite IH, langCat_assoc. reflexivity.
Qed.

Lemma langPow_one (L : Lang) : langSame (langPow L 1) L.
Proof. simpl. apply langCat_unit_r. Qed.

Lemma langPow_unit (n : nat) : langSame (langPow langUnit n) langUnit.
Proof.
  induction n as [|n IH]; simpl; [reflexivity|].
  rewrite IH. apply langCat_unit_l.
Qed.

Lemma langPow_snoc (L : Lang) (n : nat) :
  langSame (langPow L (S n)) (langCat (langPow L n) L).
Proof.
  replace (S n) with (n + 1)%nat by lia.
  rewrite langPow_add, langPow_one. reflexivity.
Qed.

Lemma langStar_unfold (L : Lang) (w : Word) :
  langStar L w <-> exists n, langPow L n w.
Proof.
  unfold langStar, langQuant. split.
  - intros (n & _ & _ & H). exists n. exact H.
  - intros (n & H). exists n. split; [lia | split; [exact I | exact H]].
Qed.

Lemma langStar_nil (L : Lang) : langStar L [].
Proof. apply langStar_unfold. exists 0%nat. reflexivity. Qed.

Lemma langStar_cons (L : Lang) (w1 w2 : Word) :
  L w1 -> langStar L w2 -> langStar L (w1 ++ w2).
Proof.
  intros H1 H2. apply langStar_unfold in H2. destruct H2 as [n Hn].
  apply langStar_unfold. exists (S n). exists w1, w2. auto.
Qed.

Lemma langStar_snoc (L : Lang) (w1 w2 : Word) :
  langStar L w1 -> L w2 -> langStar L (w1 ++ w2).
Proof.
  intros H1 H2. apply langStar_unfold in H1. destruct H1 as [n Hn].
  apply langStar_unfold. exists (S n). apply langPow_snoc. exists w1, w2. auto.
Qed.

Lemma langStar_app (L : Lang) (w1 w2 : Word) :
  langStar L w1 -> langStar L w2 -> langStar L (w1 ++ w2).
Proof.
  intros H1 H2. apply langStar_unfold in H1, H2.
  destruct H1 as [n Hn], H2 as [m Hm].
  apply langStar_unfold. exists (n + m)%nat. apply langPow_add. exists w1, w2. auto.
Qed.

(** *** The language of an AST, unfolded *)

Lemma langElement_Alternation (alternatives : list Concatenation) :
  langElement (Alternation alternatives) = langAlts alternatives.
Proof.
  reflexivity.
Qed.

Lemma langElement_Quantifier (alternatives : list Concatenation) (qmin : nat)
  (qmax : Bound) :
  langElement (Quantifier alternatives qmin qmax)
  = langQuant (langAlts alternatives) qmin qmax.
Proof.
  reflexivity.
Qed.

Lemma langConcat_app (c1 c2 : Concatenation) :
  langSame (langConcat (c1 ++ c2)) (langCat (langConcat c1) (langConcat c2)).
Proof.
  induction c1 as [|x c1 IH]; simpl.
  - rewrite langCat_unit_l. reflexivity.
  - rewrite IH, langCat_assoc. reflexivity.
Qed.

Lemma langConcat_single (e : Element) : langSame (langConcat [e]) (langElement e).
Proof. simpl. apply langCat_unit_r. Qed.

Lemma langAlts_app (a1 a2 : list Concatenation) :
  langSame (langAlts (a1 ++ a2)) (langOr (langAlts a1) (langAlts a2)).
Proof.
  induction a1 as [|c a1 IH]; simpl.
  - rewrite langOr_empty_l. reflexivity.
  - rewrite IH, langOr_assoc. reflexivity.
Qed.

Lemma langAlts_In (a : list Concatenation) (w : Word) :
  langAlts a w <-> exists c, In c a /\ langConcat c w.
Proof.
  induction a as [|c a IH]; simpl.
  - split; [intros [] | intros (c & [] & _)].
  - unfold langOr. rewrite IH. split.
    + intros [H | (c' & Hin & H)]; [exists c | exists c']; auto.
    + intros (c' & [<- | Hin] & H); [left; exact H | right; exists c'; auto].
Qed.

Lemma langAlts_single (c : Concatenation) : langSame (langAlts [c]) (langConcat c).
Proof. simpl. apply langOr_empty_r. Qed.

(* ================================================================= *)
(** ** Structural equality is equality *)

Lemma allEqual_eq {A : Type} (eqb : A -> A -> bool) (a : list A) : forall b,
  Forall (fun x => forall y, eqb x y = true -> x = y) a ->
  allEqual eqb a b = true -> a = b.
Proof.
  induction a as [|x a IH]; intros [|y b] Hall H; simpl in H; try discriminate.
  - reflexivity.
  - inversion Hall as [|? ? Hx Ha]; subst.
    destruct (eqb x y) eqn:E; simpl in H; [|discriminate].
    rewrite (Hx y E), (IH b Ha H). reflexivity.
Qed.

Lemma allEqual_refl {A : Type} (eqb : A -> A -> bool) (a : list A) :
  Forall (fun x => eqb x x = true) a -> allEqual eqb a a = true.
Proof.
  induction a as [|x a IH]; intros Hall; simpl; [reflexivity|].
  inversion Hall as [|? ? Hx Ha]; subst. rewrite Hx. simpl. apply IH, Ha.
Qed.

Lemma boundEqb_eq (a b : Bound) : boundEqb a b = true -> a = b.
Proof.
  destruct a as [n|], b as [m|]; simpl; try discriminate; [|reflexivity].
  intros H. apply Nat.eqb_eq in H. congruence.
Qed.

Lemma alternatives_eq (a b : list Concatenation) :
  Forall (Forall (fun x => forall y, structurallyEqual x y = true -> x = y)) a ->
  allEqual (allEqual structurallyEqual) a b = true -> a = b.
Proof.
  intros IH. apply allEqual_eq.
  apply Forall_impl with (2 := IH). intros c Hc y. apply allEqual_eq, Hc.
Qed.

Lemma structurallyEqual_eq (a : Element) : forall b,
  structurallyEqual a b = true -> a = b.
Proof.
  induction a as [cs | alts IH | alts qmin qmax IH | k n alts IH]
    using Element_nested_ind; intros b H;
    destruct b as [bcs | balts | balts bmin bmax | bk bn balts];
    simpl in H; try discriminate.
  - apply equals_spec in H. congruence.
  - rewrite (alternatives_eq _ _ IH H). reflexivity.
  - destruct (qmin =? bmin)%nat eqn:E1; simpl in H; [|discriminate].
    destruct (boundEqb qmax bmax) eqn:E2; simpl in H; [|discriminate].
    apply Nat.eqb_eq in E1. apply boundEqb_eq in E2.
    rewrite (alternatives_eq _ _ IH H). congruence.
  - destruct (assertionKindEqb k bk) eqn:E1; simpl in H; [|discriminate].
    destruct (Bool.eqb n bn) eqn:E2; simpl in H; [|discriminate].
    apply Bool.eqb_prop in E2.
    rewrite (alternatives_eq _ _ IH H).
    destruct k, bk; try discriminate; congruence.
Qed.

Lemma structurallyEqualConcatenation_eq (a b : Concatenation) :
  structurallyEqualConcatenation a b = true -> a = b.
Proof.
  apply allEqual_eq. apply Forall_forall. intros x _. apply structurallyEqual_eq.
Qed.

Lemma structurallyEqualAlternatives_eq (a b : list Concatenation) :
  structurallyEqualAlternatives a b = true -> a = b.
Proof.
  apply allEqual_eq. apply Forall_forall. intros x _.
  apply structurallyEqualConcatenation_eq.
Qed.

Lemma structurallyEqualT_eq (a b : Transition) :
  structurallyEqualT a b = true -> a = b.
Proof.
  destruct a as [x | x], b as [y | y]; simpl; try discriminate; intros H.
  - rewrite (structurallyEqualConcatenation_eq _ _ H). reflexivity.
  - rewrite (structurallyEqual_eq _ _ H). reflexivity.
Qed.

(** ** Well-formed trees *)

Fixpoint wfConcatRec (c : list Element) : Prop :=
  match c with
  | [] => True
  | x :: c' => wfElement x /\ wfConcatRec c'
  end.

Fixpoint wfAltsRec (a : list (list Element)) : Prop :=
  match a with
  | [] => True
  | c :: a' => wfConcatRec c /\ wfAltsRec a'
  end.

Lemma wfConcatRec_Forall (c : list Element) : wfConcatRec c <-> wfConcat c.
Proof.
  unfold wfConcat. induction c as [|x c IH]; simpl.
  - split; [constructor | exact (fun _ => I)].
  - rewrite IH, Forall_cons_iff. reflexivity.
Qed.

Lemma wfAltsRec_Forall (a : list (list Element)) : wfAltsRec a <-> wfAlts a.
Proof.
  unfold wfAlts. induction a as [|c a IH]; simpl.
  - split; [constructor | exact (fun _ => I)].
  - rewrite IH, wfConcatRec_Forall, Forall_cons_iff. reflexivity.
Qed.

Lemma wfElement_Alternation (alternatives : list Concatenation) :
  wfElement (Alternation alternatives) <-> wfAlts alternatives.
Proof.
  rewrite <- wfAltsRec_Forall. reflexivity.
Qed.

Lemma wfElement_Quantifier (alternatives : list Concatenation) (qmin : nat)
  (qmax : Bound) :
  wfElement (Quantifier alternatives qmin qmax)
  <-> inBound qmin qmax /\ wfAlts alternatives.
Proof.
  rewrite <- wfAltsRec_Forall. reflexivity.
Qed.

Lemma wfConcat_app (c1 c2 : Concatenation) :
  wfConcat (c1 ++ c2) <-> wfConcat c1 /\ wfConcat c2.
Proof. apply Forall_app. Qed.

Lemma wfAlts_app (a1 a2 : list Concatenation) :
  wfAlts (a1 ++ a2) <-> wfAlts a1 /\ wfAlts a2.
Proof. apply Forall_app. Qed.

Lemma wfConcat_cons (e : Element) (c : Concatenation) :
  wfConcat (e :: c) <-> wfElement e /\ wfConcat c.
Proof. apply Forall_cons_iff. Qed.

Lemma wfAlts_cons (c : Concatenation) (a : list Concatenation) :
  wfAlts (c :: a) <-> wfConcat c /\ wfAlts a.
Proof. apply Forall_cons_iff. Qed.

(** ** [canMatchEmptyString] is sound *)

Lemma langPow_nil (L : Lang) (n : nat) : L [] -> langPow L n [].
Proof.
  intros H. induction n as [|n IH]; simpl; [reflexivity|].
  exists [], []. auto.
Qed.

Lemma canMatchEmptyStringConcat_sound (c : Concatenation) :
  Forall (fun e => wfElement e -> canMatchEmptyString e = true -> langElement e []) c ->
  wfConcat c -> canMatchEmptyStringConcat c = true -> langConcat c [].
Proof.
  induction c as [|x c IH]; intros Hall Hwf H; simpl in *; [reflexivity|].
  inversion Hall as [|? ? Hx Hc]; subst. apply wfConcat_cons in Hwf.
  destruct Hwf as [Hwx Hwc].
  apply andb_true_iff in H. destruct H as [H1 H2].
  exists [], []. split; [reflexivity | split; [apply Hx; assumption | apply IH; assumption]].
Qed.

Lemma canMatchEmptyStringAlts_sound (a : list Concatenation) :
  Forall (Forall (fun e => wfElement e -> canMatchEmptyString e = true ->
                           langElement e [])) a ->
  wfAlts a -> existsb canMatchEmptyStringConcat a = true -> langAlts a [].
Proof.
  induction a as [|c a IH]; intros Hall Hwf H; simpl in *; [discriminate|].
  inversion Hall as [|? ? Hc Ha]; subst. apply wfAlts_cons in Hwf.
  destruct Hwf as [Hwc Hwa].
  apply orb_true_iff in H. destruct H as [H | H].
  - left. apply canMatchEmptyStringConcat_sound; assumption.
  - right. apply IH; assumption.
Qed.

Lemma canMatchEmptyString_sound (e : Element) :
  wfElement e -> canMatchEmptyString e = true -> langElement e [].
Proof.
  induction e as [cs | alts IH | alts qmin qmax IH | k n alts IH]
    using Element_nested_ind; intros Hwf H.
  - discriminate.
  - rewrite langElement_Alternation. apply wfElement_Alternation in Hwf.
    apply canMatchEmptyStringAlts_sound; assumption.
  - rewrite langElement_Quantifier. apply wfElement_Quantifier in Hwf.
    destruct Hwf as [Hb Hwf].
    change (canMatchEmptyString (Quantifier alts qmin qmax))
      with ((qmin =? 0)%nat || existsb canMatchEmptyStringConcat alts) in H.
    exists qmin. split; [lia | split; [exact Hb|]].
    apply orb_true_iff in H. destruct H as [H | H].
    + apply Nat.eqb_eq in H. subst qmin. reflexivity.
    + apply langPow_nil, canMatchEmptyStringAlts_sound; assumption.
  - discriminate.
Qed.

Lemma canMatchEmptyStringConcat_sound' (c : Concatenation) :
  wfConcat c -> canMatchEmptyStringConcat c = true -> langConcat c [].
Proof.
  apply canMatchEmptyStringConcat_sound.
  apply Forall_forall. intros e _. apply canMatchEmptyString_sound.
Qed.

Lemma canMatchEmptyStringAlts_sound' (a : list Concatenation) :
  wfAlts a -> existsb canMatchEmptyStringConcat a = true -> langAlts a [].
Proof.
  apply canMatchEmptyStringAlts_sound.
  apply Forall_forall. intros c _. apply Forall_forall. intros e _.
  apply canMatchEmptyString_sound.
Qed.

(* ================================================================= *)
(** ** Counting repetitions *)

Lemma inBound_safeMultiply (k n : nat) (b : Bound) :
  inBound k (safeMultiply (Fin n) b)
  <-> match b with
      | Fin m => (k <= n * m)%nat
      | Infinity => n = 0%nat -> k = 0%nat
      end.
Proof.
  unfold safeMultiply. destruct n as [|n]; simpl.
  - destruct b as [m|]; simpl; lia.
  - destruct b as [[|m]|]; simpl; [lia | lia | split; [discriminate | exact (fun _ => I)]].
Qed.

Lemma inBound_safeMultiply_gen (k : nat) (a b : Bound) :
  inBound k (safeMultiply a b)
  <-> match a, b with
      | Fin n, Fin m => (k <= n * m)%nat
      | Fin n, Infinity => n = 0%nat -> k = 0%nat
      | Infinity, Fin m => m = 0%nat -> k = 0%nat
      | Infinity, Infinity => True
      end.
Proof.
  destruct a as [n|]; [apply inBound_safeMultiply|].
  unfold safeMultiply. destruct b as [[|m]|]; simpl; split; try lia; auto; discriminate.
Qed.

Lemma langPow_split (L : Lang) (n m : nat) (w : Word) :
  langPow L (n + m) w <-> exists w1 w2, w = w1 ++ w2 /\ langPow L n w1 /\ langPow L m w2.
Proof. apply (langPow_add L n m w). Qed.

(** [n] repetitions of between [a] and [b] repetitions are between [n * a]
    and [n * b] repetitions. *)
Lemma langPow_quant (L : Lang) (a : nat) (b : Bound) (n : nat) : forall w,
  inBound a b ->
  (langPow (langQuant L a b) n w
   <-> exists k, (n * a <= k)%nat /\ inBound k (safeMultiply (Fin n) b)
                 /\ langPow L k w).
Proof.
  induction n as [|n IH]; intros w Hab.
  - change (langPow (langQuant L a b) 0 w) with (w = []). split.
    + intros ->. exists 0%nat. split; [lia | split; [|reflexivity]].
      apply inBound_safeMultiply. destruct b; lia.
    + intros (k & _ & Hk & Hw). apply inBound_safeMultiply in Hk.
      assert (k = 0%nat) by (destruct b; lia). subst k. exact Hw.
  - split.
    + intros (w1 & w2 & -> & (k1 & Ha & Hb & H1) & H2).
      apply (IH w2 Hab) in H2. destruct H2 as (k2 & Hk2a & Hk2b & H2).
      exists (k1 + k2)%nat. split; [lia|]. split.
      * apply inBound_safeMultiply. apply inBound_safeMultiply in Hk2b.
        destruct b as [m|]; simpl in *; [lia | discriminate].
      * apply langPow_split. exists w1, w2. auto.
    + intros (k & Hka & Hkb & Hw). apply inBound_safeMultiply in Hkb.
      pose (k1 := match b with
                  | Fin m => Nat.min m (k - n * a)
                  | Infinity => (k - n * a)%nat
                  end).
      assert (Hk1 : (a <= k1)%nat /\ inBound k1 b /\ (k1 <= k)%nat
                    /\ (n * a <= k - k1)%nat
                    /\ inBound (k - k1) (safeMultiply (Fin n) b)).
      { subst k1. destruct b as [m|]; simpl in *.
        - assert (n * a <= n * m)%nat by (apply Nat.mul_le_mono_l; exact Hab).
          repeat split; try lia.
          apply (inBound_safeMultiply (k - Nat.min m (k - n * a)) n (Fin m)). lia.
        - repeat split; try lia.
          apply (inBound_safeMultiply (k - (k - n * a)) n Infinity). nia. }
      destruct Hk1 as (K1 & K2 & K3 & K4 & K5).
      replace k with (k1 + (k - k1))%nat in Hw by lia.
      apply langPow_split in Hw. destruct Hw as (w1 & w2 & -> & H1 & H2).
      exists w1, w2. split; [reflexivity|]. split.
      * exists k1. auto.
      * apply (IH w2 Hab). exists (k - k1)%nat. auto.
Qed.

Lemma langQuant_quant (L : Lang) (a : nat) (b : Bound) (m1 : nat) (m2 : Bound)
  (w : Word) :
  inBound a b ->
  (langQuant (langQuant L a b) m1 m2 w
   <-> exists n k, (m1 <= n)%nat /\ inBound n m2 /\ (n * a <= k)%nat
                   /\ inBound k (safeMultiply (Fin n) b) /\ langPow L k w).
Proof.
  intros Hab. unfold langQuant at 1. split.
  - intros (n & H1 & H2 & H3). apply (langPow_quant L a b n w Hab) in H3.
    destruct H3 as (k & ? & ? & ?). exists n, k. auto.
  - intros (n & k & H1 & H2 & H3 & H4 & H5). exists n.
    split; [exact H1 | split; [exact H2|]].
    apply (langPow_quant L a b n w Hab). exists k. auto.
Qed.

Lemma langQuant_0_1 (L : Lang) : langSame (langQuant L 0 (Fin 1)) (langOr langUnit L).
Proof.
  intros w. unfold langQuant, langOr. split.
  - intros (n & _ & Hn & H). simpl in Hn.
    destruct n as [|[|n]]; [left; exact H | right; apply langPow_one, H | lia].
  - intros [H | H]; [exists 0%nat | exists 1%nat]; simpl;
      (split; [lia | split; [lia|]]); [exact H | apply langPow_one, H].
Qed.

Lemma langQuant_1_1 (L : Lang) : langSame (langQuant L 1 (Fin 1)) L.
Proof.
  intros w. unfold langQuant. split.
  - intros (n & H1 & Hn & H). simpl in Hn. assert (n = 1%nat) by lia. subst n.
    apply langPow_one, H.
  - intros H. exists 1%nat. simpl. split; [lia | split; [lia | apply langPow_one, H]].
Qed.

Lemma langQuant_lower (L : Lang) (qmax : Bound) :
  langSame (langQuant L 0 qmax) (langOr langUnit (langQuant L 1 qmax)).
Proof.
  intros w. unfold langQuant, langOr. split.
  - intros (n & _ & Hn & H). destruct n as [|n]; [left; exact H|].
    right. exists (S n). split; [lia | split; assumption].
  - intros [H | (n & H1 & Hn & H)].
    + exists 0%nat. split; [lia | split; [destruct qmax; simpl; [lia | exact I] | exact H]].
    + exists n. split; [lia | split; assumption].
Qed.

Lemma inBound_boundAdd (n1 n2 : nat) (b d : Bound) :
  inBound n1 b -> inBound n2 d -> inBound (n1 + n2) (boundAdd b d).
Proof. destruct b, d; simpl; lia. Qed.

(** [x{a,b}x -> x{a+1,b+1}], on either side. *)
Lemma langQuant_consume_r (L : Lang) (a : nat) (b : Bound) :
  langSame (langCat (langQuant L a b) L) (langQuant L (a + 1) (boundAdd b (Fin 1))).
Proof.
  intros w. split.
  - intros (w1 & w2 & -> & (n & H1 & H2 & H3) & H4). exists (S n).
    split; [lia|]. split.
    + replace (S n) with (n + 1)%nat by lia. apply inBound_boundAdd; simpl; [exact H2 | lia].
    + apply langPow_snoc. exists w1, w2. auto.
  - intros (n & H1 & H2 & H3). destruct n as [|n]; [lia|].
    apply langPow_snoc in H3. destruct H3 as (w1 & w2 & -> & H3 & H4).
    exists w1, w2. split; [reflexivity|]. split; [|exact H4].
    exists n. split; [lia|]. split; [|exact H3].
    destruct b; simpl in *; [lia | exact I].
Qed.

Lemma langQuant_consume_l (L : Lang) (a : nat) (b : Bound) :
  langSame (langCat L (langQuant L a b)) (langQuant L (a + 1) (boundAdd b (Fin 1))).
Proof.
  intros w. split.
  - intros (w1 & w2 & -> & H4 & (n & H1 & H2 & H3)). exists (S n).
    split; [lia|]. split.
    + replace (S n) with (n + 1)%nat by lia. apply inBound_boundAdd; simpl; [exact H2 | lia].
    + exists w1, w2. auto.
  - intros (n & H1 & H2 & H3). destruct n as [|n]; [lia|].
    destruct H3 as (w1 & w2 & -> & H3 & H4).
    exists w1, w2. split; [reflexivity|]. split; [exact H3|].
    exists n. split; [lia|]. split; [|exact H4].
    destruct b; simpl in *; [lia | exact I].
Qed.

(** [x{a,b}x{c,d} -> x{a+c,b+d}]. *)
Lemma langQuant_merge (L : Lang) (a c : nat) (b d : Bound) :
  inBound a b -> inBound c d ->
  langSame (langCat (langQuant L a b) (langQuant L c d))
           (langQuant L (a + c) (boundAdd b d)).
Proof.
  intros Hab Hcd w. split.
  - intros (w1 & w2 & -> & (n1 & A1 & A2 & A3) & (n2 & C1 & C2 & C3)).
    exists (n1 + n2)%nat. split; [lia|]. split; [apply inBound_boundAdd; assumption|].
    apply langPow_split. exists w1, w2. auto.
  - intros (n & H1 & H2 & H3).
    pose (n1 := match b with
                | Fin m => Nat.min m (n - c)
                | Infinity => (n - c)%nat
                end).
    assert (Hn1 : (a <= n1)%nat /\ inBound n1 b /\ (n1 <= n)%nat
                  /\ (c <= n - n1)%nat /\ inBound (n - n1) d).
    { subst n1. destruct b as [m|], d as [m'|]; simpl in *; repeat split; lia. }
    destruct Hn1 as (N1 & N2 & N3 & N4 & N5).
    replace n with (n1 + (n - n1))%nat in H3 by lia.
    apply langPow_split in H3. destruct H3 as (w1 & w2 & -> & H3 & H4).
    exists w1, w2. split; [reflexivity|]. split.
    + exists n1. auto.
    + exists (n - n1)%nat. auto.
Qed.

(** *** Star and plus of a quantifier *)

Definition langPlus (L : Lang) : Lang := langQuant L 1 Infinity.

Lemma langStar_quant (L : Lang) (a : nat) (b : Bound) :
  (a <= 1)%nat -> inBound 1 b ->
  langSame (langStar (langQuant L a b)) (langStar L).
Proof.
  intros Ha Hb w. unfold langStar.
  assert (Hab : inBound a b) by (destruct b; simpl in *; [lia | exact I]).
  rewrite (langQuant_quant L a b 0 Infinity w Hab). split.
  - intros (n & k & _ & _ & _ & _ & H). exists k. split; [lia | split; [exact I | exact H]].
  - intros (k & _ & _ & H). exists k, k. split; [lia|]. split; [exact I|].
    split; [nia|]. split; [|exact H].
    apply inBound_safeMultiply. destruct b as [m|]; simpl in *; [nia | auto].
Qed.

Lemma langStar_of_nothing (L : Lang) (a : nat) :
  langSame (langStar (langQuant L a (Fin 0))) langUnit.
Proof.
  intros w. rewrite langStar_unfold. split.
  - intros (n & H). revert w H. induction n as [|n IH]; intros w H; [exact H|].
    destruct H as (w1 & w2 & -> & (k & K1 & K2 & K3) & H2). simpl in K2.
    assert (k = 0%nat) by lia. subst k. simpl in K3. unfold langUnit in K3. subst w1.
    simpl. apply IH, H2.
  - intros ->. exists 0%nat. reflexivity.
Qed.

Lemma langStar_unit : langSame (langStar langUnit) langUnit.
Proof.
  intros w. rewrite langStar_unfold. split.
  - intros (n & H). apply langPow_unit in H. exact H.
  - intros ->. exists 0%nat. reflexivity.
Qed.

Lemma langPlus_unit : langSame (langPlus langUnit) langUnit.
Proof.
  intros w. unfold langPlus, langQuant. split.
  - intros (n & _ & _ & H). apply langPow_unit in H. exact H.
  - intros ->. exists 1%nat. split; [lia | split; [exact I|]].
    apply langPow_unit. reflexivity.
Qed.

Lemma langPlus_quant_0 (L : Lang) (b : Bound) :
  inBound 1 b -> langSame (langPlus (langQuant L 0 b)) (langStar L).
Proof.
  intros Hb w. unfold langPlus, langStar.
  assert (Hab : inBound 0 b) by (destruct b; simpl in *; [lia | exact I]).
  rewrite (langQuant_quant L 0 b 1 Infinity w Hab). split.
  - intros (n & k & _ & _ & _ & _ & H). exists k. split; [lia | split; [exact I | exact H]].
  - intros (k & _ & _ & H). exists (S k), k. split; [lia|]. split; [exact I|].
    split; [lia|]. split; [|exact H].
    apply inBound_safeMultiply. destruct b as [m|]; simpl in *; [nia | discriminate].
Qed.

Lemma langPlus_quant_1 (L : Lang) (b : Bound) :
  inBound 1 b -> langSame (langPlus (langQuant L 1 b)) (langPlus L).
Proof.
  intros Hb w. unfold langPlus.
  rewrite (langQuant_quant L 1 b 1 Infinity w Hb). split.
  - intros (n & k & H1 & _ & H2 & _ & H). exists k. split; [lia | split; [exact I | exact H]].
  - intros (k & H1 & _ & H). exists k, k. split; [lia|]. split; [exact I|].
    split; [lia|]. split; [|exact H].
    apply inBound_safeMultiply. destruct b as [m|]; simpl in *; [nia | lia].
Qed.

Lemma langPlus_of_nothing (L : Lang) :
  langSame (langPlus (langQuant L 0 (Fin 0))) langUnit.
Proof.
  intros w. unfold langPlus.
  rewrite (langQuant_quant L 0 (Fin 0) 1 Infinity w (le_n 0)). split.
  - intros (n & k & _ & _ & _ & Hk & H). apply inBound_safeMultiply in Hk.
    assert (k = 0%nat) by lia. subst k. exact H.
  - intros ->. exists 1%nat, 0%nat. simpl. repeat split; lia.
Qed.

Lemma langPlus_unfold (L : Lang) : langSame (langPlus L) (langCat L (langStar L)).
Proof.
  intros w. unfold langPlus, langQuant. split.
  - intros (n & H1 & _ & H). destruct n as [|n]; [lia|].
    destruct H as (w1 & w2 & -> & H2 & H3). exists w1, w2.
    split; [reflexivity | split; [exact H2|]]. apply langStar_unfold. exists n. exact H3.
  - intros (w1 & w2 & -> & H2 & H3). apply langStar_unfold in H3.
    destruct H3 as [n H3]. exists (S n).
    split; [lia | split; [exact I|]]. exists w1, w2. auto.
Qed.

Lemma langPlus_unfold_r (L : Lang) : langSame (langPlus L) (langCat (langStar L) L).
Proof.
  intros w. unfold langPlus, langQuant. split.
  - intros (n & H1 & _ & H). destruct n as [|n]; [lia|].
    apply langPow_snoc in H.
    destruct H as (w1 & w2 & -> & H2 & H3). exists w1, w2.
    split; [reflexivity | split; [|exact H3]]. apply langStar_unfold. exists n. exact H2.
  - intros (w1 & w2 & -> & H2 & H3). apply langStar_unfold in H2.
    destruct H2 as [n H2]. exists (S n).
    split; [lia | split; [exact I|]]. apply langPow_snoc. exists w1, w2. auto.
Qed.

(** *** A quantifier of a quantifier, both with [min] 0 or 1 *)

Lemma ceil_div_exists (k m : nat) :
  (1 <= m)%nat -> exists n, (n <= k)%nat /\ (k <= n * m)%nat
                            /\ forall n', (k <= n' * m)%nat -> (n <= n')%nat.
Proof.
  intros Hm. induction k as [|k IH].
  - exists 0%nat. repeat split; lia.
  - destruct IH as (n & H1 & H2 & H3).
    destruct (Nat.le_gt_cases (S k) (n * m)) as [L | G].
    + exists n. split; [lia|]. split; [exact L|].
      intros n' Hn'. apply H3. lia.
    + exists (S n). split; [lia|]. split; [nia|].
      intros n' Hn'. assert (n <= n')%nat by (apply H3; lia).
      destruct (Nat.eq_dec n n') as [<- | Hne]; [lia | lia].
Qed.

Lemma langQuant_nested (L : Lang) (emin : nat) (emax : Bound) (qmin : nat)
  (qmax : Bound) :
  (emin <= 1)%nat -> (qmin <= 1)%nat -> inBound emin emax -> inBound qmin qmax ->
  langSame (langQuant (langQuant L emin emax) qmin qmax)
           (langQuant L (qmin * emin) (safeMultiply qmax emax)).
Proof.
  intros He Hq Hee Hqq w. rewrite (langQuant_quant L emin emax qmin qmax w Hee).
  unfold langQuant. split.
  - intros (n & k & H1 & H2 & H3 & H4 & H5). exists k.
    split; [nia|]. split; [|exact H5].
    apply inBound_safeMultiply_gen. apply inBound_safeMultiply in H4.
    destruct qmax as [q|], emax as [m|]; simpl in *; try nia; auto.
  - intros (k & H1 & H2 & H3). apply inBound_safeMultiply_gen in H2.
    destruct k as [|k].
    + destruct (Nat.eq_dec emin 0) as [-> | Hne].
      * exists qmin, 0%nat. split; [lia|]. split; [exact Hqq|]. split; [lia|].
        split; [|exact H3]. apply inBound_safeMultiply. destruct emax; lia.
      * assert (qmin = 0%nat) by nia. subst qmin.
        exists 0%nat, 0%nat. split; [lia|]. split; [exact Hqq|]. split; [lia|].
        split; [|exact H3]. apply inBound_safeMultiply. destruct emax; lia.
    + destruct emax as [m|].
      * assert (Hm : (1 <= m)%nat).
        { destruct qmax as [q|]; simpl in H2; [nia|].
          destruct m; [specialize (H2 eq_refl); discriminate | lia]. }
        destruct (ceil_div_exists (S k) m Hm) as (n & N1 & N2 & N3).
        exists n, (S k). split; [nia|]. split.
        { destruct qmax as [q|]; simpl in *; [apply N3; lia | exact I]. }
        split; [nia|]. split; [|exact H3].
        apply inBound_safeMultiply. simpl. lia.
      * exists 1%nat, (S k). split; [lia|]. split.
        { destruct qmax as [q|]; simpl in *; [|exact I].
          destruct q; [specialize (H2 eq_refl); discriminate | lia]. }
        split; [nia|]. split; [|exact H3].
        apply inBound_safeMultiply. simpl. discriminate.
Qed.

(* ================================================================= *)
(** ** The rewrites keep the language and the well-formedness *)

(** What is proved of a rewrite of a list of alternatives, and of a rewrite
    of the elements of a concatenation. *)
Definition keepsAlts (before after : list Concatenation) : Prop :=
  (wfAlts before -> wfAlts after /\ langSame (langAlts after) (langAlts before)).

Definition keepsConcat (before after : Concatenation) : Prop :=
  (wfConcat before -> wfConcat after /\ langSame (langConcat after) (langConcat before)).

Lemma keepsAlts_refl (a : list Concatenation) : keepsAlts a a.
Proof. intros H. split; [exact H | reflexivity]. Qed.

Lemma keepsAlts_trans (a b c : list Concatenation) :
  keepsAlts a b -> keepsAlts b c -> keepsAlts a c.
Proof.
  intros H1 H2 Ha. destruct (H1 Ha) as [Hb L1]. destruct (H2 Hb) as [Hc L2].
  split; [exact Hc | rewrite L2; exact L1].
Qed.

Lemma keepsConcat_refl (a : Concatenation) : keepsConcat a a.
Proof. intros H. split; [exact H | reflexivity]. Qed.

Lemma keepsConcat_trans (a b c : Concatenation) :
  keepsConcat a b -> keepsConcat b c -> keepsConcat a c.
Proof.
  intros H1 H2 Ha. destruct (H1 Ha) as [Hb L1]. destruct (H2 Hb) as [Hc L2].
  split; [exact Hc | rewrite L2; exact L1].
Qed.

Lemma Forall_firstn {A : Type} (P : A -> Prop) (n : nat) (l : list A) :
  Forall P l -> Forall P (firstn n l).
Proof.
  revert n. induction l as [|x l IH]; intros [|n] H; simpl; try constructor.
  - inversion H; assumption.
  - apply IH. inversion H; assumption.
Qed.

Lemma Forall_skipn {A : Type} (P : A -> Prop) (n : nat) (l : list A) :
  Forall P l -> Forall P (skipn n l).
Proof.
  revert n. induction l as [|x l IH]; intros [|n] H; simpl; try assumption.
  apply IH. inversion H; assumption.
Qed.

Lemma langConcat_cons (e : Element) (c : Concatenation) :
  langConcat (e :: c) = langCat (langElement e) (langConcat c).
Proof. reflexivity. Qed.

Lemma langAlts_cons (c : Concatenation) (a : list Concatenation) :
  langAlts (c :: a) = langOr (langConcat c) (langAlts a).
Proof. reflexivity. Qed.

(** *** [factorOutCommonPreAndSuffix] *)

Lemma shortestOf_spec (rest : list Concatenation) : forall best,
  In (shortestOf best rest) (best :: rest)
  /\ forall c, In c (best :: rest) -> (length (shortestOf best rest) <= length c)%nat.
Proof.
  induction rest as [|c rest IH]; intros best; simpl.
  - split; [left; reflexivity | intros c [<- | []]; lia].
  - destruct (length c <? length best)%nat eqn:E.
    + apply Nat.ltb_lt in E. destruct (IH c) as [H1 H2]. split.
      * right. exact H1.
      * intros c' [<- | Hc'].
        -- pose proof (H2 c (or_introl eq_refl)). lia.
        -- apply H2, Hc'.
    + apply Nat.ltb_ge in E. destruct (IH best) as [H1 H2]. split.
      * destruct H1 as [H1 | H1]; [left; exact H1 | right; right; exact H1].
      * intros c' [<- | [<- | Hc']].
        -- apply H2. left. reflexivity.
        -- pose proof (H2 best (or_introl eq_refl)). lia.
        -- apply H2. right. exact Hc'.
Qed.

Lemma equalToSome_eq (e : Element) (x : option Element) :
  equalToSome e x = true -> x = Some e.
Proof.
  destruct x as [e'|]; simpl; [|discriminate].
  intros H. rewrite (structurallyEqual_eq e e' H). reflexivity.
Qed.

Lemma prefixLoop_spec (shortest : Concatenation) (alts : list Concatenation)
  (fuel : nat) : forall i,
  (prefixLoop fuel shortest alts i <= fuel)%nat
  /\ forall j, (i <= j < i + prefixLoop fuel shortest alts i)%nat ->
       exists e, nth_error shortest j = Some e
                 /\ forall c, In c alts -> nth_error c j = Some e.
Proof.
  induction fuel as [|fuel IH]; intros i; simpl.
  - split; [lia | intros j Hj; lia].
  - destruct (nth_error shortest i) as [e|] eqn:E; [|split; [lia | intros j Hj; lia]].
    destruct (forallb (fun c => equalToSome e (nth_error c i)) alts) eqn:Eall;
      [|split; [lia | intros j Hj; lia]].
    destruct (IH (S i)) as [H1 H2]. split; [lia|].
    intros j Hj. destruct (Nat.eq_dec j i) as [-> | Hne].
    + exists e. split; [exact E|]. intros c Hc.
      rewrite forallb_forall in Eall. apply equalToSome_eq, Eall, Hc.
    + apply H2. lia.
Qed.

Lemma suffixLoop_spec (shortest : Concatenation) (alts : list Concatenation)
  (fuel : nat) : forall i,
  (suffixLoop fuel shortest alts i <= fuel)%nat
  /\ forall j, (i <= j < i + suffixLoop fuel shortest alts i)%nat ->
       exists e, nth_error shortest (length shortest - 1 - j) = Some e
                 /\ forall c, In c alts -> nth_error c (length c - 1 - j) = Some e.
Proof.
  induction fuel as [|fuel IH]; intros i; simpl.
  - split; [lia | intros j Hj; lia].
  - destruct (nth_error shortest (length shortest - 1 - i)) as [e|] eqn:E;
      [|split; [lia | intros j Hj; lia]].
    destruct (forallb (fun c => equalToSome e (nth_error c (length c - 1 - i))) alts)
      eqn:Eall; [|split; [lia | intros j Hj; lia]].
    destruct (IH (S i)) as [H1 H2]. split; [lia|].
    intros j Hj. destruct (Nat.eq_dec j i) as [-> | Hne].
    + exists e. split; [exact E|]. intros c Hc.
      rewrite forallb_forall in Eall. apply equalToSome_eq, Eall, Hc.
    + apply H2. lia.
Qed.

(** Every alternative is the common prefix, its own middle and the common
    suffix. *)
Lemma stripAffixes_decompose (shortest c : Concatenation) (p s : nat) :
  (length shortest <= length c)%nat -> (p + s <= length shortest)%nat ->
  (forall j, (j < p)%nat -> nth_error c j = nth_error shortest j) ->
  (forall j, (j < s)%nat ->
     nth_error c (length c - 1 - j) = nth_error shortest (length shortest - 1 - j)) ->
  c = firstn p shortest ++ stripAffixes p s c ++ skipn (length shortest - s) shortest.
Proof.
  intros Hlen Hps Hpre Hsuf.
  assert (E1 : firstn p c = firstn p shortest).
  { apply nth_error_ext. intros i. rewrite !nth_error_firstn.
    destruct (i <? p)%nat eqn:E; [apply Nat.ltb_lt in E; apply Hpre, E | reflexivity]. }
  assert (E2 : skipn (length c - s) c = skipn (length shortest - s) shortest).
  { apply nth_error_ext. intros i. rewrite !nth_error_skipn.
    destruct (Nat.lt_ge_cases i s) as [L | G].
    - replace (length c - s + i)%nat with (length c - 1 - (s - 1 - i))%nat by lia.
      replace (length shortest - s + i)%nat
        with (length shortest - 1 - (s - 1 - i))%nat by lia.
      apply Hsuf. lia.
    - transitivity (@None Element); [|symmetry]; apply nth_error_None; lia. }
  unfold stripAffixes. rewrite <- E1, <- E2.
  rewrite <- (firstn_skipn p c) at 1. f_equal.
  rewrite <- (firstn_skipn (length (skipn p c) - s) (skipn p c)) at 1. f_equal.
  rewrite skipn_skipn, length_skipn. f_equal. lia.
Qed.

Lemma langAlts_factor (prefix suffix : Concatenation) (strip : Concatenation -> Concatenation)
  (alts : list Concatenation) :
  (forall c, In c alts -> c = prefix ++ strip c ++ suffix) ->
  langSame (langAlts alts)
           (langCat (langConcat prefix)
                    (langCat (langAlts (map strip alts)) (langConcat suffix))).
Proof.
  induction alts as [|c alts IH]; intros H; simpl.
  - rewrite langCat_empty_l, langCat_empty_r. reflexivity.
  - rewrite IH by (intros c' Hc'; apply H; right; exact Hc').
    rewrite langCat_or_l, langCat_or_r.
    apply langOr_Proper; [|reflexivity].
    rewrite (H c (or_introl eq_refl)) at 1.
    rewrite !langConcat_app. reflexivity.
Qed.

Lemma factorOutCommonPreAndSuffix_keeps (alts : list Concatenation) :
  keepsAlts alts (fst (factorOutCommonPreAndSuffix alts)).
Proof.
  unfold factorOutCommonPreAndSuffix.
  destruct alts as [|first [|second rest]]; try apply keepsAlts_refl.
  pose proof (shortestOf_spec (second :: rest) first) as Hshort.
  remember (shortestOf first (second :: rest)) as shortest eqn:Eshortest.
  remember (first :: second :: rest) as alts eqn:Ealts. clear Eshortest Ealts.
  set (p := prefixLoop (length shortest) shortest alts 0).
  set (s := suffixLoop (length shortest - p) shortest alts 0).
  destruct ((0 <? p)%nat || (0 <? s)%nat); [|apply keepsAlts_refl].
  simpl fst. intros Hwf.
  destruct Hshort as [Hin Hmin].
  destruct (prefixLoop_spec shortest alts (length shortest) 0) as [Hp1 Hp2].
  destruct (suffixLoop_spec shortest alts (length shortest - p) 0) as [Hs1 Hs2].
  fold p in Hp1, Hp2. fold s in Hs1, Hs2.
  assert (Hdec : forall c, In c alts ->
            c = firstn p shortest ++ stripAffixes p s c
                ++ skipn (length shortest - s) shortest).
  { intros c Hc. apply stripAffixes_decompose; [apply Hmin, Hc | lia | |].
    - intros j Hj. destruct (Hp2 j) as (e & He & Hall); [lia|].
      rewrite He. apply Hall, Hc.
    - intros j Hj. destruct (Hs2 j) as (e & He & Hall); [lia|].
      rewrite He. apply Hall, Hc. }
  assert (Hws : wfConcat shortest) by (apply (proj1 (Forall_forall _ _) Hwf), Hin).
  split.
  - constructor; [|constructor].
    apply wfConcat_app. split; [apply Forall_firstn, Hws|].
    apply wfConcat_cons. split; [|apply Forall_skipn, Hws].
    apply wfElement_Alternation.
    apply Forall_forall. intros c Hc. apply in_map_iff in Hc.
    destruct Hc as (c0 & <- & Hc0). unfold stripAffixes.
    apply Forall_firstn, Forall_skipn. apply (proj1 (Forall_forall _ _) Hwf), Hc0.
  - rewrite langAlts_single, langConcat_app, langConcat_cons, langElement_Alternation.
    symmetry. apply langAlts_factor, Hdec.
Qed.

(** *** [inlineAlternatives] *)

Lemma inlineAlternativesLoop_keeps (fuel : nat) : forall todo,
  keepsAlts todo (fst (inlineAlternativesLoop fuel todo)).
Proof.
  induction fuel as [|fuel IH]; intros todo; simpl; [apply keepsAlts_refl|].
  destruct todo as [|concat rest]; [apply keepsAlts_refl|].
  assert (Hkeep : keepsAlts (concat :: rest)
            (fst (let '(r, inlined) := inlineAlternativesLoop fuel rest in
                  (concat :: r, inlined)))).
  { specialize (IH rest). destruct (inlineAlternativesLoop fuel rest) as [r o].
    simpl in *. intros Hwf. apply wfAlts_cons in Hwf. destruct Hwf as [Hc Hr].
    destruct (IH Hr) as [Hr' L]. split; [apply wfAlts_cons; auto|].
    simpl. rewrite L. reflexivity. }
  destruct concat as [|e c']; [exact Hkeep|].
  destruct e; try exact Hkeep.
  destruct c'; [|exact Hkeep].
  specialize (IH (alternatives ++ rest)).
  destruct (inlineAlternativesLoop fuel (alternatives ++ rest)) as [r o].
  simpl in *. intros Hwf. apply wfAlts_cons in Hwf. destruct Hwf as [Hc Hr].
  apply wfConcat_cons in Hc. destruct Hc as [He _].
  apply wfElement_Alternation in He.
  destruct IH as [Hr' L]; [apply wfAlts_app; auto|].
  split; [exact Hr'|]. rewrite L, langAlts_app.
  rewrite langAlts_cons, langConcat_single, langElement_Alternation. reflexivity.
Qed.

Lemma inlineAlternatives_keeps (alts : list Concatenation) :
  keepsAlts alts (fst (inlineAlternatives alts)).
Proof. apply inlineAlternativesLoop_keeps. Qed.

Lemma wfConcat_single (e : Element) : wfConcat [e] <-> wfElement e.
Proof.
  rewrite wfConcat_cons. split; [tauto | intros H; split; [exact H | constructor]].
Qed.

Lemma wfAlts_single (c : Concatenation) : wfAlts [c] <-> wfConcat c.
Proof.
  rewrite wfAlts_cons. split; [tauto | intros H; split; [exact H | constructor]].
Qed.

(** *** [optimizeEmptyString] *)

Lemma isEmptyConcat_nil (c : Concatenation) : isEmptyConcat c = true <-> c = [].
Proof. destruct c; simpl; split; intros H; try reflexivity; discriminate. Qed.

Lemma langAlts_without_empty (alts : list Concatenation) :
  existsb isEmptyConcat alts = true ->
  langSame (langAlts alts)
           (langOr langUnit (langAlts (filter (fun c => negb (isEmptyConcat c)) alts))).
Proof.
  intros Hex w. unfold langOr. rewrite !langAlts_In. split.
  - intros (c & Hc & Hw). destruct (isEmptyConcat c) eqn:E.
    + apply isEmptyConcat_nil in E. subst c. left. exact Hw.
    + right. exists c. split; [|exact Hw]. apply filter_In. rewrite E. auto.
  - intros [Hw | (c & Hc & Hw)].
    + apply existsb_exists in Hex. destruct Hex as (c & Hc & E).
      apply isEmptyConcat_nil in E. subst c. exists []. auto.
    + apply filter_In in Hc. exists c. tauto.
Qed.

Lemma wfAlts_filter (f : Concatenation -> bool) (alts : list Concatenation) :
  wfAlts alts -> wfAlts (filter f alts).
Proof.
  intros H. apply Forall_forall. intros c Hc. apply filter_In in Hc.
  apply (proj1 (Forall_forall _ _) H), Hc.
Qed.

Lemma lowerFirstQuantifier_spec (alts : list Concatenation) : forall lowered,
  lowerFirstQuantifier alts = (lowered, true) -> wfAlts alts ->
  wfAlts lowered /\ langSame (langAlts lowered) (langOr langUnit (langAlts alts)).
Proof.
  induction alts as [|alt rest IH]; intros lowered H Hwf; simpl in H; [discriminate|].
  apply wfAlts_cons in Hwf. destruct Hwf as [Hwa Hwr].
  assert (Hskip : (let '(rest', changed) := lowerFirstQuantifier rest in
                   (alt :: rest', changed)) = (lowered, true) ->
                  wfAlts lowered
                  /\ langSame (langAlts lowered) (langOr langUnit (langAlts (alt :: rest)))).
  { destruct (lowerFirstQuantifier rest) as [rest' changed].
    intros H'. injection H' as <- ->. destruct (IH rest' eq_refl Hwr) as [W L].
    split; [apply wfAlts_cons; auto|].
    rewrite !langAlts_cons, L. intros w. unfold langOr. tauto. }
  destruct alt as [|e c]; [exact (Hskip H)|].
  destruct e as [cs | a | a qmin qmax | k n a]; try exact (Hskip H).
  destruct qmin as [|[|qmin]]; try exact (Hskip H).
  destruct c; [|exact (Hskip H)].
  injection H as <-.
  apply wfConcat_cons in Hwa. destruct Hwa as [Hq _].
  apply wfElement_Quantifier in Hq. destruct Hq as [Hb Ha]. split.
  - apply wfAlts_cons. split; [|exact Hwr]. apply wfConcat_cons. split; [|constructor].
    apply wfElement_Quantifier. split; [destruct qmax; simpl; [lia | exact I] | exact Ha].
  - rewrite !langAlts_cons, !langConcat_single, !langElement_Quantifier, langQuant_lower.
    intros w. unfold langOr. tauto.
Qed.

Lemma optimizeEmptyString_keeps (alts : list Concatenation) :
  keepsAlts alts (fst (optimizeEmptyString alts)).
Proof.
  unfold optimizeEmptyString.
  destruct ((2 <=? length alts)%nat && existsb isEmptyConcat alts) eqn:E;
    [|apply keepsAlts_refl].
  apply andb_true_iff in E. destruct E as [_ Hex].
  pose proof (langAlts_without_empty alts Hex) as Hlang.
  remember (filter (fun c => negb (isEmptyConcat c)) alts) as filtered eqn:Ef.
  intros Hwf. assert (Hwff : wfAlts filtered) by (subst; apply wfAlts_filter, Hwf).
  destruct (length filtered =? 0)%nat eqn:E0.
  { simpl. split; [apply wfAlts_single; constructor|]. rewrite Hlang.
    destruct filtered; [|discriminate]. simpl.
    intros w. unfold langOr, langEmpty. tauto. }
  destruct (existsb canMatchEmptyStringConcat filtered) eqn:E1.
  { simpl. split; [exact Hwff|]. rewrite Hlang.
    pose proof (canMatchEmptyStringAlts_sound' filtered Hwff E1) as Heps.
    intros w. unfold langOr, langUnit. split; [tauto|]. intros [-> | H]; assumption. }
  destruct (lowerFirstQuantifier filtered) as [lowered [|]] eqn:E2.
  { simpl. destruct (lowerFirstQuantifier_spec filtered lowered E2 Hwff) as [W L].
    split; [exact W|]. rewrite L, Hlang. reflexivity. }
  cbn [fst]. split.
  - apply wfAlts_single, wfConcat_single, wfElement_Quantifier.
    split; [simpl; lia | exact Hwff].
  - rewrite langAlts_single, langConcat_single, langElement_Quantifier, langQuant_0_1, Hlang.
    reflexivity.
Qed.

(** *** [inlineConcat] *)

Lemma inlineableQuantifier_sound (alts : list Concatenation) (qmin : nat) (qmax : Bound) :
  inlineableQuantifier alts qmin qmax = true -> wfAlts alts ->
  langSame (langAlts alts) (langQuant (langAlts alts) qmin qmax).
Proof.
  unfold inlineableQuantifier. intros H Hwf.
  apply andb_true_iff in H. destruct H as [H1 H2].
  destruct qmax as [[|[|m]]|]; try discriminate.
  apply orb_true_iff in H2. destruct H2 as [H2 | H2].
  - apply Nat.eqb_eq in H2. subst qmin. rewrite langQuant_1_1. reflexivity.
  - apply andb_true_iff in H2. destruct H2 as [H2 H3].
    apply Nat.eqb_eq in H2. subst qmin. rewrite langQuant_0_1.
    pose proof (canMatchEmptyStringAlts_sound' alts Hwf H3) as Heps.
    intros w. unfold langOr, langUnit. split; [tauto|]. intros [-> | H]; assumption.
Qed.

Lemma inlineConcatLoop_keeps (fuel : nat) : forall todo,
  keepsConcat todo (fst (inlineConcatLoop fuel todo)).
Proof.
  induction fuel as [|fuel IH]; intros todo; simpl; [apply keepsConcat_refl|].
  destruct todo as [|e0 rest]; [apply keepsConcat_refl|].
  (* what the second [if] does with the element [e] the first one leaves *)
  assert (Hsecond : forall e o1,
            (wfElement e0 -> wfElement e /\ langSame (langElement e) (langElement e0)) ->
            keepsConcat (e0 :: rest)
              (fst (match e with
                    | Alternation [single] =>
                        let '(r, _) := inlineConcatLoop fuel (single ++ rest) in (r, true)
                    | _ =>
                        let '(r, inlined) := inlineConcatLoop fuel rest in
                        (e :: r, o1 || inlined)
                    end))).
  { intros e o1 He.
    assert (Hkeep : keepsConcat (e0 :: rest)
              (fst (let '(r, inlined) := inlineConcatLoop fuel rest in
                    (e :: r, o1 || inlined)))).
    { specialize (IH rest). destruct (inlineConcatLoop fuel rest) as [r o].
      simpl in *. intros Hwf. apply wfConcat_cons in Hwf. destruct Hwf as [W0 Wr].
      destruct (He W0) as [We Le]. destruct (IH Wr) as [Wr' Lr].
      split; [apply wfConcat_cons; auto|].
      rewrite !langConcat_cons, Le, Lr. reflexivity. }
    destruct e as [cs | alts | alts qmin qmax | k n alts]; try exact Hkeep.
    destruct alts as [|single [|second alts']]; try exact Hkeep.
    specialize (IH (single ++ rest)).
    destruct (inlineConcatLoop fuel (single ++ rest)) as [r o].
    simpl in *. intros Hwf. apply wfConcat_cons in Hwf. destruct Hwf as [W0 Wr].
    destruct (He W0) as [We Le].
    apply wfElement_Alternation, wfAlts_cons in We. destruct We as [Ws _].
    destruct IH as [Wr' Lr]; [apply wfConcat_app; auto|].
    split; [exact Wr'|].
    rewrite Lr, langConcat_app, langConcat_cons, <- Le.
    rewrite langElement_Alternation, langAlts_single. reflexivity. }
  destruct e0 as [cs | alts | alts qmin qmax | k n alts].
  - apply (Hsecond (CharacterClass cs) false). intros W. split; [exact W | reflexivity].
  - apply (Hsecond (Alternation alts) false). intros W. split; [exact W | reflexivity].
  - destruct (inlineableQuantifier alts qmin qmax) eqn:E.
    2:{ apply (Hsecond (Quantifier alts qmin qmax) false).
        intros W. split; [exact W | reflexivity]. }
    apply (Hsecond (Alternation alts) true).
    intros W. apply wfElement_Quantifier in W. destruct W as [Wb Wa].
    split; [apply wfElement_Alternation, Wa|].
    rewrite langElement_Alternation, langElement_Quantifier.
    apply inlineableQuantifier_sound; assumption.
  - apply (Hsecond (Assertion k n alts) false). intros W. split; [exact W | reflexivity].
Qed.

Lemma inlineConcat_keeps (c : Concatenation) : keepsConcat c (fst (inlineConcat c)).
Proof. apply inlineConcatLoop_keeps. Qed.

(** *** [letQuantifiersConsumeNeighbors] *)

Section FilterMutForward.
Variable step : Element -> option Element -> option Element.
Hypothesis step_None : forall after, step after None = None.
Hypothesis step_Some : forall after prev prev',
  step after (Some prev) = Some prev' -> wfElement prev -> wfElement after ->
  wfElement prev'
  /\ langSame (langElement prev') (langCat (langElement prev) (langElement after)).

Lemma filterMutLoop_forward (todo : Concatenation) : forall keptRev changed,
  wfConcat (rev keptRev ++ todo) ->
  wfConcat (fst (filterMutLoop step keptRev todo changed))
  /\ langSame (langConcat (fst (filterMutLoop step keptRev todo changed)))
              (langConcat (rev keptRev ++ todo)).
Proof.
  induction todo as [|element todo IH]; intros keptRev changed W; simpl.
  - rewrite app_nil_r in W. rewrite app_nil_r. split; [exact W | reflexivity].
  - destruct keptRev as [|p k]; simpl.
    + rewrite step_None. apply (IH [element] changed). exact W.
    + simpl in W. rewrite <- app_assoc in W. simpl in W.
      apply wfConcat_app in W. destruct W as [Wk W].
      apply wfConcat_cons in W. destruct W as [Wp W].
      apply wfConcat_cons in W. destruct W as [We Wt].
      destruct (step element (Some p)) as [p'|] eqn:E.
      * destruct (step_Some element p p' E Wp We) as [Wp' Lp'].
        destruct (IH (p' :: k) true) as [W' L'].
        { simpl. rewrite <- app_assoc. simpl. apply wfConcat_app. split; [exact Wk|].
          apply wfConcat_cons. split; assumption. }
        split; [exact W'|]. rewrite L'. simpl. rewrite <- !app_assoc. simpl.
        rewrite !langConcat_app, !langConcat_cons, Lp', langCat_assoc. reflexivity.
      * destruct (IH (element :: p :: k) changed) as [W' L'].
        { simpl. rewrite <- !app_assoc. simpl. apply wfConcat_app. split; [exact Wk|].
          apply wfConcat_cons. split; [exact Wp|]. apply wfConcat_cons. split; assumption. }
        split; [exact W'|]. rewrite L'. simpl. rewrite <- !app_assoc. simpl. reflexivity.
Qed.

Lemma filterMut_forward (array : Concatenation) :
  keepsConcat array (fst (filterMut step array)).
Proof. intros W. apply (filterMutLoop_forward array [] false). exact W. Qed.
End FilterMutForward.

Section FilterMutBackward.
Variable step : Element -> option Element -> option Element.
Hypothesis step_None : forall after, step after None = None.
Hypothesis step_Some : forall after prev prev',
  step after (Some prev) = Some prev' -> wfElement prev -> wfElement after ->
  wfElement prev'
  /\ langSame (langElement prev') (langCat (langElement after) (langElement prev)).

Lemma filterMutLoop_backward (todo : Concatenation) : forall keptRev changed,
  wfConcat (rev todo ++ keptRev) ->
  wfConcat (rev (fst (filterMutLoop step keptRev todo changed)))
  /\ langSame (langConcat (rev (fst (filterMutLoop step keptRev todo changed))))
              (langConcat (rev todo ++ keptRev)).
Proof.
  induction todo as [|element todo IH]; intros keptRev changed W; simpl.
  - rewrite rev_involutive. split; [exact W | reflexivity].
  - simpl in W. rewrite <- app_assoc in W. simpl in W.
    apply wfConcat_app in W. destruct W as [Wt W].
    apply wfConcat_cons in W. destruct W as [We Wk].
    rewrite <- app_assoc. simpl.
    destruct keptRev as [|p k]; simpl.
    + rewrite step_None. apply (IH [element] changed).
      apply wfConcat_app. split; [exact Wt|]. apply wfConcat_cons. split; assumption.
    + apply wfConcat_cons in Wk. destruct Wk as [Wp Wk].
      destruct (step element (Some p)) as [p'|] eqn:E.
      * destruct (step_Some element p p' E Wp We) as [Wp' Lp'].
        destruct (IH (p' :: k) true) as [W' L'].
        { apply wfConcat_app. split; [exact Wt|]. apply wfConcat_cons. split; assumption. }
        split; [exact W'|]. rewrite L'.
        rewrite !langConcat_app, !langConcat_cons, Lp', langCat_assoc. reflexivity.
      * apply (IH (element :: p :: k) changed).
        apply wfConcat_app. split; [exact Wt|].
        apply wfConcat_cons. split; [exact We|]. apply wfConcat_cons. split; assumption.
Qed.

Lemma filterMut_backward (array : Concatenation) :
  wfConcat (rev array) ->
  wfConcat (rev (fst (filterMut step array)))
  /\ langSame (langConcat (rev (fst (filterMut step array)))) (langConcat (rev array)).
Proof.
  intros W. destruct (filterMutLoop_backward array [] false) as [W' L'].
  - rewrite app_nil_r. exact W.
  - rewrite app_nil_r in L'. split; assumption.
Qed.
End FilterMutBackward.

Lemma equalToQuantifiedElement_sound (alts : list Concatenation) (e : Element) :
  equalToQuantifiedElement alts e = true ->
  langSame (langElement e) (langAlts alts).
Proof.
  assert (Hsingle : match alts with
                    | [alt] => match alt with
                               | [e'] => structurallyEqual e' e
                               | _ => false
                               end
                    | _ => false
                    end = true -> langSame (langElement e) (langAlts alts)).
  { destruct alts as [|[|e' [|]] [|]]; try discriminate.
    intros H. apply structurallyEqual_eq in H. subst e'.
    rewrite langAlts_single, langConcat_single. reflexivity. }
  destruct e as [cs | alternatives | alternatives qmin qmax | k n alternatives];
    simpl; try exact Hsingle.
  intros H. apply structurallyEqualAlternatives_eq in H. subst.
  rewrite langElement_Alternation. reflexivity.
Qed.

Lemma consumeElement_None (after : Element) : consumeElement after None = None.
Proof. reflexivity. Qed.

Lemma consumeElement_inv (after prev prev' : Element) :
  consumeElement after (Some prev) = Some prev' ->
  exists alts qmin qmax,
    prev = Quantifier alts qmin qmax
    /\ prev' = Quantifier alts (qmin + 1) (boundAdd qmax (Fin 1))
    /\ langSame (langElement after) (langAlts alts).
Proof.
  destruct prev as [cs | alternatives | alternatives qmin qmax | k n alternatives];
    simpl; try discriminate.
  destruct (equalToQuantifiedElement alternatives after) eqn:E; [|discriminate].
  intros H. injection H as <-. exists alternatives, qmin, qmax.
  split; [reflexivity|]. split; [reflexivity|].
  apply equalToQuantifiedElement_sound, E.
Qed.

Lemma wfElement_consumed (alts : list Concatenation) (qmin n : nat) (qmax b : Bound) :
  wfElement (Quantifier alts qmin qmax) -> inBound n b ->
  wfElement (Quantifier alts (qmin + n) (boundAdd qmax b)).
Proof.
  rewrite !wfElement_Quantifier. intros [Wb Wa] Hn.
  split; [apply inBound_boundAdd; assumption | exact Wa].
Qed.

Lemma consumeElement_forward (after prev prev' : Element) :
  consumeElement after (Some prev) = Some prev' -> wfElement prev -> wfElement after ->
  wfElement prev'
  /\ langSame (langElement prev') (langCat (langElement prev) (langElement after)).
Proof.
  intros H Wp Wa. destruct (consumeElement_inv after prev prev' H)
    as (alts & qmin & qmax & -> & -> & L).
  split; [apply wfElement_consumed; [exact Wp | simpl; lia]|].
  rewrite !langElement_Quantifier, L. symmetry. apply langQuant_consume_r.
Qed.

Lemma consumeElement_backward (after prev prev' : Element) :
  consumeElement after (Some prev) = Some prev' -> wfElement prev -> wfElement after ->
  wfElement prev'
  /\ langSame (langElement prev') (langCat (langElement after) (langElement prev)).
Proof.
  intros H Wp Wa. destruct (consumeElement_inv after prev prev' H)
    as (alts & qmin & qmax & -> & -> & L).
  split; [apply wfElement_consumed; [exact Wp | simpl; lia]|].
  rewrite !langElement_Quantifier, L. symmetry. apply langQuant_consume_l.
Qed.

Lemma consumeQuantifier_None (after : Element) : consumeQuantifier after None = None.
Proof. reflexivity. Qed.

Lemma consumeQuantifier_forward (after prev prev' : Element) :
  consumeQuantifier after (Some prev) = Some prev' -> wfElement prev -> wfElement after ->
  wfElement prev'
  /\ langSame (langElement prev') (langCat (langElement prev) (langElement after)).
Proof.
  destruct prev as [cs | alternatives | alternatives qmin qmax | k n alternatives];
    simpl; try discriminate.
  destruct after as [cs | afterAlts | afterAlts afterMin afterMax | k n afterAlts];
    try discriminate.
  destruct (structurallyEqualAlternatives alternatives afterAlts) eqn:E; [|discriminate].
  apply structurallyEqualAlternatives_eq in E. subst afterAlts.
  intros H Wp Wa. injection H as <-.
  pose proof Wp as Wp0. pose proof Wa as Wa0.
  apply wfElement_Quantifier in Wp0, Wa0.
  split; [apply wfElement_consumed; [exact Wp | tauto]|].
  rewrite !langElement_Quantifier. symmetry. apply langQuant_merge; tauto.
Qed.

Lemma wfConcat_rev (c : Concatenation) : wfConcat (rev c) <-> wfConcat c.
Proof.
  unfold wfConcat. rewrite !Forall_forall.
  split; intros H x Hx; apply H; [apply in_rev in Hx | apply in_rev]; exact Hx.
Qed.

Lemma letQuantifiersConsumeNeighbors_keeps (elements : Concatenation) :
  keepsConcat elements (fst (letQuantifiersConsumeNeighbors elements)).
Proof.
  unfold letQuantifiersConsumeNeighbors. intros W.
  destruct (filterMut_forward consumeElement consumeElement_None
              consumeElement_forward elements W) as [W1 L1].
  destruct (filterMut consumeElement elements) as [e1 o1]. cbn [fst] in *.
  destruct (filterMut_backward consumeElement consumeElement_None
              consumeElement_backward (rev e1)) as [W2 L2].
  { rewrite rev_involutive. exact W1. }
  destruct (filterMut consumeElement (rev e1)) as [e2 o2]. cbn [fst] in *.
  rewrite rev_involutive in L2.
  destruct (filterMut_forward consumeQuantifier consumeQuantifier_None
              consumeQuantifier_forward (rev e2) W2) as [W3 L3].
  destruct (filterMut consumeQuantifier (rev e2)) as [e3 o3]. cbn [fst] in *.
  split; [exact W3|]. rewrite L3, L2, L1. reflexivity.
Qed.

(** *** The handlers of [optimize] *)

Lemma onNodeWithAlternatives_keeps (alts : list Concatenation) :
  keepsAlts alts (fst (onNodeWithAlternatives alts)).
Proof.
  unfold onNodeWithAlternatives.
  pose proof (inlineAlternatives_keeps alts) as K1.
  destruct (inlineAlternatives alts) as [a1 o1]. cbn [fst] in *.
  pose proof (optimizeEmptyString_keeps a1) as K2.
  destruct (optimizeEmptyString a1) as [a2 o2]. cbn [fst] in *.
  pose proof (factorOutCommonPreAndSuffix_keeps a2) as K3.
  destruct (factorOutCommonPreAndSuffix a2) as [a3 o3]. cbn [fst] in *.
  apply (keepsAlts_trans alts a1 a3 K1), (keepsAlts_trans a1 a2 a3 K2), K3.
Qed.

Lemma onConcatenationLeave_keeps (c : Concatenation) :
  keepsConcat c (fst (onConcatenationLeave c)).
Proof.
  unfold onConcatenationLeave.
  pose proof (inlineConcat_keeps c) as K1.
  destruct (inlineConcat c) as [e1 o1]. cbn [fst] in *.
  pose proof (letQuantifiersConsumeNeighbors_keeps e1) as K2.
  destruct (letQuantifiersConsumeNeighbors e1) as [e2 o2]. cbn [fst] in *.
  apply (keepsConcat_trans c e1 e2 K1), K2.
Qed.

Lemma zeroOrOne_le (n : nat) : zeroOrOne n = true -> (n <= 1)%nat.
Proof.
  unfold zeroOrOne. intros H. apply orb_true_iff in H.
  rewrite !Nat.eqb_eq in H. lia.
Qed.

Lemma getSingleQuantifier_Some (a eAlts : list Concatenation) (eMin : nat) (eMax : Bound) :
  getSingleQuantifier a = Some (eAlts, eMin, eMax) -> a = [[Quantifier eAlts eMin eMax]].
Proof.
  destruct a as [|[|[| | |] [|]] [|]]; simpl; try discriminate.
  intros H. injection H as -> -> ->. reflexivity.
Qed.

Lemma inBound_nested (emin qmin : nat) (emax qmax : Bound) :
  (emin <= 1)%nat -> (qmin <= 1)%nat -> inBound emin emax -> inBound qmin qmax ->
  inBound (qmin * emin) (safeMultiply qmax emax).
Proof.
  intros He Hq Ie Iq. apply inBound_safeMultiply_gen.
  destruct qmax as [n|], emax as [m|]; simpl in *; try nia; try tauto.
Qed.

Lemma onQuantifierLeave_keeps (alts : list Concatenation) (qmin : nat) (qmax : Bound) :
  wfAlts alts -> inBound qmin qmax ->
  wfElement (fst (onQuantifierLeave alts qmin qmax))
  /\ langSame (langElement (fst (onQuantifierLeave alts qmin qmax)))
              (langQuant (langAlts alts) qmin qmax).
Proof.
  intros W Hb. unfold onQuantifierLeave.
  destruct (onNodeWithAlternatives_keeps alts W) as [W1 L1].
  destruct (onNodeWithAlternatives alts) as [a o]. cbn [fst] in *.
  assert (Hplain : wfElement (Quantifier a qmin qmax)
                   /\ langSame (langElement (Quantifier a qmin qmax))
                               (langQuant (langAlts alts) qmin qmax)).
  { split; [apply wfElement_Quantifier; tauto|].
    rewrite langElement_Quantifier, L1. reflexivity. }
  destruct (zeroOrOne qmin) eqn:Zq; [|exact Hplain].
  destruct (getSingleQuantifier a) as [[[eAlts eMin] eMax]|] eqn:G; [|exact Hplain].
  destruct (zeroOrOne eMin) eqn:Ze; [|exact Hplain].
  apply getSingleQuantifier_Some in G. subst a. cbn [fst].
  apply zeroOrOne_le in Zq, Ze.
  apply wfAlts_single, wfConcat_single, wfElement_Quantifier in W1.
  destruct W1 as [We Wa].
  split.
  - apply wfElement_Quantifier. split; [apply inBound_nested; assumption | exact Wa].
  - rewrite langElement_Quantifier, <- L1, langAlts_single, langConcat_single,
      langElement_Quantifier.
    symmetry. apply langQuant_nested; assumption.
Qed.

(** *** The traversal *)

Lemma visitList_keepsConcat (visit : Element -> Element * bool) (c : Concatenation) :
  Forall (fun e => wfElement e ->
            wfElement (fst (visit e))
            /\ langSame (langElement (fst (visit e))) (langElement e)) c ->
  keepsConcat c (fst (visitList visit c)).
Proof.
  induction 1 as [|e c He Hc IH]; intros W; simpl.
  - split; [exact W | reflexivity].
  - apply wfConcat_cons in W. destruct W as [We Wc].
    destruct (He We) as [We' Le']. destruct (IH Wc) as [Wc' Lc'].
    destruct (visit e) as [e' o1]. destruct (visitList visit c) as [c' o2].
    cbn [fst] in *. split; [apply wfConcat_cons; tauto|].
    rewrite !langConcat_cons, Le', Lc'. reflexivity.
Qed.

Lemma visitList_keepsAlts (visit : Concatenation -> Concatenation * bool)
  (a : list Concatenation) :
  Forall (fun c => keepsConcat c (fst (visit c))) a ->
  keepsAlts a (fst (visitList visit a)).
Proof.
  induction 1 as [|c a Hc Ha IH]; intros W; simpl.
  - split; [exact W | reflexivity].
  - apply wfAlts_cons in W. destruct W as [Wc Wa].
    destruct (Hc Wc) as [Wc' Lc']. destruct (IH Wa) as [Wa' La'].
    destruct (visit c) as [c' o1]. destruct (visitList visit a) as [a' o2].
    cbn [fst] in *. split; [apply wfAlts_cons; tauto|].
    rewrite !langAlts_cons, Lc', La'. reflexivity.
Qed.

Definition keepsElement (e : Element) : Prop :=
  wfElement e ->
  wfElement (fst (visitElement e))
  /\ langSame (langElement (fst (visitElement e))) (langElement e).

Lemma visitConcatenation_keeps (c : Concatenation) :
  Forall keepsElement c -> keepsConcat c (fst (visitConcatenation c)).
Proof.
  intros H. unfold visitConcatenation.
  pose proof (visitList_keepsConcat visitElement c H) as K1.
  destruct (visitList visitElement c) as [c1 o1]. cbn [fst] in *.
  pose proof (onConcatenationLeave_keeps c1) as K2.
  destruct (onConcatenationLeave c1) as [c2 o2]. cbn [fst] in *.
  apply (keepsConcat_trans c c1 c2 K1 K2).
Qed.

Lemma visitAlternatives_keeps (a : list Concatenation) :
  Forall (Forall keepsElement) a ->
  keepsAlts a (fst (visitList visitConcatenation a)).
Proof.
  intros H. apply visitList_keepsAlts.
  induction H as [|c a Hc Ha IH]; constructor; [|exact IH].
  apply visitConcatenation_keeps, Hc.
Qed.

Lemma visitElement_keeps (e : Element) : keepsElement e.
Proof.
  induction e as [cs | alts IH | alts qmin qmax IH | k n alts IH]
    using Element_nested_ind; unfold keepsElement; rewrite visitElement_eq.
  - intros W. split; [exact W | reflexivity].
  - intros W. apply wfElement_Alternation in W.
    destruct (visitAlternatives_keeps alts IH W) as [W1 L1].
    destruct (visitList visitConcatenation alts) as [a1 o1]. cbn [fst] in *.
    destruct (onNodeWithAlternatives_keeps a1 W1) as [W2 L2].
    destruct (onNodeWithAlternatives a1) as [a2 o2]. cbn [fst] in *.
    split; [apply wfElement_Alternation, W2|].
    rewrite !langElement_Alternation, L2, L1. reflexivity.
  - intros W. apply wfElement_Quantifier in W. destruct W as [Wb W].
    destruct (visitAlternatives_keeps alts IH W) as [W1 L1].
    destruct (visitList visitConcatenation alts) as [a1 o1]. cbn [fst] in *.
    destruct (onQuantifierLeave_keeps a1 qmin qmax W1 Wb) as [W2 L2].
    destruct (onQuantifierLeave a1 qmin qmax) as [q o2]. cbn [fst] in *.
    split; [exact W2|].
    rewrite L2, langElement_Quantifier, L1. reflexivity.
  - intros W. exfalso. revert W. unfold wfElement. simpl. tauto.
Qed.

Definition wfExpr (e : Expression) : Prop := wfAlts (expressionAlternatives e).

Lemma optimize_keeps (expr : Expression) :
  wfExpr expr ->
  wfExpr (fst (optimize expr))
  /\ langSame (langExpr (fst (optimize expr))) (langExpr expr).
Proof.
  destruct expr as [alts]. unfold wfExpr, langExpr, optimize. simpl. intros W.
  destruct (visitAlternatives_keeps alts) as [W1 L1]; [|exact W|].
  { apply Forall_forall. intros c _. apply Forall_forall. intros e _.
    apply visitElement_keeps. }
  destruct (visitList visitConcatenation alts) as [a1 o1]. cbn [fst] in *.
  destruct (onNodeWithAlternatives_keeps a1 W1) as [W2 L2].
  destruct (onNodeWithAlternatives a1) as [a2 o2]. cbn [fst] in *.
  split; [exact W2|]. rewrite L2, L1. reflexivity.
Qed.

(* ================================================================= *)
(** ** Computations that return *)

(** The rewrites of the simplifier are used through their properties. *)
Arguments inlineConcat : simpl never.
Arguments factorOutCommonPreAndSuffix : simpl never.
Arguments inlineAlternatives : simpl never.
Arguments optimize : simpl never.
Arguments union : simpl never.

(** [returns m a]: the computation [m] does not throw and its value is [a],
    whatever the ceiling of the factory. *)
Definition returns {A : Type} (m : TC A) (a : A) : Prop :=
  exists n, outcome m = Some (a, n).

Lemma returns_Ret {A : Type} (a b : A) : returns (Ret a) b <-> a = b.
Proof.
  unfold returns; simpl. split.
  - intros (n & H). injection H as -> _. reflexivity.
  - intros ->. exists 0. reflexivity.
Qed.

Lemma returns_Throw {A : Type} (e : Error) (a : A) : ~ returns (Throw e) a.
Proof. intros (n & H). discriminate. Qed.

Lemma returns_Tick {A : Type} (k : TC A) (a : A) : returns (Tick k) a <-> returns k a.
Proof.
  unfold returns; simpl. split.
  - intros (n & H). destruct (outcome k) as [[a1 n1]|]; [|discriminate].
    injection H as -> _. exists n1. reflexivity.
  - intros (n & H). rewrite H. exists (n + 1). reflexivity.
Qed.

Lemma returns_bind {A B : Type} (m : TC A) (f : A -> TC B) (b : B) :
  returns (tbind m f) b <-> exists a, returns m a /\ returns (f a) b.
Proof.
  unfold returns. rewrite outcome_bind. split.
  - intros (n & H). destruct (outcome m) as [[a n1]|]; [|discriminate].
    destruct (outcome (f a)) as [[b1 n2]|] eqn:E; [|discriminate].
    injection H as -> _. exists a. split; [exists n1 | exists n2]; trivial.
  - intros (a & (n1 & H1) & (n2 & H2)). rewrite H1, H2. eexists. reflexivity.
Qed.

Lemma returns_liftResult {A : Type} (r : Result A) (a : A) :
  returns (liftResult r) a <-> r = Ok a.
Proof.
  destruct r as [a'|e]; simpl.
  - rewrite returns_Ret. split; congruence.
  - split; [intros H; destruct (returns_Throw e a H) | discriminate].
Qed.

Lemma returns_unwrap {A : Type} (x : option A) (a : A) :
  returns (Elimination.unwrap x) a <-> x = Some a.
Proof.
  destruct x as [a'|]; simpl.
  - rewrite returns_Ret. split; congruence.
  - split; [intros H; destruct (returns_Throw _ a H) | discriminate].
Qed.

Lemma returns_functional {A : Type} (m : TC A) (a b : A) :
  returns m a -> returns m b -> a = b.
Proof. intros (n & H) (n' & H'). congruence. Qed.

Lemma run_returns {A : Type} (max : Z) (m : TC A) (c : Z) (a : A) (c' : Z) :
  run max m c = Ok (a, c') -> returns m a.
Proof. intros H. destruct (run_Ok max m c a c' H) as (n & Ho & _). exists n. exact Ho. Qed.

(** Taking a returning computation apart along its binds. *)
Ltac tc_step H :=
  match type of H with
  | returns (tbind _ _) _ =>
      let a := fresh "x" in let Ha := fresh "R" in
      apply (proj1 (returns_bind _ _ _)) in H; destruct H as (a & Ha & H)
  | returns (Ret _) _ => apply (proj1 (returns_Ret _ _)) in H
  | returns (Tick _) _ => apply (proj1 (returns_Tick _ _)) in H
  | returns (Throw _) _ => destruct (returns_Throw _ _ H)
  | returns (liftResult _) _ => apply (proj1 (returns_liftResult _ _)) in H
  | returns (Elimination.unwrap _) _ => apply (proj1 (returns_unwrap _ _)) in H
  end.

Ltac tc_inv H := repeat (tc_step H; cbv beta in H).

Lemma returns_factory :
  (forall es c, returns (tc.concat es) c <-> c = es)
  /\ (forall c, returns tc.emptyConcat c <-> c = [])
  /\ (forall alts e, returns (tc.alter alts) e <-> e = Alternation alts)
  /\ (forall alts e, returns (tc.expression alts) e <-> e = mkExpression alts)
  /\ (forall e, returns tc.emptyExpression e <-> e = mkExpression [])
  /\ (forall cs e, returns (tc.char cs) e <-> e = CharacterClass cs)
  /\ (forall alts qmin qmax e,
        returns (tc.quant alts qmin qmax) e <-> e = Quantifier alts qmin qmax)
  /\ (forall alts e, returns (tc.quantStar alts) e <-> e = Quantifier alts 0 Infinity)
  /\ (forall alts e, returns (tc.quantPlus alts) e <-> e = Quantifier alts 1 Infinity).
Proof.
  repeat split; intros H; subst;
    try (unfold tc.concat, tc.emptyConcat, tc.alter, tc.expression, tc.emptyExpression,
           tc.char, tc.quant, tc.quantStar, tc.quantPlus, incrementCounter in H;
         simpl in H; apply (proj1 (returns_Tick _ _)), (proj1 (returns_Ret _ _)) in H;
         congruence);
    apply (proj2 (returns_Tick _ _)), (proj2 (returns_Ret _ _)); reflexivity.
Qed.

Lemma returns_concat (es c : Concatenation) : returns (tc.concat es) c <-> c = es.
Proof. apply returns_factory. Qed.
Lemma returns_emptyConcat (c : Concatenation) : returns tc.emptyConcat c <-> c = [].
Proof. apply returns_factory. Qed.
Lemma returns_alter (alts : list Concatenation) (e : Element) :
  returns (tc.alter alts) e <-> e = Alternation alts.
Proof. apply returns_factory. Qed.
Lemma returns_expression (alts : list Concatenation) (e : Expression) :
  returns (tc.expression alts) e <-> e = mkExpression alts.
Proof. apply returns_factory. Qed.
Lemma returns_emptyExpression (e : Expression) :
  returns tc.emptyExpression e <-> e = mkExpression [].
Proof. apply returns_factory. Qed.
Lemma returns_char (cs : CharSet) (e : Element) :
  returns (tc.char cs) e <-> e = CharacterClass cs.
Proof. apply returns_factory. Qed.
Lemma returns_quantStar (alts : list Concatenation) (e : Element) :
  returns (tc.quantStar alts) e <-> e = Quantifier alts 0 Infinity.
Proof. apply returns_factory. Qed.
Lemma returns_quantPlus (alts : list Concatenation) (e : Element) :
  returns (tc.quantPlus alts) e <-> e = Quantifier alts 1 Infinity.
Proof. apply returns_factory. Qed.

(** [foldM] with an invariant on what has been processed. *)
Lemma foldM_returns {A St : Type} (f : St -> A -> TC St) (P : list A -> St -> Prop)
  (l : list A) :
  (forall done x st st',
      (exists rest, l = done ++ x :: rest) ->
      P done st -> returns (f st x) st' -> P (done ++ [x]) st') ->
  forall st st', P [] st -> returns (foldM f l st) st' -> P l st'.
Proof.
  intros Hstep.
  assert (G : forall todo done st st',
             l = done ++ todo -> P done st -> returns (foldM f todo st) st' -> P l st').
  { induction todo as [|x todo IH]; intros done st st' El HP H; simpl in H.
    - apply returns_Ret in H. subst st'. rewrite app_nil_r in El. subst l. exact HP.
    - apply returns_bind in H. destruct H as (st1 & H1 & H).
      apply (IH (done ++ [x]) st1 st'); [rewrite <- app_assoc; exact El | | exact H].
      apply (Hstep done x st st1); [exists todo; exact El | exact HP | exact H1]. }
  intros st st' HP H. apply (G l [] st st' eq_refl HP H).
Qed.

(* ================================================================= *)
(** ** The operations on transitions *)

Lemma langElement_CharacterClass (cs : CharSet) (w : Word) :
  langElement (CharacterClass cs) w <-> exists c, w = [c] /\ InRanges c (ranges cs).
Proof. reflexivity. Qed.

Lemma wfElement_CharacterClass (cs : CharSet) :
  wfElement (CharacterClass cs) <-> NormalForm cs.
Proof. reflexivity. Qed.

Lemma wfElement_Assertion (k : AssertionKind) (n : bool) (alts : list Concatenation) :
  ~ wfElement (Assertion k n alts).
Proof. intros H. exact H. Qed.

Lemma wfElement_assertionFree (e : Element) : wfElement e -> assertionFree e = true.
Proof.
  induction e as [cs | alts IH | alts qmin qmax IH | k n alts IH]
    using Element_nested_ind; intros W.
  - reflexivity.
  - apply wfElement_Alternation in W. simpl.
    apply forallb_forall. intros c Hc. apply forallb_forall. intros e He.
    rewrite Forall_forall in IH. pose proof (IH c Hc) as IHc.
    rewrite Forall_forall in IHc. apply (IHc e He).
    unfold wfAlts, wfConcat in W. rewrite Forall_forall in W.
    pose proof (W c Hc) as Wc. rewrite Forall_forall in Wc. apply (Wc e He).
  - apply wfElement_Quantifier in W. destruct W as [_ W]. simpl.
    apply forallb_forall. intros c Hc. apply forallb_forall. intros e He.
    rewrite Forall_forall in IH. pose proof (IH c Hc) as IHc.
    rewrite Forall_forall in IHc. apply (IHc e He).
    unfold wfAlts, wfConcat in W. rewrite Forall_forall in W.
    pose proof (W c Hc) as Wc. rewrite Forall_forall in Wc. apply (Wc e He).
  - destruct (wfElement_Assertion k n alts W).
Qed.

Lemma wfT_assertionFreeT (t : Transition) : wfT t -> assertionFreeT t = true.
Proof.
  destruct t as [c | e]; simpl.
  - intros W. apply forallb_forall. intros e He. apply wfElement_assertionFree.
    unfold wfConcat in W. rewrite Forall_forall in W. apply (W e He).
  - apply wfElement_assertionFree.
Qed.

(** [copy] returns a tree that is structurally the one it is given. *)
Lemma copy_returns (t t' : Transition) : wfT t -> returns (tc.copy t) t' -> t' = t.
Proof.
  intros W (n & H). rewrite (copy_outcome t (wfT_assertionFreeT t W)) in H.
  injection H as -> _. reflexivity.
Qed.

Lemma union_set_spec (this first u : CharSet) :
  NormalForm this -> NormalForm first -> union this [OfSet first] = Ok u ->
  NormalForm u
  /\ forall c, InRanges c (ranges u) <-> InRanges c (ranges this) \/ InRanges c (ranges first).
Proof.
  intros Nt Nf H. pose proof Nt as Nt0. pose proof Nf as Nf0.
  apply NormalForm_normalFrom in Nt0, Nf0. destruct Nt0 as [Mt Nt0], Nf0 as [Mf Nf0].
  destruct (union_normal this [OfSet first] u Nt0) as [Em Nu]; [| exact H |].
  { intros o [Ho | []]. injection Ho as <-. exact Nf0. }
  split; [apply NormalForm_normalFrom; split; [lia | exact Nu]|].
  unfold union, checkCompatibility in H.
  destruct (maximum first =? maximum this) eqn:E; simpl in H; [|discriminate]. zcmp.
  destruct (length (ranges first) =? 0)%nat eqn:El; injection H as <-.
  - apply Nat.eqb_eq, length_zero_iff_nil in El. rewrite El. intros c.
    pose proof (InRanges_nil c). tauto.
  - simpl. intros c. apply (unionRanges_In c _ _ (maximum this)); [exact Nt0|].
    rewrite <- E. exact Nf0.
Qed.

Lemma asConcatenation_spec (a : Transition) (c : Concatenation) :
  returns (Elimination.asConcatenation a) c -> wfT a ->
  wfConcat c /\ langSame (langConcat c) (langT a).
Proof.
  destruct a as [c0 | e]; simpl; intros H W.
  - apply returns_Ret in H. subst c. split; [exact W | reflexivity].
  - apply returns_concat in H. subst c.
    split; [apply wfConcat_single, W | apply langConcat_single].
Qed.

Lemma factored_keeps (e : Element) :
  wfElement e ->
  wfElement (Elimination.factored e)
  /\ langSame (langElement (Elimination.factored e)) (langElement e).
Proof.
  destruct e as [cs | alts | alts qmin qmax | k n alts]; simpl; intros W;
    try (split; [exact W | reflexivity]).
  apply wfElement_Alternation in W.
  destruct (factorOutCommonPreAndSuffix_keeps alts W) as [W' L'].
  split; [apply wfElement_Alternation, W'|].
  rewrite !langElement_Alternation. exact L'.
Qed.

Lemma length_eqb_0 {A : Type} (l : list A) : (length l =? 0)%nat = true <-> l = [].
Proof. rewrite Nat.eqb_eq. apply length_zero_iff_nil. Qed.

Lemma concat_spec (a b t : Transition) :
  returns (Elimination.concat a b) t -> wfT a -> wfT b ->
  wfT t /\ langSame (langT t) (langCat (langT a) (langT b)).
Proof.
  destruct a as [aElements | aElem]; simpl.
  - destruct (length aElements =? 0)%nat eqn:E.
    + apply length_eqb_0 in E. subst aElements. intros H Wa Wb.
      apply returns_Ret in H. subst t. split; [exact Wb|].
      simpl. rewrite langCat_unit_l. reflexivity.
    + destruct b as [bElements | bElem]; intros H Wa Wb; apply returns_Ret in H; subst t;
        simpl in *.
      * destruct (inlineConcat_keeps (aElements ++ bElements)) as [W' L'].
        { apply wfConcat_app. split; assumption. }
        split; [exact W'|]. rewrite L', langConcat_app. reflexivity.
      * destruct (factored_keeps bElem Wb) as [Wf Lf].
        destruct (inlineConcat_keeps (aElements ++ [Elimination.factored bElem]))
          as [W' L'].
        { apply wfConcat_app. split; [exact Wa | apply wfConcat_single, Wf]. }
        split; [exact W'|].
        rewrite L', langConcat_app, langConcat_single, Lf. reflexivity.
  - destruct b as [bElements | bElem]; simpl.
    + destruct (length bElements =? 0)%nat eqn:E.
      * apply length_eqb_0 in E. subst bElements. intros H Wa Wb.
        apply returns_Ret in H. subst t. split; [exact Wa|].
        simpl. rewrite langCat_unit_r. reflexivity.
      * intros H Wa Wb. apply returns_Ret in H. subst t. simpl.
        destruct (factored_keeps aElem Wa) as [Wf Lf].
        destruct (inlineConcat_keeps (Elimination.factored aElem :: bElements))
          as [W' L'].
        { apply wfConcat_cons. split; assumption. }
        split; [exact W'|]. rewrite L', langConcat_cons, Lf. reflexivity.
    + intros H Wa Wb. tc_inv H. subst t. simpl.
      destruct (factored_keeps aElem Wa) as [Wfa Lfa].
      destruct (factored_keeps bElem Wb) as [Wfb Lfb].
      destruct (inlineConcat_keeps [Elimination.factored aElem; Elimination.factored bElem])
        as [W' L'].
      { apply wfConcat_cons. split; [exact Wfa | apply wfConcat_single, Wfb]. }
      split; [exact W'|].
      rewrite L', langConcat_cons, langConcat_single, Lfa, Lfb. reflexivity.
Qed.

Lemma langElement_union (a b u : CharSet) :
  (forall c, InRanges c (ranges u) <-> InRanges c (ranges a) \/ InRanges c (ranges b)) ->
  langSame (langElement (CharacterClass u))
           (langOr (langElement (CharacterClass a)) (langElement (CharacterClass b))).
Proof.
  intros H w. unfold langOr. rewrite !langElement_CharacterClass. split.
  - intros (c & -> & Hc). apply H in Hc. destruct Hc as [Hc | Hc];
      [left | right]; exists c; tauto.
  - intros [(c & -> & Hc) | (c & -> & Hc)]; exists c; rewrite H; tauto.
Qed.

Lemma unionAlternationAndCharClass_spec (cs : CharSet) (todo : list Concatenation) :
  forall done alts,
  returns (Elimination.unionAlternationAndCharClass done todo (CharacterClass cs) cs) alts ->
  wfAlts done -> wfAlts todo -> NormalForm cs ->
  wfAlts alts
  /\ langSame (langAlts alts)
              (langOr (langAlts (done ++ todo)) (langElement (CharacterClass cs))).
Proof.
  induction todo as [|alt todo IH]; intros done alts H Wd Wt N.
  - simpl in H. tc_inv H. subst alts.
    split.
    + apply wfAlts_app. split; [exact Wd|]. apply wfAlts_single, wfConcat_single. exact N.
    + rewrite app_nil_r, langAlts_app, langAlts_single, langConcat_single. reflexivity.
  - apply wfAlts_cons in Wt. destruct Wt as [Wa Wt].
    assert (Hskip :
      returns (Elimination.unionAlternationAndCharClass (done ++ [alt]) todo
                 (CharacterClass cs) cs) alts ->
      wfAlts alts
      /\ langSame (langAlts alts)
                  (langOr (langAlts (done ++ alt :: todo))
                          (langElement (CharacterClass cs)))).
    { intros H'. destruct (IH (done ++ [alt]) alts H') as [W' L']; try assumption.
      - apply wfAlts_app. split; [exact Wd | apply wfAlts_single, Wa].
      - split; [exact W'|]. rewrite L', <- app_assoc. reflexivity. }
    simpl in H.
    destruct alt as [|[firstCharacters | | |] [|]]; try (apply Hskip; exact H).
    tc_inv H. subst alts. tc_step R.
    apply wfConcat_single, wfElement_CharacterClass in Wa.
    destruct (union_set_spec firstCharacters cs x Wa N R) as [Nu Hu].
    split.
    + apply wfAlts_app. split; [exact Wd|]. apply wfAlts_cons. split; [|exact Wt].
      apply wfConcat_single, wfElement_CharacterClass. exact Nu.
    + rewrite !langAlts_app, !langAlts_cons, !langConcat_single.
      rewrite (langElement_union firstCharacters cs x Hu).
      intros w. unfold langOr. tauto.
Qed.

Lemma unionAlternatives_spec (bAlts : list Concatenation) : forall aAlts alts,
  returns (Elimination.unionAlternatives aAlts bAlts) alts ->
  wfAlts aAlts -> wfAlts bAlts ->
  wfAlts alts /\ langSame (langAlts alts) (langOr (langAlts aAlts) (langAlts bAlts)).
Proof.
  induction bAlts as [|alt rest IH]; intros aAlts alts H Wa Wb.
  - simpl in H. apply returns_Ret in H. subst alts. split; [exact Wa|].
    simpl. rewrite langOr_empty_r. reflexivity.
  - apply wfAlts_cons in Wb. destruct Wb as [Walt Wrest].
    assert (Hpush :
      returns (Elimination.unionAlternatives (aAlts ++ [alt]) rest) alts ->
      wfAlts alts
      /\ langSame (langAlts alts) (langOr (langAlts aAlts) (langAlts (alt :: rest)))).
    { intros H'. destruct (IH (aAlts ++ [alt]) alts H') as [W' L']; try assumption.
      - apply wfAlts_app. split; [exact Wa | apply wfAlts_single, Walt].
      - split; [exact W'|].
        rewrite L', langAlts_app, langAlts_single, langAlts_cons.
        intros w. unfold langOr. tauto. }
    simpl in H.
    destruct alt as [|[characters | | |] [|]]; try (apply Hpush; exact H).
    tc_inv H.
    apply wfConcat_single, wfElement_CharacterClass in Walt.
    destruct (unionAlternationAndCharClass_spec characters aAlts [] x R)
      as [Wx Lx]; [constructor | exact Wa | exact Walt |].
    destruct (IH x alts H Wx Wrest) as [W' L'].
    split; [exact W'|].
    rewrite L', Lx, langAlts_cons, langConcat_single. simpl.
    intros w. unfold langOr. tauto.
Qed.

Lemma union_pair_spec (a b t : Transition) :
  returns (tbind (Elimination.asConcatenation a) (fun ca =>
           tbind (Elimination.asConcatenation b) (fun cb =>
           tbind (tc.alter [ca; cb]) (fun e => Ret (TElem e))))) t ->
  wfT a -> wfT b ->
  wfT t /\ langSame (langT t) (langOr (langT a) (langT b)).
Proof.
  intros H Wa Wb. tc_step H. tc_step H. tc_step H. tc_step H. subst t.
  apply returns_alter in R1. subst x1.
  destruct (asConcatenation_spec a x R Wa) as [W1 L1].
  destruct (asConcatenation_spec b x0 R0 Wb) as [W2 L2].
  split.
  - apply wfElement_Alternation, wfAlts_cons. split; [exact W1 | apply wfAlts_single, W2].
  - simpl. rewrite langElement_Alternation, langAlts_cons, langAlts_single, L1, L2.
    reflexivity.
Qed.

Lemma union_push_spec (alts : list Concatenation) (b t : Transition) :
  returns (tbind (Elimination.asConcatenation b) (fun c =>
           Ret (TElem (Alternation (alts ++ [c]))))) t ->
  wfAlts alts -> wfT b ->
  wfT t /\ langSame (langT t) (langOr (langAlts alts) (langT b)).
Proof.
  intros H Wa Wb. tc_step H. tc_step H. subst t.
  destruct (asConcatenation_spec b x R Wb) as [W1 L1].
  split.
  - apply wfElement_Alternation, wfAlts_app. split; [exact Wa | apply wfAlts_single, W1].
  - simpl. rewrite langElement_Alternation, langAlts_app, langAlts_single, L1.
    reflexivity.
Qed.

Lemma union_char_spec (alts : list Concatenation) (cs : CharSet) (t : Transition) :
  returns (tbind (Elimination.unionAlternationAndCharClass [] alts (CharacterClass cs) cs)
                 (fun alts' => Ret (TElem (Alternation alts')))) t ->
  wfAlts alts -> NormalForm cs ->
  wfT t /\ langSame (langT t) (langOr (langAlts alts) (langElement (CharacterClass cs))).
Proof.
  intros H Wa N. tc_step H. tc_step H. subst t.
  destruct (unionAlternationAndCharClass_spec cs alts [] x R) as [W1 L1];
    [constructor | exact Wa | exact N |].
  split; [apply wfElement_Alternation, W1|].
  simpl. rewrite langElement_Alternation, L1. reflexivity.
Qed.

Lemma langAlts_nil : langAlts [] = langEmpty.
Proof. reflexivity. Qed.

Lemma union_spec (a b t : Transition) :
  returns (Elimination.union a b) t -> wfT a -> wfT b ->
  wfT t /\ langSame (langT t) (langOr (langT a) (langT b)).
Proof.
  intros H Wa Wb.
  destruct a as [ac | [acs | aAlts | aAlts amin amax | ak an aAlts]];
    try (exfalso; exact (wfElement_Assertion ak an aAlts Wa));
    destruct b as [bc | [bcs | bAlts | bAlts bmin bmax | bk bn bAlts]];
    try (exfalso; exact (wfElement_Assertion bk bn bAlts Wb));
    try (apply (union_pair_spec _ _ t H Wa Wb)).
  - (* a Concatenation, b Alternation *)
    simpl in H. destruct (length bAlts =? 0)%nat eqn:E.
    + apply length_eqb_0 in E. subst bAlts. apply returns_Ret in H. subst t.
      split; [exact Wa|]. cbn [langT]. rewrite ?langElement_Alternation, ?langAlts_nil, langOr_empty_r. reflexivity.
    + destruct (union_push_spec bAlts (TConcat ac) t H) as [W L];
        [apply wfElement_Alternation, Wb | exact Wa |].
      split; [exact W|]. rewrite L. simpl. rewrite langElement_Alternation.
      apply langOr_comm.
  - (* two character classes *)
    simpl in H. tc_inv H. subst t. tc_step R.
    destruct (union_set_spec acs bcs x Wa Wb R) as [Nu Hu].
    split; [exact Nu|]. simpl. apply langElement_union, Hu.
  - (* a character class, b Alternation *)
    simpl in H. destruct (length bAlts =? 0)%nat eqn:E.
    + apply length_eqb_0 in E. subst bAlts. apply returns_Ret in H. subst t.
      split; [exact Wa|]. cbn [langT]. rewrite ?langElement_Alternation, ?langAlts_nil, langOr_empty_r. reflexivity.
    + destruct (union_char_spec bAlts acs t H) as [W L];
        [apply wfElement_Alternation, Wb | exact Wa |].
      split; [exact W|]. rewrite L. simpl. rewrite langElement_Alternation.
      apply langOr_comm.
  - (* a Alternation, b Concatenation *)
    simpl in H. destruct (length aAlts =? 0)%nat eqn:E.
    + apply length_eqb_0 in E. subst aAlts. apply returns_Ret in H. subst t.
      split; [exact Wb|]. cbn [langT]. rewrite ?langElement_Alternation, ?langAlts_nil, langOr_empty_l. reflexivity.
    + destruct (union_push_spec aAlts (TConcat bc) t H) as [W L];
        [apply wfElement_Alternation, Wa | exact Wb |].
      split; [exact W|]. rewrite L. simpl. rewrite langElement_Alternation. reflexivity.
  - (* a Alternation, b a character class *)
    simpl in H. destruct (length aAlts =? 0)%nat eqn:E.
    + apply length_eqb_0 in E. subst aAlts. apply returns_Ret in H. subst t.
      split; [exact Wb|]. cbn [langT]. rewrite ?langElement_Alternation, ?langAlts_nil, langOr_empty_l. reflexivity.
    + destruct (union_char_spec aAlts bcs t H) as [W L];
        [apply wfElement_Alternation, Wa | exact Wb |].
      split; [exact W|]. rewrite L. simpl. rewrite langElement_Alternation. reflexivity.
  - (* two Alternations *)
    simpl in H. destruct (length aAlts =? 0)%nat eqn:E.
    + apply length_eqb_0 in E. subst aAlts. apply returns_Ret in H. subst t.
      split; [exact Wb|]. cbn [langT]. rewrite ?langElement_Alternation, ?langAlts_nil, langOr_empty_l. reflexivity.
    + destruct (length bAlts =? 0)%nat eqn:E'.
      * apply length_eqb_0 in E'. subst bAlts. apply returns_Ret in H. subst t.
        split; [exact Wa|]. cbn [langT]. rewrite ?langElement_Alternation, ?langAlts_nil, langOr_empty_r. reflexivity.
      * tc_step H. tc_step H. subst t.
        apply wfElement_Alternation in Wa, Wb.
        destruct (unionAlternatives_spec bAlts aAlts x R Wa Wb) as [W L].
        split; [apply wfElement_Alternation, W|].
        simpl. rewrite !langElement_Alternation. exact L.
  - (* a Alternation, b Quantifier *)
    simpl in H. destruct (length aAlts =? 0)%nat eqn:E.
    + apply length_eqb_0 in E. subst aAlts. apply returns_Ret in H. subst t.
      split; [exact Wb|]. cbn [langT]. rewrite ?langElement_Alternation, ?langAlts_nil, langOr_empty_l. reflexivity.
    + destruct (union_push_spec aAlts (TElem (Quantifier bAlts bmin bmax)) t H) as [W L];
        [apply wfElement_Alternation, Wa | exact Wb |].
      split; [exact W|]. rewrite L. simpl. rewrite langElement_Alternation. reflexivity.
  - (* a Quantifier, b Alternation *)
    simpl in H. destruct (length bAlts =? 0)%nat eqn:E.
    + apply length_eqb_0 in E. subst bAlts. apply returns_Ret in H. subst t.
      split; [exact Wa|]. cbn [langT]. rewrite ?langElement_Alternation, ?langAlts_nil, langOr_empty_r. reflexivity.
    + destruct (union_push_spec bAlts (TElem (Quantifier aAlts amin amax)) t H) as [W L];
        [apply wfElement_Alternation, Wb | exact Wa |].
      split; [exact W|]. rewrite L. simpl. rewrite langElement_Alternation.
      apply langOr_comm.
Qed.

Lemma boundIsZero_true (b : Bound) : boundIsZero b = true <-> b = Fin 0.
Proof. destruct b as [[|n]|]; simpl; split; congruence. Qed.

Lemma inBound_one (b : Bound) : boundIsZero b = false -> inBound 1 b.
Proof. destruct b as [[|n]|]; simpl; [discriminate | lia | trivial]. Qed.

Lemma quantOf_spec (qmin : nat) (a : Transition) (t : Transition) :
  returns (tbind (Elimination.asConcatenation a) (fun c =>
           Ret (TElem (Quantifier [c] qmin Infinity)))) t ->
  wfT a ->
  wfT t /\ langSame (langT t) (langQuant (langT a) qmin Infinity).
Proof.
  intros H W. tc_step H. tc_step H. subst t.
  destruct (asConcatenation_spec a x R W) as [W1 L1].
  split.
  - apply wfElement_Quantifier. split; [exact I | apply wfAlts_single, W1].
  - simpl. rewrite langElement_Quantifier, langAlts_single, L1. reflexivity.
Qed.

Lemma star_spec (a t : Transition) :
  returns (Elimination.star a) t -> wfT a ->
  wfT t /\ langSame (langT t) (langStar (langT a)).
Proof.
  intros H W.
  assert (Hgen :
    returns (tbind (Elimination.asConcatenation a) (fun c =>
             tbind (tc.quantStar [c]) (fun q => Ret (TElem q)))) t ->
    wfT t /\ langSame (langT t) (langStar (langT a))).
  { intros H'. apply (quantOf_spec 0 a t); [|exact W].
    tc_step H'. tc_step H'. tc_step H'. apply returns_quantStar in R0. subst.
    apply returns_bind. exists x. split; [exact R | apply returns_Ret; reflexivity]. }
  destruct a as [elements | [cs | alts | alts qmin qmax | k n alts]];
    try (apply Hgen; exact H); simpl in H.
  - destruct (length elements =? 0)%nat eqn:E.
    + apply length_eqb_0 in E. subst elements. apply returns_Ret in H. subst t.
      split; [exact W|]. simpl. symmetry. apply langStar_unit.
    + tc_inv H. subst.
      split; [apply wfElement_Quantifier; split; [exact I | apply wfAlts_single, W]|].
      simpl. rewrite langElement_Quantifier, langAlts_single. reflexivity.
  - tc_inv H. subst.
    apply wfElement_Alternation in W.
    split; [apply wfElement_Quantifier; split; [exact I | exact W]|].
    simpl. rewrite langElement_Quantifier, langElement_Alternation. reflexivity.
  - pose proof W as W0. apply wfElement_Quantifier in W0. destruct W0 as [Wb Wa].
    destruct (boundIsZero qmax) eqn:Ez.
    + tc_inv H. subst.
      apply boundIsZero_true in Ez. subst qmax.
      split; [constructor|]. simpl. rewrite langElement_Quantifier.
      symmetry. apply langStar_of_nothing.
    + destruct (zeroOrOne qmin) eqn:Zq.
      * apply returns_Ret in H. subst t.
        split; [apply wfElement_Quantifier; split; [exact I | exact Wa]|].
        simpl. rewrite !langElement_Quantifier. symmetry.
        apply langStar_quant; [apply zeroOrOne_le, Zq | apply inBound_one, Ez].
      * apply Hgen. exact H.
Qed.

Lemma plus_spec (a t : Transition) :
  returns (Elimination.plus a) t -> wfT a ->
  wfT t /\ langSame (langT t) (langPlus (langT a)).
Proof.
  intros H W.
  assert (Hgen :
    returns (tbind (Elimination.asConcatenation a) (fun c =>
             tbind (tc.quantPlus [c]) (fun q => Ret (TElem q)))) t ->
    wfT t /\ langSame (langT t) (langPlus (langT a))).
  { intros H'. apply (quantOf_spec 1 a t); [|exact W].
    tc_step H'. tc_step H'. tc_step H'. apply returns_quantPlus in R0. subst.
    apply returns_bind. exists x. split; [exact R | apply returns_Ret; reflexivity]. }
  destruct a as [elements | [cs | alts | alts qmin qmax | k n alts]];
    try (apply Hgen; exact H); simpl in H.
  - destruct (length elements =? 0)%nat eqn:E.
    + apply length_eqb_0 in E. subst elements. apply returns_Ret in H. subst t.
      split; [exact W|]. simpl. symmetry. apply langPlus_unit.
    + tc_inv H. subst.
      split; [apply wfElement_Quantifier; split; [exact I | apply wfAlts_single, W]|].
      simpl. rewrite langElement_Quantifier, langAlts_single. reflexivity.
  - tc_inv H. subst.
    apply wfElement_Alternation in W.
    split; [apply wfElement_Quantifier; split; [exact I | exact W]|].
    simpl. rewrite langElement_Quantifier, langElement_Alternation. reflexivity.
  - pose proof W as W0. apply wfElement_Quantifier in W0. destruct W0 as [Wb Wa].
    destruct (boundIsZero qmax) eqn:Ez.
    + tc_inv H. subst.
      apply boundIsZero_true in Ez. subst qmax. simpl in Wb.
      assert (qmin = 0%nat) by lia. subst qmin.
      split; [constructor|]. simpl. rewrite langElement_Quantifier.
      symmetry. apply langPlus_of_nothing.
    + destruct (qmin =? 0)%nat eqn:E0.
      * apply Nat.eqb_eq in E0. subst qmin. apply returns_Ret in H. subst t.
        split; [apply wfElement_Quantifier; split; [exact I | exact Wa]|].
        simpl. rewrite !langElement_Quantifier. symmetry.
        apply langPlus_quant_0, inBound_one, Ez.
      * destruct (qmin =? 1)%nat eqn:E1.
        -- apply Nat.eqb_eq in E1. subst qmin. apply returns_Ret in H. subst t.
           split; [apply wfElement_Quantifier; split; [exact I | exact Wa]|].
           simpl. rewrite !langElement_Quantifier. symmetry.
           apply langPlus_quant_1, inBound_one, Ez.
        -- apply Hgen. exact H.
Qed.

(* ================================================================= *)
(** ** Paths of a graph with a language on every edge *)

Section Paths.
Implicit Types G : nat -> nat -> Lang.

Lemma pathLang_edge G (u v : nat) (w : Word) : G u v w -> pathLang G u v w.
Proof.
  intros H. rewrite <- (app_nil_r w). apply PathStep with (v := v); [exact H | apply PathNil].
Qed.

Lemma pathLang_trans G (u v x : nat) (w1 w2 : Word) :
  pathLang G u v w1 -> pathLang G v x w2 -> pathLang G u x (w1 ++ w2).
Proof.
  induction 1 as [u | u v y wa wb He Hp IH]; intros H2; simpl; [exact H2|].
  rewrite <- app_assoc. apply PathStep with (v := v); [exact He | apply IH, H2].
Qed.

Lemma pathLang_sub G G' :
  (forall u v w, G' u v w -> pathLang G u v w) ->
  forall u v w, pathLang G' u v w -> pathLang G u v w.
Proof.
  intros Hsub u v w H. induction H as [u | u v x w1 w2 He Hp IH]; [apply PathNil|].
  apply pathLang_trans with (v := v); [apply Hsub, He | exact IH].
Qed.

Lemma pathLang_same G G' :
  (forall u v, langSame (G u v) (G' u v)) ->
  forall u v, langSame (pathLang G u v) (pathLang G' u v).
Proof.
  intros Hsame u v w. split; apply pathLang_sub; intros a b w' H;
    apply pathLang_edge, (Hsame a b), H.
Qed.

Lemma pathLang_pow G (s : nat) (n : nat) : forall w,
  langPow (G s s) n w -> pathLang G s s w.
Proof.
  induction n as [|n IH]; simpl; intros w H.
  - unfold langUnit in H. subst w. apply PathNil.
  - destruct H as (w1 & w2 & -> & H1 & H2).
    apply PathStep with (v := s); [exact H1 | apply IH, H2].
Qed.

Lemma pathLang_star G (s : nat) (w : Word) : langStar (G s s) w -> pathLang G s s w.
Proof. intros H. apply langStar_unfold in H. destruct H as (n & H). apply (pathLang_pow G s n w H). Qed.

(** Through a state: an edge in, the loops, an edge out. *)
Lemma pathLang_through G (u s v : nat) (w : Word) :
  langCat (G u s) (langCat (langStar (G s s)) (G s v)) w -> pathLang G u v w.
Proof.
  intros (w1 & w' & -> & H1 & (w2 & w3 & -> & H2 & H3)).
  apply PathStep with (v := s); [exact H1|].
  apply pathLang_trans with (v := s); [apply pathLang_star, H2 | apply pathLang_edge, H3].
Qed.

Lemma langStar_cat_cons (L M : Lang) (w1 w2 : Word) :
  L w1 -> langCat (langStar L) M w2 -> langCat (langStar L) M (w1 ++ w2).
Proof.
  intros H1 (wa & wb & -> & Ha & Hb). exists (w1 ++ wa), wb.
  split; [apply app_assoc|]. split; [apply langStar_cons; assumption | exact Hb].
Qed.

Lemma langStar_cat_unit (L M : Lang) (w : Word) : M w -> langCat (langStar L) M w.
Proof. intros H. exists [], w. split; [reflexivity|]. split; [apply langStar_nil | exact H]. Qed.

(** *** Removing a state *)

Lemma pathLang_remove_state G G' (s : nat) :
  (forall u v, u <> s -> v <> s ->
     langSame (G' u v)
              (langOr (G u v) (langCat (G u s) (langCat (langStar (G s s)) (G s v))))) ->
  (forall u w, ~ G' u s w) ->
  (forall v w, ~ G' s v w) ->
  forall u v, u <> s -> v <> s -> langSame (pathLang G' u v) (pathLang G u v).
Proof.
  intros Hnew Hin Hout u v Hu Hv w. split.
  - apply pathLang_sub. clear u v Hu Hv w. intros u v w H.
    destruct (Nat.eq_dec u s) as [-> | Hu]; [destruct (Hout v w H)|].
    destruct (Nat.eq_dec v s) as [-> | Hv]; [destruct (Hin u w H)|].
    apply (Hnew u v Hu Hv) in H. destruct H as [H | H];
      [apply pathLang_edge, H | apply pathLang_through with (s := s), H].
  - intros H.
    assert (Hgen : forall u v w, pathLang G u v w -> v <> s ->
              (u <> s -> pathLang G' u v w)
              /\ (u = s -> exists w1 x w2,
                    w = w1 ++ w2 /\ x <> s
                    /\ langCat (langStar (G s s)) (G s x) w1
                    /\ pathLang G' x v w2)).
    { clear - Hnew. intros u v w H. induction H as [u | u y v w1 w2 He Hp IH]; intros Hv.
      - split; [intros _; apply PathNil | intros ->; contradiction].
      - destruct (IH Hv) as [IH1 IH2]. clear IH.
        destruct (Nat.eq_dec y s) as [Ey | Ny].
        + destruct (IH2 Ey) as (wa & x & wb & -> & Hx & Hwa & Hpx). subst y. split.
          * intros Hu. rewrite app_assoc. apply PathStep with (v := x); [|exact Hpx].
            apply (Hnew u x Hu Hx). right. exists w1, wa. tauto.
          * intros ->. exists (w1 ++ wa), x, wb. rewrite app_assoc.
            repeat split; try assumption. apply langStar_cat_cons; assumption.
        + split.
          * intros Hu. apply PathStep with (v := y); [|apply IH1, Ny].
            apply (Hnew u y Hu Ny). left. exact He.
          * intros ->. exists w1, y, w2. repeat split; try assumption.
            -- apply langStar_cat_unit, He.
            -- apply IH1, Ny. }
    apply (Hgen u v w H Hv), Hu.
Qed.

(** *** Moving a loop into the edges that leave the state *)

Lemma pathLang_inv G (u v : nat) (w : Word) :
  pathLang G u v w ->
  (u = v /\ w = []) \/ exists x wa wb, w = wa ++ wb /\ G u x wa /\ pathLang G x v wb.
Proof.
  intros H. destruct H as [u | u x v wa wb He Hp]; [left; tauto | right].
  exists x, wa, wb. tauto.
Qed.

Lemma pathLang_first G (u v : nat) (w : Word) :
  pathLang G u v w -> u <> v ->
  exists x wa wb, w = wa ++ wb /\ G u x wa /\ pathLang G x v wb.
Proof.
  intros H. destruct H as [u | u x v wa wb He Hp]; intros Hne; [contradiction|].
  exists x, wa, wb. tauto.
Qed.

Lemma pathLang_loop_out G G' (s : nat) :
  (forall u v, u <> s -> langSame (G' u v) (G u v)) ->
  (forall w, ~ G' s s w) ->
  (forall v, v <> s -> langSame (G' s v) (langCat (langStar (G s s)) (G s v))) ->
  forall u v, v <> s -> langSame (pathLang G' u v) (pathLang G u v).
Proof.
  intros Hother Hloop Hout u v Hv w. split.
  - apply pathLang_sub. clear u v Hv w. intros u v w H.
    destruct (Nat.eq_dec u s) as [-> | Hu]; [|apply pathLang_edge, (Hother u v Hu), H].
    destruct (Nat.eq_dec v s) as [-> | Hv]; [destruct (Hloop w H)|].
    apply (Hout v Hv) in H. destruct H as (w1 & w2 & -> & H1 & H2).
    apply pathLang_trans with (v := s); [apply pathLang_star, H1 | apply pathLang_edge, H2].
  - intros H. induction H as [u | u y v w1 w2 He Hp IH]; [apply PathNil|].
    specialize (IH Hv).
    destruct (Nat.eq_dec u s) as [-> | Hu];
      [|apply PathStep with (v := y); [apply (Hother u y Hu), He | exact IH]].
    destruct (Nat.eq_dec y s) as [-> | Hy].
    + destruct (pathLang_first G' s v w2 IH (not_eq_sym Hv))
        as (x & wa & wb & -> & Hx & Hpx).
      assert (Nx : x <> s) by (intros ->; exact (Hloop wa Hx)).
      rewrite app_assoc. apply PathStep with (v := x); [|exact Hpx].
      apply (Hout x Nx). apply langStar_cat_cons; [exact He | apply (Hout x Nx), Hx].
    + apply PathStep with (v := y); [|exact IH].
      apply (Hout y Hy), langStar_cat_unit, He.
Qed.

(** *** Moving a loop into the edges that enter the state *)

Lemma pathLang_loop_in G G' (s : nat) :
  (forall u v, v <> s -> langSame (G' u v) (G u v)) ->
  (forall w, ~ G' s s w) ->
  (forall u, u <> s -> langSame (G' u s) (langCat (G u s) (langStar (G s s)))) ->
  forall u v, u <> s -> langSame (pathLang G' u v) (pathLang G u v).
Proof.
  intros Hother Hloop Hin u v Hu w. split.
  - apply pathLang_sub. clear u v Hu w. intros u v w H.
    destruct (Nat.eq_dec v s) as [-> | Hv]; [|apply pathLang_edge, (Hother u v Hv), H].
    destruct (Nat.eq_dec u s) as [-> | Hu]; [destruct (Hloop w H)|].
    apply (Hin u Hu) in H. destruct H as (w1 & w2 & -> & H1 & H2).
    apply PathStep with (v := s); [exact H1 | apply pathLang_star, H2].
  - intros H.
    assert (Hgen : forall u v w, pathLang G u v w ->
              (u <> s -> pathLang G' u v w)
              /\ (u = s -> exists w1 w2,
                    w = w1 ++ w2 /\ langStar (G s s) w1 /\ pathLang G' s v w2)).
    { clear - Hother Hin. intros u v w H.
      induction H as [u | u y v w1 w2 He Hp [IH1 IH2]].
      - split; [intros _; apply PathNil|].
        intros ->. exists [], []. repeat split; [apply langStar_nil | apply PathNil].
      - destruct (Nat.eq_dec y s) as [Ey | Ny].
        + destruct (IH2 Ey) as (wa & wb & -> & Hwa & Hpb). subst y. split.
          * intros Hu. rewrite app_assoc. apply PathStep with (v := s); [|exact Hpb].
            apply (Hin u Hu). exists w1, wa. tauto.
          * intros ->. exists (w1 ++ wa), wb. rewrite app_assoc.
            repeat split; [|exact Hpb]. apply langStar_cons; assumption.
        + assert (Hstep : pathLang G' u v (w1 ++ w2)).
          { apply PathStep with (v := y); [apply (Hother u y Ny), He | apply IH1, Ny]. }
          split; [intros _; exact Hstep|].
          intros ->. exists [], (w1 ++ w2). repeat split; [apply langStar_nil | exact Hstep]. }
    apply (Hgen u v w H), Hu.
Qed.

(** *** Changing the edges outside of a set that no edge enters backwards *)

Lemma pathLang_stays G (A : nat -> Prop) :
  (forall u v w, G u v w -> A v -> A u) ->
  forall u v w, pathLang G u v w -> A v -> A u.
Proof.
  intros Hclosed u v w H. induction H as [u | u y v w1 w2 He Hp IH]; intros Hv;
    [exact Hv | apply (Hclosed u y w1 He), IH, Hv].
Qed.

Lemma pathLang_within G G' (A : nat -> Prop) :
  (forall u v w, G u v w -> A v -> A u) ->
  (forall u v, A u -> A v -> forall w, G u v w -> G' u v w) ->
  forall u v w, A v -> pathLang G u v w -> pathLang G' u v w.
Proof.
  intros Hclosed Hsame u v w Hv H. induction H as [u | u y v w1 w2 He Hp IH]; [apply PathNil|].
  pose proof (pathLang_stays G A Hclosed y v w2 Hp Hv) as Hy.
  apply PathStep with (v := y); [|apply IH, Hv].
  apply Hsame; [apply (Hclosed u y w1 He Hy) | exact Hy | exact He].
Qed.

Lemma pathLang_closed G G' (A : nat -> Prop) :
  (forall u v w, G u v w -> A v -> A u) ->
  (forall u v w, G' u v w -> A v -> A u) ->
  (forall u v, A u -> A v -> langSame (G u v) (G' u v)) ->
  forall u v, A v -> langSame (pathLang G u v) (pathLang G' u v).
Proof.
  intros H1 H2 Hsame u v Hv w. split.
  - apply (pathLang_within G G' A H1); [|exact Hv].
    intros a b Ha Hb w'. apply (Hsame a b Ha Hb).
  - apply (pathLang_within G' G A H2); [|exact Hv].
    intros a b Ha Hb w'. apply (Hsame a b Ha Hb).
Qed.

(** *** The graph that is left: one edge *)

Lemma pathLang_single G (i f : nat) :
  i <> f ->
  (forall v w, G i v w -> v = f) ->
  (forall v w, ~ G f v w) ->
  langSame (pathLang G i f) (G i f).
Proof.
  intros Hne Hi Hf w. split; [|apply pathLang_edge].
  intros H. destruct (pathLang_first G i f w H Hne) as (x & wa & wb & -> & Hx & Hp).
  pose proof (Hi x wa Hx) as ->.
  destruct (pathLang_inv G f f wb Hp) as [[_ ->] | (y & w1 & w2 & _ & He & _)];
    [rewrite app_nil_r; exact Hx | destruct (Hf y w1 He)].
Qed.

(** *** The source and the drain that are added to the automaton *)

Lemma pathLang_source G (i t : nat) :
  (forall v w, G i v w <-> v = t /\ w = []) ->
  forall x w, x <> i -> (pathLang G i x w <-> pathLang G t x w).
Proof.
  intros Hi x w Hx. split.
  - intros H. destruct (pathLang_first G i x w H (not_eq_sym Hx))
      as (y & wa & wb & -> & Hy & Hp).
    apply Hi in Hy. destruct Hy as [-> ->]. exact Hp.
  - intros H. change w with ([] ++ w). apply PathStep with (v := t); [|exact H].
    apply Hi. split; reflexivity.
Qed.

Lemma pathLang_drain G G2 (F : nat -> Prop) (tF : nat) :
  (forall u v, v <> tF -> langSame (G2 u v) (G u v)) ->
  (forall u w, G2 u tF w <-> F u /\ w = []) ->
  (forall v w, ~ G tF v w) ->
  ~ F tF ->
  forall u w, u <> tF -> (pathLang G2 u tF w <-> exists n, F n /\ pathLang G u n w).
Proof.
  intros Hother Hnew Hout HF u w Hu. split.
  - intros H. remember tF as x eqn:Ex in H.
    induction H as [u | u y v w1 w2 He Hp IH]; [contradiction|]. subst v.
    destruct (Nat.eq_dec y tF) as [-> | Hy].
    + apply Hnew in He. destruct He as [Fu ->].
      destruct (pathLang_inv G2 tF tF w2 Hp) as [[_ ->] | (y & wa & wb & _ & He' & _)].
      * exists u. split; [exact Fu | apply PathNil].
      * exfalso. destruct (Nat.eq_dec y tF) as [-> | Hy].
        -- apply Hnew in He'. tauto.
        -- apply (Hother tF y Hy) in He'. exact (Hout y wa He').
    + destruct (IH Hy eq_refl) as (n & Fn & Hn).
      exists n. split; [exact Fn|].
      apply PathStep with (v := y); [apply (Hother u y Hy), He | exact Hn].
  - intros (n & Fn & H).
    assert (Hn : n <> tF) by (intros ->; exact (HF Fn)).
    rewrite <- (app_nil_r w). apply pathLang_trans with (v := n).
    + clear Fn. induction H as [u | u y v w1 w2 He Hp IH]; [apply PathNil|].
      assert (Hy : y <> tF).
      { intros ->.
        destruct (pathLang_inv G tF v w2 Hp) as [[E _] | (x & wa & wb & _ & He' & _)];
          [exact (Hn (eq_sym E)) | exact (Hout x wa He')]. }
      apply PathStep with (v := y); [apply (Hother u y Hy), He | apply IH; assumption].
    + apply pathLang_edge, Hnew. split; [exact Fn | reflexivity].
Qed.
End Paths.

(* ================================================================= *)
(** ** The maps of a node *)

Lemma mapGet_In (m : NodeMap) (k : nat) (t : Transition) :
  mapGet m k = Some t -> In (k, t) m.
Proof.
  induction m as [|[k' v] m IH]; simpl; [discriminate|].
  destruct (k' =? k)%nat eqn:E.
  - apply Nat.eqb_eq in E. intros H. injection H as <-. subst. left. reflexivity.
  - intros H. right. apply IH, H.
Qed.

Lemma mapGet_None (m : NodeMap) (k : nat) :
  mapGet m k = None <-> ~ In k (mapKeys m).
Proof.
  induction m as [|[k' v] m IH]; simpl; [tauto|].
  destruct (k' =? k)%nat eqn:E.
  - apply Nat.eqb_eq in E. split; [discriminate | tauto].
  - apply Nat.eqb_neq in E. rewrite IH. tauto.
Qed.

Lemma mapGet_Some_key (m : NodeMap) (k : nat) (t : Transition) :
  mapGet m k = Some t -> In k (mapKeys m).
Proof.
  intros H. destruct (in_dec Nat.eq_dec k (mapKeys m)) as [Hin | Hn]; [exact Hin|].
  apply mapGet_None in Hn. congruence.
Qed.

Lemma mapGet_key (m : NodeMap) (k : nat) :
  In k (mapKeys m) -> exists t, mapGet m k = Some t.
Proof.
  intros H. destruct (mapGet m k) as [t|] eqn:E; [exists t; reflexivity|].
  apply mapGet_None in E. contradiction.
Qed.

Lemma mapGet_of_In (m : NodeMap) (k : nat) (t : Transition) :
  NoDup (mapKeys m) -> In (k, t) m -> mapGet m k = Some t.
Proof.
  induction m as [|[k' v] m IH]; simpl; [tauto|].
  intros Hnd [H | H].
  - injection H as -> ->. rewrite Nat.eqb_refl. reflexivity.
  - inversion Hnd as [|? ? Hk Hm]; subst.
    destruct (k' =? k)%nat eqn:E; [|apply IH; assumption].
    apply Nat.eqb_eq in E. subst k'. exfalso. apply Hk.
    change k with (fst (k, t)). apply in_map, H.
Qed.

Lemma mapHas_true (m : NodeMap) (k : nat) :
  mapHas m k = true <-> exists t, mapGet m k = Some t.
Proof.
  unfold mapHas. destruct (mapGet m k) as [t|]; split; try discriminate.
  - intros _. exists t. reflexivity.
  - reflexivity.
  - intros (t & H). discriminate.
Qed.

Lemma mapHas_false (m : NodeMap) (k : nat) : mapHas m k = false <-> mapGet m k = None.
Proof. unfold mapHas. destruct (mapGet m k) as [t|]; split; congruence. Qed.

Lemma mapGet_mapSet (m : NodeMap) (k : nat) (v : Transition) (k' : nat) :
  mapGet (mapSet m k v) k' = if (k' =? k)%nat then Some v else mapGet m k'.
Proof.
  induction m as [|[k0 v0] m IH]; simpl.
  - rewrite (Nat.eqb_sym k k'). reflexivity.
  - destruct (k0 =? k)%nat eqn:E; simpl.
    + apply Nat.eqb_eq in E. subst k0. rewrite (Nat.eqb_sym k k').
      destruct (k' =? k)%nat; reflexivity.
    + rewrite IH. destruct (k0 =? k')%nat eqn:E'; [|reflexivity].
      apply Nat.eqb_eq in E'. subst k0. rewrite E. reflexivity.
Qed.

Lemma mapKeys_mapSet (m : NodeMap) (k : nat) (v : Transition) (k' : nat) :
  In k' (mapKeys (mapSet m k v)) <-> k' = k \/ In k' (mapKeys m).
Proof.
  induction m as [|[k0 v0] m IH]; simpl; [intuition congruence|].
  destruct (k0 =? k)%nat eqn:E; simpl.
  - apply Nat.eqb_eq in E. subst k0. intuition congruence.
  - rewrite IH. tauto.
Qed.

Lemma NoDup_mapSet (m : NodeMap) (k : nat) (v : Transition) :
  NoDup (mapKeys m) -> NoDup (mapKeys (mapSet m k v)).
Proof.
  induction m as [|[k0 v0] m IH]; simpl; intros H.
  - constructor; [intros [] | constructor].
  - inversion H as [|? ? Hk Hm]; subst.
    destruct (k0 =? k)%nat eqn:E; simpl; [constructor; assumption|].
    constructor; [|apply IH, Hm].
    rewrite mapKeys_mapSet. apply Nat.eqb_neq in E. intros [-> | Hin]; tauto.
Qed.

Lemma mapKeys_mapDelete (m : NodeMap) (k k' : nat) :
  In k' (mapKeys (mapDelete m k)) -> In k' (mapKeys m).
Proof.
  induction m as [|[k0 v0] m IH]; simpl; [tauto|].
  destruct (k0 =? k)%nat; simpl; tauto.
Qed.

Lemma NoDup_mapDelete (m : NodeMap) (k : nat) :
  NoDup (mapKeys m) -> NoDup (mapKeys (mapDelete m k)).
Proof.
  induction m as [|[k0 v0] m IH]; simpl; intros H; [constructor|].
  inversion H as [|? ? Hk Hm]; subst.
  destruct (k0 =? k)%nat; simpl; [exact Hm|].
  constructor; [|apply IH, Hm]. intros Hin. apply Hk, (mapKeys_mapDelete m k k0 Hin).
Qed.

Lemma mapGet_mapDelete (m : NodeMap) (k k' : nat) :
  NoDup (mapKeys m) ->
  mapGet (mapDelete m k) k' = if (k' =? k)%nat then None else mapGet m k'.
Proof.
  induction m as [|[k0 v0] m IH]; simpl; intros H.
  - destruct (k' =? k)%nat; reflexivity.
  - inversion H as [|? ? Hk Hm]; subst.
    destruct (k0 =? k)%nat eqn:E; simpl.
    + apply Nat.eqb_eq in E. subst k0.
      destruct (k' =? k)%nat eqn:E'.
      * apply Nat.eqb_eq in E'. subst k'. apply mapGet_None, Hk.
      * rewrite (Nat.eqb_sym k k'), E'. reflexivity.
    + rewrite (IH Hm). destruct (k0 =? k')%nat eqn:E'; [|reflexivity].
      apply Nat.eqb_eq in E'. subst k0. rewrite E. reflexivity.
Qed.

Lemma length_mapDelete (m : NodeMap) (k : nat) (t : Transition) :
  mapGet m k = Some t -> length m = S (length (mapDelete m k)).
Proof.
  induction m as [|[k0 v0] m IH]; simpl; [discriminate|].
  destruct (k0 =? k)%nat; simpl; [reflexivity|].
  intros H. f_equal. apply IH, H.
Qed.

Lemma mapDelete_absent (m : NodeMap) (k : nat) :
  mapGet m k = None -> mapDelete m k = m.
Proof.
  induction m as [|[k0 v0] m IH]; simpl; [reflexivity|].
  destruct (k0 =? k)%nat; [discriminate|]. intros H. f_equal. apply IH, H.
Qed.

(** A map with one entry. *)
Lemma map_single (m : NodeMap) (k : nat) (t : Transition) :
  length m = 1%nat -> firstOf m = Some (k, t) -> m = [(k, t)].
Proof.
  destruct m as [|[k0 v0] [|? ?]]; simpl; try discriminate.
  intros _ H. injection H as -> ->. reflexivity.
Qed.

Lemma firstOf_mapGet (m : NodeMap) (k : nat) (t : Transition) :
  firstOf m = Some (k, t) -> mapGet m k = Some t.
Proof.
  destruct m as [|[k0 v0] m]; simpl; [discriminate|].
  intros H. injection H as -> ->. rewrite Nat.eqb_refl. reflexivity.
Qed.

(* ================================================================= *)
(** ** Well-formed graphs *)

Definition validNode (nl : NodeList) (n : nat) : Prop := (n < length (heap nl))%nat.

(** The two maps of an edge agree, a map has a key once, and an edge joins
    nodes of the list. *)
Record WFG (nl : NodeList) : Prop := mkWFG {
  wfg_out : forall u, NoDup (mapKeys (out (getNode nl u)));
  wfg_in : forall v, NoDup (mapKeys (in_ (getNode nl v)));
  wfg_in_out : forall u v, mapGet (in_ (getNode nl v)) u = mapGet (out (getNode nl u)) v;
  wfg_valid : forall u v t, edge nl u v = Some t -> validNode nl u /\ validNode nl v
}.

Lemma replaceNth_length {A : Type} (l : list A) : forall n x,
  length (replaceNth l n x) = length l.
Proof.
  induction l as [|y l IH]; intros [|n] x; simpl; try reflexivity.
  f_equal. apply IH.
Qed.

Lemma nth_replaceNth {A : Type} (l : list A) : forall n x m d,
  nth m (replaceNth l n x) d
  = if (m =? n)%nat && (n <? length l)%nat then x else nth m l d.
Proof.
  induction l as [|y l IH]; intros [|n] x [|m] d; simpl; try reflexivity.
  - rewrite andb_false_r. reflexivity.
  - rewrite IH. reflexivity.
Qed.

Lemma getNode_setNode (nl : NodeList) (n : nat) (node : RegexFANode) (u : nat) :
  validNode nl n ->
  getNode (setNode nl n node) u = if (u =? n)%nat then node else getNode nl u.
Proof.
  intros Hn. unfold getNode, setNode. simpl. rewrite nth_replaceNth.
  apply Nat.ltb_lt in Hn. rewrite Hn, andb_true_r. reflexivity.
Qed.

Lemma getNode_invalid (nl : NodeList) (n : nat) : ~ validNode nl n -> getNode nl n = emptyNode.
Proof. intros H. unfold getNode. apply nth_overflow. unfold validNode in H. lia. Qed.

(** What an update of the two maps of an edge does to the graph. *)
Record Updated (nl nl' : NodeList) (from to : nat)
  (newOut newIn : NodeMap) : Prop := mkUpdated {
  upd_heap : length (heap nl') = length (heap nl);
  upd_initial : initial nl' = initial nl;
  upd_finals : finals nl' = finals nl;
  upd_out : forall u,
    out (getNode nl' u) = if (u =? from)%nat then newOut else out (getNode nl u);
  upd_in : forall v,
    in_ (getNode nl' v) = if (v =? to)%nat then newIn else in_ (getNode nl v)
}.

Lemma setOut_setIn_Updated (nl : NodeList) (from to : nat) (newOut : NodeMap)
  (f : NodeMap -> NodeMap) :
  validNode nl from -> validNode nl to ->
  Updated nl
    (setIn (setOut nl from newOut) to (f (in_ (getNode (setOut nl from newOut) to))))
    from to newOut (f (in_ (getNode nl to))).
Proof.
  intros Hf Ht.
  assert (Ht' : validNode (setOut nl from newOut) to).
  { unfold validNode, setOut, setNode. simpl. rewrite replaceNth_length. exact Ht. }
  assert (Ein : in_ (getNode (setOut nl from newOut) to) = in_ (getNode nl to)).
  { unfold setOut. rewrite (getNode_setNode nl from _ to Hf).
    destruct (to =? from)%nat eqn:E; [|reflexivity].
    apply Nat.eqb_eq in E. subst to. reflexivity. }
  split.
  - unfold setIn, setOut, setNode. simpl. rewrite !replaceNth_length. reflexivity.
  - reflexivity.
  - reflexivity.
  - intros u. unfold setIn at 1. rewrite (getNode_setNode _ to _ u Ht').
    destruct (u =? to)%nat eqn:E1; simpl.
    + apply Nat.eqb_eq in E1. subst u. unfold setOut.
      rewrite (getNode_setNode nl from _ to Hf).
      destruct (to =? from)%nat; reflexivity.
    + unfold setOut. rewrite (getNode_setNode nl from _ u Hf).
      destruct (u =? from)%nat; reflexivity.
  - intros v. unfold setIn at 1. rewrite (getNode_setNode _ to _ v Ht').
    destruct (v =? to)%nat eqn:E1; simpl.
    + rewrite Ein. reflexivity.
    + unfold setOut. rewrite (getNode_setNode nl from _ v Hf).
      destruct (v =? from)%nat eqn:E2; [|reflexivity].
      apply Nat.eqb_eq in E2. subst v. reflexivity.
Qed.

Lemma edge_eq (nl : NodeList) (u v : nat) :
  edge nl u v = mapGet (out (getNode nl u)) v.
Proof. reflexivity. Qed.

Lemma edge_in (nl : NodeList) (u v : nat) :
  WFG nl -> mapGet (in_ (getNode nl v)) u = edge nl u v.
Proof. intros W. apply (wfg_in_out nl W). Qed.

(** Setting the transition of an edge, new or not. *)
Lemma Updated_set (nl nl' : NodeList) (from to : nat) (t : Transition) :
  WFG nl -> validNode nl from -> validNode nl to ->
  Updated nl nl' from to (mapSet (out (getNode nl from)) to t)
                         (mapSet (in_ (getNode nl to)) from t) ->
  WFG nl'
  /\ forall u v, edge nl' u v
                 = if (u =? from)%nat && (v =? to)%nat then Some t else edge nl u v.
Proof.
  intros W Hf Ht U.
  assert (Hedge : forall u v, edge nl' u v
            = if (u =? from)%nat && (v =? to)%nat then Some t else edge nl u v).
  { intros u v. unfold edge. rewrite (upd_out _ _ _ _ _ _ U u).
    destruct (u =? from)%nat eqn:E; simpl; [|reflexivity].
    apply Nat.eqb_eq in E. subst u. apply mapGet_mapSet. }
  split; [|exact Hedge]. split.
  - intros u. rewrite (upd_out _ _ _ _ _ _ U u).
    destruct (u =? from)%nat; [apply NoDup_mapSet|]; apply (wfg_out nl W).
  - intros v. rewrite (upd_in _ _ _ _ _ _ U v).
    destruct (v =? to)%nat; [apply NoDup_mapSet|]; apply (wfg_in nl W).
  - intros u v. change (mapGet (out (getNode nl' u)) v) with (edge nl' u v).
    rewrite Hedge, (upd_in _ _ _ _ _ _ U v).
    destruct (v =? to)%nat eqn:E; simpl.
    + apply Nat.eqb_eq in E. subst v. rewrite mapGet_mapSet, andb_true_r.
      destruct (u =? from)%nat; [reflexivity | apply (edge_in nl u to W)].
    + rewrite andb_false_r. apply (edge_in nl u v W).
  - intros u v t' H. rewrite Hedge in H. unfold validNode.
    rewrite (upd_heap _ _ _ _ _ _ U).
    destruct ((u =? from)%nat && (v =? to)%nat) eqn:E.
    + apply andb_true_iff in E. rewrite !Nat.eqb_eq in E. destruct E as [-> ->].
      split; assumption.
    + apply (wfg_valid nl W u v t' H).
Qed.

(** Deleting an edge. *)
Lemma Updated_delete (nl nl' : NodeList) (from to : nat) :
  WFG nl ->
  Updated nl nl' from to (mapDelete (out (getNode nl from)) to)
                         (mapDelete (in_ (getNode nl to)) from) ->
  WFG nl'
  /\ forall u v, edge nl' u v
                 = if (u =? from)%nat && (v =? to)%nat then None else edge nl u v.
Proof.
  intros W U.
  assert (Hedge : forall u v, edge nl' u v
            = if (u =? from)%nat && (v =? to)%nat then None else edge nl u v).
  { intros u v. unfold edge. rewrite (upd_out _ _ _ _ _ _ U u).
    destruct (u =? from)%nat eqn:E; simpl; [|reflexivity].
    apply Nat.eqb_eq in E. subst u. apply mapGet_mapDelete, (wfg_out nl W). }
  split; [|exact Hedge]. split.
  - intros u. rewrite (upd_out _ _ _ _ _ _ U u).
    destruct (u =? from)%nat; [apply NoDup_mapDelete|]; apply (wfg_out nl W).
  - intros v. rewrite (upd_in _ _ _ _ _ _ U v).
    destruct (v =? to)%nat; [apply NoDup_mapDelete|]; apply (wfg_in nl W).
  - intros u v. change (mapGet (out (getNode nl' u)) v) with (edge nl' u v).
    rewrite Hedge, (upd_in _ _ _ _ _ _ U v).
    destruct (v =? to)%nat eqn:E; simpl.
    + apply Nat.eqb_eq in E. subst v.
      rewrite (mapGet_mapDelete _ from u (wfg_in nl W to)), andb_true_r.
      destruct (u =? from)%nat; [reflexivity | apply (edge_in nl u to W)].
    + rewrite andb_false_r. apply (edge_in nl u v W).
  - intros u v t' H. rewrite Hedge in H. unfold validNode.
    rewrite (upd_heap _ _ _ _ _ _ U).
    destruct ((u =? from)%nat && (v =? to)%nat); [discriminate|].
    apply (wfg_valid nl W u v t' H).
Qed.

(** *** The three operations on edges *)

Definition sameFrame (nl nl' : NodeList) : Prop :=
  length (heap nl') = length (heap nl)
  /\ initial nl' = initial nl /\ finals nl' = finals nl.

Lemma sameFrame_refl (nl : NodeList) : sameFrame nl nl.
Proof. repeat split. Qed.

Lemma sameFrame_trans (a b c : NodeList) : sameFrame a b -> sameFrame b c -> sameFrame a c.
Proof. unfold sameFrame. intros (H1 & H2 & H3) (H4 & H5 & H6). repeat split; congruence. Qed.

Lemma Updated_sameFrame (nl nl' : NodeList) (from to : nat) (mo mi : NodeMap) :
  Updated nl nl' from to mo mi -> sameFrame nl nl'.
Proof. intros [H1 H2 H3 _ _]. repeat split; assumption. Qed.

Lemma sameFrame_valid (nl nl' : NodeList) (n : nat) :
  sameFrame nl nl' -> (validNode nl' n <-> validNode nl n).
Proof. intros (H & _). unfold validNode. rewrite H. tauto. Qed.

Lemma linkNodes_spec (nl nl' : NodeList) (from to : nat) (t : Transition) :
  WFG nl -> validNode nl from -> validNode nl to ->
  linkNodes nl from to t = Ok nl' ->
  edge nl from to = None
  /\ Updated nl nl' from to (mapSet (out (getNode nl from)) to t)
                            (mapSet (in_ (getNode nl to)) from t)
  /\ WFG nl'
  /\ forall u v, edge nl' u v
                 = if (u =? from)%nat && (v =? to)%nat then Some t else edge nl u v.
Proof.
  intros W Hf Ht H. unfold linkNodes in H.
  destruct (mapHas (out (getNode nl from)) to) eqn:E; [discriminate|].
  injection H as <-. apply mapHas_false in E.
  pose proof (setOut_setIn_Updated nl from to (mapSet (out (getNode nl from)) to t)
                (fun m => mapSet m from t) Hf Ht) as U.
  split; [exact E|]. split; [exact U|]. apply (Updated_set nl _ from to t W Hf Ht U).
Qed.

Lemma relinkNodes_spec (nl nl' : NodeList) (from to : nat) (t : Transition) :
  WFG nl -> relinkNodes nl from to t = Ok nl' ->
  (exists t0, edge nl from to = Some t0)
  /\ Updated nl nl' from to (mapSet (out (getNode nl from)) to t)
                            (mapSet (in_ (getNode nl to)) from t)
  /\ WFG nl'
  /\ forall u v, edge nl' u v
                 = if (u =? from)%nat && (v =? to)%nat then Some t else edge nl u v.
Proof.
  intros W H. unfold relinkNodes in H.
  destruct (mapHas (out (getNode nl from)) to) eqn:E; [|discriminate].
  simpl in H. injection H as <-. apply mapHas_true in E. destruct E as (t0 & E).
  destruct (wfg_valid nl W from to t0 E) as [Hf Ht].
  pose proof (setOut_setIn_Updated nl from to (mapSet (out (getNode nl from)) to t)
                (fun m => mapSet m from t) Hf Ht) as U.
  split; [exists t0; exact E|]. split; [exact U|].
  apply (Updated_set nl _ from to t W Hf Ht U).
Qed.

Lemma Updated_same (nl : NodeList) (from to : nat) :
  Updated nl nl from to (out (getNode nl from)) (in_ (getNode nl to)).
Proof.
  split; try reflexivity.
  - intros u. destruct (u =? from)%nat eqn:E; [|reflexivity].
    apply Nat.eqb_eq in E. subst u. reflexivity.
  - intros v. destruct (v =? to)%nat eqn:E; [|reflexivity].
    apply Nat.eqb_eq in E. subst v. reflexivity.
Qed.

Lemma unlinkNodes_spec (nl nl' : NodeList) (from to : nat) (r : option Transition) :
  WFG nl -> unlinkNodes nl from to = (r, nl') ->
  r = edge nl from to
  /\ Updated nl nl' from to (mapDelete (out (getNode nl from)) to)
                            (mapDelete (in_ (getNode nl to)) from)
  /\ WFG nl'
  /\ forall u v, edge nl' u v
                 = if (u =? from)%nat && (v =? to)%nat then None else edge nl u v.
Proof.
  intros W H. unfold unlinkNodes in H.
  assert (G : Updated nl nl' from to (mapDelete (out (getNode nl from)) to)
                (mapDelete (in_ (getNode nl to)) from) /\ r = edge nl from to).
  { fold (edge nl from to) in H. destruct (edge nl from to) as [t|] eqn:E.
    - injection H as <- <-. split; [|reflexivity].
      destruct (wfg_valid nl W from to t E) as [Hf Ht].
      apply (setOut_setIn_Updated nl from to (mapDelete (out (getNode nl from)) to)
               (fun m => mapDelete m from) Hf Ht).
    - injection H as <- <-. split; [|reflexivity].
      rewrite (mapDelete_absent _ to E).
      rewrite (mapDelete_absent (in_ (getNode nl to)) from);
        [apply Updated_same | rewrite (edge_in nl from to W); exact E]. }
  destruct G as [U Er]. split; [exact Er|]. split; [exact U|].
  apply (Updated_delete nl nl' from to W U).
Qed.

Lemma unlinkAll_spec (edges : list (nat * nat)) : forall nl,
  WFG nl ->
  WFG (unlinkAll nl edges)
  /\ sameFrame nl (unlinkAll nl edges)
  /\ forall u v, edge (unlinkAll nl edges) u v
                 = if existsb (fun e => (u =? fst e)%nat && (v =? snd e)%nat) edges
                   then None else edge nl u v.
Proof.
  unfold unlinkAll.
  induction edges as [|[a b] edges IH]; intros nl W; simpl.
  - split; [exact W|]. split; [apply sameFrame_refl | reflexivity].
  - destruct (unlinkNodes nl a b) as [r nl1] eqn:E.
    destruct (unlinkNodes_spec nl nl1 a b r W E) as (_ & U & W1 & E1). simpl.
    destruct (IH nl1 W1) as (W2 & F2 & E2).
    split; [exact W2|]. split.
    + apply (sameFrame_trans nl nl1 _ (Updated_sameFrame _ _ _ _ _ _ U) F2).
    + intros u v. rewrite E2, E1.
      destruct ((u =? a)%nat && (v =? b)%nat); simpl; [|reflexivity].
      destruct (existsb _ edges); reflexivity.
Qed.

(** *** The language of an edge *)

Lemma edgeLang_Some (nl : NodeList) (u v : nat) (t : Transition) :
  edge nl u v = Some t -> langSame (edgeLang nl u v) (langT t).
Proof.
  intros H w. unfold edgeLang. rewrite H. split.
  - intros (t' & E & Hw). injection E as <-. exact Hw.
  - intros Hw. exists t. tauto.
Qed.

Lemma edgeLang_None (nl : NodeList) (u v : nat) :
  edge nl u v = None -> langSame (edgeLang nl u v) langEmpty.
Proof.
  intros H w. unfold edgeLang, langEmpty. rewrite H. split; [|tauto].
  intros (t' & E & _). discriminate.
Qed.

Lemma edgeLang_edge (nl : NodeList) (u v : nat) (w : Word) :
  edgeLang nl u v w -> exists t, edge nl u v = Some t.
Proof. intros (t & H & _). exists t. exact H. Qed.

Lemma edgeLang_same_edge (nl nl' : NodeList) (u v : nat) :
  edge nl' u v = edge nl u v -> langSame (edgeLang nl' u v) (edgeLang nl u v).
Proof. intros H w. unfold edgeLang. rewrite H. tauto. Qed.

(** Every transition of the graph is a well-formed tree. *)
Definition wfEdges (nl : NodeList) : Prop :=
  forall u v t, edge nl u v = Some t -> wfT t.

Lemma linkWithUnion_spec (nl nl' : NodeList) (from to : nat) (trans : Transition) :
  WFG nl -> wfEdges nl -> validNode nl from -> validNode nl to -> wfT trans ->
  returns (Elimination.linkWithUnion nl from to trans) nl' ->
  WFG nl' /\ wfEdges nl' /\ sameFrame nl nl'
  /\ exists t',
       wfT t'
       /\ langSame (langT t') (langOr (edgeLang nl from to) (langT trans))
       /\ forall u v, edge nl' u v
                      = if (u =? from)%nat && (v =? to)%nat then Some t' else edge nl u v.
Proof.
  intros W We Hf Ht Wt H. unfold Elimination.linkWithUnion in H.
  destruct (unlinkNodes nl from to) as [currentTrans nl1] eqn:E.
  destruct (unlinkNodes_spec nl nl1 from to currentTrans W E) as (Er & U & W1 & E1).
  pose proof (Updated_sameFrame _ _ _ _ _ _ U) as F1.
  tc_step H. tc_step H.
  destruct (linkNodes_spec nl1 nl' from to x W1) as (_ & U2 & W2 & E2);
    [apply (sameFrame_valid nl nl1 from F1), Hf
    | apply (sameFrame_valid nl nl1 to F1), Ht | exact H |].
  pose proof (Updated_sameFrame _ _ _ _ _ _ U2) as F2.
  assert (Hx : wfT x /\ langSame (langT x) (langOr (edgeLang nl from to) (langT trans))).
  { destruct currentTrans as [current|].
    - symmetry in Er. destruct (union_spec current trans x R (We from to current Er) Wt)
        as [Wx Lx].
      split; [exact Wx|]. rewrite Lx, (edgeLang_Some nl from to current Er). reflexivity.
    - apply returns_Ret in R. subst x. split; [exact Wt|].
      symmetry in Er. rewrite (edgeLang_None nl from to Er), langOr_empty_l. reflexivity. }
  destruct Hx as [Wx Lx].
  assert (Hedge : forall u v, edge nl' u v
            = if (u =? from)%nat && (v =? to)%nat then Some x else edge nl u v).
  { intros u v. rewrite E2, E1. destruct ((u =? from)%nat && (v =? to)%nat); reflexivity. }
  split; [exact W2|]. split.
  - intros u v t Huv. rewrite Hedge in Huv.
    destruct ((u =? from)%nat && (v =? to)%nat).
    + injection Huv as <-. exact Wx.
    + apply (We u v t Huv).
  - split; [apply (sameFrame_trans nl nl1 nl' F1 F2)|].
    exists x. split; [exact Wx|]. split; [exact Lx | exact Hedge].
Qed.

#[export] Instance langStar_Proper : Proper (langSame ==> langSame) langStar.
Proof. intros L1 L2 H. unfold langStar. rewrite H. reflexivity. Qed.

#[export] Instance langPlus_Proper : Proper (langSame ==> langSame) langPlus.
Proof. intros L1 L2 H. unfold langPlus. rewrite H. reflexivity. Qed.

(* ================================================================= *)
(** ** The traversal *)

Lemma setHas_In (s : list nat) (x : nat) : setHas s x = true <-> In x s.
Proof.
  unfold setHas. rewrite existsb_exists. split.
  - intros (y & Hy & E). apply Nat.eqb_eq in E. subst y. exact Hy.
  - intros H. exists x. split; [exact H | apply Nat.eqb_refl].
Qed.

Lemma setHas_not_In (s : list nat) (x : nat) : setHas s x = false <-> ~ In x s.
Proof. rewrite <- setHas_In. destruct (setHas s x); split; congruence. Qed.

Lemma setAdd_In (s : list nat) (x y : nat) : In y (setAdd s x) <-> y = x \/ In y s.
Proof.
  unfold setAdd. destruct (setHas s x) eqn:E.
  - apply setHas_In in E. split; [tauto | intros [-> | H]; assumption].
  - rewrite in_app_iff. simpl. intuition congruence.
Qed.

Lemma setDelete_In (s : list nat) (x y : nat) : In y (setDelete s x) <-> In y s /\ y <> x.
Proof.
  unfold setDelete. rewrite filter_In, negb_true_iff, Nat.eqb_neq. tauto.
Qed.

Section DFSRule.
Context {St : Type}.
Variable next : nat -> St -> TC (list nat * St).
Variable succ : nat -> list nat.
Variable Inv : list nat -> St -> Prop.
Variable P : nat -> Prop.

(** A call of the callback on an element that has not been visited keeps
    the invariant and returns the successors of the element. *)
Hypothesis Hstep : forall n visited st r,
  Inv visited st -> P n -> ~ In n visited -> returns (next n st) r ->
  fst r = succ n /\ Inv (n :: visited) (snd r) /\ Forall P (succ n).

Lemma DFSLoop_rule (fuel : nat) : forall visited stack st st',
  returns (DFSLoop next fuel visited stack st) st' ->
  Inv visited st -> Forall P stack ->
  (forall n m, In n visited -> In m (succ n) -> In m visited \/ In m stack) ->
  exists visited',
    Inv visited' st'
    /\ incl visited visited' /\ incl stack visited'
    /\ forall n m, In n visited' -> In m (succ n) -> In m visited'.
Proof.
  induction fuel as [|fuel IH]; intros visited stack st st' H HI HP Hc; simpl in H.
  - destruct (returns_Throw _ _ H).
  - destruct stack as [|n stack'].
    + apply returns_Ret in H. subst st'. exists visited.
      split; [exact HI|]. split; [apply incl_refl|]. split; [intros x []|].
      intros n m Hn Hm. destruct (Hc n m Hn Hm) as [Hv | []]. exact Hv.
    + inversion HP as [|? ? Pn Pstack]; subst.
      destruct (setHas visited n) eqn:E.
      * apply setHas_In in E.
        destruct (IH visited stack' st st' H HI Pstack) as (V & HV & I1 & I2 & HcV).
        { intros a m Ha Hm. destruct (Hc a m Ha Hm) as [Hv | [<- | Hs]]; tauto. }
        exists V. split; [exact HV|]. split; [exact I1|]. split; [|exact HcV].
        intros x [<- | Hx]; [apply I1, E | apply I2, Hx].
      * apply setHas_not_In in E. tc_step H. destruct x as [successors st1].
        destruct (Hstep n visited st (successors, st1) HI Pn E R) as (Es & HI1 & Ps).
        simpl in Es, HI1. subst successors.
        destruct (IH (n :: visited) (succ n ++ stack') st1 st' H HI1)
          as (V & HV & I1 & I2 & HcV).
        { apply Forall_app. split; assumption. }
        { intros a m [<- | Ha] Hm.
          - right. apply in_or_app. left. exact Hm.
          - destruct (Hc a m Ha Hm) as [Hv | [<- | Hs]].
            + left. right. exact Hv.
            + left. left. reflexivity.
            + right. apply in_or_app. right. exact Hs. }
        exists V. split; [exact HV|]. split.
        -- intros x Hx. apply I1. right. exact Hx.
        -- split; [|exact HcV]. intros x [<- | Hx].
           ++ apply I1. left. reflexivity.
           ++ apply I2, in_or_app. right. exact Hx.
Qed.

Lemma DFS_rule (fuel : nat) (start : nat) (st st' : St) :
  returns (DFS next fuel start st) st' -> Inv [] st -> P start ->
  exists visited,
    Inv visited st' /\ In start visited
    /\ forall n m, In n visited -> In m (succ n) -> In m visited.
Proof.
  intros H HI HP. unfold DFS in H.
  destruct (DFSLoop_rule fuel [] [start] st st' H HI) as (V & HV & _ & I2 & Hc).
  - constructor; [exact HP | constructor].
  - intros n m [].
  - exists V. split; [exact HV|]. split; [apply I2; left; reflexivity | exact Hc].
Qed.
End DFSRule.

(* ================================================================= *)
(** ** The invariant of the elimination *)

(** [L] is the language of the automaton, [i] the initial and [f] the final
    node, [V] the nodes the first traversal of [eliminateStates] has seen
    and [R] the remaining states. *)
Record ElimInv (L : Lang) (V : nat -> Prop) (i f : nat) (nl : NodeList)
  (R : list nat) : Prop := mkElimInv {
  ei_wfg : WFG nl;
  ei_wfT : wfEdges nl;
  ei_initial : initial nl = i;
  ei_finals : firstOf (finals nl) = Some f;
  ei_ne : i <> f;
  ei_i : ~ In i R;
  ei_f : ~ In f R;
  ei_Vi : V i;
  ei_VR : forall n, In n R -> V n;
  ei_no_in : forall u, edge nl u i = None;
  ei_no_out : forall v, edge nl f v = None;
  ei_edges : forall u v t, edge nl u v = Some t -> V u -> u <> v -> v = f \/ In v R;
  ei_lang : langSame (pathLang (edgeLang nl) i f) L
}.

(** Every edge of [nl'] is an edge of [nl]. *)
Definition edgesWithin (nl' nl : NodeList) : Prop :=
  forall u v t, edge nl' u v = Some t -> exists t0, edge nl u v = Some t0.

Lemma ElimInv_within (L : Lang) (V : nat -> Prop) (i f : nat) (nl nl' : NodeList)
  (Rs : list nat) :
  ElimInv L V i f nl Rs ->
  WFG nl' -> sameFrame nl nl' -> wfEdges nl' -> edgesWithin nl' nl ->
  langSame (pathLang (edgeLang nl') i f) (pathLang (edgeLang nl) i f) ->
  ElimInv L V i f nl' Rs.
Proof.
  intros [W We Ei Ef Hne Hi Hf HVi HVR Hin Hout Hedges HL] W' (_ & Fi & Ff) We' Hsub HL'.
  split; try assumption.
  - rewrite Fi. exact Ei.
  - rewrite Ff. exact Ef.
  - intros u. destruct (edge nl' u i) as [t|] eqn:E; [|reflexivity].
    destruct (Hsub u i t E) as (t0 & E0). rewrite Hin in E0. discriminate.
  - intros v. destruct (edge nl' f v) as [t|] eqn:E; [|reflexivity].
    destruct (Hsub f v t E) as (t0 & E0). rewrite Hout in E0. discriminate.
  - intros u v t E. destruct (Hsub u v t E) as (t0 & E0). apply (Hedges u v t0 E0).
  - rewrite HL'. exact HL.
Qed.

Lemma eqb_pair_true (u v a b : nat) :
  (u =? a)%nat && (v =? b)%nat = true <-> u = a /\ v = b.
Proof. rewrite andb_true_iff, !Nat.eqb_eq. tauto. Qed.

Lemma eqb_pair_false (u v a b : nat) :
  (u =? a)%nat && (v =? b)%nat = false <-> ~ (u = a /\ v = b).
Proof. rewrite <- eqb_pair_true. destruct ((u =? a)%nat && (v =? b)%nat); split; congruence. Qed.

(** The state of a loop once the loop is unlinked: the maps that are read
    next are the maps of the node without the loop. *)
Lemma unlink_loop (nl nl1 : NodeList) (s : nat) (ref : option Transition) :
  WFG nl -> unlinkNodes nl s s = (ref, nl1) ->
  ref = edge nl s s
  /\ WFG nl1
  /\ sameFrame nl nl1
  /\ out (getNode nl1 s) = mapDelete (out (getNode nl s)) s
  /\ in_ (getNode nl1 s) = mapDelete (in_ (getNode nl s)) s
  /\ forall u v, edge nl1 u v = if (u =? s)%nat && (v =? s)%nat then None else edge nl u v.
Proof.
  intros W H. destruct (unlinkNodes_spec nl nl1 s s ref W H) as (Er & U & W1 & E1).
  split; [exact Er|]. split; [exact W1|].
  split; [apply (Updated_sameFrame _ _ _ _ _ _ U)|].
  split; [rewrite (upd_out _ _ _ _ _ _ U s), Nat.eqb_refl; reflexivity|].
  split; [rewrite (upd_in _ _ _ _ _ _ U s), Nat.eqb_refl; reflexivity | exact E1].
Qed.

(** A map of two entries, one of them the loop, has one entry once the
    loop is deleted. *)
Lemma single_after_delete (m : NodeMap) (s k : nat) (c t : Transition) :
  NoDup (mapKeys m) -> length m = 2%nat -> mapGet m s = Some c ->
  firstOf (mapDelete m s) = Some (k, t) ->
  mapDelete m s = [(k, t)]
  /\ k <> s
  /\ forall k', mapGet m k' = if (k' =? s)%nat then Some c
                              else if (k' =? k)%nat then Some t else None.
Proof.
  intros Hnd Hlen Hs Hfirst.
  pose proof (length_mapDelete m s c Hs) as Hl.
  assert (E : mapDelete m s = [(k, t)]) by (apply map_single; [lia | exact Hfirst]).
  assert (Hk : k <> s).
  { intros ->. pose proof (mapGet_mapDelete m s s Hnd) as G.
    rewrite E, Nat.eqb_refl in G. simpl in G. rewrite Nat.eqb_refl in G. discriminate. }
  split; [exact E|]. split; [exact Hk|].
  intros k'. pose proof (mapGet_mapDelete m s k' Hnd) as G. rewrite E in G. simpl in G.
  destruct (k' =? s)%nat eqn:E1.
  - apply Nat.eqb_eq in E1. subst k'. exact Hs.
  - rewrite <- G. rewrite (Nat.eqb_sym k k'). reflexivity.
Qed.

(** *** A loop is moved into the one edge that leaves or enters its state *)

Lemma fold_loop_out (L : Lang) (V : nat -> Prop) (i f : nat) (nl nl1 nl' : NodeList)
  (Rs : list nat) (s o : nat) (c b t : Transition) :
  ElimInv L V i f nl Rs -> In s Rs -> o <> s ->
  (forall v, edge nl s v = if (v =? s)%nat then Some c
                           else if (v =? o)%nat then Some b else None) ->
  WFG nl1 -> sameFrame nl nl1 ->
  (forall u v, edge nl1 u v = if (u =? s)%nat && (v =? s)%nat then None else edge nl u v) ->
  wfT t -> langSame (langT t) (langCat (langStar (langT c)) (langT b)) ->
  relinkNodes nl1 s o t = Ok nl' ->
  ElimInv L V i f nl' Rs.
Proof.
  intros HI Hs Hos Hout W1 F1 E1 Wt Lt H.
  destruct (relinkNodes_spec nl1 nl' s o t W1 H) as (_ & U' & W' & E').
  pose proof (sameFrame_trans nl nl1 nl' F1 (Updated_sameFrame _ _ _ _ _ _ U')) as F'.
  assert (Ec : edge nl s s = Some c) by (rewrite Hout, Nat.eqb_refl; reflexivity).
  assert (Eb : edge nl s o = Some b).
  { rewrite Hout. apply Nat.eqb_neq in Hos. rewrite Hos, Nat.eqb_refl. reflexivity. }
  assert (Hfs : f <> s) by (intros <-; exact (ei_f _ _ _ _ _ _ HI Hs)).
  apply (ElimInv_within L V i f nl nl' Rs HI W' F').
  - intros u v t' Huv. rewrite E', E1 in Huv.
    destruct ((u =? s)%nat && (v =? o)%nat); [injection Huv as <-; exact Wt|].
    destruct ((u =? s)%nat && (v =? s)%nat); [discriminate|].
    apply (ei_wfT _ _ _ _ _ _ HI u v t' Huv).
  - intros u v t' Huv. rewrite E', E1 in Huv.
    destruct ((u =? s)%nat && (v =? o)%nat) eqn:X.
    + apply eqb_pair_true in X. destruct X as [-> ->]. exists b. exact Eb.
    + destruct ((u =? s)%nat && (v =? s)%nat); [discriminate|]. exists t'. exact Huv.
  - apply (pathLang_loop_out (edgeLang nl) (edgeLang nl') s); [| | | exact Hfs].
    + intros u v Hu. apply edgeLang_same_edge. rewrite E', E1.
      apply Nat.eqb_neq in Hu. rewrite Hu. reflexivity.
    + intros w Hw. apply edgeLang_edge in Hw. destruct Hw as (t' & Hw).
      rewrite E', E1, !Nat.eqb_refl in Hw. apply Nat.eqb_neq in Hos.
      rewrite (Nat.eqb_sym s o), Hos in Hw. discriminate.
    + intros v Hv. rewrite (edgeLang_Some nl s s c Ec).
      destruct (Nat.eq_dec v o) as [-> | Hvo].
      * rewrite (edgeLang_Some nl s o b Eb).
        rewrite (edgeLang_Some nl' s o t); [exact Lt|].
        rewrite E', !Nat.eqb_refl. reflexivity.
      * assert (En : edge nl s v = None).
        { rewrite Hout. apply Nat.eqb_neq in Hv, Hvo. rewrite Hv, Hvo. reflexivity. }
        rewrite (edgeLang_None nl s v En), langCat_empty_r.
        apply edgeLang_None. rewrite E', E1, Nat.eqb_refl. simpl.
        apply Nat.eqb_neq in Hv, Hvo. rewrite Hv, Hvo. exact En.
Qed.

Lemma fold_loop_in (L : Lang) (V : nat -> Prop) (i f : nat) (nl nl1 nl' : NodeList)
  (Rs : list nat) (s p : nat) (c a t : Transition) :
  ElimInv L V i f nl Rs -> In s Rs -> p <> s ->
  (forall u, edge nl u s = if (u =? s)%nat then Some c
                           else if (u =? p)%nat then Some a else None) ->
  WFG nl1 -> sameFrame nl nl1 ->
  (forall u v, edge nl1 u v = if (u =? s)%nat && (v =? s)%nat then None else edge nl u v) ->
  wfT t -> langSame (langT t) (langCat (langT a) (langStar (langT c))) ->
  relinkNodes nl1 p s t = Ok nl' ->
  ElimInv L V i f nl' Rs.
Proof.
  intros HI Hs Hps Hin W1 F1 E1 Wt Lt H.
  destruct (relinkNodes_spec nl1 nl' p s t W1 H) as (_ & U' & W' & E').
  pose proof (sameFrame_trans nl nl1 nl' F1 (Updated_sameFrame _ _ _ _ _ _ U')) as F'.
  assert (Ec : edge nl s s = Some c) by (rewrite Hin, Nat.eqb_refl; reflexivity).
  assert (Ea : edge nl p s = Some a).
  { rewrite Hin. apply Nat.eqb_neq in Hps. rewrite Hps, Nat.eqb_refl. reflexivity. }
  assert (His : i <> s) by (intros <-; exact (ei_i _ _ _ _ _ _ HI Hs)).
  apply (ElimInv_within L V i f nl nl' Rs HI W' F').
  - intros u v t' Huv. rewrite E', E1 in Huv.
    destruct ((u =? p)%nat && (v =? s)%nat); [injection Huv as <-; exact Wt|].
    destruct ((u =? s)%nat && (v =? s)%nat); [discriminate|].
    apply (ei_wfT _ _ _ _ _ _ HI u v t' Huv).
  - intros u v t' Huv. rewrite E', E1 in Huv.
    destruct ((u =? p)%nat && (v =? s)%nat) eqn:X.
    + apply eqb_pair_true in X. destruct X as [-> ->]. exists a. exact Ea.
    + destruct ((u =? s)%nat && (v =? s)%nat); [discriminate|]. exists t'. exact Huv.
  - apply (pathLang_loop_in (edgeLang nl) (edgeLang nl') s); [| | | exact His].
    + intros u v Hv. apply edgeLang_same_edge. rewrite E', E1.
      apply Nat.eqb_neq in Hv. rewrite Hv, !andb_false_r. reflexivity.
    + intros w Hw. apply edgeLang_edge in Hw. destruct Hw as (t' & Hw).
      rewrite E', E1, !Nat.eqb_refl in Hw. apply Nat.eqb_neq in Hps.
      rewrite (Nat.eqb_sym s p), Hps in Hw. discriminate.
    + intros u Hu. rewrite (edgeLang_Some nl s s c Ec).
      destruct (Nat.eq_dec u p) as [-> | Hup].
      * rewrite (edgeLang_Some nl p s a Ea).
        rewrite (edgeLang_Some nl' p s t); [exact Lt|].
        rewrite E', !Nat.eqb_refl. reflexivity.
      * assert (En : edge nl u s = None).
        { rewrite Hin. apply Nat.eqb_neq in Hu, Hup. rewrite Hu, Hup. reflexivity. }
        rewrite (edgeLang_None nl u s En), langCat_empty_l.
        apply edgeLang_None. rewrite E', E1, Nat.eqb_refl.
        apply Nat.eqb_neq in Hu, Hup. rewrite Hu, Hup. exact En.
Qed.

(** The transition that takes the loop in, as the three cases compute it. *)
Lemma fold_out_returns (nl1 nl' : NodeList) (s o : nat) (ref outT : Transition) :
  returns (if structurallyEqualT ref outT
           then tbind (Elimination.plus ref)
                  (fun t => liftResult (relinkNodes nl1 s o t))
           else tbind (Elimination.star ref) (fun s' =>
                tbind (Elimination.concat s' outT)
                  (fun t => liftResult (relinkNodes nl1 s o t)))) nl' ->
  wfT ref -> wfT outT ->
  exists t, wfT t
            /\ langSame (langT t) (langCat (langStar (langT ref)) (langT outT))
            /\ relinkNodes nl1 s o t = Ok nl'.
Proof.
  intros H Wr Wo. destruct (structurallyEqualT ref outT) eqn:E.
  - apply structurallyEqualT_eq in E. subst outT. tc_inv H.
    destruct (plus_spec ref x R Wr) as [Wx Lx].
    exists x. split; [exact Wx|]. split; [|exact H].
    rewrite Lx. apply langPlus_unfold_r.
  - tc_inv H.
    destruct (star_spec ref x R Wr) as [Wx Lx].
    destruct (concat_spec x outT x0 R0 Wx Wo) as [Wx0 Lx0].
    exists x0. split; [exact Wx0|]. split; [|exact H].
    rewrite Lx0, Lx. reflexivity.
Qed.

Lemma fold_in_returns (nl1 nl' : NodeList) (s p : nat) (ref inT : Transition) :
  returns (if structurallyEqualT inT ref
           then tbind (Elimination.plus ref)
                  (fun t => liftResult (relinkNodes nl1 p s t))
           else tbind (Elimination.star ref) (fun s' =>
                tbind (Elimination.concat inT s')
                  (fun t => liftResult (relinkNodes nl1 p s t)))) nl' ->
  wfT ref -> wfT inT ->
  exists t, wfT t
            /\ langSame (langT t) (langCat (langT inT) (langStar (langT ref)))
            /\ relinkNodes nl1 p s t = Ok nl'.
Proof.
  intros H Wr Wi. destruct (structurallyEqualT inT ref) eqn:E.
  - apply structurallyEqualT_eq in E. subst inT. tc_inv H.
    destruct (plus_spec ref x R Wr) as [Wx Lx].
    exists x. split; [exact Wx|]. split; [|exact H].
    rewrite Lx. apply langPlus_unfold.
  - tc_inv H.
    destruct (star_spec ref x R Wr) as [Wx Lx].
    destruct (concat_spec inT x x0 R0 Wi Wx) as [Wx0 Lx0].
    exists x0. split; [exact Wx0|]. split; [|exact H].
    rewrite Lx0, Lx. reflexivity.
Qed.

Lemma out_of_two (nl nl1 : NodeList) (s o : nat) (c b : Transition) :
  WFG nl -> edge nl s s = Some c -> length (out (getNode nl s)) = 2%nat ->
  out (getNode nl1 s) = mapDelete (out (getNode nl s)) s ->
  firstOf (out (getNode nl1 s)) = Some (o, b) ->
  o <> s
  /\ forall v, edge nl s v = if (v =? s)%nat then Some c
                             else if (v =? o)%nat then Some b else None.
Proof.
  intros W Ec Hlen Eout Hfirst. rewrite Eout in Hfirst.
  destruct (single_after_delete (out (getNode nl s)) s o c b (wfg_out nl W s) Hlen Ec Hfirst)
    as (_ & Hos & Hget).
  split; [exact Hos | exact Hget].
Qed.

Lemma in_of_two (nl nl1 : NodeList) (s p : nat) (c a : Transition) :
  WFG nl -> edge nl s s = Some c -> length (in_ (getNode nl s)) = 2%nat ->
  in_ (getNode nl1 s) = mapDelete (in_ (getNode nl s)) s ->
  firstOf (in_ (getNode nl1 s)) = Some (p, a) ->
  p <> s
  /\ forall u, edge nl u s = if (u =? s)%nat then Some c
                             else if (u =? p)%nat then Some a else None.
Proof.
  intros W Ec Hlen Ein Hfirst. rewrite Ein in Hfirst.
  rewrite <- (edge_in nl s s W) in Ec.
  destruct (single_after_delete (in_ (getNode nl s)) s p c a (wfg_in nl W s) Hlen Ec Hfirst)
    as (_ & Hps & Hget).
  split; [exact Hps|]. intros u. rewrite <- (edge_in nl u s W). apply Hget.
Qed.

Lemma removeTrivialReflexiveTransition_keeps (L : Lang) (V : nat -> Prop) (i f : nat)
  (nl nl' : NodeList) (Rs : list nat) (s : nat) :
  ElimInv L V i f nl Rs -> In s Rs ->
  returns (Elimination.removeTrivialReflexiveTransition nl s) nl' ->
  ElimInv L V i f nl' Rs.
Proof.
  intros HI Hs H. pose proof (ei_wfg _ _ _ _ _ _ HI) as W.
  pose proof (ei_wfT _ _ _ _ _ _ HI) as We.
  unfold Elimination.removeTrivialReflexiveTransition in H.
  destruct (mapHas (out (getNode nl s)) s) eqn:Hloop;
    [|apply returns_Ret in H; subst nl'; exact HI].
  apply mapHas_true in Hloop. destruct Hloop as (c & Ec). fold (edge nl s s) in Ec.
  pose proof (We s s c Ec) as Wc.
  destruct (unlinkNodes nl s s) as [ref nl1] eqn:EU.
  destruct (unlink_loop nl nl1 s ref W EU) as (Er & W1 & F1 & Eout & Ein & E1).
  rewrite Ec in Er. subst ref.
  destruct (length (in_ (getNode nl s)) =? 2)%nat eqn:Hin2;
    destruct (length (out (getNode nl s)) =? 2)%nat eqn:Hout2; simpl in H.
  - (* one edge in and one edge out *)
    apply Nat.eqb_eq in Hin2, Hout2.
    tc_step H. tc_step R. destruct x as [o b].
    tc_step H. tc_step R0. destruct x as [p a].
    destruct (out_of_two nl nl1 s o c b W Ec Hout2 Eout R) as [Hos Hout].
    destruct (in_of_two nl nl1 s p c a W Ec Hin2 Ein R0) as [Hps Hin].
    assert (Wb : wfT b).
    { apply (We s o). rewrite Hout. apply Nat.eqb_neq in Hos.
      rewrite Hos, Nat.eqb_refl. reflexivity. }
    assert (Wa : wfT a).
    { apply (We p s). rewrite Hin. apply Nat.eqb_neq in Hps.
      rewrite Hps, Nat.eqb_refl. reflexivity. }
    destruct (structurallyEqualT a c) eqn:Eac.
    + assert (H' : returns
                (if structurallyEqualT a c
                 then tbind (Elimination.plus c)
                        (fun t => liftResult (relinkNodes nl1 p s t))
                 else tbind (Elimination.star c) (fun s' =>
                      tbind (Elimination.concat a s')
                        (fun t => liftResult (relinkNodes nl1 p s t)))) nl')
        by (rewrite Eac; exact H).
      destruct (fold_in_returns nl1 nl' s p c a H' Wc Wa) as (t & Wt & Lt & Hrel).
      apply (fold_loop_in L V i f nl nl1 nl' Rs s p c a t); assumption.
    + destruct (fold_out_returns nl1 nl' s o c b H Wc Wb) as (t & Wt & Lt & Hrel).
      apply (fold_loop_out L V i f nl nl1 nl' Rs s o c b t); assumption.
  - (* one edge in *)
    apply Nat.eqb_eq in Hin2.
    tc_step H. tc_step R. destruct x as [p a].
    destruct (in_of_two nl nl1 s p c a W Ec Hin2 Ein R) as [Hps Hin].
    assert (Wa : wfT a).
    { apply (We p s). rewrite Hin. apply Nat.eqb_neq in Hps.
      rewrite Hps, Nat.eqb_refl. reflexivity. }
    destruct (fold_in_returns nl1 nl' s p c a H Wc Wa) as (t & Wt & Lt & Hrel).
    apply (fold_loop_in L V i f nl nl1 nl' Rs s p c a t); assumption.
  - (* one edge out *)
    apply Nat.eqb_eq in Hout2.
    tc_step H. tc_step R. destruct x as [o b].
    destruct (out_of_two nl nl1 s o c b W Ec Hout2 Eout R) as [Hos Hout].
    assert (Wb : wfT b).
    { apply (We s o). rewrite Hout. apply Nat.eqb_neq in Hos.
      rewrite Hos, Nat.eqb_refl. reflexivity. }
    destruct (fold_out_returns nl1 nl' s o c b H Wc Wb) as (t & Wt & Lt & Hrel).
    apply (fold_loop_out L V i f nl nl1 nl' Rs s o c b t); assumption.
  - apply returns_Ret in H. subst nl'. exact HI.
Qed.

(** *** A state with one edge in and one edge out *)

Lemma langStar_empty : langSame (langStar langEmpty) langUnit.
Proof.
  intros w. rewrite langStar_unfold. split.
  - intros ([|n] & H); [exact H|]. destruct H as (w1 & w2 & _ & [] & _).
  - intros H. exists 0%nat. exact H.
Qed.

Lemma map_of_one (m : NodeMap) (k : nat) (t : Transition) :
  length m = 1%nat -> firstOf m = Some (k, t) ->
  forall k', mapGet m k' = if (k' =? k)%nat then Some t else None.
Proof.
  intros Hl Hf k'. rewrite (map_single m k t Hl Hf). simpl.
  rewrite (Nat.eqb_sym k k'). reflexivity.
Qed.

Lemma removeTrivialConcat_keeps (L : Lang) (V : nat -> Prop) (i f : nat)
  (st st' : Elimination.State) (s : nat) (r : option (list nat)) :
  ElimInv L V i f (Elimination.nodeList st) (Elimination.remainingStates st) ->
  In s (Elimination.remainingStates st) ->
  returns (Elimination.removeTrivialConcat st s) (r, st') ->
  ElimInv L V i f (Elimination.nodeList st') (Elimination.remainingStates st').
Proof.
  destruct st as [nl Rs]. simpl. intros HI Hs H.
  pose proof (ei_wfg _ _ _ _ _ _ HI) as W. pose proof (ei_wfT _ _ _ _ _ _ HI) as We.
  unfold Elimination.removeTrivialConcat in H. simpl in H.
  destruct ((length (in_ (getNode nl s)) =? 1)%nat
            && (length (out (getNode nl s)) =? 1)%nat) eqn:E11;
    [|apply returns_Ret in H; injection H as _ <-; exact HI].
  apply andb_true_iff in E11. rewrite !Nat.eqb_eq in E11. destruct E11 as [Hin1 Hout1].
  tc_step H. tc_step R. destruct x as [p a].
  tc_step H. tc_step R0. destruct x as [o b].
  pose proof (map_of_one _ p a Hin1 R) as Hin.
  pose proof (map_of_one _ o b Hout1 R0) as Hout.
  assert (Hin' : forall u, edge nl u s = if (u =? p)%nat then Some a else None).
  { intros u. rewrite <- (edge_in nl u s W). apply Hin. }
  assert (Hout' : forall v, edge nl s v = if (v =? o)%nat then Some b else None)
    by exact Hout.
  clear Hin Hout. rename Hout' into Hout.
  assert (Ea : edge nl p s = Some a) by (rewrite Hin', Nat.eqb_refl; reflexivity).
  assert (Eb : edge nl s o = Some b) by (rewrite Hout, Nat.eqb_refl; reflexivity).
  destruct (wfg_valid nl W p s a Ea) as [Vp _].
  destruct (wfg_valid nl W s o b Eb) as [_ Vo].
  destruct (unlinkNodes nl p s) as [r1 nl1] eqn:EU1.
  destruct (unlinkNodes_spec nl nl1 p s r1 W EU1) as (_ & U1 & W1 & E1).
  simpl in H.
  destruct (unlinkNodes nl1 s o) as [r2 nl2] eqn:EU2.
  destruct (unlinkNodes_spec nl1 nl2 s o r2 W1 EU2) as (_ & U2 & W2 & E2).
  simpl in H.
  pose proof (sameFrame_trans nl nl1 nl2 (Updated_sameFrame _ _ _ _ _ _ U1)
                (Updated_sameFrame _ _ _ _ _ _ U2)) as F2.
  tc_step H. tc_step H. tc_step H. injection H as _ <-. simpl.
  destruct (concat_spec a b x R1 (We p s a Ea) (We s o b Eb)) as [Wx Lx].
  assert (We2 : wfEdges nl2).
  { intros u v t Huv. rewrite E2, E1 in Huv.
    destruct ((u =? s)%nat && (v =? o)%nat); [discriminate|].
    destruct ((u =? p)%nat && (v =? s)%nat); [discriminate|].
    apply (We u v t Huv). }
  destruct (linkWithUnion_spec nl2 x0 p o x W2 We2) as (W3 & We3 & F3 & t' & Wt' & Lt' & E3);
    [apply (sameFrame_valid nl nl2 p F2), Vp | apply (sameFrame_valid nl nl2 o F2), Vo
    | exact Wx | exact R2 |].
  pose proof (sameFrame_trans nl nl2 x0 F2 F3) as (_ & Fi & Ff).
  assert (Hfs : f <> s) by (intros <-; exact (ei_f _ _ _ _ _ _ HI Hs)).
  assert (His : i <> s) by (intros <-; exact (ei_i _ _ _ _ _ _ HI Hs)).
  assert (Hedge : forall u v, edge x0 u v
            = if (u =? p)%nat && (v =? o)%nat then Some t'
              else if (u =? s)%nat && (v =? o)%nat then None
              else if (u =? p)%nat && (v =? s)%nat then None
              else edge nl u v).
  { intros u v. rewrite E3, E2, E1. reflexivity. }
  assert (Hnos : forall u v, u <> s -> v <> s ->
            (u =? s)%nat && (v =? o)%nat = false /\ (u =? p)%nat && (v =? s)%nat = false).
  { intros u v Hu Hv. apply Nat.eqb_neq in Hu, Hv. rewrite Hu, Hv, andb_false_r. tauto. }
  assert (Hcases : (p <> s /\ o <> s) \/ (p = s /\ o = s)).
  { destruct (Nat.eq_dec p s) as [-> | Hp].
    - right. split; [reflexivity|]. rewrite Hout in Ea.
      destruct (s =? o)%nat eqn:X; [|discriminate]. apply Nat.eqb_eq in X. congruence.
    - left. split; [exact Hp|]. intros ->. rewrite Hin' in Eb.
      apply Nat.eqb_neq in Hp. rewrite (Nat.eqb_sym s p), Hp in Eb. discriminate. }
  split.
  - exact W3.
  - exact We3.
  - rewrite Fi. apply (ei_initial _ _ _ _ _ _ HI).
  - rewrite Ff. apply (ei_finals _ _ _ _ _ _ HI).
  - apply (ei_ne _ _ _ _ _ _ HI).
  - rewrite setDelete_In. intros [Hi _]. exact (ei_i _ _ _ _ _ _ HI Hi).
  - rewrite setDelete_In. intros [Hf _]. exact (ei_f _ _ _ _ _ _ HI Hf).
  - apply (ei_Vi _ _ _ _ _ _ HI).
  - intros n Hn. apply setDelete_In in Hn. apply (ei_VR _ _ _ _ _ _ HI n), Hn.
  - intros u. rewrite Hedge.
    destruct ((u =? p)%nat && (i =? o)%nat) eqn:X.
    { apply eqb_pair_true in X. destruct X as [_ <-].
      rewrite (ei_no_in _ _ _ _ _ _ HI s) in Eb. discriminate. }
    destruct ((u =? s)%nat && (i =? o)%nat); [reflexivity|].
    destruct ((u =? p)%nat && (i =? s)%nat); [reflexivity|].
    apply (ei_no_in _ _ _ _ _ _ HI u).
  - intros v. rewrite Hedge.
    destruct ((f =? p)%nat && (v =? o)%nat) eqn:X.
    { apply eqb_pair_true in X. destruct X as [<- _].
      rewrite (ei_no_out _ _ _ _ _ _ HI s) in Ea. discriminate. }
    destruct ((f =? s)%nat && (v =? o)%nat); [reflexivity|].
    destruct ((f =? p)%nat && (v =? s)%nat); [reflexivity|].
    apply (ei_no_out _ _ _ _ _ _ HI v).
  - intros u v t Huv HVu Huv'. rewrite Hedge in Huv. rewrite setDelete_In.
    destruct ((u =? p)%nat && (v =? o)%nat) eqn:X.
    { apply eqb_pair_true in X. destruct X as [-> ->].
      destruct Hcases as [[Hp Ho] | [-> ->]]; [|contradiction].
      destruct (ei_edges _ _ _ _ _ _ HI s o b Eb (ei_VR _ _ _ _ _ _ HI s Hs)
                  (not_eq_sym Ho)) as [-> | Ho']; [left; reflexivity | right; tauto]. }
    destruct ((u =? s)%nat && (v =? o)%nat) eqn:X1; [discriminate|].
    destruct ((u =? p)%nat && (v =? s)%nat) eqn:X2; [discriminate|].
    destruct (ei_edges _ _ _ _ _ _ HI u v t Huv HVu Huv') as [-> | Hv];
      [left; reflexivity | right].
    split; [exact Hv|]. intros ->. rewrite Hin' in Huv.
    destruct (u =? p)%nat eqn:X3; [|discriminate].
    rewrite Nat.eqb_refl in X2. discriminate.
  - rewrite <- (ei_lang _ _ _ _ _ _ HI).
    destruct Hcases as [[Hp Ho] | [-> ->]].
    + apply (pathLang_remove_state (edgeLang nl) (edgeLang x0) s); try assumption.
      * intros u v Hu Hv. destruct (Hnos u v Hu Hv) as [X1 X2].
        assert (Ess : edge nl s s = None).
        { rewrite Hout. apply Nat.eqb_neq in Ho. rewrite (Nat.eqb_sym s o), Ho.
          reflexivity. }
        rewrite (edgeLang_None nl s s Ess), langStar_empty, langCat_unit_l.
        destruct ((u =? p)%nat && (v =? o)%nat) eqn:X.
        -- apply eqb_pair_true in X. destruct X as [-> ->].
           rewrite (edgeLang_Some x0 p o t');
             [|rewrite Hedge, !Nat.eqb_refl; reflexivity].
           rewrite Lt', Lx, (edgeLang_Some nl p s a Ea), (edgeLang_Some nl s o b Eb).
           apply langOr_Proper; [|reflexivity].
           apply edgeLang_same_edge. rewrite E2, E1, X1, X2. reflexivity.
        -- assert (Hsame : edge x0 u v = edge nl u v)
             by (rewrite Hedge, X, X1, X2; reflexivity).
           rewrite (edgeLang_same_edge nl x0 u v Hsame).
           apply eqb_pair_false in X.
           assert (Hnone : edge nl u s = None \/ edge nl s v = None).
           { destruct (Nat.eq_dec u p) as [-> | Hup].
             - right. rewrite Hout. destruct (v =? o)%nat eqn:Y; [|reflexivity].
               apply Nat.eqb_eq in Y. tauto.
             - left. rewrite Hin'. apply Nat.eqb_neq in Hup. rewrite Hup. reflexivity. }
           destruct Hnone as [Hn | Hn]; rewrite (edgeLang_None nl _ _ Hn).
           ++ rewrite langCat_empty_l, langOr_empty_r. reflexivity.
           ++ rewrite langCat_empty_r, langOr_empty_r. reflexivity.
      * intros u w Hw. apply edgeLang_edge in Hw. destruct Hw as (t & Hw).
        rewrite Hedge in Hw. apply Nat.eqb_neq in Ho.
        rewrite (Nat.eqb_sym s o), Ho, !andb_false_r, Nat.eqb_refl, andb_true_r in Hw.
        destruct (u =? p)%nat eqn:X; [discriminate|].
        rewrite Hin', X in Hw. discriminate.
      * intros v w Hw. apply edgeLang_edge in Hw. destruct Hw as (t & Hw).
        rewrite Hedge in Hw. apply Nat.eqb_neq in Hp.
        rewrite (Nat.eqb_sym s p), Hp, Nat.eqb_refl in Hw. simpl in Hw.
        destruct (v =? o)%nat eqn:X; [discriminate|].
        rewrite Hout, X in Hw. discriminate.
    + symmetry.
      apply (pathLang_closed (edgeLang nl) (edgeLang x0) (fun n => n <> s));
        [| | | exact Hfs].
      * intros u v w Hw Hv ->. apply edgeLang_edge in Hw. destruct Hw as (t & Hw).
        rewrite Hout in Hw. destruct (v =? s)%nat eqn:X; [|discriminate].
        apply Nat.eqb_eq in X. contradiction.
      * intros u v w Hw Hv ->. apply edgeLang_edge in Hw. destruct Hw as (t & Hw).
        rewrite Hedge, Nat.eqb_refl in Hw. simpl in Hw.
        destruct (v =? s)%nat eqn:X; [apply Nat.eqb_eq in X; contradiction|].
        rewrite Hout, X in Hw. discriminate.
      * intros u v Hu Hv. symmetry. apply edgeLang_same_edge. rewrite Hedge.
        apply Nat.eqb_neq in Hu, Hv. rewrite Hu, Hv. reflexivity.
Qed.

(* ================================================================= *)
(** ** The trivial operations *)

Definition StateInv (L : Lang) (V : nat -> Prop) (i f : nat) (st : Elimination.State)
  : Prop :=
  ElimInv L V i f (Elimination.nodeList st) (Elimination.remainingStates st).

Lemma processState_keeps (L : Lang) (V : nat -> Prop) (i f : nat)
  (acc acc' : Elimination.State * list nat) (s : nat) :
  StateInv L V i f (fst acc) ->
  returns (Elimination.processState acc s) acc' ->
  StateInv L V i f (fst acc').
Proof.
  destruct acc as [[nl Rs] newToProcess]. unfold StateInv. simpl. intros HI H.
  destruct (setHas Rs s) eqn:E; simpl in H;
    [|apply returns_Ret in H; subst acc'; exact HI].
  apply setHas_In in E.
  tc_step H. tc_step H. destruct x0 as [affected st'].
  pose proof (removeTrivialReflexiveTransition_keeps L V i f nl x Rs s HI E R) as HI1.
  pose proof (removeTrivialConcat_keeps L V i f (Elimination.mkState x Rs) st' s affected
                HI1 E R0) as HI2.
  destruct affected as [states|]; apply returns_Ret in H; subst acc'; exact HI2.
Qed.

Lemma trivialOperations_keeps (L : Lang) (V : nat -> Prop) (i f : nat) (fuel : nat) :
  forall (st st' : Elimination.State) (toProcess : list nat),
  StateInv L V i f st ->
  returns (Elimination.trivialOperations fuel st toProcess) st' ->
  StateInv L V i f st'.
Proof.
  induction fuel as [|fuel IH]; intros st st' toProcess HI H; simpl in H.
  - destruct (returns_Throw _ _ H).
  - destruct (0 <? length toProcess)%nat;
      [|apply returns_Ret in H; subst st'; exact HI].
    tc_step H. destruct x as [st1 newToProcess].
    apply (IH st1 st' newToProcess); [|exact H].
    apply (foldM_returns Elimination.processState
             (fun _ acc => StateInv L V i f (fst acc)) toProcess) with (st := (st, []))
      (st' := (st1, newToProcess)); [| exact HI | exact R].
    intros done x acc acc' _ HP Hret. apply (processState_keeps L V i f acc acc' x HP Hret).
Qed.

(* ================================================================= *)
(** ** Removing a state *)

(** The language of [refStar]: the loops of the state that is removed. *)
Definition loopLang (refStar : option Transition) : Lang :=
  match refStar with
  | Some r => langT r
  | None => langUnit
  end.

Definition wfOption (x : option Transition) : Prop :=
  match x with
  | Some r => wfT r
  | None => True
  end.

Lemma bridge_spec (refStar : option Transition) (a b : nat) (ta tb : Transition)
  (cur cur' : NodeList) :
  WFG cur -> wfEdges cur -> validNode cur a -> validNode cur b ->
  wfT ta -> wfT tb -> wfOption refStar ->
  returns (Elimination.bridge refStar (a, ta) (b, tb) cur) cur' ->
  WFG cur' /\ wfEdges cur' /\ sameFrame cur cur'
  /\ exists t',
       wfT t'
       /\ langSame (langT t')
            (langOr (edgeLang cur a b)
                    (langCat (langT ta) (langCat (loopLang refStar) (langT tb))))
       /\ forall u v, edge cur' u v
                      = if (u =? a)%nat && (v =? b)%nat then Some t' else edge cur u v.
Proof.
  intros W We Va Vb Wa Wb Wr H. unfold Elimination.bridge in H.
  assert (G : exists t, wfT t
                /\ langSame (langT t)
                     (langCat (langT ta) (langCat (loopLang refStar) (langT tb)))
                /\ returns (Elimination.linkWithUnion cur a b t) cur').
  { destruct refStar as [r|]; simpl in Wr |- *.
    - tc_step H. tc_step H. tc_step H. tc_step H. tc_step H.
      apply (copy_returns ta x Wa) in R. apply (copy_returns r x0 Wr) in R0.
      apply (copy_returns tb x1 Wb) in R1. subst x x0 x1.
      destruct (concat_spec r tb x2 R2 Wr Wb) as [W2 L2].
      destruct (concat_spec ta x2 x3 R3 Wa W2) as [W3 L3].
      exists x3. split; [exact W3|]. split; [|exact H]. rewrite L3, L2. reflexivity.
    - tc_step H. tc_step H. tc_step H.
      apply (copy_returns ta x Wa) in R. apply (copy_returns tb x0 Wb) in R0. subst x x0.
      destruct (concat_spec ta tb x1 R1 Wa Wb) as [W3 L3].
      exists x1. split; [exact W3|]. split; [|exact H].
      rewrite L3, langCat_unit_l. reflexivity. }
  destruct G as (t & Wt & Lt & Hl).
  destruct (linkWithUnion_spec cur cur' a b t W We Va Vb Wt Hl)
    as (W' & We' & F' & t' & Wt' & Lt' & E').
  split; [exact W'|]. split; [exact We'|]. split; [exact F'|].
  exists t'. split; [exact Wt'|]. split; [|exact E'].
  rewrite Lt', Lt. reflexivity.
Qed.

Section Bridge.
Variable nl1 : NodeList.
Variable s : nat.
Variable refStar : option Transition.
Hypothesis W1 : WFG nl1.
Hypothesis Hloop : edge nl1 s s = None.
Hypothesis Wr : wfOption refStar.
Hypothesis We1 : wfEdges nl1.

Definition bridgeLang (u v : nat) : Lang :=
  langCat (edgeLang nl1 u s) (langCat (loopLang refStar) (edgeLang nl1 s v)).

(** The graph while the pairs of an edge in and an edge out are bridged;
    [Done] are the pairs that have been. *)
Record BridgeInv (Done : nat -> nat -> Prop) (cur : NodeList) : Prop := mkBridgeInv {
  bi_wfg : WFG cur;
  bi_wfT : wfEdges cur;
  bi_frame : sameFrame nl1 cur;
  bi_in : forall u, edge cur u s = edge nl1 u s;
  bi_out : forall v, edge cur s v = edge nl1 s v;
  bi_lang : forall u v w, u <> s -> v <> s ->
    (edgeLang cur u v w <-> edgeLang nl1 u v w \/ (Done u v /\ bridgeLang u v w));
  bi_edges : forall u v t,
    edge cur u v = Some t -> (exists t0, edge nl1 u v = Some t0) \/ Done u v
}.

Lemma BridgeInv_ext (D D' : nat -> nat -> Prop) (cur : NodeList) :
  (forall u v, D u v <-> D' u v) -> BridgeInv D cur -> BridgeInv D' cur.
Proof.
  intros Hext [H1 H2 H3 H4 H5 H6 H7]. split; try assumption.
  - intros u v w Hu Hv. rewrite (H6 u v w Hu Hv), (Hext u v). tauto.
  - intros u v t Huv. destruct (H7 u v t Huv) as [H | H]; [left; exact H | right].
    apply Hext, H.
Qed.

Lemma BridgeInv_start : BridgeInv (fun _ _ => False) nl1.
Proof.
  split; try assumption; try reflexivity.
  - apply sameFrame_refl.
  - intros u v w _ _. tauto.
  - intros u v t H. left. exists t. exact H.
Qed.

Lemma BridgeInv_step (D : nat -> nat -> Prop) (cur cur' : NodeList) (a b : nat)
  (ta tb : Transition) :
  BridgeInv D cur ->
  edge nl1 a s = Some ta -> edge nl1 s b = Some tb ->
  returns (Elimination.bridge refStar (a, ta) (b, tb) cur) cur' ->
  BridgeInv (fun u v => D u v \/ (u = a /\ v = b)) cur'.
Proof.
  intros [H1 H2 H3 H4 H5 H6 H7] Ea Eb H.
  assert (Has : a <> s) by (intros ->; congruence).
  assert (Hbs : b <> s) by (intros ->; congruence).
  destruct (wfg_valid nl1 W1 a s ta Ea) as [Va _].
  destruct (wfg_valid nl1 W1 s b tb Eb) as [_ Vb].
  destruct (bridge_spec refStar a b ta tb cur cur' H1 H2) as (W' & We' & F' & t' & Wt' & Lt' & E');
    [apply (sameFrame_valid nl1 cur a H3), Va | apply (sameFrame_valid nl1 cur b H3), Vb
    | apply (We1 a s ta Ea) | apply (We1 s b tb Eb) | exact Wr | exact H |].
  split.
  - exact W'.
  - exact We'.
  - apply (sameFrame_trans nl1 cur cur' H3 F').
  - intros u. rewrite E'. apply Nat.eqb_neq in Hbs.
    rewrite (Nat.eqb_sym s b), Hbs, andb_false_r. apply H4.
  - intros v. rewrite E'. apply Nat.eqb_neq in Has.
    rewrite (Nat.eqb_sym s a), Has. apply H5.
  - intros u v w Hu Hv. destruct ((u =? a)%nat && (v =? b)%nat) eqn:X.
    + apply eqb_pair_true in X. destruct X as [-> ->].
      assert (Et : edge cur' a b = Some t') by (rewrite E', !Nat.eqb_refl; reflexivity).
      rewrite (edgeLang_Some cur' a b t' Et w), (Lt' w). unfold langOr. rewrite (H6 a b w Hu Hv).
      assert (Hb : langSame (langCat (langT ta) (langCat (loopLang refStar) (langT tb)))
                            (bridgeLang a b)).
      { unfold bridgeLang.
        rewrite (edgeLang_Some nl1 a s ta Ea), (edgeLang_Some nl1 s b tb Eb). reflexivity. }
      rewrite (Hb w). tauto.
    + assert (Hsame : edge cur' u v = edge cur u v) by (rewrite E', X; reflexivity).
      rewrite (edgeLang_same_edge cur cur' u v Hsame w), (H6 u v w Hu Hv).
      apply eqb_pair_false in X. tauto.
  - intros u v t Huv. rewrite E' in Huv.
    destruct ((u =? a)%nat && (v =? b)%nat) eqn:X.
    + apply eqb_pair_true in X. right. right. exact X.
    + destruct (H7 u v t Huv) as [Hold | Hd]; [left; exact Hold | right; left; exact Hd].
Qed.

Lemma In_mapKeys (m : NodeMap) (k : nat) (t : Transition) : In (k, t) m -> In k (mapKeys m).
Proof. intros H. change k with (fst (k, t)). apply in_map, H. Qed.

Lemma mapKeys_app (m1 m2 : NodeMap) : mapKeys (m1 ++ m2) = mapKeys m1 ++ mapKeys m2.
Proof. apply map_app. Qed.

Lemma bridge_outs (D : nat -> nat -> Prop) (cur cur' : NodeList) (a : nat) (ta : Transition) :
  BridgeInv D cur ->
  edge nl1 a s = Some ta ->
  returns (foldM (fun nl outEdge => Elimination.bridge refStar (a, ta) outEdge nl)
                 (out (getNode nl1 s)) cur) cur' ->
  BridgeInv (fun u v => D u v \/ (u = a /\ In v (mapKeys (out (getNode nl1 s))))) cur'.
Proof.
  intros HB Ea H.
  apply (BridgeInv_ext
           (fun u v => D u v \/ (u = a /\ In v (mapKeys (out (getNode nl1 s))))));
    [tauto|].
  apply (foldM_returns
           (fun nl outEdge => Elimination.bridge refStar (a, ta) outEdge nl)
           (fun done c => BridgeInv (fun u v => D u v \/ (u = a /\ In v (mapKeys done))) c)
           (out (getNode nl1 s))) with (st := cur); [| | exact H].
  - intros done [b tb] c c' (rest & Hrest) HP Hret.
    assert (Eb : edge nl1 s b = Some tb).
    { apply mapGet_of_In; [apply (wfg_out nl1 W1 s)|].
      rewrite Hrest. apply in_or_app. right. left. reflexivity. }
    pose proof (BridgeInv_step _ c c' a b ta tb HP Ea Eb Hret) as HB'.
    revert HB'. apply BridgeInv_ext. intros u v.
    rewrite mapKeys_app, in_app_iff. simpl. intuition congruence.
  - revert HB. apply BridgeInv_ext. intros u v. simpl. tauto.
Qed.

Lemma bridge_ins (nl2 : NodeList) :
  returns (foldM (fun nl inEdge =>
                    foldM (fun nl outEdge => Elimination.bridge refStar inEdge outEdge nl)
                          (out (getNode nl1 s)) nl)
                 (in_ (getNode nl1 s)) nl1) nl2 ->
  BridgeInv (fun u v => In u (mapKeys (in_ (getNode nl1 s)))
                        /\ In v (mapKeys (out (getNode nl1 s)))) nl2.
Proof.
  intros H.
  apply (foldM_returns
           (fun nl inEdge =>
              foldM (fun nl outEdge => Elimination.bridge refStar inEdge outEdge nl)
                    (out (getNode nl1 s)) nl)
           (fun done c => BridgeInv (fun u v => In u (mapKeys done)
                                      /\ In v (mapKeys (out (getNode nl1 s)))) c)
           (in_ (getNode nl1 s))) with (st := nl1); [| | exact H].
  - intros done [a ta] c c' (rest & Hrest) HP Hret.
    assert (Ea : edge nl1 a s = Some ta).
    { rewrite <- (edge_in nl1 a s W1). apply mapGet_of_In; [apply (wfg_in nl1 W1 s)|].
      rewrite Hrest. apply in_or_app. right. left. reflexivity. }
    pose proof (bridge_outs _ c c' a ta HP Ea Hret) as HB'.
    revert HB'. apply BridgeInv_ext. intros u v.
    rewrite mapKeys_app, in_app_iff. simpl. intuition congruence.
  - generalize BridgeInv_start. apply BridgeInv_ext. intros u v. simpl. tauto.
Qed.
End Bridge.

Lemma existsb_in_edges (u v s : nat) (keys : list nat) :
  existsb (fun e => (u =? fst e)%nat && (v =? snd e)%nat) (map (fun x => (x, s)) keys)
  = true <-> v = s /\ In u keys.
Proof.
  rewrite existsb_exists. split.
  - intros ([a b] & Hin & E). apply in_map_iff in Hin. destruct Hin as (x & Ex & Hx).
    injection Ex as <- <-. simpl in E. apply eqb_pair_true in E. destruct E as [-> ->].
    tauto.
  - intros [-> Hu]. exists (u, s). split; [apply in_map_iff; exists u; tauto|].
    simpl. rewrite !Nat.eqb_refl. reflexivity.
Qed.

Lemma existsb_out_edges (u v s : nat) (keys : list nat) :
  existsb (fun e => (u =? fst e)%nat && (v =? snd e)%nat) (map (fun x => (s, x)) keys)
  = true <-> u = s /\ In v keys.
Proof.
  rewrite existsb_exists. split.
  - intros ([a b] & Hin & E). apply in_map_iff in Hin. destruct Hin as (x & Ex & Hx).
    injection Ex as <- <-. simpl in E. apply eqb_pair_true in E. destruct E as [-> ->].
    tauto.
  - intros [-> Hv]. exists (s, v). split; [apply in_map_iff; exists v; tauto|].
    simpl. rewrite !Nat.eqb_refl. reflexivity.
Qed.

(** The two loops that unlink what is left at the state. *)
Lemma unlink_state (nl2 : NodeList) (s : nat) :
  WFG nl2 ->
  let nl3 := unlinkAll nl2 (map (fun inState => (inState, s))
                                (mapKeys (in_ (getNode nl2 s)))) in
  let nl4 := unlinkAll nl3 (map (fun outState => (s, outState))
                                (mapKeys (out (getNode nl3 s)))) in
  WFG nl4 /\ sameFrame nl2 nl4
  /\ forall u v, edge nl4 u v = if (u =? s)%nat || (v =? s)%nat then None else edge nl2 u v.
Proof.
  intros W2 nl3 nl4.
  destruct (unlinkAll_spec (map (fun inState => (inState, s))
                                (mapKeys (in_ (getNode nl2 s)))) nl2 W2) as (W3 & F3 & E3).
  fold nl3 in W3, F3, E3.
  destruct (unlinkAll_spec (map (fun outState => (s, outState))
                                (mapKeys (out (getNode nl3 s)))) nl3 W3) as (W4 & F4 & E4).
  fold nl4 in W4, F4, E4.
  split; [exact W4|]. split; [apply (sameFrame_trans nl2 nl3 nl4 F3 F4)|].
  assert (E3' : forall u v, edge nl3 u v = if (v =? s)%nat then None else edge nl2 u v).
  { intros u v. rewrite E3.
    destruct (existsb _ _) eqn:X.
    - apply existsb_in_edges in X. destruct X as [-> _]. rewrite Nat.eqb_refl. reflexivity.
    - destruct (v =? s)%nat eqn:Y; [|reflexivity]. apply Nat.eqb_eq in Y. subst v.
      destruct (edge nl2 u s) as [t|] eqn:Z; [|reflexivity].
      exfalso. rewrite <- (edge_in nl2 u s W2) in Z. apply mapGet_Some_key in Z.
      assert (X' : existsb (fun e => (u =? fst e)%nat && (s =? snd e)%nat)
                     (map (fun x => (x, s)) (mapKeys (in_ (getNode nl2 s)))) = true)
        by (apply existsb_in_edges; tauto).
      congruence. }
  intros u v. rewrite E4.
  destruct (existsb _ _) eqn:X.
  - apply existsb_out_edges in X. destruct X as [-> _]. rewrite Nat.eqb_refl. reflexivity.
  - rewrite E3'. destruct (v =? s)%nat eqn:Y; [rewrite orb_true_r; reflexivity|].
    rewrite orb_false_r. destruct (u =? s)%nat eqn:Z; [|reflexivity].
    apply Nat.eqb_eq in Z. subst u.
    destruct (edge nl2 s v) as [t|] eqn:Z; [|reflexivity]. exfalso.
    assert (Z3 : edge nl3 s v = Some t) by (rewrite E3', Y; exact Z).
    apply mapGet_Some_key in Z3.
    assert (X' : existsb (fun e => (s =? fst e)%nat && (v =? snd e)%nat)
                   (map (fun x => (s, x)) (mapKeys (out (getNode nl3 s)))) = true)
      by (apply existsb_out_edges; tauto).
    congruence.
Qed.

Lemma refStar_spec (refTrans x : option Transition) (G : Lang) :
  wfOption refTrans ->
  (forall c, refTrans = Some c -> langSame G (langT c)) ->
  (refTrans = None -> langSame G langEmpty) ->
  returns (match refTrans with
           | Some r => tbind (Elimination.star r) (fun s => Ret (Some s))
           | None => Ret None
           end) x ->
  wfOption x /\ langSame (loopLang x) (langStar G).
Proof.
  intros Wc Hs Hn H. destruct refTrans as [c|].
  - tc_inv H. subst x. destruct (star_spec c x0 R Wc) as [Wx Lx].
    split; [exact Wx|]. simpl. rewrite Lx, (Hs c eq_refl). reflexivity.
  - apply returns_Ret in H. subst x. split; [exact I|].
    simpl. rewrite (Hn eq_refl), langStar_empty. reflexivity.
Qed.

Lemma removeState_keeps (L : Lang) (V : nat -> Prop) (i f : nat)
  (st st' : Elimination.State) (s : nat) (affected : list nat) :
  StateInv L V i f st ->
  In s (Elimination.remainingStates st) ->
  returns (Elimination.removeState st s) (affected, st') ->
  StateInv L V i f st'.
Proof.
  destruct st as [nl Rs]. unfold StateInv. simpl. intros HI Hs H.
  pose proof (ei_wfg _ _ _ _ _ _ HI) as W. pose proof (ei_wfT _ _ _ _ _ _ HI) as We.
  unfold Elimination.removeState in H. simpl in H.
  destruct (unlinkNodes nl s s) as [refTrans nl1] eqn:EU.
  destruct (unlink_loop nl nl1 s refTrans W EU) as (Er & W1 & F1 & _ & _ & E1).
  tc_step H. tc_step H. tc_step H. injection H as _ <-. simpl.
  assert (Hloop : edge nl1 s s = None) by (rewrite E1, !Nat.eqb_refl; reflexivity).
  assert (We1 : wfEdges nl1).
  { intros u v t Huv. rewrite E1 in Huv.
    destruct ((u =? s)%nat && (v =? s)%nat); [discriminate | apply (We u v t Huv)]. }
  destruct (refStar_spec refTrans x (edgeLang nl s s)) as [Wx Lx]; [| | | exact R |].
  { rewrite Er. destruct (edge nl s s) as [c|] eqn:Ec; [apply (We s s c Ec) | exact I]. }
  { intros c Hc. apply edgeLang_Some. congruence. }
  { intros Hn. apply edgeLang_None. congruence. }
  pose proof (bridge_ins nl1 s x W1 Hloop Wx We1 x0 R0) as HB.
  destruct HB as [W2 We2 F2 Hin2 Hout2 HL2 Hedges2].
  destruct (unlink_state x0 s W2) as (W4 & F4 & E4).
  set (nl4 := unlinkAll _ (map (fun outState => (s, outState)) _)) in *.
  pose proof (sameFrame_trans nl nl1 nl4 F1 (sameFrame_trans nl1 x0 nl4 F2 F4))
    as (_ & Fi & Ff).
  assert (Hfs : f <> s) by (intros <-; exact (ei_f _ _ _ _ _ _ HI Hs)).
  assert (His : i <> s) by (intros <-; exact (ei_i _ _ _ _ _ _ HI Hs)).
  assert (Hold : forall u v, u <> s -> v <> s -> edge nl1 u v = edge nl u v).
  { intros u v Hu Hv. rewrite E1. apply Nat.eqb_neq in Hu. rewrite Hu. reflexivity. }
  assert (Hins : forall u, In u (mapKeys (in_ (getNode nl1 s))) ->
            u <> s /\ exists t, edge nl u s = Some t).
  { intros u Hu. apply mapGet_key in Hu. destruct Hu as (t & Hu).
    rewrite (edge_in nl1 u s W1) in Hu.
    assert (Hus : u <> s) by (intros ->; congruence).
    split; [exact Hus|]. exists t. rewrite E1 in Hu.
    apply Nat.eqb_neq in Hus. rewrite Hus in Hu. exact Hu. }
  assert (Houts : forall v, In v (mapKeys (out (getNode nl1 s))) ->
            v <> s /\ exists t, edge nl s v = Some t).
  { intros v Hv. apply mapGet_key in Hv. destruct Hv as (t & Hv).
    change (edge nl1 s v = Some t) in Hv.
    assert (Hvs : v <> s) by (intros ->; congruence).
    split; [exact Hvs|]. exists t. rewrite E1 in Hv.
    apply Nat.eqb_neq in Hvs. rewrite Hvs, andb_false_r in Hv. exact Hv. }
  assert (Hsrc : forall u v t, edge nl4 u v = Some t ->
            u <> s /\ v <> s
            /\ ((exists t0, edge nl u v = Some t0)
                \/ ((exists t0, edge nl u s = Some t0) /\ exists t0, edge nl s v = Some t0))).
  { intros u v t Huv. rewrite E4 in Huv.
    destruct (u =? s)%nat eqn:X; [discriminate|].
    destruct (v =? s)%nat eqn:Y; [discriminate|]. simpl in Huv.
    apply Nat.eqb_neq in X, Y. split; [exact X|]. split; [exact Y|].
    destruct (Hedges2 u v t Huv) as [(t0 & H0) | [Hu Hv]].
    - left. exists t0. rewrite <- (Hold u v X Y). exact H0.
    - right. split; [apply (Hins u Hu) | apply (Houts v Hv)]. }
  split.
  - exact W4.
  - intros u v t Huv. rewrite E4 in Huv.
    destruct ((u =? s)%nat || (v =? s)%nat); [discriminate | apply (We2 u v t Huv)].
  - rewrite Fi. apply (ei_initial _ _ _ _ _ _ HI).
  - rewrite Ff. apply (ei_finals _ _ _ _ _ _ HI).
  - apply (ei_ne _ _ _ _ _ _ HI).
  - rewrite setDelete_In. intros [Hi _]. exact (ei_i _ _ _ _ _ _ HI Hi).
  - rewrite setDelete_In. intros [Hf _]. exact (ei_f _ _ _ _ _ _ HI Hf).
  - apply (ei_Vi _ _ _ _ _ _ HI).
  - intros n Hn. apply setDelete_In in Hn. apply (ei_VR _ _ _ _ _ _ HI n), Hn.
  - intros u. destruct (edge nl4 u i) as [t|] eqn:E; [|reflexivity]. exfalso.
    destruct (Hsrc u i t E) as (_ & _ & [(t0 & H0) | [_ (t0 & H0)]]);
      rewrite (ei_no_in _ _ _ _ _ _ HI) in H0; discriminate.
  - intros v. destruct (edge nl4 f v) as [t|] eqn:E; [|reflexivity]. exfalso.
    destruct (Hsrc f v t E) as (_ & _ & [(t0 & H0) | [(t0 & H0) _]]);
      rewrite (ei_no_out _ _ _ _ _ _ HI) in H0; discriminate.
  - intros u v t Huv HVu Hne. rewrite setDelete_In.
    destruct (Hsrc u v t Huv) as (Hu & Hv & [(t0 & H0) | [_ (t0 & H0)]]).
    + destruct (ei_edges _ _ _ _ _ _ HI u v t0 H0 HVu Hne); tauto.
    + destruct (ei_edges _ _ _ _ _ _ HI s v t0 H0 (ei_VR _ _ _ _ _ _ HI s Hs)
                  (not_eq_sym Hv)); tauto.
  - rewrite <- (ei_lang _ _ _ _ _ _ HI).
    apply (pathLang_remove_state (edgeLang nl) (edgeLang nl4) s); try assumption.
    + intros u v Hu Hv w.
      assert (Hsame : edge nl4 u v = edge x0 u v).
      { rewrite E4. apply Nat.eqb_neq in Hu, Hv. rewrite Hu, Hv. reflexivity. }
      rewrite (edgeLang_same_edge x0 nl4 u v Hsame w), (HL2 u v w Hu Hv).
      rewrite (edgeLang_same_edge nl nl1 u v (Hold u v Hu Hv) w).
      assert (Hb : langSame (bridgeLang nl1 s x u v)
                     (langCat (edgeLang nl u s)
                        (langCat (langStar (edgeLang nl s s)) (edgeLang nl s v)))).
      { unfold bridgeLang. rewrite Lx.
        assert (Eu : edge nl1 u s = edge nl u s).
        { rewrite E1. apply Nat.eqb_neq in Hu. rewrite Hu. reflexivity. }
        assert (Ev : edge nl1 s v = edge nl s v).
        { rewrite E1. apply Nat.eqb_neq in Hv. rewrite Hv, andb_false_r. reflexivity. }
        rewrite (edgeLang_same_edge nl nl1 u s Eu), (edgeLang_same_edge nl nl1 s v Ev).
        reflexivity. }
      unfold langOr. rewrite <- (Hb w).
      assert (Hdone : bridgeLang nl1 s x u v w ->
                In u (mapKeys (in_ (getNode nl1 s)))
                /\ In v (mapKeys (out (getNode nl1 s)))).
      { intros (w1 & w' & _ & H1 & (w2 & w3 & _ & _ & H3)).
        apply edgeLang_edge in H1, H3. destruct H1 as (t1 & H1), H3 as (t3 & H3).
        split.
        - rewrite <- (edge_in nl1 u s W1) in H1. apply (mapGet_Some_key _ _ _ H1).
        - apply (mapGet_Some_key _ _ _ H3). }
      tauto.
    + intros u w Hw. apply edgeLang_edge in Hw. destruct Hw as (t & Hw).
      rewrite E4, Nat.eqb_refl, orb_true_r in Hw. discriminate.
    + intros v w Hw. apply edgeLang_edge in Hw. destruct Hw as (t & Hw).
      rewrite E4, Nat.eqb_refl in Hw. discriminate.
Qed.

(* ================================================================= *)
(** ** The main loop *)

Lemma minOfFrom_In (costOf : nat -> Z) (rest : list nat) : forall best,
  In (Elimination.minOfFrom costOf best rest) (best :: rest).
Proof.
  induction rest as [|x rest IH]; intros best; simpl; [left; reflexivity|].
  destruct (costOf x <? costOf best).
  - destruct (IH x) as [H | H]; [right; left; exact H | right; right; exact H].
  - destruct (IH best) as [H | H]; [left; exact H | right; right; exact H].
Qed.

Lemma minOf_In (iterable : list nat) (costOf : nat -> Z) (x : nat) :
  Elimination.minOf iterable costOf = Some x -> In x iterable.
Proof.
  destruct iterable as [|y rest]; simpl; [discriminate|].
  intros H. injection H as <-. apply minOfFrom_In.
Qed.

Lemma mainLoop_keeps (L : Lang) (V : nat -> Prop) (i f : nat) (fuel : nat) :
  forall st st' : Elimination.State,
  StateInv L V i f st ->
  returns (Elimination.mainLoop fuel st) st' ->
  StateInv L V i f st' /\ Elimination.remainingStates st' = [].
Proof.
  induction fuel as [|fuel IH]; intros st st' HI H.
  - destruct (returns_Throw _ _ H).
  - change (returns
              (if (0 <? length (Elimination.remainingStates st))%nat
               then
                 tbind (Elimination.unwrap
                          (Elimination.minOf (Elimination.remainingStates st)
                             (Elimination.cost (Elimination.nodeList st))))
                   (fun pickedState =>
                    tbind (Elimination.removeState st pickedState)
                      (fun x => let '(affected, st1) := x in
                       tbind (Elimination.trivialOperations (S fuel) st1 affected)
                         (fun st2 => Elimination.mainLoop fuel st2)))
               else Ret st) st') in H.
    destruct (0 <? length (Elimination.remainingStates st))%nat eqn:E.
    + tc_step H. tc_step R. apply minOf_In in R.
      tc_step H. destruct x0 as [affected st1]. tc_step H.
      apply (IH x0 st'); [|exact H].
      apply (trivialOperations_keeps L V i f (S fuel) st1 x0 affected); [|exact R1].
      apply (removeState_keeps L V i f st st1 x affected HI R R0).
    + apply returns_Ret in H. subst st'. split; [exact HI|].
      apply Nat.ltb_ge in E. destruct (Elimination.remainingStates st); [reflexivity|].
      simpl in E. lia.
Qed.

(* ================================================================= *)
(** ** [eliminateStates] *)

(** What [createNodeList] hands over: a graph with a source that no edge
    enters and a drain that no edge leaves. *)
Record Ready (L : Lang) (nl : NodeList) (f : nat) : Prop := mkReady {
  rd_wfg : WFG nl;
  rd_wfT : wfEdges nl;
  rd_finals : firstOf (finals nl) = Some f;
  rd_ne : initial nl <> f;
  rd_no_in : forall u, edge nl u (initial nl) = None;
  rd_no_out : forall v, edge nl f v = None;
  rd_lang : langSame (pathLang (edgeLang nl) (initial nl) f) L
}.

Lemma eliminateStates_spec (L : Lang) (fuel : nat) (nl nl' : NodeList) (f : nat) :
  Ready L nl f ->
  returns (eliminateStates fuel nl) nl' ->
  exists V, ElimInv L V (initial nl) f nl' [].
Proof.
  intros [W We Ef Hne Hin Hout HL] H. unfold eliminateStates in H.
  tc_step H. tc_step R. rewrite Ef in R. injection R as <-.
  tc_step H. tc_step H. tc_step H. tc_step H. subst nl'.
  set (i := initial nl) in *.
  destruct (DFS_rule
              (fun n remaining =>
                 Ret (mapKeys (out (getNode nl n)),
                      if negb (n =? i)%nat && negb (n =? f)%nat
                      then setAdd remaining n else remaining))
              (fun n => mapKeys (out (getNode nl n)))
              (fun visited remaining =>
                 forall x, In x remaining <-> In x visited /\ x <> i /\ x <> f)
              (fun _ => True)) with (fuel := fuel) (start := i) (st := @nil nat) (st' := x)
    as (visited & HR & Hi & Hclosed).
  - intros n visited remaining r HInv _ Hn Hr. apply returns_Ret in Hr. subst r. simpl.
    split; [reflexivity|]. split; [|apply Forall_forall; intros; exact I].
    intros y. destruct (negb (n =? i)%nat && negb (n =? f)%nat) eqn:X.
    + apply andb_true_iff in X. rewrite !negb_true_iff, !Nat.eqb_neq in X.
      rewrite setAdd_In, (HInv y). simpl. intuition congruence.
    + rewrite (HInv y). simpl.
      assert (Hn' : n = i \/ n = f).
      { apply andb_false_iff in X. rewrite !negb_false_iff, !Nat.eqb_eq in X. exact X. }
      intuition congruence.
  - exact R.
  - intros y. simpl. tauto.
  - exact I.
  - exists (fun n => In n visited).
    assert (HI : StateInv L (fun n => In n visited) i f (Elimination.mkState nl x)).
    { unfold StateInv. simpl. split; try assumption.
      + reflexivity.
      + rewrite (HR i). tauto.
      + rewrite (HR f). tauto.
      + intros n Hn. apply (HR n), Hn.
      + intros u v t Huv Hu Huv'.
        assert (Hv : In v visited).
        { apply (Hclosed u v Hu). apply (mapGet_Some_key _ _ t Huv). }
        destruct (Nat.eq_dec v f) as [-> | Hvf]; [left; reflexivity | right].
        apply (HR v). split; [exact Hv|]. split; [|exact Hvf].
        intros ->. rewrite Hin in Huv. discriminate. }
    pose proof (trivialOperations_keeps L _ i f fuel _ x0 x HI R0) as HI1.
    destruct (mainLoop_keeps L _ i f fuel x0 x1 HI1 R1) as [HI2 Hempty].
    unfold StateInv in HI2. rewrite Hempty in HI2. exact HI2.
Qed.

(** When nothing remains the language is on the one edge to the drain. *)
Lemma ElimInv_done (L : Lang) (V : nat -> Prop) (i f : nat) (nl : NodeList) :
  ElimInv L V i f nl [] -> langSame (edgeLang nl i f) L.
Proof.
  intros HI. rewrite <- (ei_lang _ _ _ _ _ _ HI). symmetry.
  apply pathLang_single.
  - apply (ei_ne _ _ _ _ _ _ HI).
  - intros v w Hw. apply edgeLang_edge in Hw. destruct Hw as (t & Hw).
    destruct (Nat.eq_dec i v) as [<- | Hiv].
    + rewrite (ei_no_in _ _ _ _ _ _ HI i) in Hw. discriminate.
    + destruct (ei_edges _ _ _ _ _ _ HI i v t Hw (ei_Vi _ _ _ _ _ _ HI) Hiv) as [-> | []].
      reflexivity.
  - intros v w Hw. apply edgeLang_edge in Hw. destruct Hw as (t & Hw).
    rewrite (ei_no_out _ _ _ _ _ _ HI v) in Hw. discriminate.
Qed.

(* ================================================================= *)
(** ** Building the graph *)

Lemma insertSorted_In {A : Type} (compareFn : A -> A -> Z) (x y : A) (sorted : list A) :
  In y (insertSorted compareFn x sorted) <-> y = x \/ In y sorted.
Proof.
  induction sorted as [|z sorted IH]; simpl; [intuition congruence|].
  destruct (compareFn x z <? 0); simpl; [intuition congruence|].
  rewrite IH. intuition congruence.
Qed.

Lemma sortStable_In {A : Type} (compareFn : A -> A -> Z) (l : list A) (y : A) :
  In y (sortStable compareFn l) <-> In y l.
Proof.
  unfold sortStable.
  assert (G : forall acc, In y (fold_left (fun sorted x => insertSorted compareFn x sorted) l acc)
                          <-> In y acc \/ In y l).
  { induction l as [|x l IH]; intros acc; simpl; [tauto|].
    rewrite IH, insertSorted_In. intuition congruence. }
  rewrite G. simpl. tauto.
Qed.

Lemma sortOut_In (outEdges : list (nat * CharSet)) (e : nat * CharSet) :
  In e (sortOut outEdges) <-> In e outEdges.
Proof. apply sortStable_In. Qed.

Lemma cacheGet_app (cache : list (nat * nat)) (n node q : nat) :
  cacheGet (cache ++ [(n, node)]) q
  = match cacheGet cache q with
    | Some x => Some x
    | None => if (n =? q)%nat then Some node else None
    end.
Proof.
  induction cache as [|[k v] cache IH]; simpl; [reflexivity|].
  destruct (k =? q)%nat; [reflexivity | exact IH].
Qed.

Lemma cacheGet_In (cache : list (nat * nat)) (q u : nat) :
  cacheGet cache q = Some u -> In (q, u) cache.
Proof.
  induction cache as [|[k v] cache IH]; simpl; [discriminate|].
  destruct (k =? q)%nat eqn:E.
  - apply Nat.eqb_eq in E. intros H. injection H as <-. subst. left. reflexivity.
  - intros H. right. apply IH, H.
Qed.

Lemma values_injective (cache : list (nat * nat)) (q q' u : nat) :
  NoDup (map snd cache) -> In (q, u) cache -> In (q', u) cache -> q = q'.
Proof.
  induction cache as [|[k v] cache IH]; simpl; [tauto|].
  intros Hnd H1 H2. inversion Hnd as [|? ? Hv Hc]; subst.
  assert (Hin : forall a, In (a, u) cache -> In u (map snd cache)).
  { intros a Ha. change u with (snd (a, u)). apply in_map, Ha. }
  destruct H1 as [H1 | H1], H2 as [H2 | H2].
  - congruence.
  - injection H1 as -> ->. destruct (Hv (Hin q' H2)).
  - injection H2 as -> ->. destruct (Hv (Hin q H1)).
  - apply IH; assumption.
Qed.

Lemma getNode_createNode (nl : NodeList) (u : nat) :
  getNode (snd (createNode nl)) u = getNode nl u.
Proof.
  unfold createNode, getNode. simpl.
  destruct (Nat.lt_ge_cases u (length (heap nl))) as [Hlt | Hge].
  - apply app_nth1, Hlt.
  - rewrite (nth_overflow (heap nl) emptyNode Hge).
    destruct (Nat.eq_dec u (length (heap nl))) as [-> | Hne].
    + rewrite nth_middle. reflexivity.
    + apply nth_overflow. rewrite length_app. simpl. lia.
Qed.

Lemma WFG_createNode (nl : NodeList) : WFG nl -> WFG (snd (createNode nl)).
Proof.
  intros [H1 H2 H3 H4]. split.
  - intros u. rewrite getNode_createNode. apply H1.
  - intros v. rewrite getNode_createNode. apply H2.
  - intros u v. rewrite !getNode_createNode. apply H3.
  - intros u v t. unfold edge. rewrite getNode_createNode. intros H.
    destruct (H4 u v t H) as [Hu Hv]. unfold validNode, createNode. simpl.
    rewrite length_app. simpl. unfold validNode in Hu, Hv. lia.
Qed.

Lemma edge_createNode (nl : NodeList) (u v : nat) :
  edge (snd (createNode nl)) u v = edge nl u v.
Proof. unfold edge. rewrite getNode_createNode. reflexivity. Qed.

Lemma getNode_setFinals (nl : NodeList) (fs : list nat) (u : nat) :
  getNode (setFinals nl fs) u = getNode nl u.
Proof. reflexivity. Qed.

Lemma edge_setFinals (nl : NodeList) (fs : list nat) (u v : nat) :
  edge (setFinals nl fs) u v = edge nl u v.
Proof. reflexivity. Qed.

Lemma WFG_setFinals (nl : NodeList) (fs : list nat) : WFG nl -> WFG (setFinals nl fs).
Proof.
  intros [H1 H2 H3 H4]. split.
  - exact H1.
  - exact H2.
  - exact H3.
  - exact H4.
Qed.

Section Build.
Variable iter : FAIterator.
Hypothesis Hnormal : NormalSets iter.

(** [Edges] are the transitions of the automaton that have been linked and
    [Fin] the final states that have been marked. *)
Record BuildInv (Edges : nat -> nat -> CharSet -> Prop) (Fin : nat -> Prop)
  (st : Build) : Prop := mkBuildInv {
  bd_wfg : WFG (b_nodeList st);
  bd_wfT : wfEdges (b_nodeList st);
  bd_initial : initial (b_nodeList st) = 0%nat;
  bd_NoDup : NoDup (map snd (b_cache st));
  bd_range : forall q u, In (q, u) (b_cache st) ->
               (1 <= u < length (heap (b_nodeList st)))%nat;
  bd_start : cacheGet (b_cache st) (fa_initial iter) = Some 1%nat;
  bd_source : forall v, edge (b_nodeList st) 0 v
                        = if (v =? 1)%nat then Some (TConcat []) else None;
  bd_no_in : forall u, edge (b_nodeList st) u 0 = None;
  bd_sound : forall u v t, edge (b_nodeList st) u v = Some t -> u <> 0%nat ->
    exists q q' cs,
      cacheGet (b_cache st) q = Some u /\ cacheGet (b_cache st) q' = Some v
      /\ Edges q q' cs /\ t = TElem (CharacterClass cs);
  bd_complete : forall q q' cs, Edges q q' cs ->
    exists u v,
      cacheGet (b_cache st) q = Some u /\ cacheGet (b_cache st) q' = Some v
      /\ edge (b_nodeList st) u v = Some (TElem (CharacterClass cs));
  bd_finals_sound : forall node, In node (finals (b_nodeList st)) ->
    exists q, Fin q /\ cacheGet (b_cache st) q = Some node;
  bd_finals_complete : forall q, Fin q ->
    exists node, cacheGet (b_cache st) q = Some node /\ In node (finals (b_nodeList st))
}.

Lemma BuildInv_ext (E E' : nat -> nat -> CharSet -> Prop) (F F' : nat -> Prop)
  (st : Build) :
  (forall q q' cs, E q q' cs <-> E' q q' cs) -> (forall q, F q <-> F' q) ->
  BuildInv E F st -> BuildInv E' F' st.
Proof.
  intros HE HF [H1 H2 H3 H4 H5 H6 H7 H8 H9 H10 H11 H12]. split; try assumption.
  - intros u v t Huv Hu. destruct (H9 u v t Huv Hu) as (q & q' & cs & A & B & C & D).
    exists q, q', cs. rewrite <- HE. tauto.
  - intros q q' cs Hq. apply H10, HE, Hq.
  - intros node Hn. destruct (H11 node Hn) as (q & A & B). exists q. rewrite <- HF. tauto.
  - intros q Hq. apply H12, HF, Hq.
Qed.

Lemma cache_injective (E : nat -> nat -> CharSet -> Prop) (F : nat -> Prop) (st : Build)
  (q q' u : nat) :
  BuildInv E F st ->
  cacheGet (b_cache st) q = Some u -> cacheGet (b_cache st) q' = Some u -> q = q'.
Proof.
  intros HB H1 H2.
  apply (values_injective (b_cache st) q q' u (bd_NoDup _ _ _ HB));
    apply cacheGet_In; assumption.
Qed.

(** What is in the cache stays. *)
Definition cacheGrows (st st' : Build) : Prop :=
  forall q x, cacheGet (b_cache st) q = Some x -> cacheGet (b_cache st') q = Some x.

Lemma translate_spec (E : nat -> nat -> CharSet -> Prop) (F : nat -> Prop)
  (st st' : Build) (n node : nat) :
  BuildInv E F st -> translate n st = (node, st') ->
  BuildInv E F st'
  /\ cacheGet (b_cache st') n = Some node
  /\ cacheGrows st st'
  /\ (forall u v, edge (b_nodeList st') u v = edge (b_nodeList st) u v)
  /\ finals (b_nodeList st') = finals (b_nodeList st).
Proof.
  intros HB H. unfold translate in H.
  destruct (cacheGet (b_cache st) n) as [x|] eqn:E0.
  - injection H as <- <-. split; [exact HB|]. split; [exact E0|].
    split; [intros q y Hq; exact Hq|]. split; reflexivity.
  - destruct st as [nl cache]. cbn [b_nodeList b_cache] in *.
    destruct (createNode nl) as [node' nl'] eqn:EC.
    assert (Enl : nl' = snd (createNode nl)) by (rewrite EC; reflexivity).
    assert (Enode : node' = length (heap nl)).
    { unfold createNode in EC. injection EC as <- _. reflexivity. }
    clear EC. injection H as <- <-. cbn [b_nodeList b_cache]. subst node'.
    destruct HB as [H1 H2 H3 H4 H5 H6 H7 H8 H9 H10 H11 H12]. cbn [b_nodeList b_cache] in *.
    assert (Hgrow : forall q x, cacheGet cache q = Some x ->
              cacheGet (cache ++ [(n, length (heap nl))]) q = Some x).
    { intros q x Hq. rewrite cacheGet_app, Hq. reflexivity. }
    assert (Ee : forall u v, edge nl' u v = edge nl u v)
      by (subst nl'; apply edge_createNode).
    assert (El : length (heap nl') = S (length (heap nl))).
    { subst nl'. unfold createNode. simpl. rewrite length_app. simpl. lia. }
    assert (Ef : finals nl' = finals nl) by (subst nl'; reflexivity).
    assert (Ei : initial nl' = initial nl) by (subst nl'; reflexivity).
    assert (W' : WFG nl') by (subst nl'; apply (WFG_createNode nl H1)).
    clear Enl.
    split; [|split; [|split; [exact Hgrow | split; [exact Ee | exact Ef]]]].
    + split; cbn [b_nodeList b_cache].
      * exact W'.
      * intros u v t. rewrite Ee. apply H2.
      * rewrite Ei. exact H3.
      * rewrite map_app. simpl.
        apply NoDup_app; [exact H4 | constructor; [intros [] | constructor] |].
        intros x Hx [<- | []]. apply in_map_iff in Hx. destruct Hx as ([k v] & Ev & Hin).
        simpl in Ev. subst v. pose proof (H5 k _ Hin). lia.
      * intros q u Hin. rewrite El. apply in_app_or in Hin. destruct Hin as [Hin | [Hin | []]].
        -- pose proof (H5 q u Hin). lia.
        -- injection Hin as <- <-. pose proof (H5 _ _ (cacheGet_In _ _ _ H6)). lia.
      * apply Hgrow, H6.
      * intros v. rewrite Ee. apply H7.
      * intros u. rewrite Ee. apply H8.
      * intros u v t. rewrite Ee. intros Huv Hu.
        destruct (H9 u v t Huv Hu) as (q & q' & cs & A & B & C & D).
        exists q, q', cs. split; [apply Hgrow, A|]. split; [apply Hgrow, B|]. tauto.
      * intros q q' cs Hq. destruct (H10 q q' cs Hq) as (u & v & A & B & C).
        exists u, v. split; [apply Hgrow, A|]. split; [apply Hgrow, B|].
        rewrite Ee. exact C.
      * intros node Hn. rewrite Ef in Hn. destruct (H11 node Hn) as (q & A & B).
        exists q. split; [exact A | apply Hgrow, B].
      * intros q Hq. destruct (H12 q Hq) as (node & A & B).
        exists node. rewrite Ef. split; [apply Hgrow, A | exact B].
    + rewrite cacheGet_app, E0, Nat.eqb_refl. reflexivity.
Qed.

Lemma cacheGrows_trans (a b c : Build) : cacheGrows a b -> cacheGrows b c -> cacheGrows a c.
Proof. intros H1 H2 q x Hq. apply H2, H1, Hq. Qed.

Lemma linkOut_spec (E : nat -> nat -> CharSet -> Prop) (F : nat -> Prop)
  (st st' : Build) (n q' : nat) (cs : CharSet) :
  BuildInv E F st -> NormalForm cs ->
  returns (linkOut n st (q', cs)) st' ->
  BuildInv (fun a b c => E a b c \/ (a = n /\ b = q' /\ c = cs)) F st'
  /\ cacheGrows st st'.
Proof.
  intros HB Hcs H. unfold linkOut in H.
  destruct (translate n st) as [from st1] eqn:T1.
  destruct (translate_spec E F st st1 n from HB T1) as (HB1 & C1 & G1 & _ & _).
  destruct (translate q' st1) as [to st2] eqn:T2.
  destruct (translate_spec E F st1 st2 q' to HB1 T2) as (HB2 & C2 & G2 & _ & _).
  pose proof (G2 n from C1) as C1'.
  tc_step H. apply returns_char in R. subst x.
  tc_step H. tc_step R. tc_step H. subst st'.
  destruct HB2 as [H1 H2 H3 H4 H5 H6 H7 H8 H9 H10 H11 H12].
  pose proof (H5 n from (cacheGet_In _ _ _ C1')) as Rf.
  pose proof (H5 q' to (cacheGet_In _ _ _ C2)) as Rt.
  destruct (linkNodes_spec (b_nodeList st2) x from to (TElem (CharacterClass cs)) H1)
    as (Enone & U & W' & E'); [exact (proj2 Rf) | exact (proj2 Rt) | exact R |].
  destruct (Updated_sameFrame _ _ _ _ _ _ U) as (Fh & Fi & Ff).
  assert (Hfrom : forall v, (0 =? from)%nat && (v =? to)%nat = false).
  { intros v. destruct from; [lia | reflexivity]. }
  assert (Hto : forall u, (u =? from)%nat && (0 =? to)%nat = false).
  { intros u. destruct to; [lia | apply andb_false_r]. }
  split; [|apply (cacheGrows_trans st st1 _ G1); exact G2].
  split; cbn [b_nodeList b_cache].
  - exact W'.
  - intros u v t Huv. rewrite E' in Huv.
    destruct ((u =? from)%nat && (v =? to)%nat); [|apply (H2 u v t Huv)].
    injection Huv as <-. exact Hcs.
  - rewrite Fi. exact H3.
  - exact H4.
  - intros q u Hin. rewrite Fh. apply (H5 q u Hin).
  - exact H6.
  - intros v. rewrite E', Hfrom. apply H7.
  - intros u. rewrite E', Hto. apply H8.
  - intros u v t Huv Hu. rewrite E' in Huv.
    destruct ((u =? from)%nat && (v =? to)%nat) eqn:X.
    + apply eqb_pair_true in X. destruct X as [-> ->]. injection Huv as <-.
      exists n, q', cs. split; [exact C1'|]. split; [exact C2|]. split; [|reflexivity].
      right. tauto.
    + destruct (H9 u v t Huv Hu) as (q & q0 & cs0 & A & B & C & D).
      exists q, q0, cs0. tauto.
  - intros a b c [Hold | (-> & -> & ->)].
    + destruct (H10 a b c Hold) as (u & v & A & B & C).
      exists u, v. split; [exact A|]. split; [exact B|]. rewrite E'.
      destruct ((u =? from)%nat && (v =? to)%nat) eqn:X; [|exact C].
      apply eqb_pair_true in X. destruct X as [-> ->]. congruence.
    + exists from, to. split; [exact C1'|]. split; [exact C2|].
      rewrite E', !Nat.eqb_refl. reflexivity.
  - intros node Hn. rewrite Ff in Hn. apply (H11 node Hn).
  - intros q Hq. rewrite Ff. apply (H12 q Hq).
Qed.

(** The invariant of the first traversal. *)
Definition visitedEdges (visited : list nat) (q q' : nat) (cs : CharSet) : Prop :=
  In q visited /\ In (q', cs) (getOut iter q).

Definition visitedFinals (visited : list nat) (q : nat) : Prop :=
  In q visited /\ isFinal iter q = true.

Definition BInv (visited : list nat) (st : Build) : Prop :=
  BuildInv (visitedEdges visited) (visitedFinals visited) st
  /\ forall q, In q visited -> Reachable iter q.

Definition successors (n : nat) : list nat := map fst (sortOut (getOut iter n)).

Lemma successors_In (n q' : nat) :
  In q' (successors n) <-> exists cs, In (q', cs) (getOut iter n).
Proof.
  unfold successors. rewrite in_map_iff. split.
  - intros ([a cs] & <- & Hin). exists cs. apply sortOut_In, Hin.
  - intros (cs & Hin). exists (q', cs). split; [reflexivity | apply sortOut_In, Hin].
Qed.

Lemma markFinal_spec (visited : list nat) (st : Build) (n : nat) :
  BuildInv (visitedEdges visited) (visitedFinals visited) st ->
  BuildInv (visitedEdges visited)
    (fun q => visitedFinals visited q \/ (q = n /\ isFinal iter n = true))
    (if isFinal iter n
     then let '(node, st') := translate n st in
          mkBuild (setFinals (b_nodeList st') (setAdd (finals (b_nodeList st')) node))
                  (b_cache st')
     else st).
Proof.
  intros HB. destruct (isFinal iter n) eqn:Efin.
  - destruct (translate n st) as [node st1] eqn:T1.
    destruct (translate_spec _ _ st st1 n node HB T1) as (HB1 & C1 & _ & _ & _).
    destruct HB1 as [H1 H2 H3 H4 H5 H6 H7 H8 H9 H10 H11 H12].
    split; cbn [b_nodeList b_cache].
    + apply WFG_setFinals, H1.
    + exact H2.
    + exact H3.
    + exact H4.
    + exact H5.
    + exact H6.
    + exact H7.
    + exact H8.
    + exact H9.
    + exact H10.
    + intros x Hx. unfold setFinals in Hx. simpl in Hx. apply setAdd_In in Hx.
      destruct Hx as [-> | Hx].
      * exists n. split; [right; tauto | exact C1].
      * destruct (H11 x Hx) as (q & A & B). exists q. split; [left; exact A | exact B].
    + intros q [Hq | [-> _]].
      * destruct (H12 q Hq) as (x & A & B). exists x. split; [exact A|].
        unfold setFinals. simpl. apply setAdd_In. right. exact B.
      * exists node. split; [exact C1|]. unfold setFinals. simpl.
        apply setAdd_In. left. reflexivity.
  - revert HB. apply BuildInv_ext; [tauto|]. intros q. split; [tauto|].
    intros [H | [_ H]]; [exact H | discriminate].
Qed.

Lemma visitState_spec (visited : list nat) (st : Build) (n : nat)
  (r : list nat * Build) :
  BInv visited st -> Reachable iter n -> ~ In n visited ->
  returns (visitState iter n st) r ->
  fst r = successors n /\ BInv (n :: visited) (snd r)
  /\ Forall (Reachable iter) (successors n).
Proof.
  intros [HB HR] Hn Hnew H. unfold visitState in H.
  pose proof (markFinal_spec visited st n HB) as HB1.
  remember (if isFinal iter n
            then let '(node, st') := translate n st in
                 mkBuild (setFinals (b_nodeList st') (setAdd (finals (b_nodeList st')) node))
                         (b_cache st')
            else st) as st1 eqn:Est1.
  clear Est1. tc_step H. tc_step H. subst r. cbn [fst snd].
  split; [reflexivity|]. split.
  - split.
    + pose proof (foldM_returns (linkOut n)
        (fun done c =>
           BuildInv (fun a b c' => visitedEdges visited a b c' \/ (a = n /\ In (b, c') done))
             (fun q => visitedFinals visited q \/ (q = n /\ isFinal iter n = true)) c)
        (sortOut (getOut iter n))) as Hfold.
      assert (HP : BuildInv
                (fun a b c' => visitedEdges visited a b c'
                               \/ (a = n /\ In (b, c') (sortOut (getOut iter n))))
                (fun q => visitedFinals visited q \/ (q = n /\ isFinal iter n = true)) x).
      { apply (Hfold) with (st := st1); [| | exact R].
        - intros done [q' cs] c c' (rest & Hrest) HP Hret.
          assert (Hin : In (q', cs) (getOut iter n)).
          { apply sortOut_In. rewrite Hrest. apply in_or_app. right. left. reflexivity. }
          destruct (linkOut_spec _ _ c c' n q' cs HP (Hnormal n q' cs Hin) Hret) as [HB' _].
          revert HB'. apply BuildInv_ext; [|tauto].
          intros a b c0. rewrite in_app_iff. simpl. intuition congruence.
        - revert HB1. apply BuildInv_ext; [|tauto]. intros a b c0. simpl. tauto. }
      revert HP. apply BuildInv_ext.
      * intros a b c0. unfold visitedEdges. simpl. rewrite sortOut_In.
        intuition congruence.
      * intros q. unfold visitedFinals. simpl. intuition congruence.
    + intros q [<- | Hq]; [exact Hn | apply HR, Hq].
  - apply Forall_forall. intros q' Hq'. apply successors_In in Hq'.
    destruct Hq' as (cs & Hin). apply (ReachStep iter n q' cs Hn Hin).
Qed.
End Build.

(* ================================================================= *)
(** ** The graph that is built accepts the language of the automaton *)

Section Built.
Variable iter : FAIterator.
Variable visited : list nat.
Variable st : Build.
Hypothesis HB : BInv iter visited st.
Hypothesis Hclosed : forall n m, In n visited -> In m (successors iter n) -> In m visited.
Hypothesis Hstart : In (fa_initial iter) visited.

Lemma built_run_visited (q q' : nat) (w : Word) :
  Run iter q w q' -> In q visited -> In q' visited.
Proof.
  induction 1 as [q | q q1 q2 cs c w Hin Hc Hrun IH]; intros Hq; [exact Hq|].
  apply IH, (Hclosed q q1 Hq), successors_In. exists cs. exact Hin.
Qed.

Lemma built_run_path (q q' : nat) (w : Word) :
  Run iter q w q' -> In q visited ->
  forall u, cacheGet (b_cache st) q = Some u ->
  exists v, cacheGet (b_cache st) q' = Some v /\ pathLang (edgeLang (b_nodeList st)) u v w.
Proof.
  destruct HB as [HBI _].
  induction 1 as [q | q q1 q2 cs c w Hin Hc Hrun IH]; intros Hq u Hu.
  - exists u. split; [exact Hu | apply PathNil].
  - destruct (bd_complete _ _ _ _ HBI q q1 cs (conj Hq Hin)) as (u0 & v0 & A & B & C).
    assert (u0 = u) by congruence. subst u0.
    assert (Hq1 : In q1 visited).
    { apply (Hclosed q q1 Hq), successors_In. exists cs. exact Hin. }
    destruct (IH Hq1 v0 B) as (v & Hv & Hp).
    exists v. split; [exact Hv|].
    change (c :: w) with ([c] ++ w). apply PathStep with (v := v0); [|exact Hp].
    exists (TElem (CharacterClass cs)). split; [exact C|].
    simpl. apply langElement_CharacterClass. exists c. tauto.
Qed.

Lemma built_path_run (u x : nat) (w : Word) :
  pathLang (edgeLang (b_nodeList st)) u x w ->
  forall q, cacheGet (b_cache st) q = Some u ->
  exists q', cacheGet (b_cache st) q' = Some x /\ Run iter q w q'.
Proof.
  destruct HB as [HBI _].
  induction 1 as [u | u v x w1 w2 He Hp IH]; intros q Hq.
  - exists q. split; [exact Hq | apply RunNil].
  - destruct He as (t & Et & Hw1).
    assert (Hu : u <> 0%nat).
    { pose proof (bd_range _ _ _ _ HBI q u (cacheGet_In _ _ _ Hq)). lia. }
    destruct (bd_sound _ _ _ _ HBI u v t Et Hu) as (q0 & q1 & cs & A & B & [C1 C2] & ->).
    assert (q0 = q) by (apply (cache_injective iter _ _ st q0 q u HBI); assumption).
    subst q0. destruct (IH q1 B) as (q' & Hq' & Hrun).
    simpl in Hw1. apply langElement_CharacterClass in Hw1. destruct Hw1 as (c & -> & Hc).
    exists q'. split; [exact Hq'|]. simpl.
    apply RunStep with (q' := q1) (characters := cs); assumption.
Qed.

Lemma built_source (v : nat) (w : Word) :
  edgeLang (b_nodeList st) 0 v w <-> v = 1%nat /\ w = [].
Proof.
  destruct HB as [HBI _]. unfold edgeLang.
  rewrite (bd_source _ _ _ _ HBI v).
  destruct (v =? 1)%nat eqn:E.
  - apply Nat.eqb_eq in E. split.
    + intros (t & Ht & Hw). injection Ht as <-. simpl in Hw. tauto.
    + intros [_ ->]. exists (TConcat []). split; reflexivity.
  - apply Nat.eqb_neq in E. split; [intros (t & Ht & _); discriminate | tauto].
Qed.

(** The words that lead from the source to a node. *)
Lemma built_lang (node : nat) (w : Word) :
  node <> 0%nat ->
  (pathLang (edgeLang (b_nodeList st)) 0 node w
   <-> exists q, cacheGet (b_cache st) q = Some node /\ Run iter (fa_initial iter) w q).
Proof.
  intros Hnode. destruct HB as [HBI _].
  pose proof (bd_start _ _ _ _ HBI) as Hs.
  rewrite (pathLang_source (edgeLang (b_nodeList st)) 0 1 built_source node w Hnode). split.
  - intros H. apply (built_path_run 1 node w H (fa_initial iter) Hs).
  - intros (q & Hq & Hrun).
    destruct (built_run_path (fa_initial iter) q w Hrun Hstart 1%nat Hs) as (v & Hv & Hp).
    assert (v = node) by congruence. subst v. exact Hp.
Qed.

(** A final state that the automaton reaches has been marked. *)
Lemma built_accepts_final (w : Word) :
  Accepts iter w ->
  exists q node, Run iter (fa_initial iter) w q /\ cacheGet (b_cache st) q = Some node
                 /\ In node (finals (b_nodeList st)).
Proof.
  intros (q & Hrun & Hfin). destruct HB as [HBI _].
  pose proof (built_run_visited _ _ _ Hrun Hstart) as Hq.
  destruct (bd_finals_complete _ _ _ _ HBI q (conj Hq Hfin)) as (node & A & B).
  exists q, node. tauto.
Qed.

Lemma built_final_accepts (node : nat) (w : Word) :
  In node (finals (b_nodeList st)) -> pathLang (edgeLang (b_nodeList st)) 0 node w -> Accepts iter w.
Proof.
  intros Hin Hp. destruct HB as [HBI _].
  destruct (bd_finals_sound _ _ _ _ HBI node Hin) as (q & [Hq Hfin] & Hc).
  assert (Hnode : node <> 0%nat).
  { pose proof (bd_range _ _ _ _ HBI q node (cacheGet_In _ _ _ Hc)). lia. }
  apply (built_lang node w Hnode) in Hp. destruct Hp as (q' & Hq' & Hrun).
  assert (q' = q) by (apply (cache_injective iter _ _ st q' q node HBI); assumption).
  subst q'. exists q. tauto.
Qed.

Lemma built_final_reachable (node : nat) :
  In node (finals (b_nodeList st)) -> exists q, Reachable iter q /\ isFinal iter q = true.
Proof.
  intros Hin. destruct HB as [HBI HR].
  destruct (bd_finals_sound _ _ _ _ HBI node Hin) as (q & [Hq Hfin] & _).
  exists q. split; [apply HR, Hq | exact Hfin].
Qed.
End Built.

(* ================================================================= *)
(** ** The drain and the dead states *)

Lemma WFG_newNodeList : WFG newNodeList.
Proof.
  assert (G : forall u, getNode newNodeList u = emptyNode).
  { intros [|[|u]]; reflexivity. }
  split.
  - intros u. rewrite G. constructor.
  - intros v. rewrite G. constructor.
  - intros u v. rewrite !G. reflexivity.
  - intros u v t. unfold edge. rewrite G. discriminate.
Qed.

Lemma edge_newNodeList (u v : nat) : edge newNodeList u v = None.
Proof. destruct u as [|[|u]]; reflexivity. Qed.

Lemma setHas_cons (d : nat) (s : list nat) (x : nat) :
  setHas (d :: s) x = (x =? d)%nat || setHas s x.
Proof. reflexivity. Qed.

Lemma setHas_app (s1 s2 : list nat) (x : nat) :
  setHas (s1 ++ s2) x = setHas s1 x || setHas s2 x.
Proof. apply existsb_app. Qed.

Lemma isolate_spec (nl : NodeList) (d : nat) :
  WFG nl ->
  WFG (isolate nl d) /\ sameFrame nl (isolate nl d)
  /\ forall u v, edge (isolate nl d) u v
                 = if (u =? d)%nat || (v =? d)%nat then None else edge nl u v.
Proof.
  intros W. unfold isolate.
  destruct (unlinkAll_spec (map (fun outNode => (d, outNode))
                                (mapKeys (out (getNode nl d)))) nl W) as (W3 & F3 & E3).
  set (nl3 := unlinkAll nl _) in *.
  destruct (unlinkAll_spec (map (fun inNode => (inNode, d))
                                (mapKeys (in_ (getNode nl3 d)))) nl3 W3) as (W4 & F4 & E4).
  set (nl4 := unlinkAll nl3 _) in *.
  split; [exact W4|]. split; [apply (sameFrame_trans nl nl3 nl4 F3 F4)|].
  assert (E3' : forall u v, edge nl3 u v = if (u =? d)%nat then None else edge nl u v).
  { intros u v. rewrite E3.
    destruct (existsb _ _) eqn:X.
    - apply existsb_out_edges in X. destruct X as [-> _]. rewrite Nat.eqb_refl. reflexivity.
    - destruct (u =? d)%nat eqn:Y; [|reflexivity]. apply Nat.eqb_eq in Y. subst u.
      destruct (edge nl d v) as [t|] eqn:Z; [|reflexivity].
      exfalso. apply mapGet_Some_key in Z.
      assert (X' : existsb (fun e => (d =? fst e)%nat && (v =? snd e)%nat)
                     (map (fun x => (d, x)) (mapKeys (out (getNode nl d)))) = true)
        by (apply existsb_out_edges; tauto).
      congruence. }
  intros u v. rewrite E4.
  destruct (existsb _ _) eqn:X.
  - apply existsb_in_edges in X. destruct X as [-> _].
    rewrite Nat.eqb_refl, orb_true_r. reflexivity.
  - rewrite E3'. destruct (u =? d)%nat eqn:Y; [reflexivity|]. simpl.
    destruct (v =? d)%nat eqn:Z; [|reflexivity].
    apply Nat.eqb_eq in Z. subst v.
    destruct (edge nl u d) as [t|] eqn:Z; [|reflexivity]. exfalso.
    assert (Z3 : edge nl3 u d = Some t) by (rewrite E3', Y; exact Z).
    rewrite <- (edge_in nl3 u d W3) in Z3. apply mapGet_Some_key in Z3.
    assert (X' : existsb (fun e => (u =? fst e)%nat && (d =? snd e)%nat)
                   (map (fun x => (x, d)) (mapKeys (in_ (getNode nl3 d)))) = true)
      by (apply existsb_in_edges; tauto).
    congruence.
Qed.

Lemma fold_isolate_spec (dead : list nat) : forall nl,
  WFG nl ->
  WFG (fold_left isolate dead nl) /\ sameFrame nl (fold_left isolate dead nl)
  /\ forall u v, edge (fold_left isolate dead nl) u v
                 = if setHas dead u || setHas dead v then None else edge nl u v.
Proof.
  induction dead as [|d dead IH]; intros nl W; simpl.
  - split; [exact W|]. split; [apply sameFrame_refl | reflexivity].
  - destruct (isolate_spec nl d W) as (W1 & F1 & E1).
    destruct (IH (isolate nl d) W1) as (W2 & F2 & E2).
    split; [exact W2|]. split; [apply (sameFrame_trans _ _ _ F1 F2)|].
    intros u v. rewrite E2, E1. fold (setHas dead u). fold (setHas dead v).
    destruct (u =? d)%nat, (v =? d)%nat, (setHas dead u), (setHas dead v); reflexivity.
Qed.

Lemma drain_fold (nl1 nl2 : NodeList) (tF : nat) (fs : list nat) :
  WFG nl1 -> validNode nl1 tF -> (forall x, In x fs -> validNode nl1 x) ->
  returns (foldM (fun nl n => tbind tc.emptyConcat (fun eps =>
                              liftResult (linkNodes nl n tF (TConcat eps)))) fs nl1) nl2 ->
  WFG nl2 /\ sameFrame nl1 nl2
  /\ forall u v, edge nl2 u v
                 = if (v =? tF)%nat && setHas fs u then Some (TConcat []) else edge nl1 u v.
Proof.
  intros W1 VtF Vfs H.
  apply (foldM_returns
           (fun nl n => tbind tc.emptyConcat (fun eps =>
                        liftResult (linkNodes nl n tF (TConcat eps))))
           (fun done cur =>
              WFG cur /\ sameFrame nl1 cur
              /\ forall u v, edge cur u v
                   = if (v =? tF)%nat && setHas done u then Some (TConcat [])
                     else edge nl1 u v) fs) with (st := nl1); [| | exact H].
  - intros done x cur cur' (rest & Hrest) (Wc & Fc & Ec) Hret.
    tc_step Hret. apply returns_emptyConcat in R. subst x0. tc_step Hret.
    destruct (linkNodes_spec cur cur' x tF (TConcat []) Wc) as (_ & U & W' & E');
      [apply (sameFrame_valid nl1 cur x Fc), Vfs; rewrite Hrest;
       apply in_or_app; right; left; reflexivity
      | apply (sameFrame_valid nl1 cur tF Fc), VtF | exact Hret |].
    split; [exact W'|].
    split; [apply (sameFrame_trans nl1 cur cur' Fc (Updated_sameFrame _ _ _ _ _ _ U))|].
    intros u v. rewrite E', Ec, setHas_app, setHas_cons. simpl. rewrite orb_false_r.
    destruct (u =? x)%nat, (v =? tF)%nat, (setHas done u); reflexivity.
  - split; [exact W1|]. split; [apply sameFrame_refl|]. intros u v. simpl.
    rewrite andb_false_r. reflexivity.
Qed.

(* ================================================================= *)
(** ** [createNodeList] *)

Section Create.
Variable iter : FAIterator.
Hypothesis Hnormal : NormalSets iter.

Lemma build_start (nl0 : NodeList) :
  linkNodes (snd (createNode newNodeList)) 0 1 (TConcat []) = Ok nl0 ->
  BInv iter [] (mkBuild nl0 [(fa_initial iter, 1%nat)]).
Proof.
  intros H.
  pose proof (WFG_createNode newNodeList WFG_newNodeList) as Wc.
  destruct (linkNodes_spec _ nl0 0 1 (TConcat []) Wc) as (_ & U & W' & E');
    [unfold validNode; simpl; lia | unfold validNode; simpl; lia | exact H |].
  destruct (Updated_sameFrame _ _ _ _ _ _ U) as (Fh & Fi & Ff).
  assert (Eold : forall u v, edge (snd (createNode newNodeList)) u v = None).
  { intros u v. rewrite edge_createNode. apply edge_newNodeList. }
  split; [|intros q []].
  split; cbn [b_nodeList b_cache].
  - exact W'.
  - intros u v t Huv. rewrite E', Eold in Huv.
    destruct ((u =? 0)%nat && (v =? 1)%nat); [|discriminate].
    injection Huv as <-. constructor.
  - rewrite Fi. reflexivity.
  - constructor; [intros [] | constructor].
  - intros q u [Hin | []]. injection Hin as _ <-. rewrite Fh. simpl. lia.
  - simpl. rewrite Nat.eqb_refl. reflexivity.
  - intros v. rewrite E', Eold. simpl. reflexivity.
  - intros u. rewrite E', Eold. rewrite andb_false_r. reflexivity.
  - intros u v t Huv Hu. rewrite E', Eold in Huv. apply Nat.eqb_neq in Hu.
    rewrite Hu in Huv. discriminate.
  - intros q q' cs [[] _].
  - intros node Hn. rewrite Ff in Hn. destruct Hn.
  - intros q [[] _].
Qed.

Lemma createNodeList_spec (fuel : nat) (r : option NodeList) :
  returns (createNodeList fuel iter) r ->
  match r with
  | None => forall w, ~ Accepts iter w
  | Some nl =>
      (exists f, Ready (Accepts iter) nl f)
      /\ exists q, Reachable iter q /\ isFinal iter q = true
  end.
Proof.
  intros H. unfold createNodeList in H.
  change (createNode newNodeList) with (1%nat, snd (createNode newNodeList)) in H.
  cbv beta iota zeta in H.
  tc_step H. apply returns_emptyConcat in R. subst x.
  tc_step H. tc_step R.
  change (initial (snd (createNode newNodeList))) with 0%nat in R.
  pose proof (build_start x R) as HB0.
  tc_step H.
  destruct (DFS_rule (visitState iter) (successors iter) (BInv iter) (Reachable iter))
    with (fuel := fuel) (start := fa_initial iter)
         (st := mkBuild x [(fa_initial iter, 1%nat)]) (st' := x0)
    as (visited & HB & Hstart & Hclosed);
    [| exact R0 | exact HB0 | apply ReachInitial |].
  { intros n vis st0 r0 HI Pn Hn Hr.
    apply (visitState_spec iter Hnormal vis st0 n r0 HI Pn Hn Hr). }
  clear R0 HB0 R. pose proof HB as [HBI HReach].
  set (nl0 := b_nodeList x0) in *.
  destruct (length (finals nl0) =? 0)%nat eqn:Efin.
  - (* no final state has been reached *)
    apply returns_Ret in H. subst r. intros w Hacc.
    destruct (built_accepts_final iter visited x0 HB Hclosed Hstart w Hacc)
      as (q & node & _ & _ & Hin).
    fold nl0 in Hin. apply Nat.eqb_eq in Efin. destruct (finals nl0); [destruct Hin|].
    discriminate.
  - pose proof (bd_wfg _ _ _ _ HBI) as W0. fold nl0 in W0.
    assert (Hinit0 : initial nl0 = 0%nat) by apply (bd_initial _ _ _ _ HBI).
    assert (Hnoin0 : forall u, edge nl0 u 0 = None) by apply (bd_no_in _ _ _ _ HBI).
    assert (Hwf0 : wfEdges nl0) by apply (bd_wfT _ _ _ _ HBI).
    destruct (createNode nl0) as [tF nl1] eqn:EC.
    assert (Enl : nl1 = snd (createNode nl0)) by (rewrite EC; reflexivity).
    assert (EtF : tF = length (heap nl0)).
    { unfold createNode in EC. injection EC as <- _. reflexivity. }
    clear EC.
    assert (E1 : forall u v, edge nl1 u v = edge nl0 u v)
      by (subst nl1; apply edge_createNode).
    assert (L1 : length (heap nl1) = S (length (heap nl0))).
    { subst nl1. unfold createNode. simpl. rewrite length_app. simpl. lia. }
    assert (F1 : finals nl1 = finals nl0) by (subst nl1; reflexivity).
    assert (I1 : initial nl1 = initial nl0) by (subst nl1; reflexivity).
    assert (W1 : WFG nl1) by (subst nl1; apply (WFG_createNode nl0 W0)).
    clear Enl.
    assert (Hrange : forall node, In node (finals nl0) ->
              (1 <= node < length (heap nl0))%nat).
    { intros node Hin. destruct (bd_finals_sound _ _ _ _ HBI node Hin) as (q & _ & Hc).
      apply (bd_range _ _ _ _ HBI q node (cacheGet_In _ _ _ Hc)). }
    assert (HtF2 : (2 <= tF)%nat).
    { pose proof (bd_range _ _ _ _ HBI _ _ (cacheGet_In _ _ _ (bd_start _ _ _ _ HBI))).
      fold nl0 in H0. lia. }
    assert (Hinvalid : forall u v t, edge nl0 u v = Some t -> u <> tF /\ v <> tF).
    { intros u v t Huv. destruct (wfg_valid nl0 W0 u v t Huv) as [Hu Hv].
      unfold validNode in Hu, Hv. lia. }
    tc_step H. rewrite F1 in R.
    destruct (drain_fold nl1 x1 tF (finals nl0) W1) as (W2 & F2 & E2);
      [unfold validNode; lia
      | intros y Hy; pose proof (Hrange y Hy); unfold validNode; lia
      | exact R |].
    destruct F2 as (L2 & I2 & Ff2).
    set (nl3 := setFinals x1 [tF]) in *.
    assert (W3 : WFG nl3) by apply (WFG_setFinals x1 [tF] W2).
    assert (E3 : forall u v, edge nl3 u v
              = if (v =? tF)%nat && setHas (finals nl0) u then Some (TConcat [])
                else edge nl0 u v).
    { intros u v. unfold nl3. rewrite edge_setFinals, E2, E1. reflexivity. }
    assert (HnotF : setHas (finals nl0) tF = false).
    { apply setHas_not_In. intros Hin. pose proof (Hrange tF Hin). lia. }
    tc_step H. tc_step H. tc_step H. subst r.
    (* the states from which the drain is reached *)
    destruct (DFS_rule
                (fun n alive => Ret (mapKeys (in_ (getNode nl3 n)), setAdd alive n))
                (fun n => mapKeys (in_ (getNode nl3 n)))
                (fun vis alive => forall y, In y alive <-> In y vis)
                (fun _ => True))
      with (fuel := fuel) (start := tF) (st := @nil nat) (st' := x2)
      as (aliveV & Halive & HaliveF & HaliveC);
      [| exact R0 | intros y; simpl; tauto | exact I |].
    { intros n vis alive r0 HI _ Hn Hr. apply returns_Ret in Hr. subst r0. simpl.
      split; [reflexivity|]. split; [|apply Forall_forall; intros; exact I].
      intros y. rewrite setAdd_In, (HI y). simpl. intuition congruence. }
    destruct (DFS_rule
                (fun n dead => Ret (mapKeys (out (getNode nl3 n)),
                                    if negb (setHas x2 n) then setAdd dead n else dead))
                (fun n => mapKeys (out (getNode nl3 n)))
                (fun vis dead => forall y, In y dead -> ~ In y x2)
                (fun _ => True))
      with (fuel := fuel) (start := initial nl3) (st := @nil nat) (st' := x3)
      as (deadV & Hdead & _ & _);
      [| exact R1 | intros y [] | exact I |].
    { intros n vis dead r0 HI _ Hn Hr. apply returns_Ret in Hr. subst r0. simpl.
      split; [reflexivity|]. split; [|apply Forall_forall; intros; exact I].
      intros y Hy. destruct (setHas x2 n) eqn:X; simpl in Hy; [apply (HI y Hy)|].
      apply setAdd_In in Hy. destruct Hy as [-> | Hy]; [|apply (HI y Hy)].
      apply setHas_not_In, X. }
    destruct (fold_isolate_spec x3 nl3 W3) as (W4 & (L4 & I4 & Ff4) & E4).
    set (nl4 := fold_left isolate x3 nl3) in *.
    assert (Hwithin : forall u v t, edge nl4 u v = Some t -> edge nl3 u v = Some t).
    { intros u v t Huv. rewrite E4 in Huv.
      destruct (setHas x3 u || setHas x3 v); [discriminate | exact Huv]. }
    assert (Halive' : forall y, In y x2 -> setHas x3 y = false).
    { intros y Hy. apply setHas_not_In. intros Hd. exact (Hdead y Hd Hy). }
    split.
    + exists tF. split.
      * exact W4.
      * intros u v t Huv. apply Hwithin in Huv. rewrite E3 in Huv.
        destruct ((v =? tF)%nat && setHas (finals nl0) u).
        -- injection Huv as <-. constructor.
        -- apply (Hwf0 u v t Huv).
      * rewrite Ff4. reflexivity.
      * rewrite I4. unfold nl3. simpl. rewrite I2, I1, Hinit0. lia.
      * intros u. destruct (edge nl4 u (initial nl4)) as [t|] eqn:E; [|reflexivity].
        exfalso. apply Hwithin in E. rewrite I4 in E. unfold nl3 at 2 in E. simpl in E.
        rewrite I2, I1, Hinit0, E3 in E.
        destruct tF; [lia|]. simpl in E.
        rewrite (Hnoin0 u) in E. discriminate.
      * intros v. destruct (edge nl4 tF v) as [t|] eqn:E; [|reflexivity].
        exfalso. apply Hwithin in E. rewrite E3, HnotF, andb_false_r in E.
        destruct (Hinvalid tF v t E) as [Hc _]. exact (Hc eq_refl).
      * (* the language *)
        assert (Hi4 : initial nl4 = 0%nat).
        { rewrite I4. unfold nl3. simpl. rewrite I2, I1. exact Hinit0. }
        rewrite Hi4. intros w.
        assert (Hprune : langSame (pathLang (edgeLang nl3) 0 tF) (pathLang (edgeLang nl4) 0 tF)).
        { apply (pathLang_closed (edgeLang nl3) (edgeLang nl4) (fun n => In n x2)).
          - intros u v w' Hw' Hv. apply edgeLang_edge in Hw'. destruct Hw' as (t & Ht).
            apply (Halive u). apply (HaliveC v u); [apply (Halive v), Hv|].
            rewrite <- (edge_in nl3 u v W3) in Ht. apply (mapGet_Some_key _ _ _ Ht).
          - intros u v w' Hw' Hv. apply edgeLang_edge in Hw'. destruct Hw' as (t & Ht).
            apply Hwithin in Ht.
            apply (Halive u). apply (HaliveC v u); [apply (Halive v), Hv|].
            rewrite <- (edge_in nl3 u v W3) in Ht. apply (mapGet_Some_key _ _ _ Ht).
          - intros u v Hu Hv. symmetry. apply edgeLang_same_edge.
            rewrite E4, (Halive' u Hu), (Halive' v Hv). reflexivity.
          - apply (Halive tF), HaliveF. }
        rewrite <- (Hprune w).
        assert (Hdrain : pathLang (edgeLang nl3) 0 tF w
                         <-> exists n, In n (finals nl0) /\ pathLang (edgeLang nl0) 0 n w).
        { apply (pathLang_drain (edgeLang nl0) (edgeLang nl3)
                   (fun n => In n (finals nl0)) tF); [| | | | lia].
          - intros u v Hv. apply edgeLang_same_edge. rewrite E3.
            apply Nat.eqb_neq in Hv. rewrite Hv. reflexivity.
          - intros u w'. unfold edgeLang. rewrite E3, Nat.eqb_refl. simpl.
            destruct (setHas (finals nl0) u) eqn:X.
            + apply setHas_In in X. split.
              * intros (t & Ht & Hw'). injection Ht as <-. simpl in Hw'. tauto.
              * intros [_ ->]. exists (TConcat []). split; reflexivity.
            + apply setHas_not_In in X. split; [|tauto].
              intros (t & Ht & _). destruct (Hinvalid u tF t Ht) as [_ Hc].
              destruct (Hc eq_refl).
          - intros v w' Hw'. apply edgeLang_edge in Hw'. destruct Hw' as (t & Ht).
            destruct (Hinvalid tF v t Ht) as [Hc _]. exact (Hc eq_refl).
          - intros Hin. pose proof (Hrange tF Hin). lia. }
        rewrite Hdrain. split.
        -- intros (n & Hn & Hp).
           apply (built_final_accepts iter visited x0 HB Hclosed Hstart n w Hn Hp).
        -- intros Hacc.
           destruct (built_accepts_final iter visited x0 HB Hclosed Hstart w Hacc)
             as (q & node & Hrun & Hc & Hin).
           exists node. split; [exact Hin|].
           assert (Hnode : node <> 0%nat) by (pose proof (Hrange node Hin); lia).
           apply (built_lang iter visited x0 HB Hclosed Hstart node w Hnode).
           exists q. tauto.
    + destruct (finals nl0) as [|node fs] eqn:Ef; [discriminate|].
      apply (built_final_reachable iter visited x0 HB node).
      fold nl0. rewrite Ef. left. reflexivity.
Qed.
End Create.

(* ================================================================= *)
(** ** The conversion *)

Lemma stateElimination_spec (fuel : nat) (iter : FAIterator) (E : Expression) :
  NormalSets iter ->
  returns (stateElimination fuel iter) E ->
  wfExpr E /\ langSame (langExpr E) (Accepts iter).
Proof.
  intros Hnormal H. unfold stateElimination in H.
  tc_step H. pose proof (createNodeList_spec iter Hnormal fuel x R) as Hc.
  destruct x as [nl|].
  - destruct Hc as [(f & Hready) _].
    tc_step H.
    destruct (eliminateStates_spec (Accepts iter) fuel nl x f Hready R0) as (V & HI).
    tc_step H. tc_step R1.
    rewrite (ei_finals _ _ _ _ _ _ HI) in R1. injection R1 as <-.
    rewrite (ei_initial _ _ _ _ _ _ HI) in H.
    destruct (negb (length (in_ (getNode x f)) =? 1)%nat
              || negb (mapHas (in_ (getNode x f)) (initial nl)));
      [destruct (returns_Throw _ _ H)|].
    tc_step H. tc_step R1.
    rewrite (edge_in x (initial nl) f (ei_wfg _ _ _ _ _ _ HI)) in R1.
    pose proof (ei_wfT _ _ _ _ _ _ HI (initial nl) f x0 R1) as Wt.
    assert (Lt : langSame (langT x0) (Accepts iter)).
    { rewrite <- (edgeLang_Some x (initial nl) f x0 R1).
      apply (ElimInv_done (Accepts iter) V (initial nl) f x HI). }
    destruct x0 as [c | [cs | alts | alts qmin qmax | k n alts]].
    + apply returns_expression in H. subst E. split.
      * apply wfAlts_single, Wt.
      * unfold langExpr. simpl expressionAlternatives.
        rewrite langAlts_single. exact Lt.
    + tc_step H. apply returns_concat in R2. subst x0.
      apply returns_expression in H. subst E. split.
      * apply wfAlts_single, wfConcat_single, Wt.
      * unfold langExpr. simpl expressionAlternatives.
        rewrite langAlts_single, langConcat_single. exact Lt.
    + apply returns_expression in H. subst E. split.
      * apply wfElement_Alternation, Wt.
      * unfold langExpr. simpl expressionAlternatives.
        rewrite <- langElement_Alternation. exact Lt.
    + tc_step H. apply returns_concat in R2. subst x0.
      apply returns_expression in H. subst E. split.
      * apply wfAlts_single, wfConcat_single, Wt.
      * unfold langExpr. simpl expressionAlternatives.
        rewrite langAlts_single, langConcat_single. exact Lt.
    + exfalso. exact (wfElement_Assertion k n alts Wt).
  - apply returns_emptyExpression in H. subst E. split; [constructor|].
    intros w. unfold langExpr. simpl. unfold langEmpty. split; [tauto | apply Hc].
Qed.

Lemma optimizeLoop_keeps (fuel : nat) : forall passes E E',
  wfExpr E -> optimizeLoop fuel passes E = Ok E' ->
  wfExpr E' /\ langSame (langExpr E') (langExpr E).
Proof.
  induction fuel as [|fuel IH]; intros passes E E' W H; [discriminate|].
  assert (Hstep : (let '(expression', optimized) := optimize E in
                   if optimized
                   then optimizeLoop fuel (option_map Nat.pred passes) expression'
                   else Ok expression') = Ok E' ->
                  wfExpr E' /\ langSame (langExpr E') (langExpr E)).
  { intros H'. destruct (optimize_keeps E W) as [W1 L1].
    destruct (optimize E) as [E1 optimized]. cbn [fst] in W1, L1.
    destruct optimized.
    - destruct (IH _ E1 E' W1 H') as [W2 L2]. split; [exact W2|]. rewrite L2. exact L1.
    - injection H' as <-. split; assumption. }
  destruct passes as [[|p]|]; cbn [optimizeLoop] in H.
  - injection H as <-. split; [exact W | reflexivity].
  - apply Hstep, H.
  - apply Hstep, H.
Qed.


(** *** The theorem at the automaton of [ab|ac] *)

Lemma tableFA_NormalSets (start : nat) (table : list (nat * list (nat * CharSet)))
  (finalStates : list nat) :
  Forall (fun row => Forall (fun e => NormalForm (snd e)) (snd row)) table ->
  NormalSets (tableFA start table finalStates).
Proof.
  intros Hall q q' cs Hin. simpl in Hin.
  destruct (find (fun row => (fst row =? q)%nat) table) as [row|] eqn:E; [|destruct Hin].
  apply find_some in E. destruct E as [Hrow _].
  rewrite Forall_forall in Hall. pose proof (Hall row Hrow) as Hr.
  rewrite Forall_forall in Hr. apply (Hr (q', cs) Hin).
Qed.

Lemma letterSet_normal (c : Z) : 0 <= c <= 65535 -> NormalForm (letterSet c).
Proof. intros H. apply NormalForm_normalFrom. simpl. lia. Qed.

Lemma abOrAcFA_normal : NormalSets abOrAcFA.
Proof.
  apply tableFA_NormalSets.
  repeat (apply Forall_cons || apply Forall_nil); simpl; apply letterSet_normal; lia.
Qed.


(* ================================================================= *)
(** ** An automaton that reaches no final state *)

Lemma insertSorted_Permutation {A : Type} (compareFn : A -> A -> Z) (x : A)
  (sorted : list A) :
  Permutation (insertSorted compareFn x sorted) (x :: sorted).
Proof.
  induction sorted as [|y sorted IH]; simpl; [apply Permutation_refl|].
  destruct (compareFn x y <? 0); [apply Permutation_refl|].
  apply Permutation_trans with (l' := y :: x :: sorted);
    [apply perm_skip, IH | apply perm_swap].
Qed.

Lemma sortStable_Permutation {A : Type} (compareFn : A -> A -> Z) (l : list A) :
  Permutation (sortStable compareFn l) l.
Proof.
  unfold sortStable.
  assert (G : forall acc,
             Permutation (fold_left (fun sorted x => insertSorted compareFn x sorted) l acc)
                         (l ++ acc)).
  { induction l as [|x l IH]; intros acc; simpl; [apply Permutation_refl|].
    apply Permutation_trans with (l' := l ++ insertSorted compareFn x acc); [apply IH|].
    apply Permutation_trans with (l' := l ++ x :: acc).
    - apply Permutation_app_head, insertSorted_Permutation.
    - apply Permutation_sym, Permutation_middle. }
  rewrite <- (app_nil_r l) at 2. apply G.
Qed.

Lemma sortOut_length (outEdges : list (nat * CharSet)) :
  length (sortOut outEdges) = length outEdges.
Proof. apply Permutation_length, sortStable_Permutation. Qed.

Lemma sortOut_NoDup (outEdges : list (nat * CharSet)) :
  NoDup (map fst outEdges) -> NoDup (map fst (sortOut outEdges)).
Proof.
  apply Permutation_NoDup, Permutation_map, Permutation_sym, sortStable_Permutation.
Qed.

Lemma optimize_empty : optimize (mkExpression []) = (mkExpression [], false).
Proof. reflexivity. Qed.

Lemma optimizeLoop_empty (fuel : nat) (passes : option nat) :
  optimizeLoop (S fuel) passes (mkExpression []) = Ok (mkExpression []).
Proof.
  cbn [optimizeLoop]. rewrite optimize_empty. destruct passes as [[|p]|]; reflexivity.
Qed.

Lemma outcome_returns {A : Type} (m : TC A) (a : A) (n : Z) :
  outcome m = Some (a, n) -> returns m a.
Proof. intros H. exists n. exact H. Qed.

Section NoFinal.
Variable iter : FAIterator.
Variable states : list nat.
Hypothesis Hnormal : NormalSets iter.
Hypothesis Hclosed : forall q q' cs,
  In q states -> In (q', cs) (getOut iter q) -> In q' states.
Hypothesis Htargets : forall q, In q states -> NoDup (map fst (getOut iter q)).

(** The transitions of the states that have not been visited, with and
    without one more for the state itself. *)
Definition pendingWork (visited : list nat) : nat :=
  list_sum (map (fun q => if setHas visited q then 0%nat
                          else S (length (getOut iter q))) states).

Definition pendingTransitions (visited : list nat) : nat :=
  list_sum (map (fun q => if setHas visited q then 0%nat
                          else length (getOut iter q)) states).

Definition transitionCount : nat :=
  list_sum (map (fun q => length (getOut iter q)) states).

Lemma list_sum_visit (f g : nat -> nat) (n k : nat) (l : list nat) :
  (forall q, g q <= f q)%nat -> In n l -> (g n + k <= f n)%nat ->
  (list_sum (map g l) + k <= list_sum (map f l))%nat.
Proof.
  intros Hle Hin Hn. induction l as [|x l IH]; [destruct Hin|]. simpl.
  assert (Hall : (list_sum (map g l) <= list_sum (map f l))%nat).
  { clear - Hle. induction l as [|y l IH]; simpl; [lia|]. pose proof (Hle y). lia. }
  destruct Hin as [-> | Hin].
  - lia.
  - pose proof (Hle x). specialize (IH Hin). lia.
Qed.

Lemma pendingWork_visit (visited : list nat) (n : nat) :
  In n states -> ~ In n visited ->
  (pendingWork (n :: visited) + S (length (getOut iter n)) <= pendingWork visited)%nat.
Proof.
  intros Hn Hnew. unfold pendingWork. apply list_sum_visit with (n := n); [| exact Hn |].
  - intros q. rewrite setHas_cons. destruct (q =? n)%nat, (setHas visited q); simpl; lia.
  - rewrite setHas_cons, Nat.eqb_refl. simpl.
    apply setHas_not_In in Hnew. rewrite Hnew. lia.
Qed.

Lemma pendingTransitions_visit (visited : list nat) (n : nat) :
  In n states -> ~ In n visited ->
  (pendingTransitions (n :: visited) + length (getOut iter n)
   <= pendingTransitions visited)%nat.
Proof.
  intros Hn Hnew. unfold pendingTransitions.
  apply list_sum_visit with (n := n); [| exact Hn |].
  - intros q. rewrite setHas_cons. destruct (q =? n)%nat, (setHas visited q); simpl; lia.
  - rewrite setHas_cons, Nat.eqb_refl. simpl.
    apply setHas_not_In in Hnew. rewrite Hnew. lia.
Qed.

Lemma list_sum_succ (f : nat -> nat) (l : list nat) :
  list_sum (map (fun q => S (f q)) l) = (length l + list_sum (map f l))%nat.
Proof. induction l as [|q l IH]; simpl; [reflexivity|]. rewrite IH. lia. Qed.

Lemma pendingWork_nil : pendingWork [] = (length states + transitionCount)%nat.
Proof. apply list_sum_succ. Qed.

Lemma pendingTransitions_nil : pendingTransitions [] = transitionCount.
Proof. reflexivity. Qed.

(** *** The callback of the traversal returns *)

Lemma linkOut_outcome (E : nat -> nat -> CharSet -> Prop) (F : nat -> Prop)
  (st : Build) (n q' : nat) (cs : CharSet) :
  BuildInv iter E F st -> (forall cs', ~ E n q' cs') ->
  exists st', outcome (linkOut n st (q', cs)) = Some (st', 1).
Proof.
  intros HB Hfresh. unfold linkOut.
  destruct (translate n st) as [from st1] eqn:T1.
  destruct (translate_spec iter E F st st1 n from HB T1) as (HB1 & C1 & G1 & _ & _).
  destruct (translate q' st1) as [to st2] eqn:T2.
  destruct (translate_spec iter E F st1 st2 q' to HB1 T2) as (HB2 & C2 & G2 & _ & _).
  pose proof (G2 n from C1) as C1'.
  assert (Hfree : mapHas (out (getNode (b_nodeList st2) from)) to = false).
  { destruct (mapHas (out (getNode (b_nodeList st2) from)) to) eqn:X; [|reflexivity].
    exfalso. apply mapHas_true in X. destruct X as (t & Ht).
    assert (Hfrom : from <> 0%nat).
    { pose proof (bd_range _ _ _ _ HB2 n from (cacheGet_In _ _ _ C1')). lia. }
    destruct (bd_sound _ _ _ _ HB2 from to t Ht Hfrom) as (q0 & q1 & cs0 & A & B & C & _).
    assert (q0 = n) by (apply (cache_injective iter E F st2 q0 n from HB2); assumption).
    assert (q1 = q') by (apply (cache_injective iter E F st2 q1 q' to HB2); assumption).
    subst q0 q1. exact (Hfresh cs0 C). }
  unfold tc.char, incrementCounter, linkNodes. rewrite Hfree. simpl.
  eexists. reflexivity.
Qed.

Definition midEdges (visited : list nat) (n : nat) (done : list (nat * CharSet))
  (a b : nat) (c : CharSet) : Prop :=
  visitedEdges iter visited a b c \/ (a = n /\ In (b, c) done).

Lemma foldM_linkOut_outcome (visited : list nat) (F : nat -> Prop) (n : nat)
  (todo : list (nat * CharSet)) : forall done st,
  ~ In n visited ->
  NoDup (map fst (done ++ todo)) ->
  (forall e, In e todo -> NormalForm (snd e)) ->
  BuildInv iter (midEdges visited n done) F st ->
  exists st', outcome (foldM (linkOut n) todo st) = Some (st', Z.of_nat (length todo)).
Proof.
  induction todo as [|[q' cs] todo IH]; intros done st Hnew Hnd Hnorm HB.
  - exists st. reflexivity.
  - destruct (linkOut_outcome _ F st n q' cs HB) as (st1 & H1).
    { intros cs' [[Hv _] | [_ Hd]]; [exact (Hnew Hv)|].
      rewrite map_app in Hnd. simpl in Hnd. apply NoDup_remove_2 in Hnd.
      apply Hnd, in_or_app. left. change q' with (fst (q', cs')). apply in_map, Hd. }
    destruct (linkOut_spec iter _ F st st1 n q' cs HB) as [HB1 _];
      [apply (Hnorm (q', cs)); left; reflexivity
      | apply (outcome_returns _ _ _ H1) |].
    destruct (IH (done ++ [(q', cs)]) st1 Hnew) as (st' & H').
    + rewrite <- app_assoc. exact Hnd.
    + intros e He. apply Hnorm. right. exact He.
    + revert HB1. apply BuildInv_ext; [|tauto]. intros a b c. unfold midEdges.
      rewrite in_app_iff. simpl. intuition congruence.
    + exists st'. cbn [foldM]. rewrite outcome_bind, H1, H'. f_equal. f_equal.
      simpl length. lia.
Qed.

Lemma visitState_outcome (visited : list nat) (st : Build) (n : nat) :
  BInv iter visited st -> ~ In n visited -> In n states ->
  exists st', outcome (visitState iter n st)
              = Some ((successors iter n, st'), Z.of_nat (length (getOut iter n))).
Proof.
  intros [HB _] Hnew Hn. unfold visitState.
  pose proof (markFinal_spec iter visited st n HB) as HB1.
  remember (if isFinal iter n
            then let '(node, st') := translate n st in
                 mkBuild (setFinals (b_nodeList st') (setAdd (finals (b_nodeList st')) node))
                         (b_cache st')
            else st) as st1 eqn:Est1.
  clear Est1.
  destruct (foldM_linkOut_outcome visited
              (fun q => visitedFinals iter visited q \/ (q = n /\ isFinal iter n = true))
              n (sortOut (getOut iter n)) [] st1 Hnew)
    as (st' & H').
  - simpl. apply sortOut_NoDup, Htargets, Hn.
  - intros [q' cs] He. apply (proj1 (sortOut_In _ _)) in He. apply (Hnormal n q' cs He).
  - revert HB1. apply BuildInv_ext; [|tauto]. intros a b c. unfold midEdges. simpl. tauto.
  - exists st'. rewrite outcome_bind, H'. simpl. rewrite sortOut_length, Z.add_0_r.
    reflexivity.
Qed.

(** *** The traversal of a finite automaton returns *)

Lemma DFSLoop_outcome (fuel : nat) : forall visited stack st,
  BInv iter visited st ->
  (forall x, In x stack -> In x states /\ Reachable iter x) ->
  (length stack + pendingWork visited < fuel)%nat ->
  exists st' n,
    outcome (DFSLoop (visitState iter) fuel visited stack st) = Some (st', n)
    /\ 0 <= n <= Z.of_nat (pendingTransitions visited).
Proof.
  induction fuel as [|fuel IH]; intros visited stack st HB Hstack Hfuel; [lia|].
  destruct stack as [|n stack']; cbn [DFSLoop].
  - exists st, 0. split; [reflexivity | lia].
  - destruct (setHas visited n) eqn:E.
    + apply (IH visited stack' st HB).
      * intros x Hx. apply Hstack. right. exact Hx.
      * simpl in Hfuel. lia.
    + apply setHas_not_In in E.
      destruct (Hstack n (or_introl eq_refl)) as [Hn Hreach].
      destruct (visitState_outcome visited st n HB E Hn) as (st1 & H1).
      destruct (visitState_spec iter Hnormal visited st n (successors iter n, st1) HB
                  Hreach E (outcome_returns _ _ _ H1)) as (_ & HB1 & Hsucc).
      cbn [snd] in HB1.
      pose proof (pendingWork_visit visited n Hn E) as Hw.
      pose proof (pendingTransitions_visit visited n Hn E) as Ht.
      destruct (IH (n :: visited) (successors iter n ++ stack') st1 HB1)
        as (st' & k & Hk & Hbound).
      * intros x Hx. apply in_app_or in Hx. destruct Hx as [Hx | Hx].
        -- split; [|rewrite Forall_forall in Hsucc; apply Hsucc, Hx].
           apply successors_In in Hx. destruct Hx as (cs & Hin).
           apply (Hclosed n x cs Hn Hin).
        -- apply Hstack. right. exact Hx.
      * rewrite length_app. unfold successors. rewrite length_map, sortOut_length.
        simpl in Hfuel. lia.
      * exists st', (Z.of_nat (length (getOut iter n)) + k).
        rewrite outcome_bind, H1. cbn beta iota. rewrite Hk.
        split; [reflexivity | lia].
Qed.
End NoFinal.

Lemma createNodeList_none (iter : FAIterator) (fuel : nat) (r : option NodeList) :
  NormalSets iter ->
  (forall q, Reachable iter q -> isFinal iter q = false) ->
  returns (createNodeList fuel iter) r -> r = None.
Proof.
  intros Hnormal Hnofinal H.
  pose proof (createNodeList_spec iter Hnormal fuel r H) as Hspec.
  destruct r as [nl|]; [|reflexivity].
  destruct Hspec as (_ & q & Hq & Hfin). rewrite (Hnofinal q Hq) in Hfin. discriminate.
Qed.

Lemma createNodeList_outcome (iter : FAIterator) (states : list nat) (fuel : nat) :
  NormalSets iter ->
  (forall q, Reachable iter q -> isFinal iter q = false) ->
  In (fa_initial iter) states ->
  (forall q q' cs, In q states -> In (q', cs) (getOut iter q) -> In q' states) ->
  (forall q, In q states -> NoDup (map fst (getOut iter q))) ->
  (1 + length states + transitionCount iter states < fuel)%nat ->
  exists n, outcome (createNodeList fuel iter) = Some (None, n)
            /\ 1 <= n <= 1 + Z.of_nat (transitionCount iter states).
Proof.
  intros Hnormal Hnofinal Hinit Hclosed Htargets Hfuel.
  assert (Hlink : exists nl0,
            linkNodes (snd (createNode newNodeList)) 0 1 (TConcat []) = Ok nl0)
    by (eexists; reflexivity).
  destruct Hlink as (nl0 & Hlink).
  pose proof (build_start iter nl0 Hlink) as HB0.
  destruct (DFSLoop_outcome iter states Hnormal Hclosed Htargets fuel []
              [fa_initial iter] (mkBuild nl0 [(fa_initial iter, 1%nat)]) HB0)
    as (st' & n & Hn & Hbound).
  { intros x [<- | []]. split; [exact Hinit | apply ReachInitial]. }
  { rewrite pendingWork_nil. simpl. lia. }
  rewrite pendingTransitions_nil in Hbound.
  assert (Efin : (length (finals (b_nodeList st')) =? 0)%nat = true).
  { destruct (DFSLoop_rule (visitState iter) (successors iter) (BInv iter)
                (Reachable iter))
      with (fuel := fuel) (visited := @nil nat) (stack := [fa_initial iter])
           (st := mkBuild nl0 [(fa_initial iter, 1%nat)]) (st' := st')
      as (visited & [HBI HR] & _).
    - intros x vis st0 r0 HI Px Hx Hr.
      apply (visitState_spec iter Hnormal vis st0 x r0 HI Px Hx Hr).
    - apply (outcome_returns _ _ _ Hn).
    - exact HB0.
    - constructor; [apply ReachInitial | constructor].
    - intros a b [].
    - destruct (finals (b_nodeList st')) as [|node fs] eqn:Ef; [reflexivity|].
      destruct (bd_finals_sound _ _ _ _ HBI node) as (q & [Hq Hfin] & _);
        [rewrite Ef; left; reflexivity|].
      rewrite (Hnofinal q (HR q Hq)) in Hfin. discriminate. }
  exists (0 + 1 + (0 + (n + 0))). split; [|lia].
  unfold createNodeList.
  change (createNode newNodeList) with (1%nat, snd (createNode newNodeList)).
  cbv beta iota zeta.
  rewrite outcome_bind. cbn [outcome tc.emptyConcat incrementCounter tbind].
  rewrite outcome_bind.
  change (initial (snd (createNode newNodeList))) with 0%nat.
  rewrite Hlink. cbn [outcome liftResult].
  rewrite outcome_bind. unfold DFS. rewrite Hn, Efin. reflexivity.
Qed.

(** C5, as the code has it: for an automaton that reaches no final state
    the conversion returns nothing but the [Expression] without
    alternatives, and it does return it when the automaton is finite, no
    state has two transitions to the same state, and the ceiling of the
    factory admits one node for every transition and two more. *)
Theorem no_reachable_final_gives_empty_expression (iter : FAIterator) :
  NormalSets iter ->
  (forall q, Reachable iter q -> isFinal iter q = false) ->
  (forall fuel options E,
      faToRegex fuel iter options = Ok E -> E = mkExpression [])
  /\ (forall states options fuel,
        In (fa_initial iter) states ->
        (forall q q' cs, In q states -> In (q', cs) (getOut iter q) -> In q' states) ->
        (forall q, In q states -> NoDup (map fst (getOut iter q))) ->
        2 + Z.of_nat (transitionCount iter states) <= ceiling options ->
        (1 + length states + transitionCount iter states < fuel)%nat ->
        faToRegex fuel iter options = Ok (mkExpression [])).
Proof.
  intros Hnormal Hnofinal. split.
  - intros fuel options E H. unfold faToRegex, faToRegexCounting in H.
    destruct (run _ (stateElimination fuel iter) 0) as [[E0 counter]|e] eqn:Erun;
      [|discriminate].
    cbn [rbind] in H.
    destruct (optimizeLoop fuel (maximumOptimizationPasses options) E0) as [E1|e] eqn:Eopt;
      [|discriminate].
    cbn [rbind fst] in H. injection H as <-.
    apply run_returns in Erun. unfold stateElimination in Erun.
    tc_step Erun.
    pose proof (createNodeList_none iter fuel x Hnormal Hnofinal R) as ->.
    apply returns_emptyExpression in Erun. subst E0.
    destruct fuel as [|fuel]; [discriminate|].
    rewrite optimizeLoop_empty in Eopt. congruence.
  - intros states options fuel Hinit Hclosed Htargets Hceiling Hfuel.
    destruct (createNodeList_outcome iter states fuel Hnormal Hnofinal Hinit Hclosed
                Htargets Hfuel) as (n & Hn & Hbound).
    assert (Hout : outcome (stateElimination fuel iter) = Some (mkExpression [], n + 1)).
    { unfold stateElimination. rewrite outcome_bind, Hn. reflexivity. }
    unfold faToRegex, faToRegexCounting. fold (ceiling options).
    rewrite (run_of_outcome (ceiling options) _ 0 _ _ Hout).
    assert (Hle : (0 + (n + 1) <=? ceiling options) = true) by (apply Z.leb_le; lia).
    rewrite Hle. cbn [rbind].
    destruct fuel as [|fuel]; [lia|].
    rewrite optimizeLoop_empty. reflexivity.
Qed.

(** *** The theorem at the automaton [0 -a-> 1] without a final state *)

Definition noFinalFA : FAIterator := tableFA 0 [(0%nat, [(1%nat, letterSet 97)])] [].

(** Two transitions from a state to the same state. *)
Definition twiceLinkedFA : FAIterator :=
  tableFA 0 [(0%nat, [(1%nat, letterSet 97); (1%nat, letterSet 98)])] [].

(** C5 fails as stated: the automaton [0 -a-> 1] has no final state; the
    conversion returns the empty [Expression] under the default options,
    but with [maximumNodes = 2] it throws [TooManyNodesError], and for two
    transitions between the same two states it throws "The two nodes are
    already linked". *)
Lemma no_final_state_can_throw :
  (forall q, isFinal noFinalFA q = false)
  /\ faToRegex 20 noFinalFA defaultOptions = Ok (mkExpression [])
  /\ faToRegex 20 noFinalFA (mkOptions (Some 2) None) = Err TooManyNodes
  /\ (forall q, isFinal twiceLinkedFA q = false)
  /\ faToRegex 20 twiceLinkedFA defaultOptions = Err AlreadyLinked.
Proof.
  split; [intros q; reflexivity|]. split; [vm_compute; reflexivity|].
  split; [vm_compute; reflexivity|]. split; [intros q; reflexivity|].
  vm_compute. reflexivity.
Qed.

Lemma noFinalFA_normal : NormalSets noFinalFA.
Proof.
  apply tableFA_NormalSets.
  repeat (apply Forall_cons || apply Forall_nil); simpl; apply letterSet_normal; lia.
Qed.

Lemma noFinalFA_closed (q q' : nat) (cs : CharSet) :
  In q [0%nat; 1%nat] -> In (q', cs) (getOut noFinalFA q) -> In q' [0%nat; 1%nat].
Proof.
  intros [<- | [<- | []]]; simpl; [|tauto].
  intros [H | []]. injection H as <- _. tauto.
Qed.

Lemma noFinalFA_targets (q : nat) :
  In q [0%nat; 1%nat] -> NoDup (map fst (getOut noFinalFA q)).
Proof.
  intros [<- | [<- | []]]; simpl; [|constructor].
  constructor; [intros [] | constructor].
Qed.

Lemma no_reachable_final_gives_empty_expression_witness :
  faToRegex 20 noFinalFA defaultOptions = Ok (mkExpression []).
Proof.
  apply (proj2 (no_reachable_final_gives_empty_expression noFinalFA noFinalFA_normal
                  (fun q _ => eq_refl)) [0%nat; 1%nat] defaultOptions 20%nat).
  - simpl. tauto.
  - exact noFinalFA_closed.
  - exact noFinalFA_targets.
  - vm_compute. discriminate.
  - vm_compute. lia.
Defined.

(* ================================================================= *)
(** * The queries of [CharSet] *)

(** ** A range within a list in normal form *)

(** [r] lies within the range [ri]. *)
Definition Within (r ri : CharRange) : Prop := min ri <= min r /\ max r <= max ri.

(** Consecutive ranges of a normal form leave a character out, so a
    non-empty range is covered by the list only if one range covers it. *)
Lemma covered_by_one (rs : list CharRange) : forall lo m r,
  normalFrom lo m rs -> min r <= max r ->
  (forall c, InRange c r -> InRanges c rs) ->
  exists i ri, nth_error rs i = Some ri /\ Within r ri.
Proof.
  induction rs as [|x rs IH]; intros lo m r Hn Hr Hall.
  - destruct (InRanges_nil (min r)). apply Hall. unfold InRange. lia.
  - pose proof (fun c => normalFrom_tail_lower x rs lo m c Hn) as Htail.
    destruct Hn as (N1 & N2 & N3 & N4).
    assert (Hmin : InRanges (min r) (x :: rs)) by (apply Hall; unfold InRange; lia).
    apply InRanges_cons in Hmin. destruct Hmin as [Hx | Hrest].
    + unfold InRange in Hx. destruct (Z_le_gt_dec (max r) (max x)) as [Hle | Hgt].
      * exists 0%nat, x. split; [reflexivity | unfold Within; lia].
      * exfalso.
        assert (Hc : InRanges (max x + 1) (x :: rs)) by (apply Hall; unfold InRange; lia).
        apply InRanges_cons in Hc. destruct Hc as [Hc | Hc].
        -- unfold InRange in Hc. lia.
        -- apply Htail in Hc. lia.
    + pose proof (Htail _ Hrest) as Hlow.
      destruct (IH (max x + 2) m r N4 Hr) as (i & ri & Hi & Hw).
      * intros c Hc. pose proof (Hall c Hc) as Hin. apply InRanges_cons in Hin.
        destruct Hin as [Hin | Hin]; [|exact Hin].
        unfold InRange in Hc, Hin. lia.
      * exists (S i), ri. split; assumption.
Qed.

Lemma within_covered (rs : list CharRange) (r : CharRange) (i : nat) (ri : CharRange) :
  nth_error rs i = Some ri -> Within r ri -> forall c, InRange c r -> InRanges c rs.
Proof.
  intros Hi [H1 H2] c Hc. exists ri. split; [apply (nth_error_In _ _ Hi)|].
  unfold InRange in *. lia.
Qed.

Lemma nth_error_last (rs : list CharRange) : forall first d,
  nth_error (first :: rs) (length rs) = Some (List.last (first :: rs) d).
Proof.
  induction rs as [|r rs IH]; intros first d; [reflexivity|].
  change (nth_error (first :: r :: rs) (length (r :: rs))) with (nth_error (r :: rs) (length rs)).
  rewrite (IH r d). reflexivity.
Qed.

(** Every range of a normal form lies between the first and the last. *)
Lemma normalFrom_ends (rs : list CharRange) (first : CharRange) (lo m : Z) (i : nat)
  (ri : CharRange) :
  normalFrom lo m (first :: rs) -> nth_error (first :: rs) i = Some ri ->
  min first <= min ri /\ max ri <= max (List.last (first :: rs) first).
Proof.
  intros Hn Hi. split.
  - destruct i as [|i]; [injection Hi as <-; lia|].
    pose proof (normalFrom_gap (first :: rs) lo m 0 (S i) first ri Hn (Nat.lt_0_succ i)
                  eq_refl Hi) as Hg.
    pose proof (normalFrom_nth (first :: rs) lo m 0 first Hn eq_refl). lia.
  - pose proof (nth_error_last rs first first) as Hl.
    assert (Hlen : (i < length (first :: rs))%nat)
      by (apply nth_error_Some; rewrite Hi; discriminate).
    simpl in Hlen. destruct (Nat.eq_dec i (length rs)) as [-> | Hne].
    + rewrite Hl in Hi. injection Hi as <-. apply Z.le_refl.
    + assert (Hlt : (i < length rs)%nat) by lia.
      pose proof (normalFrom_gap (first :: rs) lo m i (length rs) ri _ Hn Hlt Hi Hl) as Hg.
      pose proof (normalFrom_nth (first :: rs) lo m _ _ Hn Hl). lia.
Qed.

Lemma div2_lt (n : nat) : (0 < n)%nat -> (Nat.div2 n < n)%nat.
Proof. apply Nat.lt_div2. Qed.

(** ** The binary search of [hasEveryOfRange] *)

Lemma hasEveryLoop_spec (rs : list CharRange) (lo m min0 max0 : Z) :
  normalFrom lo m rs -> min0 <= max0 ->
  forall fuel low high,
    (high - low < fuel)%nat -> (high <= length rs)%nat ->
    (forall i ri, (i < low)%nat -> nth_error rs i = Some ri ->
                  ~ Within (mkRange min0 max0) ri) ->
    (forall i ri, (high <= i)%nat -> nth_error rs i = Some ri ->
                  ~ Within (mkRange min0 max0) ri) ->
    (hasEveryLoop fuel rs min0 max0 low high = true
     <-> exists i ri, nth_error rs i = Some ri /\ Within (mkRange min0 max0) ri).
Proof.
  intros Hn Hr. induction fuel as [|fuel IH]; intros low high Hfuel Hhigh Hlow Hup; [lia|].
  cbn [hasEveryLoop]. destruct (low <? high)%nat eqn:Elh.
  - apply Nat.ltb_lt in Elh.
    pose proof (div2_lt (high - low) ltac:(lia)) as Hd.
    remember (Nat.div2 (high - low)) as d eqn:Ed. clear Ed.
    set (k := (low + d)%nat) in *.
    assert (Hk : (low <= k < high)%nat) by (unfold k; lia).
    clearbody k.
    destruct (nth_error rs k) as [mRange|] eqn:Ek;
      [| apply nth_error_None in Ek; lia].
    pose proof (normalFrom_nth rs lo m k mRange Hn Ek) as Hm.
    assert (Hleft : forall i ri, (i < k)%nat -> nth_error rs i = Some ri ->
                                 max ri + 2 <= min mRange).
    { intros i ri Hi Eri. apply (normalFrom_gap rs lo m i k ri mRange Hn Hi Eri Ek). }
    assert (Hright : forall i ri, (k < i)%nat -> nth_error rs i = Some ri ->
                                  max mRange + 2 <= min ri).
    { intros i ri Hi Eri. apply (normalFrom_gap rs lo m k i mRange ri Hn Hi Ek Eri). }
    destruct (min mRange =? min0) eqn:E1; zcmp.
    + destruct (max0 <=? max mRange) eqn:E2; zcmp.
      * split; [intros _ | reflexivity]. exists k, mRange.
        split; [exact Ek | unfold Within; simpl; lia].
      * split; [discriminate|]. intros (i & ri & Eri & [W1 W2]). simpl in W1, W2. exfalso.
        destruct (Nat.lt_trichotomy i k) as [Hi | [-> | Hi]].
        -- pose proof (Hleft i ri Hi Eri). lia.
        -- rewrite Ek in Eri. injection Eri as <-. lia.
        -- pose proof (Hright i ri Hi Eri). lia.
    + destruct (min mRange <? min0) eqn:E3; zcmp.
      * destruct (max0 <=? max mRange) eqn:E2; zcmp.
        -- split; [intros _ | reflexivity]. exists k, mRange.
           split; [exact Ek | unfold Within; simpl; lia].
        -- apply IH; [lia | exact Hhigh | | exact Hup].
           intros i ri Hi Eri [W1 W2]. simpl in W1, W2.
           destruct (Nat.eq_dec i k) as [-> | Hne].
           ++ rewrite Ek in Eri. injection Eri as <-. lia.
           ++ pose proof (Hleft i ri ltac:(lia) Eri). lia.
      * apply IH; [lia | lia | exact Hlow |].
        intros i ri Hi Eri [W1 W2]. simpl in W1, W2.
        destruct (Nat.eq_dec i k) as [-> | Hne].
        -- rewrite Ek in Eri. injection Eri as <-. lia.
        -- pose proof (Hright i ri ltac:(lia) Eri). lia.
  - apply Nat.ltb_ge in Elh. split; [discriminate|].
    intros (i & ri & Eri & W). exfalso.
    destruct (Nat.lt_ge_cases i low) as [Hi | Hi].
    + exact (Hlow i ri Hi Eri W).
    + exact (Hup i ri ltac:(lia) Eri W).
Qed.

Lemma hasEveryOfRange_within (rs : list CharRange) (r : CharRange) (lo m : Z) :
  normalFrom lo m rs -> min r <= max r ->
  (hasEveryOfRange rs r = true <-> exists i ri, nth_error rs i = Some ri /\ Within r ri).
Proof.
  intros Hn Hr. unfold hasEveryOfRange. destruct rs as [|first rest].
  - split; [discriminate|]. intros (i & ri & Hi & _). destruct i; discriminate.
  - pose proof (fun i ri => normalFrom_ends rest first lo m i ri Hn) as Hends.
    destruct ((min r <? min first) || (max r >? max (List.last (first :: rest) first)))
      eqn:E.
    + split; [discriminate|]. intros (i & ri & Hi & [W1 W2]). exfalso.
      destruct (Hends i ri Hi) as [H1 H2].
      apply orb_true_iff in E. destruct E as [E | E]; zcmp; lia.
    + apply orb_false_iff in E. destruct E as [E1 E2]. zcmp.
      destruct (length (first :: rest) =? 1)%nat eqn:El.
      * apply Nat.eqb_eq in El. destruct rest; [|discriminate].
        split; [intros _ | reflexivity]. exists 0%nat, first.
        split; [reflexivity | unfold Within; simpl in E2; lia].
      * destruct r as [min0 max0].
        apply (hasEveryLoop_spec (first :: rest) lo m min0 max0 Hn Hr
                 (S (length (first :: rest))) 0%nat (length (first :: rest)));
          [lia | lia | intros i ri Hi; lia |].
        intros i ri Hi Eri.
        assert (Hlt : (i < length (first :: rest))%nat)
          by (apply nth_error_Some; rewrite Eri; discriminate).
        lia.
Qed.


(** ** The binary search of [commonCharacterOfRange] *)

Lemma commonCharacterLoop_spec (rs : list CharRange) (lo m min0 max0 : Z) :
  normalFrom lo m rs -> min0 <= max0 ->
  forall fuel low high,
    (high - low < fuel)%nat -> (high <= length rs)%nat ->
    (forall i ri, (i < low)%nat -> nth_error rs i = Some ri -> max ri < min0) ->
    (forall i ri, (high <= i)%nat -> nth_error rs i = Some ri -> max0 < min ri) ->
    match commonCharacterLoop fuel rs min0 max0 low high with
    | Some c => InRanges c rs /\ min0 <= c <= max0
    | None => forall c, InRanges c rs -> ~ (min0 <= c <= max0)
    end.
Proof.
  intros Hn Hr. induction fuel as [|fuel IH]; intros low high Hfuel Hhigh Hlow Hup; [lia|].
  cbn [commonCharacterLoop]. destruct (low <? high)%nat eqn:Elh.
  - apply Nat.ltb_lt in Elh.
    pose proof (div2_lt (high - low) ltac:(lia)) as Hd.
    remember (Nat.div2 (high - low)) as d eqn:Ed. clear Ed.
    set (k := (low + d)%nat) in *.
    assert (Hk : (low <= k < high)%nat) by (unfold k; lia).
    clearbody k.
    destruct (nth_error rs k) as [mRange|] eqn:Ek;
      [| apply nth_error_None in Ek; lia].
    pose proof (normalFrom_nth rs lo m k mRange Hn Ek) as Hm.
    assert (Hin : forall c, min mRange <= c <= max mRange -> InRanges c rs).
    { intros c Hc. exists mRange. split; [apply (nth_error_In _ _ Ek) | exact Hc]. }
    destruct (min mRange =? min0) eqn:E1; zcmp.
    + split; [apply Hin|]; lia.
    + destruct (min mRange <? min0) eqn:E3; zcmp.
      * destruct (min0 <=? max mRange) eqn:E2; zcmp.
        -- split; [apply Hin|]; lia.
        -- apply IH; [lia | exact Hhigh | | exact Hup].
           intros i ri Hi Eri. destruct (Nat.eq_dec i k) as [-> | Hne].
           ++ rewrite Ek in Eri. injection Eri as <-. lia.
           ++ pose proof (normalFrom_gap rs lo m i k ri mRange Hn ltac:(lia) Eri Ek). lia.
      * destruct (min mRange <=? max0) eqn:E2; zcmp.
        -- split; [apply Hin|]; lia.
        -- apply IH; [lia | lia | exact Hlow |].
           intros i ri Hi Eri. destruct (Nat.eq_dec i k) as [-> | Hne].
           ++ rewrite Ek in Eri. injection Eri as <-. lia.
           ++ pose proof (normalFrom_gap rs lo m k i mRange ri Hn ltac:(lia) Ek Eri). lia.
  - apply Nat.ltb_ge in Elh. intros c (ri & Hri & Hc) Hcr.
    destruct (In_nth_error _ _ Hri) as [i Eri]. unfold InRange in Hc.
    destruct (Nat.lt_ge_cases i low) as [Hi | Hi].
    + pose proof (Hlow i ri Hi Eri). lia.
    + pose proof (Hup i ri ltac:(lia) Eri). lia.
Qed.

Lemma commonCharacterOfRange_spec (rs : list CharRange) (r : CharRange) (lo m : Z) :
  normalFrom lo m rs -> min r <= max r ->
  match commonCharacterOfRange rs r with
  | Some c => InRanges c rs /\ InRange c r
  | None => forall c, InRanges c rs -> ~ InRange c r
  end.
Proof.
  intros Hn Hr. unfold commonCharacterOfRange. destruct rs as [|first rest].
  - intros c Hc. destruct (InRanges_nil c Hc).
  - pose proof (fun i ri => normalFrom_ends rest first lo m i ri Hn) as Hends.
    destruct ((max r <? min first) || (min r >? max (List.last (first :: rest) first)))
      eqn:E.
    + intros c (ri & Hri & Hc) Hcr. destruct (In_nth_error _ _ Hri) as [i Eri].
      destruct (Hends i ri Eri) as [H1 H2]. unfold InRange in *.
      apply orb_true_iff in E. destruct E as [E | E]; zcmp; lia.
    + apply (commonCharacterLoop_spec (first :: rest) lo m (min r) (max r) Hn Hr
               (S (length (first :: rest))) 0%nat (length (first :: rest)));
        [lia | lia | intros i ri Hi; lia |].
      intros i ri Hi Eri.
      assert (Hlt : (i < length (first :: rest))%nat)
        by (apply nth_error_Some; rewrite Eri; discriminate).
      lia.
Qed.

(** ** The sweep of [commonCharacter] over two sets *)

(** The character returned is the least one that the two lists share. *)
Lemma commonCharacterSweep_spec (n : nat) : forall a b la lb m1 m2,
  (length a + length b < n)%nat ->
  normalFrom la m1 a -> normalFrom lb m2 b ->
  match commonCharacterSweep n a b with
  | Some c => InRanges c a /\ InRanges c b
              /\ forall c', InRanges c' a -> InRanges c' b -> c <= c'
  | None => forall c, InRanges c a -> ~ InRanges c b
  end.
Proof.
  induction n as [|n IH]; intros a b la lb m1 m2 Hlen Ha Hb; [lia|].
  cbn [commonCharacterSweep]. destruct a as [|x a'].
  - intros c Hc. destruct (InRanges_nil c Hc).
  - destruct b as [|y b'].
    + intros c _ Hc. destruct (InRanges_nil c Hc).
    + pose proof (fun c => normalFrom_tail_lower x a' la m1 c Ha) as Ta.
      pose proof (fun c => normalFrom_tail_lower y b' lb m2 c Hb) as Tb.
      pose proof Ha as Ha0. pose proof Hb as Hb0.
      destruct Ha as (A1 & A2 & A3 & A4). destruct Hb as (B1 & B2 & B3 & B4).
      simpl in Hlen.
      destruct (max y <? min x) eqn:E1; zcmp.
      * specialize (IH (x :: a') b' la (max y + 2) m1 m2 ltac:(simpl; lia) Ha0 B4).
        destruct (commonCharacterSweep n (x :: a') b') as [c|].
        -- destruct IH as (I1 & I2 & I3). split; [exact I1|].
           split; [apply InRanges_cons; right; exact I2|].
           intros c' Hca Hcb. apply InRanges_cons in Hcb. destruct Hcb as [Hcb | Hcb].
           ++ exfalso. apply InRanges_cons in Hca. unfold InRange in *.
              destruct Hca as [Hca | Hca]; [lia | pose proof (Ta c' Hca); lia].
           ++ apply I3; assumption.
        -- intros c Hca Hcb. apply InRanges_cons in Hcb. destruct Hcb as [Hcb | Hcb].
           ++ apply InRanges_cons in Hca. unfold InRange in *.
              destruct Hca as [Hca | Hca]; [lia | pose proof (Ta c Hca); lia].
           ++ exact (IH c Hca Hcb).
      * destruct (max x <? min y) eqn:E2; zcmp.
        -- specialize (IH a' (y :: b') (max x + 2) lb m1 m2 ltac:(simpl; lia) A4 Hb0).
           destruct (commonCharacterSweep n a' (y :: b')) as [c|].
           ++ destruct IH as (I1 & I2 & I3).
              split; [apply InRanges_cons; right; exact I1|]. split; [exact I2|].
              intros c' Hca Hcb. apply InRanges_cons in Hca. destruct Hca as [Hca | Hca].
              ** exfalso. apply InRanges_cons in Hcb. unfold InRange in *.
                 destruct Hcb as [Hcb | Hcb]; [lia | pose proof (Tb c' Hcb); lia].
              ** apply I3; assumption.
           ++ intros c Hca Hcb. apply InRanges_cons in Hca. destruct Hca as [Hca | Hca].
              ** apply InRanges_cons in Hcb. unfold InRange in *.
                 destruct Hcb as [Hcb | Hcb]; [lia | pose proof (Tb c Hcb); lia].
              ** exact (IH c Hca Hcb).
        -- split; [apply InRanges_cons; left; unfold InRange; lia|].
           split; [apply InRanges_cons; left; unfold InRange; lia|].
           intros c' Hca Hcb. apply InRanges_cons in Hca. apply InRanges_cons in Hcb.
           unfold InRange in *.
           destruct Hca as [Hca | Hca]; [| pose proof (Ta c' Hca)];
             (destruct Hcb as [Hcb | Hcb]; [| pose proof (Tb c' Hcb)]); lia.
Qed.

(** ** Membership *)

Lemma hasEveryOfRange_spec (rs : list CharRange) (r : CharRange) (lo m : Z) :
  normalFrom lo m rs -> min r <= max r ->
  (hasEveryOfRange rs r = true <-> forall c, InRange c r -> InRanges c rs).
Proof.
  intros Hn Hr. rewrite (hasEveryOfRange_within rs r lo m Hn Hr). split.
  - intros (i & ri & Hi & W). exact (within_covered rs r i ri Hi W).
  - apply (covered_by_one rs lo m r Hn Hr).
Qed.

Lemma has_InRanges (s : CharSet) (c : Z) (lo : Z) :
  normalFrom lo (maximum s) (ranges s) -> (has s c = true <-> InRanges c (ranges s)).
Proof.
  intros Hn. unfold has.
  rewrite (hasEveryOfRange_spec (ranges s) (mkRange c c) lo (maximum s) Hn (Z.le_refl c)).
  unfold InRange at 1. simpl. split.
  - intros H. apply H. lia.
  - intros H c' Hc'. assert (c' = c) as -> by lia. exact H.
Qed.

Lemma has_inRanges (s : CharSet) (c : Z) :
  NormalForm s -> has s c = inRanges c (ranges s).
Proof.
  intros Hs. apply NormalForm_normalFrom in Hs. destruct Hs as [_ Hs].
  apply eq_true_iff_eq. rewrite (has_InRanges s c 0 Hs). symmetry. apply inRanges_spec.
Qed.

(** ** The characters of [negateRanges] *)

Lemma negateGaps_In (c : Z) (rest : list CharRange) : forall previous m,
  normalFrom (max previous + 2) m rest -> max previous <= m ->
  (InRanges c (negateGaps previous rest
               ++ (if max (List.last rest previous) <? m
                   then [mkRange (max (List.last rest previous) + 1) m] else []))
   <-> max previous < c <= m /\ ~ InRanges c rest).
Proof.
  induction rest as [|r rest IH]; intros previous m Hn Hm.
  - pose proof (InRanges_nil c) as Hnil. simpl.
    destruct (max previous <? m) eqn:E; zcmp.
    + rewrite InRanges_cons. unfold InRange; simpl. intuition lia.
    + intuition lia.
  - pose proof (fun c => normalFrom_tail_lower r rest _ m c Hn) as Htail.
    destruct Hn as (N1 & N2 & N3 & N4).
    rewrite last_cons_default. cbn [negateGaps app].
    rewrite InRanges_cons, (IH r m N4 N3), (InRanges_cons c r rest).
    unfold InRange; simpl. split.
    + intros [H | [H1 H2]]; (split; [lia|]); intros [H3 | H3];
        try lia; try (pose proof (Htail c H3); lia). exact (H2 H3).
    + intros [H1 H2]. destruct (Z_lt_ge_dec c (min r)) as [Hlt | Hge]; [left; lia|].
      right. split; [|tauto]. destruct (Z_le_gt_dec c (max r)); [|lia].
      exfalso. apply H2. left. lia.
Qed.

Lemma negateRanges_In (c : Z) (rs : list CharRange) (m : Z) :
  0 <= m -> normalFrom 0 m rs ->
  (InRanges c (negateRanges rs m) <-> 0 <= c <= m /\ ~ InRanges c rs).
Proof.
  intros H0 Hn. unfold negateRanges. destruct rs as [|first rest].
  - pose proof (InRanges_nil c) as Hnil. rewrite InRanges_cons.
    unfold InRange; simpl. intuition lia.
  - pose proof (fun c => normalFrom_tail_lower first rest 0 m c Hn) as Htail.
    destruct Hn as (N1 & N2 & N3 & N4). rewrite last_cons_default.
    rewrite InRanges_app, (negateGaps_In c rest first m N4 N3), (InRanges_cons c first rest).
    pose proof (InRanges_nil c) as Hnil.
    destruct (min first >? 0) eqn:E; zcmp.
    + rewrite InRanges_cons. unfold InRange; simpl. split.
      * intros [[H | H] | [H1 H2]]; [| destruct (Hnil H) |];
          (split; [lia|]); intros [H3 | H3]; try lia;
          try (pose proof (Htail c H3); lia). exact (H2 H3).
      * intros [H1 H2]. destruct (Z_lt_ge_dec c (min first)) as [Hlt | Hge];
          [left; left; lia|].
        right. split; [|tauto]. destruct (Z_le_gt_dec c (max first)); [|lia].
        exfalso. apply H2. left. lia.
    + unfold InRange. split.
      * intros [H | [H1 H2]]; [destruct (Hnil H)|].
        split; [lia|]. intros [H3 | H3]; [lia | exact (H2 H3)].
      * intros [H1 H2]. right. split; [|tauto].
        destruct (Z_le_gt_dec c (max first)); [|lia]. exfalso. apply H2. left. lia.
Qed.

(** ** What the binary operations return *)

Lemma intersect_set (a b : CharSet) :
  maximum b = maximum a ->
  intersect a (OfSet b)
  = Ok (mkCharSet (maximum a) (intersectRanges (ranges a) (ranges b))).
Proof.
  intros E. unfold intersect, asOther, checkCompatibility. rewrite E, Z.eqb_refl. simpl.
  destruct (intersectRanges (ranges a) (ranges b)) eqn:Ei; reflexivity.
Qed.

Lemma without_set (a b : CharSet) :
  maximum b = maximum a ->
  without a (OfSet b)
  = Ok (mkCharSet (maximum a) (withoutRanges (ranges a) (ranges b))).
Proof.
  intros E. unfold without, asOther, checkCompatibility. rewrite E, Z.eqb_refl. simpl.
  destruct (withoutRanges (ranges a) (ranges b)) eqn:Ei; reflexivity.
Qed.

Lemma optimizeSortedRanges_fixed (rs : list CharRange) (lo m : Z) :
  normalFrom lo m rs -> optimizeSortedRanges rs = rs.
Proof.
  intros Hn. pose proof (normalFrom_sortedFrom rs lo m Hn) as Hs.
  apply (normalFrom_canonical _ rs lo lo m);
    [apply optimizeSortedRanges_normal; exact Hs | exact Hn |].
  intros c. apply (optimizeSortedRanges_In c rs lo m Hs).
Qed.

Lemma unionRanges_nil_r (rs : list CharRange) (lo m : Z) :
  normalFrom lo m rs -> unionRanges rs [] = rs.
Proof.
  intros Hn. unfold unionRanges.
  replace (unionMerge (S (length rs + length (@nil CharRange))) rs []) with rs
    by (destruct rs; reflexivity).
  apply (optimizeSortedRanges_fixed rs lo m Hn).
Qed.

Lemma union_set (a b : CharSet) (lo : Z) :
  normalFrom lo (maximum a) (ranges a) -> maximum b = maximum a ->
  union a [OfSet b]
  = Ok (mkCharSet (maximum a) (unionRanges (ranges a) (ranges b))).
Proof.
  intros Hn E. unfold union, checkCompatibility. rewrite E, Z.eqb_refl. simpl.
  destruct (ranges b) as [|r rs] eqn:Eb; [|reflexivity]. simpl.
  rewrite (unionRanges_nil_r (ranges a) lo (maximum a) Hn). destruct a; reflexivity.
Qed.

(** The characters of a set in normal form are code points within [maximum]. *)
Lemma InRanges_bounds (rs : list CharRange) (lo m c : Z) :
  normalFrom lo m rs -> InRanges c rs -> lo <= c <= m.
Proof.
  intros Hn (r & Hr & Hc). destruct (In_nth_error _ _ Hr) as [i Hi].
  pose proof (normalFrom_nth rs lo m i r Hn Hi). unfold InRange in Hc. lia.
Qed.

Lemma InRanges_dec (c : Z) (rs : list CharRange) : InRanges c rs \/ ~ InRanges c rs.
Proof.
  destruct (inRanges c rs) eqn:E.
  - left. apply inRanges_spec, E.
  - right. intros H. apply inRanges_spec in H. congruence.
Qed.

Lemma negateRanges_involutive (rs : list CharRange) (m : Z) :
  0 <= m -> normalFrom 0 m rs -> negateRanges (negateRanges rs m) m = rs.
Proof.
  intros H0 Hn. pose proof (negateRanges_normal rs m H0 Hn) as Hn1.
  apply (normalFrom_canonical _ rs 0 0 m);
    [apply negateRanges_normal; assumption | exact Hn |].
  intros c. rewrite (negateRanges_In c _ m H0 Hn1), (negateRanges_In c rs m H0 Hn).
  pose proof (InRanges_bounds rs 0 m c Hn). destruct (InRanges_dec c rs); tauto.
Qed.

(** Two lists in normal form with the same characters are the same list. *)
Lemma same_characters_same_ranges (a b : list CharRange) (m : Z) :
  normalFrom 0 m a -> normalFrom 0 m b ->
  (forall c, inRanges c a = inRanges c b) -> a = b.
Proof.
  intros Ha Hb H. apply (normalFrom_canonical a b 0 0 m Ha Hb).
  intros c. rewrite <- !inRanges_spec, (H c). reflexivity.
Qed.

Lemma inRanges_union (c : Z) (a b : list CharRange) (m : Z) :
  normalFrom 0 m a -> normalFrom 0 m b ->
  inRanges c (unionRanges a b) = inRanges c a || inRanges c b.
Proof.
  intros Ha Hb. apply eq_true_iff_eq.
  rewrite orb_true_iff, !inRanges_spec. apply (unionRanges_In c a b m Ha Hb).
Qed.

Lemma inRanges_intersect (c : Z) (a b : list CharRange) (m : Z) :
  normalFrom 0 m a -> normalFrom 0 m b ->
  inRanges c (intersectRanges a b) = inRanges c a && inRanges c b.
Proof.
  intros Ha Hb. apply eq_true_iff_eq.
  rewrite andb_true_iff, !inRanges_spec. apply (intersectRanges_In c a b m Ha Hb).
Qed.

Lemma inRanges_without (c : Z) (a b : list CharRange) (m : Z) :
  normalFrom 0 m a -> normalFrom 0 m b ->
  inRanges c (withoutRanges a b) = inRanges c a && negb (inRanges c b).
Proof.
  intros Ha Hb. apply eq_true_iff_eq.
  rewrite andb_true_iff, negb_true_iff, !inRanges_spec,
    (withoutRanges_In c a b m Ha Hb), <- (inRanges_spec c b).
  destruct (inRanges c b); intuition congruence.
Qed.

Lemma inRanges_negate (c : Z) (rs : list CharRange) (m : Z) :
  0 <= m -> normalFrom 0 m rs ->
  inRanges c (negateRanges rs m) = (0 <=? c) && (c <=? m) && negb (inRanges c rs).
Proof.
  intros H0 Hn. apply eq_true_iff_eq.
  rewrite !andb_true_iff, negb_true_iff, !Z.leb_le, inRanges_spec,
    (negateRanges_In c rs m H0 Hn), <- (inRanges_spec c rs).
  destruct (inRanges c rs); intuition congruence.
Qed.

Lemma has_mk (m : Z) (rs : list CharRange) (c : Z) :
  normalFrom 0 m rs -> has (mkCharSet m rs) c = inRanges c rs.
Proof.
  intros Hn. apply eq_true_iff_eq.
  rewrite (has_InRanges (mkCharSet m rs) c 0 Hn). symmetry. apply inRanges_spec.
Qed.

(* ================================================================= *)
(** * [CharSet] as a set of characters *)

Lemma NormalForm_ranges (s : CharSet) :
  NormalForm s -> normalFrom 0 (maximum s) (ranges s).
Proof. intros H. apply NormalForm_normalFrom in H. tauto. Qed.

Lemma NormalForm_maximum (s : CharSet) : NormalForm s -> 0 <= maximum s.
Proof. intros H. apply NormalForm_normalFrom in H. tauto. Qed.

(** X1: for a set in normal form the binary search of [has] finds a
    character exactly when one of the ranges holds it, and
    [isSupersetOf] with a non-empty range is [true] exactly when the set has
    every character of the range. *)
Theorem has_is_membership (s : CharSet) :
  NormalForm s ->
  (forall c, has s c = true <-> exists r, In r (ranges s) /\ min r <= c <= max r)
  /\ (forall r, min r <= max r ->
        (isSupersetOf s (ARange r) = true
         <-> forall c, min r <= c <= max r -> has s c = true)).
Proof.
  intros Hs. pose proof (NormalForm_ranges s Hs) as Hn. split.
  - intros c. apply (has_InRanges s c 0 Hn).
  - intros r Hr. cbn [isSupersetOf].
    rewrite (hasEveryOfRange_spec (ranges s) r 0 (maximum s) Hn Hr).
    split; intros H c Hc.
    + apply (has_InRanges s c 0 Hn). apply H. exact Hc.
    + apply (has_InRanges s c 0 Hn). apply H. exact Hc.
Qed.

Lemma has_is_membership_witness :
  (has hexDigits 66 = true <-> exists r, In r (ranges hexDigits) /\ min r <= 66 <= max r)
  /\ (isSupersetOf hexDigits (ARange (mkRange 50 55)) = true
      <-> forall c, 50 <= c <= 55 -> has hexDigits c = true).
Proof.
  destruct (has_is_membership hexDigits hexDigits_normal) as [H1 H2].
  split; [apply H1 | apply (H2 (mkRange 50 55)); simpl; lia].
Defined.

(** X2: [commonCharacter] returns a character of both operands, and
    [undefined] only when they share none.  Between two sets the character
    returned is the least common one; [isDisjointWith] is [true] exactly when
    there is no common character. *)
Theorem commonCharacter_is_common (a : CharSet) :
  NormalForm a ->
  (forall b, NormalForm b ->
     match commonCharacter a (ASet b) with
     | Some c => has a c = true /\ has b c = true
                 /\ forall c', has a c' = true -> has b c' = true -> c <= c'
     | None => forall c, has a c = true -> has b c = false
     end)
  /\ (forall r, min r <= max r ->
     match commonCharacter a (ARange r) with
     | Some c => has a c = true /\ min r <= c <= max r
     | None => forall c, has a c = true -> ~ (min r <= c <= max r)
     end)
  /\ (forall b, NormalForm b ->
        (isDisjointWith a (ASet b) = true
         <-> forall c, has a c = true -> has b c = false)).
Proof.
  intros Ha. pose proof (NormalForm_ranges a Ha) as Hna.
  assert (Hset : forall b, NormalForm b ->
     match commonCharacter a (ASet b) with
     | Some c => has a c = true /\ has b c = true
                 /\ forall c', has a c' = true -> has b c' = true -> c <= c'
     | None => forall c, has a c = true -> has b c = false
     end).
  { intros b Hb. pose proof (NormalForm_ranges b Hb) as Hnb. cbn [commonCharacter].
    pose proof (commonCharacterSweep_spec (S (length (ranges a) + length (ranges b)))
                  (ranges a) (ranges b) 0 0 (maximum a) (maximum b)
                  (Nat.lt_succ_diag_r _) Hna Hnb) as H.
    destruct (commonCharacterSweep _ (ranges a) (ranges b)) as [c|].
    - destruct H as (H1 & H2 & H3).
      split; [apply (has_InRanges a c 0 Hna), H1|].
      split; [apply (has_InRanges b c 0 Hnb), H2|].
      intros c' Hca Hcb. apply H3.
      + apply (has_InRanges a c' 0 Hna), Hca.
      + apply (has_InRanges b c' 0 Hnb), Hcb.
    - intros c Hc. apply not_true_is_false. intros Hcb.
      apply (H c).
      + apply (has_InRanges a c 0 Hna), Hc.
      + apply (has_InRanges b c 0 Hnb), Hcb. }
  split; [exact Hset|]. split.
  - intros r Hr. cbn [commonCharacter].
    pose proof (commonCharacterOfRange_spec (ranges a) r 0 (maximum a) Hna Hr) as H.
    destruct (commonCharacterOfRange (ranges a) r) as [c|].
    + destruct H as [H1 H2]. split; [apply (has_InRanges a c 0 Hna), H1 | exact H2].
    + intros c Hc. apply H. apply (has_InRanges a c 0 Hna), Hc.
  - intros b Hb. specialize (Hset b Hb). unfold isDisjointWith.
    destruct (commonCharacter a (ASet b)) as [c|].
    + destruct Hset as (H1 & H2 & _). split; [discriminate|].
      intros H. rewrite (H c H1) in H2. discriminate.
    + split; [intros _; exact Hset | reflexivity].
Qed.

Lemma commonCharacter_is_common_witness :
  match commonCharacter hexDigits (ASet digits) with
  | Some c => has hexDigits c = true /\ has digits c = true
              /\ forall c', has hexDigits c' = true -> has digits c' = true -> c <= c'
  | None => forall c, has hexDigits c = true -> has digits c = false
  end.
Proof.
  apply (proj1 (commonCharacter_is_common hexDigits hexDigits_normal) digits digits_normal).
Defined.

(** X3: between sets in normal form, [isSupersetOf] and [isSubsetOf] decide
    the inclusion of the characters, and [isSubsetOf] with a range is [true]
    exactly when every character of the set lies in the range. *)
Theorem superset_and_subset_are_inclusion (a : CharSet) :
  NormalForm a ->
  (forall b, NormalForm b ->
     (isSupersetOf a (ASet b) = true <-> forall c, has b c = true -> has a c = true)
     /\ (isSubsetOf a (ASet b) = true <-> forall c, has a c = true -> has b c = true))
  /\ (forall r,
        isSubsetOf a (ARange r) = true
        <-> forall c, has a c = true -> min r <= c <= max r).
Proof.
  intros Ha. pose proof (NormalForm_ranges a Ha) as Hna.
  assert (Hsup : forall x y, NormalForm x -> NormalForm y ->
            (isSupersetOf x (ASet y) = true
             <-> forall c, has y c = true -> has x c = true)).
  { intros x y Hx Hy. pose proof (NormalForm_ranges x Hx) as Hnx.
    pose proof (NormalForm_ranges y Hy) as Hny. cbn [isSupersetOf].
    rewrite (isSupersetLoop_spec _ (ranges x) (ranges y) 0 0 (Z.max (maximum x) (maximum y))
               (Nat.lt_succ_diag_r _)).
    - split; intros H c Hc.
      + apply (has_InRanges x c 0 Hnx), H, (has_InRanges y c 0 Hny), Hc.
      + apply (has_InRanges x c 0 Hnx), H, (has_InRanges y c 0 Hny), Hc.
    - clear - Hnx. revert Hnx. generalize 0 at 1 2. generalize (ranges x).
      induction l as [|r l IH]; simpl; intros lo H; [exact I|].
      destruct H as (H1 & H2 & H3 & H4). repeat split; try lia. apply IH, H4.
    - clear - Hny. revert Hny. generalize 0 at 1 2. generalize (ranges y).
      induction l as [|r l IH]; simpl; intros lo H; [exact I|].
      destruct H as (H1 & H2 & H3 & H4). repeat split; try lia. apply IH, H4. }
  split.
  - intros b Hb. split; [apply (Hsup a b Ha Hb) | apply (Hsup b a Hb Ha)].
  - intros r. cbn [isSubsetOf].
    assert (Hhas : forall c, has a c = true <-> InRanges c (ranges a))
      by (intros c; apply (has_InRanges a c 0 Hna)).
    destruct (ranges a) as [|first rest].
    + split; [|reflexivity]. intros _ c Hc.
      apply Hhas in Hc. destruct (InRanges_nil c Hc).
    + rewrite andb_true_iff, !Z.leb_le.
      pose proof (fun i ri => normalFrom_ends rest first 0 (maximum a) i ri Hna) as Hends.
      pose proof (nth_error_last rest first first) as Hlast.
      pose proof (normalFrom_nth _ 0 (maximum a) _ _ Hna Hlast) as Hl.
      pose proof (normalFrom_nth (first :: rest) 0 (maximum a) 0 first Hna eq_refl) as Hf.
      split.
      * intros [H1 H2] c Hc. apply Hhas in Hc. destruct Hc as (ri & Hri & Hc).
        destruct (In_nth_error _ _ Hri) as [i Hi]. destruct (Hends i ri Hi).
        unfold InRange in Hc. lia.
      * intros H. split.
        -- apply (H (min first)), Hhas. exists first. split; [left; reflexivity|].
           unfold InRange. lia.
        -- apply (H (max (List.last (first :: rest) first))), Hhas.
           exists (List.last (first :: rest) first).
           split; [apply (nth_error_In _ _ Hlast) | unfold InRange; lia].
Qed.

Lemma superset_and_subset_are_inclusion_witness :
  isSupersetOf hexDigits (ASet digits) = true
  <-> forall c, has digits c = true -> has hexDigits c = true.
Proof.
  apply (proj1 (superset_and_subset_are_inclusion hexDigits hexDigits_normal)
           digits digits_normal).
Defined.

Lemma isEmpty_negate (s : CharSet) :
  NormalForm s -> isEmpty (negate s) = isAll s.
Proof.
  intros Hs. pose proof (NormalForm_ranges s Hs) as Hn.
  unfold isEmpty, isAll, negate. simpl. destruct (ranges s) as [|first rest].
  - reflexivity.
  - destruct Hn as (N1 & N2 & N3 & N4). unfold negateRanges.
    rewrite last_cons_default.
    destruct rest as [|r rest].
    + simpl. destruct (min first >? 0) eqn:E1; zcmp.
      * assert (E : (min first =? 0) = false) by (apply Z.eqb_neq; lia).
        rewrite E. reflexivity.
      * assert (E : (min first =? 0) = true) by (apply Z.eqb_eq; lia).
        rewrite E. simpl. destruct (max first <? maximum s) eqn:E2; zcmp.
        -- assert (E3 : (max first =? maximum s) = false) by (apply Z.eqb_neq; lia).
           rewrite E3. reflexivity.
        -- assert (E3 : (max first =? maximum s) = true) by (apply Z.eqb_eq; lia).
           rewrite E3. reflexivity.
    + cbn [negateGaps]. rewrite length_app. simpl.
      rewrite Nat.add_succ_r. reflexivity.
Qed.

(** X4: [negate] is the complement within [0 .. maximum]: a character is in
    [s.negate()] exactly when it is a code point up to [maximum] that is not
    in [s]; negating twice gives the set back, the complement is empty
    exactly when the set is all, and all exactly when the set is empty. *)
Theorem negate_is_complement (s : CharSet) :
  NormalForm s ->
  (forall c, has (negate s) c = (0 <=? c) && (c <=? maximum s) && negb (has s c))
  /\ negate (negate s) = s
  /\ isEmpty (negate s) = isAll s
  /\ isAll (negate s) = isEmpty s.
Proof.
  intros Hs. pose proof (NormalForm_ranges s Hs) as Hn.
  pose proof (NormalForm_maximum s Hs) as H0.
  pose proof (negateRanges_normal (ranges s) (maximum s) H0 Hn) as Hneg.
  split; [|split; [|split]].
  - intros c. unfold negate. rewrite (has_mk _ _ c Hneg), (has_inRanges s c Hs).
    apply (inRanges_negate c (ranges s) (maximum s) H0 Hn).
  - unfold negate. simpl. rewrite (negateRanges_involutive _ _ H0 Hn).
    destruct s; reflexivity.
  - exact (isEmpty_negate s Hs).
  - unfold isEmpty at 1. destruct (ranges s) as [|first rest] eqn:Er.
    + unfold isAll, negate. rewrite Er. simpl. rewrite Z.eqb_refl. reflexivity.
    + simpl. apply not_true_is_false. intros Hall. unfold isAll, negate in Hall.
      cbn [ranges maximum] in Hall. rewrite Er in Hall.
      destruct (negateRanges (first :: rest) (maximum s)) as [|r [|r' l]] eqn:En;
        try discriminate.
      apply andb_true_iff in Hall. destruct Hall as [A1 A2]. zcmp.
      destruct Hn as (N1 & N2 & N3 & N4).
      assert (Hin : InRanges (min first) (negateRanges (first :: rest) (maximum s))).
      { rewrite En. exists r. split; [left; reflexivity | unfold InRange; lia]. }
      rewrite <- Er in Hin.
      apply (negateRanges_In (min first) (ranges s) (maximum s) H0) in Hin;
        [| rewrite Er; simpl; tauto].
      destruct Hin as [_ Hin]. apply Hin. rewrite Er. exists first.
      split; [left; reflexivity | unfold InRange; lia].
Qed.

Lemma negate_is_complement_witness :
  (forall c, has (negate hexDigits) c = (0 <=? c) && (c <=? 127) && negb (has hexDigits c))
  /\ negate (negate hexDigits) = hexDigits.
Proof.
  destruct (negate_is_complement hexDigits hexDigits_normal) as (H1 & H2 & _).
  split; [exact H1 | exact H2].
Defined.

(** X5: between sets in normal form with the same [maximum], [union],
    [intersect] and [without] return, and the set returned has a character
    exactly when one operand, both operands, or the first and not the second
    has it. *)
Theorem set_operations_on_characters (a b : CharSet) :
  NormalForm a -> NormalForm b -> maximum a = maximum b ->
  exists u i w,
    union a [OfSet b] = Ok u /\ intersect a (OfSet b) = Ok i /\ without a (OfSet b) = Ok w
    /\ forall c,
         has u c = has a c || has b c
         /\ has i c = has a c && has b c
         /\ has w c = has a c && negb (has b c).
Proof.
  intros Ha Hb Em. pose proof (NormalForm_ranges a Ha) as Hna.
  pose proof (NormalForm_ranges b Hb) as Hnb. rewrite <- Em in Hnb.
  symmetry in Em.
  exists (mkCharSet (maximum a) (unionRanges (ranges a) (ranges b))),
         (mkCharSet (maximum a) (intersectRanges (ranges a) (ranges b))),
         (mkCharSet (maximum a) (withoutRanges (ranges a) (ranges b))).
  split; [apply (union_set a b 0 Hna Em)|].
  split; [apply (intersect_set a b Em)|]. split; [apply (without_set a b Em)|].
  intros c. rewrite (has_inRanges a c Ha), (has_inRanges b c Hb).
  rewrite (has_mk _ _ c (unionRanges_normal _ _ _ Hna Hnb)),
          (has_mk _ _ c (intersectRanges_normal _ _ _ Hna Hnb)),
          (has_mk _ _ c (withoutRanges_normal _ _ _ Hna Hnb)).
  split; [apply (inRanges_union c _ _ _ Hna Hnb)|].
  split; [apply (inRanges_intersect c _ _ _ Hna Hnb)
         | apply (inRanges_without c _ _ _ Hna Hnb)].
Qed.

Lemma set_operations_on_characters_witness :
  exists u i w,
    union hexDigits [OfSet digits] = Ok u /\ intersect hexDigits (OfSet digits) = Ok i
    /\ without hexDigits (OfSet digits) = Ok w
    /\ forall c,
         has u c = has hexDigits c || has digits c
         /\ has i c = has hexDigits c && has digits c
         /\ has w c = has hexDigits c && negb (has digits c).
Proof.
  apply (set_operations_on_characters hexDigits digits hexDigits_normal digits_normal).
  reflexivity.
Defined.

(** X6: [without] is the intersection with the complement (the line left
    as a comment at the end of [withoutRanges]), and the complement of a
    union is the intersection of the complements and conversely. *)
Theorem without_and_de_morgan (a b : CharSet) :
  NormalForm a -> NormalForm b -> maximum a = maximum b ->
  without a (OfSet b) = intersect a (OfSet (negate b))
  /\ (forall u, union a [OfSet b] = Ok u ->
        intersect (negate a) (OfSet (negate b)) = Ok (negate u))
  /\ (forall i, intersect a (OfSet b) = Ok i ->
        union (negate a) [OfSet (negate b)] = Ok (negate i)).
Proof.
  intros Ha Hb Em. pose proof (NormalForm_ranges a Ha) as Hna.
  pose proof (NormalForm_ranges b Hb) as Hnb. rewrite <- Em in Hnb.
  pose proof (NormalForm_maximum a Ha) as H0. symmetry in Em.
  pose proof (negateRanges_normal _ _ H0 Hna) as Hnna.
  pose proof (negateRanges_normal _ _ H0 Hnb) as Hnnb.
  assert (Emn : maximum (negate b) = maximum a) by exact Em.
  assert (Emnn : maximum (negate b) = maximum (negate a)) by exact Em.
  split; [|split].
  - rewrite (without_set a b Em), (intersect_set a (negate b) Emn).
    unfold negate. cbn [ranges maximum]. rewrite Em. f_equal. f_equal.
    apply (same_characters_same_ranges _ _ (maximum a));
      [apply withoutRanges_normal; assumption
      | apply intersectRanges_normal; assumption |].
    intros c. rewrite (inRanges_without c _ _ _ Hna Hnb),
      (inRanges_intersect c _ _ _ Hna Hnnb), (inRanges_negate c _ _ H0 Hnb).
    destruct (inRanges c (ranges a)) eqn:Eca; [|reflexivity].
    apply inRanges_spec in Eca. pose proof (InRanges_bounds _ 0 _ c Hna Eca) as Hc.
    assert (E1 : (0 <=? c) = true) by (apply Z.leb_le; lia).
    assert (E2 : (c <=? maximum a) = true) by (apply Z.leb_le; lia).
    rewrite E1, E2. reflexivity.
  - intros u Hu. rewrite (union_set a b 0 Hna Em) in Hu. injection Hu as <-.
    rewrite (intersect_set (negate a) (negate b) Emnn).
    unfold negate. cbn [ranges maximum]. rewrite Em. f_equal. f_equal.
    apply (same_characters_same_ranges _ _ (maximum a));
      [apply intersectRanges_normal; assumption
      | apply negateRanges_normal; [exact H0 | apply unionRanges_normal; assumption] |].
    intros c. rewrite (inRanges_intersect c _ _ _ Hnna Hnnb),
      (inRanges_negate c _ _ H0 Hna), (inRanges_negate c _ _ H0 Hnb),
      (inRanges_negate c _ _ H0 (unionRanges_normal _ _ _ Hna Hnb)),
      (inRanges_union c _ _ _ Hna Hnb).
    destruct (0 <=? c), (c <=? maximum a), (inRanges c (ranges a)), (inRanges c (ranges b));
      reflexivity.
  - intros i Hi. rewrite (intersect_set a b Em) in Hi. injection Hi as <-.
    rewrite (union_set (negate a) (negate b) 0 Hnna Emnn).
    unfold negate. cbn [ranges maximum]. rewrite Em. f_equal. f_equal.
    apply (same_characters_same_ranges _ _ (maximum a));
      [apply unionRanges_normal; assumption
      | apply negateRanges_normal; [exact H0 | apply intersectRanges_normal; assumption] |].
    intros c. rewrite (inRanges_union c _ _ _ Hnna Hnnb),
      (inRanges_negate c _ _ H0 Hna), (inRanges_negate c _ _ H0 Hnb),
      (inRanges_negate c _ _ H0 (intersectRanges_normal _ _ _ Hna Hnb)),
      (inRanges_intersect c _ _ _ Hna Hnb).
    destruct (0 <=? c), (c <=? maximum a), (inRanges c (ranges a)), (inRanges c (ranges b));
      reflexivity.
Qed.

Lemma without_and_de_morgan_witness :
  without hexDigits (OfSet digits) = intersect hexDigits (OfSet (negate digits)).
Proof.
  apply (without_and_de_morgan hexDigits digits hexDigits_normal digits_normal).
  reflexivity.
Defined.

(* ================================================================= *)
(** * The variadic [union] and the operations on iterables of ranges *)

(** ** [optimizeRanges] keeps the characters *)

Lemma insertByMin_In (c : Z) (r : CharRange) (sorted : list CharRange) :
  InRanges c (insertByMin r sorted) <-> InRange c r \/ InRanges c sorted.
Proof.
  induction sorted as [|s sorted IH]; simpl.
  - rewrite InRanges_cons. tauto.
  - destruct (min s <=? min r).
    + rewrite InRanges_cons, IH, (InRanges_cons c s sorted). tauto.
    + rewrite InRanges_cons. tauto.
Qed.

Lemma sortByMin_In_gen (c : Z) (rs : list CharRange) : forall acc,
  InRanges c (fold_left (fun sorted r => insertByMin r sorted) rs acc)
  <-> InRanges c rs \/ InRanges c acc.
Proof.
  induction rs as [|r rs IH]; intros acc; simpl.
  - pose proof (InRanges_nil c). tauto.
  - rewrite IH, insertByMin_In, InRanges_cons. tauto.
Qed.

Lemma optimizeRanges_In (c : Z) (rs : list CharRange) (m : Z) :
  Forall (validFor m) rs -> (InRanges c (optimizeRanges rs) <-> InRanges c rs).
Proof.
  intros Hall. unfold optimizeRanges.
  rewrite (optimizeSortedRanges_In c (sortByMin rs) 0 m).
  - unfold sortByMin. rewrite sortByMin_In_gen. pose proof (InRanges_nil c). tauto.
  - apply (sortByMin_sorted_gen rs [] m Hall I).
Qed.

Lemma inRanges_optimizeRanges (c : Z) (rs : list CharRange) (m : Z) :
  Forall (validFor m) rs -> inRanges c (optimizeRanges rs) = inRanges c rs.
Proof.
  intros Hall. apply eq_true_iff_eq. rewrite !inRanges_spec.
  apply (optimizeRanges_In c rs m Hall).
Qed.

Lemma inRanges_app (c : Z) (a b : list CharRange) :
  inRanges c (a ++ b) = inRanges c a || inRanges c b.
Proof. unfold inRanges. apply existsb_app. Qed.

(** ** The loops of the variadic [union] *)

Lemma validFor_dec (m : Z) (r : CharRange) : {validFor m r} + {~ validFor m r}.
Proof.
  unfold validFor.
  destruct (Z_le_dec 0 (min r)); [|right; lia].
  destruct (Z_le_dec (min r) (max r)); [|right; lia].
  destruct (Z_le_dec (max r) m); [left; lia | right; lia].
Defined.

Lemma checkRange_invalid (this : CharSet) (range : CharRange) :
  ~ validFor (maximum this) range ->
  checkRange this range = Err (RangeOutOfBounds MinOutOfRange).
Proof.
  unfold checkRange, validFor. intros H.
  destruct (min range <? 0) eqn:E1; [reflexivity|].
  destruct (min range >? max range) eqn:E2; [reflexivity|].
  destruct (max range >? maximum this) eqn:E3; [reflexivity|].
  zcmp. lia.
Qed.

Lemma pushChecked_all (this : CharSet) (rs : list CharRange) : forall acc,
  Forall (validFor (maximum this)) rs -> pushChecked this rs acc = Ok (acc ++ rs).
Proof.
  induction rs as [|r rs IH]; intros acc Hall; simpl.
  - rewrite app_nil_r. reflexivity.
  - inversion Hall as [|? ? Hr Hrs]; subst.
    rewrite (checkRange_valid this r Hr). simpl. rewrite (IH _ Hrs), <- app_assoc.
    reflexivity.
Qed.

Lemma pushChecked_bad (this : CharSet) (rs : list CharRange) : forall acc,
  ~ Forall (validFor (maximum this)) rs ->
  pushChecked this rs acc = Err (RangeOutOfBounds MinOutOfRange).
Proof.
  induction rs as [|r rs IH]; intros acc Hbad; simpl.
  - destruct Hbad. constructor.
  - destruct (validFor_dec (maximum this) r) as [Hr | Hr].
    + rewrite (checkRange_valid this r Hr). simpl. apply IH.
      intros Hrs. apply Hbad. constructor; assumption.
    + rewrite (checkRange_invalid this r Hr). reflexivity.
Qed.

(** The ranges an argument of [union] stands for. *)
Definition itemRanges (x : RangesOrSet) : list CharRange :=
  match x with
  | OfSet s => ranges s
  | OfRanges rs => rs
  end.

(** An argument that [union] accepts: a set of the same [maximum], or ranges
    that pass [checkRange]. *)
Definition itemOk (m : Z) (x : RangesOrSet) : Prop :=
  match x with
  | OfSet o => maximum o = m /\ NormalForm o
  | OfRanges rs => Forall (validFor m) rs
  end.

(** The error of the first argument that [union] rejects. *)
Definition itemError (m : Z) (x : RangesOrSet) (e : Error) : Prop :=
  match x with
  | OfSet o => maximum o <> m /\ e = DomainMismatch
  | OfRanges rs => ~ Forall (validFor m) rs /\ e = RangeOutOfBounds MinOutOfRange
  end.

Lemma itemOk_valid (m : Z) (x : RangesOrSet) :
  itemOk m x -> Forall (validFor m) (itemRanges x).
Proof.
  destruct x as [o | rs]; simpl; [|trivial]. intros [<- Ho].
  apply (normalFrom_Forall_valid (ranges o) 0 (maximum o) (Z.le_refl 0)).
  apply NormalForm_ranges, Ho.
Qed.

Lemma pushOne_ok (this : CharSet) (x : RangesOrSet) (acc : list CharRange) :
  itemOk (maximum this) x ->
  rbind (toRanges this x) (fun rs => pushChecked this rs acc) = Ok (acc ++ itemRanges x).
Proof.
  intros Hx. pose proof (itemOk_valid _ x Hx) as Hv. destruct x as [o | rs]; simpl in *.
  - destruct Hx as [Em _]. unfold checkCompatibility. rewrite Em, Z.eqb_refl. simpl.
    apply pushChecked_all, Hv.
  - apply pushChecked_all, Hv.
Qed.

Lemma pushOne_bad (this : CharSet) (x : RangesOrSet) (acc : list CharRange) (e : Error) :
  itemError (maximum this) x e ->
  rbind (toRanges this x) (fun rs => pushChecked this rs acc) = Err e.
Proof.
  destruct x as [o | rs]; simpl; intros [Hx ->].
  - unfold checkCompatibility.
    assert (E : (maximum o =? maximum this) = false) by (apply Z.eqb_neq; exact Hx).
    rewrite E. reflexivity.
  - apply pushChecked_bad, Hx.
Qed.

Lemma pushAll_step (this : CharSet) (x : RangesOrSet) (data : list RangesOrSet)
  (acc : list CharRange) :
  pushAll this (x :: data) acc
  = rbind (rbind (toRanges this x) (fun rs => pushChecked this rs acc))
          (fun acc' => pushAll this data acc').
Proof. simpl. destruct (toRanges this x); reflexivity. Qed.

Lemma pushAll_ok (this : CharSet) (data : list RangesOrSet) : forall acc,
  Forall (itemOk (maximum this)) data ->
  pushAll this data acc = Ok (acc ++ concat (map itemRanges data)).
Proof.
  induction data as [|x data IH]; intros acc Hall.
  - simpl. rewrite app_nil_r. reflexivity.
  - inversion Hall as [|? ? Hx Hd]; subst.
    rewrite pushAll_step, (pushOne_ok this x acc Hx). simpl.
    rewrite (IH _ Hd), <- app_assoc. reflexivity.
Qed.

Lemma pushAll_bad (this : CharSet) (pre : list RangesOrSet) (x : RangesOrSet)
  (post : list RangesOrSet) (e : Error) : forall acc,
  Forall (itemOk (maximum this)) pre -> itemError (maximum this) x e ->
  pushAll this (pre ++ x :: post) acc = Err e.
Proof.
  induction pre as [|p pre IH]; intros acc Hall Hx.
  - cbn [app]. rewrite pushAll_step, (pushOne_bad this x acc e Hx). reflexivity.
  - inversion Hall as [|? ? Hp Hpre]; subst. cbn [app].
    rewrite pushAll_step, (pushOne_ok this p acc Hp). simpl. apply IH; assumption.
Qed.

Lemma concat_valid (m : Z) (data : list RangesOrSet) :
  Forall (itemOk m) data -> Forall (validFor m) (concat (map itemRanges data)).
Proof.
  induction 1 as [|x data Hx _ IH]; simpl; [constructor|].
  apply Forall_app. split; [apply itemOk_valid, Hx | exact IH].
Qed.

Lemma inRanges_concat (c : Z) (data : list RangesOrSet) :
  inRanges c (concat (map itemRanges data))
  = existsb (fun x => inRanges c (itemRanges x)) data.
Proof.
  induction data as [|x data IH]; simpl; [reflexivity|].
  rewrite inRanges_app, IH. reflexivity.
Qed.

(** What [union] returns for arguments that it accepts, on both paths. *)
Lemma union_accepts (s : CharSet) (data : list RangesOrSet) :
  NormalForm s -> Forall (itemOk (maximum s)) data ->
  exists rs,
    union s data = Ok (mkCharSet (maximum s) rs)
    /\ normalFrom 0 (maximum s) rs
    /\ forall c, inRanges c rs
                 = inRanges c (ranges s) || existsb (fun x => inRanges c (itemRanges x)) data.
Proof.
  intros Hs Hall. pose proof (NormalForm_ranges s Hs) as Hn.
  assert (Hvar :
    exists rs,
      rbind (pushAll s data (ranges s))
            (fun newRanges => Ok (mkCharSet (maximum s) (optimizeRanges newRanges)))
      = Ok (mkCharSet (maximum s) rs)
      /\ normalFrom 0 (maximum s) rs
      /\ forall c, inRanges c rs
                   = inRanges c (ranges s)
                     || existsb (fun x => inRanges c (itemRanges x)) data).
  { rewrite (pushAll_ok s data _ Hall). simpl.
    assert (Hv : Forall (validFor (maximum s)) (ranges s ++ concat (map itemRanges data))).
    { apply Forall_app. split; [| apply concat_valid, Hall].
      apply (normalFrom_Forall_valid _ 0 _ (Z.le_refl 0) Hn). }
    eexists. split; [reflexivity|]. split; [apply optimizeRanges_normal, Hv|].
    intros c. rewrite (inRanges_optimizeRanges c _ _ Hv), inRanges_app, inRanges_concat.
    reflexivity. }
  unfold union. destruct data as [|[first|rs] [|d2 data']]; try exact Hvar.
  assert (Hx : itemOk (maximum s) (OfSet first)) by (inversion Hall; assumption).
  simpl in Hx. destruct Hx as [Em Hf].
  pose proof (NormalForm_ranges first Hf) as Hnf. rewrite Em in Hnf.
  fold (union s [OfSet first]). rewrite (union_set s first 0 Hn Em).
  eexists. split; [reflexivity|]. split; [apply unionRanges_normal; assumption|].
  intros c. rewrite (inRanges_union c _ _ _ Hn Hnf). simpl. rewrite orb_false_r.
  reflexivity.
Qed.

Lemma union_rejects (s : CharSet) (pre : list RangesOrSet) (x : RangesOrSet)
  (post : list RangesOrSet) (e : Error) :
  Forall (itemOk (maximum s)) pre -> itemError (maximum s) x e ->
  union s (pre ++ x :: post) = Err e.
Proof.
  intros Hall Hx.
  assert (Hvar :
    rbind (pushAll s (pre ++ x :: post) (ranges s))
          (fun newRanges => Ok (mkCharSet (maximum s) (optimizeRanges newRanges)))
    = Err e).
  { rewrite (pushAll_bad s pre x post e _ Hall Hx). reflexivity. }
  unfold union. destruct (pre ++ x :: post) as [|[first|rs] [|d2 data']] eqn:Ed;
    try exact Hvar.
  destruct pre as [|p [|p2 pre]]; try discriminate.
  injection Ed as -> _. destruct Hx as [Hx ->]. unfold checkCompatibility.
  assert (E : (maximum first =? maximum s) = false) by (apply Z.eqb_neq; exact Hx).
  rewrite E. reflexivity.
Qed.

(** X7: [union] with any number of arguments, sets or iterables of ranges.
    When every set has the receiver's [maximum] and every range passes
    [checkRange], the call returns a set in normal form that has a character
    exactly when the receiver or one of the arguments has it; the ranges need
    not be sorted, disjoint or apart.  Otherwise the call throws for the first
    argument at fault: the error of [checkCompatibility] for a set, the first
    [RangeError] of [checkRange] for a range. *)
Theorem union_accepts_or_rejects (s : CharSet) :
  NormalForm s ->
  (forall data, Forall (itemOk (maximum s)) data ->
     exists u,
       union s data = Ok u /\ NormalForm u /\ maximum u = maximum s
       /\ forall c, has u c
                    = has s c || existsb (fun x => inRanges c (itemRanges x)) data)
  /\ (forall pre x post e,
        Forall (itemOk (maximum s)) pre -> itemError (maximum s) x e ->
        union s (pre ++ x :: post) = Err e).
Proof.
  intros Hs. split.
  - intros data Hall. destruct (union_accepts s data Hs Hall) as (rs & Hu & Hn & Hc).
    exists (mkCharSet (maximum s) rs). split; [exact Hu|].
    split; [apply (proj2 (NormalForm_normalFrom _)); split; [exact (NormalForm_maximum s Hs) | exact Hn]|].
    split; [reflexivity|].
    intros c. rewrite (has_mk _ _ c Hn), (has_inRanges s c Hs). apply Hc.
  - intros pre x post e. apply union_rejects.
Qed.

Lemma union_accepts_or_rejects_witness :
  (exists u,
     union digits [OfRanges [mkRange 100 120; mkRange 0 50]; OfSet hexDigits] = Ok u
     /\ NormalForm u /\ maximum u = 127
     /\ forall c, has u c
                  = has digits c
                    || existsb (fun x => inRanges c (itemRanges x))
                         [OfRanges [mkRange 100 120; mkRange 0 50]; OfSet hexDigits])
  /\ union digits [OfSet hexDigits; OfRanges [mkRange 3 2]; OfSet (all 5)]
     = Err (RangeOutOfBounds MinOutOfRange).
Proof.
  destruct (union_accepts_or_rejects digits digits_normal) as [Hok Hbad]. split.
  - apply Hok. constructor; [| constructor; [| constructor]].
    + repeat constructor; simpl; lia.
    + split; [reflexivity | exact hexDigits_normal].
  - apply (Hbad [OfSet hexDigits] (OfRanges [mkRange 3 2]) [OfSet (all 5)]).
    + constructor; [| constructor]. split; [reflexivity | exact hexDigits_normal].
    + split; [|reflexivity]. intros H. inversion H as [|? ? Hr _]; subst.
      unfold validFor in Hr. simpl in Hr. lia.
Defined.

(** X8: [intersect] and [without] with an iterable of ranges.  When every
    range passes [checkRange] the call returns a set that has a character
    exactly when the receiver has it and the ranges have it (do not have it,
    for [without]); otherwise it throws the first [RangeError] of
    [checkRange]. *)
Theorem intersect_and_without_ranges (s : CharSet) (rs : list CharRange) :
  NormalForm s ->
  (Forall (validFor (maximum s)) rs ->
     exists i w,
       intersect s (OfRanges rs) = Ok i /\ without s (OfRanges rs) = Ok w
       /\ NormalForm i /\ NormalForm w
       /\ forall c, has i c = has s c && inRanges c rs
                    /\ has w c = has s c && negb (inRanges c rs))
  /\ (~ Forall (validFor (maximum s)) rs ->
        intersect s (OfRanges rs) = Err (RangeOutOfBounds MinOutOfRange)
        /\ without s (OfRanges rs) = Err (RangeOutOfBounds MinOutOfRange)).
Proof.
  intros Hs. pose proof (NormalForm_ranges s Hs) as Hn.
  pose proof (NormalForm_maximum s Hs) as H0.
  assert (He : NormalForm (empty (maximum s))).
  { apply (proj2 (NormalForm_normalFrom _)). simpl. split; [exact H0 | exact I]. }
  split.
  - intros Hall.
    destruct (union_accepts (empty (maximum s)) [OfRanges rs] He) as (rs' & Hu & Hn' & Hc).
    { constructor; [exact Hall | constructor]. }
    cbn [empty maximum ranges] in Hu, Hn', Hc.
    assert (Hc' : forall c, inRanges c rs' = inRanges c rs).
    { intros c. rewrite (Hc c). simpl. rewrite orb_false_r. reflexivity. }
    exists (mkCharSet (maximum s) (intersectRanges (ranges s) rs')),
           (mkCharSet (maximum s) (withoutRanges (ranges s) rs')).
    pose proof (intersectRanges_normal _ _ _ Hn Hn') as Hni.
    pose proof (withoutRanges_normal _ _ _ Hn Hn') as Hnw.
    split; [|split; [|split; [|split]]].
    + unfold intersect, asOther. rewrite Hu. simpl.
      destruct (intersectRanges (ranges s) rs'); reflexivity.
    + unfold without, asOther. rewrite Hu. simpl.
      destruct (withoutRanges (ranges s) rs'); reflexivity.
    + apply (proj2 (NormalForm_normalFrom _)). split; assumption.
    + apply (proj2 (NormalForm_normalFrom _)). split; assumption.
    + intros c. rewrite (has_mk _ _ c Hni), (has_mk _ _ c Hnw), (has_inRanges s c Hs),
        (inRanges_intersect c _ _ _ Hn Hn'), (inRanges_without c _ _ _ Hn Hn'), (Hc' c).
      split; reflexivity.
  - intros Hbad.
    assert (Hu : union (empty (maximum s)) [OfRanges rs]
                 = Err (RangeOutOfBounds MinOutOfRange)).
    { apply (union_rejects (empty (maximum s)) [] (OfRanges rs) []);
        [constructor | split; [exact Hbad | reflexivity]]. }
    unfold intersect, without, asOther. rewrite Hu. split; reflexivity.
Qed.

Lemma intersect_and_without_ranges_witness :
  exists i w,
    intersect hexDigits (OfRanges [mkRange 60 70; mkRange 50 66]) = Ok i
    /\ without hexDigits (OfRanges [mkRange 60 70; mkRange 50 66]) = Ok w
    /\ NormalForm i /\ NormalForm w
    /\ forall c, has i c = has hexDigits c && inRanges c [mkRange 60 70; mkRange 50 66]
                 /\ has w c
                    = has hexDigits c && negb (inRanges c [mkRange 60 70; mkRange 50 66]).
Proof.
  apply (proj1 (intersect_and_without_ranges hexDigits [mkRange 60 70; mkRange 50 66]
                  hexDigits_normal)).
  repeat constructor; simpl; lia.
Defined.

(* ================================================================= *)
(** * [size], [equals] and [compare] *)

(** ** Counting code points *)

(** The [n] code points from [lo] on. *)
Fixpoint codePointsFrom (lo : Z) (n : nat) : list Z :=
  match n with
  | O => []
  | S n' => lo :: codePointsFrom (lo + 1) n'
  end.

(** The code points [0 .. maximum]. *)
Definition codePoints (maximum : Z) : list Z :=
  codePointsFrom 0 (Z.to_nat (maximum + 1)).

Fixpoint sumSizes (rs : list CharRange) : Z :=
  match rs with
  | [] => 0
  | r :: rs' => (max r - min r + 1) + sumSizes rs'
  end.

Lemma size_fold (rs : list CharRange) : forall acc,
  fold_left (fun size r => size + (max r - min r + 1)) rs acc = acc + sumSizes rs.
Proof.
  induction rs as [|r rs IH]; intros acc; simpl; [lia|]. rewrite IH. lia.
Qed.

Lemma size_sumSizes (s : CharSet) : size s = sumSizes (ranges s).
Proof. unfold size. rewrite size_fold. lia. Qed.

Lemma codePointsFrom_length (n : nat) : forall lo, length (codePointsFrom lo n) = n.
Proof. induction n as [|n IH]; intros lo; simpl; [reflexivity | rewrite IH; reflexivity]. Qed.

Lemma codePointsFrom_In (n : nat) : forall lo c,
  In c (codePointsFrom lo n) <-> lo <= c < lo + Z.of_nat n.
Proof.
  induction n as [|n IH]; intros lo c.
  - simpl. lia.
  - cbn [codePointsFrom In]. rewrite IH. lia.
Qed.

Lemma codePointsFrom_app (n1 : nat) : forall lo n2,
  codePointsFrom lo (n1 + n2)
  = codePointsFrom lo n1 ++ codePointsFrom (lo + Z.of_nat n1) n2.
Proof.
  induction n1 as [|n1 IH]; intros lo n2.
  - simpl. rewrite Z.add_0_r. reflexivity.
  - cbn [Nat.add codePointsFrom app]. rewrite IH. f_equal. f_equal. f_equal. lia.
Qed.

Lemma filter_same_length {A : Type} (f g : A -> bool) (l : list A) :
  (forall x, In x l -> f x = g x) -> length (filter f l) = length (filter g l).
Proof. intros H. rewrite (filter_ext_in f g l H). reflexivity. Qed.

Lemma filter_none_length {A : Type} (f : A -> bool) (l : list A) :
  (forall x, In x l -> f x = false) -> length (filter f l) = 0%nat.
Proof.
  induction l as [|x l IH]; intros H; simpl; [reflexivity|].
  rewrite (H x (or_introl eq_refl)). apply IH. intros y Hy. apply H. right. exact Hy.
Qed.

Lemma filter_all_length {A : Type} (f : A -> bool) (l : list A) :
  (forall x, In x l -> f x = true) -> length (filter f l) = length l.
Proof.
  induction l as [|x l IH]; intros H; simpl; [reflexivity|].
  rewrite (H x (or_introl eq_refl)). simpl. f_equal. apply IH.
  intros y Hy. apply H. right. exact Hy.
Qed.

Lemma filter_negb_length {A : Type} (f : A -> bool) (l : list A) :
  (length (filter f l) + length (filter (fun x => negb (f x)) l) = length l)%nat.
Proof.
  induction l as [|x l IH]; simpl; [reflexivity|].
  destruct (f x); simpl; lia.
Qed.

(** The sum of the lengths of the ranges of a normal form is the number of
    code points the ranges hold. *)
Lemma sumSizes_counts (rs : list CharRange) : forall lo m,
  normalFrom lo m rs -> lo <= m + 1 ->
  sumSizes rs
  = Z.of_nat (length (filter (fun c => inRanges c rs)
                        (codePointsFrom lo (Z.to_nat (m + 1 - lo))))).
Proof.
  induction rs as [|r rs IH]; intros lo m Hn Hlo.
  - rewrite filter_none_length; [reflexivity | intros c _; reflexivity].
  - pose proof (fun c => normalFrom_tail_lower r rs lo m c Hn) as Htail.
    destruct Hn as (N1 & N2 & N3 & N4).
    replace (Z.to_nat (m + 1 - lo))
      with (Z.to_nat (min r - lo) + (Z.to_nat (max r - min r + 1) + Z.to_nat (m - max r)))%nat
      by lia.
    rewrite !codePointsFrom_app, !filter_app, !length_app.
    rewrite filter_none_length, filter_all_length, codePointsFrom_length.
    + rewrite (filter_same_length _ (fun c => inRanges c rs)).
      * cbn [sumSizes].
        rewrite (IH (max r + 1) m (normalFrom_weaken (max r + 1) (max r + 2) m rs ltac:(lia) N4)
                   ltac:(lia)).
        replace (m + 1 - (max r + 1)) with (m - max r) by lia.
        replace (lo + Z.of_nat (Z.to_nat (min r - lo))
                 + Z.of_nat (Z.to_nat (max r - min r + 1))) with (max r + 1) by lia.
        lia.
      * intros c Hc. apply codePointsFrom_In in Hc. simpl.
        assert (E : (c <=? max r) = false) by (apply Z.leb_gt; lia).
        rewrite E, andb_false_r. reflexivity.
    + intros c Hc. apply codePointsFrom_In in Hc. simpl.
      assert (E1 : (min r <=? c) = true) by (apply Z.leb_le; lia).
      assert (E2 : (c <=? max r) = true) by (apply Z.leb_le; lia).
      rewrite E1, E2. reflexivity.
    + intros c Hc. apply codePointsFrom_In in Hc. simpl.
      assert (E1 : (min r <=? c) = false) by (apply Z.leb_gt; lia).
      rewrite E1. simpl. apply not_true_is_false. intros H.
      apply inRanges_spec in H. pose proof (Htail c H). lia.
Qed.

Lemma sumSizes_nonneg (rs : list CharRange) : forall lo m,
  normalFrom lo m rs -> 0 <= sumSizes rs.
Proof.
  induction rs as [|r rs IH]; intros lo m Hn; simpl; [lia|].
  destruct Hn as (N1 & N2 & N3 & N4). pose proof (IH _ _ N4). lia.
Qed.

Lemma size_count (s : CharSet) :
  NormalForm s ->
  size s = Z.of_nat (length (filter (has s) (codePoints (maximum s)))).
Proof.
  intros Hs. pose proof (NormalForm_ranges s Hs) as Hn.
  pose proof (NormalForm_maximum s Hs) as H0.
  rewrite size_sumSizes, (sumSizes_counts (ranges s) 0 (maximum s) Hn ltac:(lia)).
  unfold codePoints. rewrite Z.sub_0_r. f_equal. apply filter_same_length.
  intros c _. symmetry. apply (has_inRanges s c Hs).
Qed.

Lemma negate_normal (s : CharSet) : NormalForm s -> NormalForm (negate s).
Proof.
  intros Hs. apply (proj2 (NormalForm_normalFrom _)). simpl.
  split; [exact (NormalForm_maximum s Hs)|].
  apply negateRanges_normal; [exact (NormalForm_maximum s Hs) | exact (NormalForm_ranges s Hs)].
Qed.

Lemma size_negate (s : CharSet) :
  NormalForm s -> size (negate s) = maximum s + 1 - size s.
Proof.
  intros Hs. pose proof (NormalForm_ranges s Hs) as Hn.
  pose proof (NormalForm_maximum s Hs) as H0.
  pose proof (negate_normal s Hs) as Hneg.
  rewrite (size_count s Hs), (size_count (negate s) Hneg).
  change (maximum (negate s)) with (maximum s).
  pose proof (filter_negb_length (has s) (codePoints (maximum s))) as Hsum.
  rewrite (filter_same_length (has (negate s)) (fun c => negb (has s c))).
  - unfold codePoints in *. rewrite codePointsFrom_length in Hsum. lia.
  - intros c Hc. apply codePointsFrom_In in Hc.
    rewrite (has_inRanges (negate s) c Hneg), (has_inRanges s c Hs).
    cbn [negate ranges]. rewrite (inRanges_negate c _ _ H0 Hn).
    assert (E1 : (0 <=? c) = true) by (apply Z.leb_le; lia).
    assert (E2 : (c <=? maximum s) = true) by (apply Z.leb_le; lia).
    rewrite E1, E2. reflexivity.
Qed.

Lemma size_zero (s : CharSet) :
  NormalForm s -> (size s = 0 <-> isEmpty s = true).
Proof.
  intros Hs. pose proof (NormalForm_ranges s Hs) as Hn.
  rewrite size_sumSizes. unfold isEmpty. destruct (ranges s) as [|r rs]; simpl.
  - tauto.
  - destruct Hn as (N1 & N2 & N3 & N4). pose proof (sumSizes_nonneg rs _ _ N4).
    split; [lia | discriminate].
Qed.

(** X9: [size] is the number of code points in [0 .. maximum] that the set
    has.  It lies between [0] and [maximum + 1], is [0] exactly for the empty
    set and [maximum + 1] exactly for the set of all characters, and the
    sizes of a set and of its complement add up to [maximum + 1]. *)
Theorem size_counts_characters (s : CharSet) :
  NormalForm s ->
  size s = Z.of_nat (length (filter (has s) (codePoints (maximum s))))
  /\ 0 <= size s <= maximum s + 1
  /\ (size s = 0 <-> isEmpty s = true)
  /\ (size s = maximum s + 1 <-> isAll s = true)
  /\ size (negate s) = maximum s + 1 - size s.
Proof.
  intros Hs. pose proof (NormalForm_maximum s Hs) as H0.
  pose proof (size_count s Hs) as Hc.
  pose proof (size_negate s Hs) as Hneg.
  split; [exact Hc|]. split; [|split; [exact (size_zero s Hs) | split; [|exact Hneg]]].
  - rewrite Hc. pose proof (filter_length_le (has s) (codePoints (maximum s))) as Hle.
    unfold codePoints in *. rewrite codePointsFrom_length in Hle. lia.
  - rewrite <- (isEmpty_negate s Hs), <- (size_zero (negate s) (negate_normal s Hs)). lia.
Qed.

Lemma size_counts_characters_witness :
  size hexDigits = Z.of_nat (length (filter (has hexDigits) (codePoints 127)))
  /\ size (negate hexDigits) = 127 + 1 - size hexDigits.
Proof.
  destruct (size_counts_characters hexDigits hexDigits_normal) as (H1 & _ & _ & _ & H5).
  split; [exact H1 | exact H5].
Defined.

(** X10: two sets in normal form are [equals] exactly when they have the
    same [maximum] and the same characters. *)
Theorem equals_is_extensional (a b : CharSet) :
  NormalForm a -> NormalForm b ->
  (equals a b = true <-> maximum a = maximum b /\ forall c, has a c = has b c).
Proof.
  intros Ha Hb. rewrite equals_spec. split.
  - intros ->. split; reflexivity.
  - intros [Em Hc]. pose proof (NormalForm_ranges a Ha) as Hna.
    pose proof (NormalForm_ranges b Hb) as Hnb. rewrite <- Em in Hnb.
    assert (Er : ranges a = ranges b).
    { apply (same_characters_same_ranges _ _ (maximum a) Hna Hnb).
      intros c. rewrite <- (has_inRanges a c Ha), <- (has_inRanges b c Hb). apply Hc. }
    destruct a, b. simpl in *. congruence.
Qed.

Lemma equals_is_extensional_witness :
  equals hexDigits digits = true
  <-> maximum hexDigits = maximum digits /\ forall c, has hexDigits c = has digits c.
Proof. apply (equals_is_extensional hexDigits digits hexDigits_normal digits_normal). Defined.

(** ** [compare] is an order *)

Lemma compareLoop_opp (a : list CharRange) : forall b,
  compareLoop b a = - compareLoop a b.
Proof.
  induction a as [|t a IH]; intros [|o b]; simpl; try reflexivity.
  destruct (min t =? min o) eqn:E1; zcmp.
  - rewrite E1, Z.eqb_refl. simpl.
    destruct (max t =? max o) eqn:E2; zcmp.
    + rewrite E2, Z.eqb_refl. simpl. apply IH.
    + assert (E : (max o =? max t) = false) by (apply Z.eqb_neq; lia).
      rewrite E. simpl. lia.
  - assert (E : (min o =? min t) = false) by (apply Z.eqb_neq; lia).
    rewrite E. simpl. lia.
Qed.

Lemma compareLoop_zero (a : list CharRange) : forall b,
  length a = length b -> (compareLoop a b = 0 <-> a = b).
Proof.
  induction a as [|t a IH]; intros [|o b] Hlen; simpl in *; try discriminate.
  - tauto.
  - injection Hlen as Hlen.
    destruct (min t =? min o) eqn:E1; simpl; zcmp.
    + destruct (max t =? max o) eqn:E2; simpl; zcmp.
      * rewrite (IH b Hlen), (CharRange_eq t o E1 E2).
        split; [intros -> | intros H; injection H as ->]; reflexivity.
      * split; [lia | intros H; injection H as -> _; congruence].
    + split; [lia | intros H; injection H as -> _; congruence].
Qed.

Lemma compareLoop_trans (a : list CharRange) : forall b c,
  length a = length b -> length b = length c ->
  compareLoop a b <= 0 -> compareLoop b c <= 0 -> compareLoop a c <= 0.
Proof.
  induction a as [|x a IH]; intros [|y b] [|z c] Hab Hbc; simpl in *;
    try discriminate; try lia.
  injection Hab as Hab. injection Hbc as Hbc.
  destruct (min x =? min y) eqn:E1, (min y =? min z) eqn:E2, (min x =? min z) eqn:E3;
    simpl; zcmp; try lia;
    destruct (max x =? max y) eqn:E4, (max y =? max z) eqn:E5, (max x =? max z) eqn:E6;
    simpl; zcmp; try lia.
  apply IH; assumption.
Qed.

(** The part of [compare] after the test of [maximum]. *)
Definition compareRanges (thisR otherR : list CharRange) : Z :=
  match thisR, otherR with
  | [], [] => 0
  | [], _ :: _ => -1
  | _ :: _, [] => 1
  | t :: _, o :: _ =>
      if negb (min t =? min o) then min t - min o
      else if negb (length thisR =? length otherR)%nat
      then Z.of_nat (length thisR) - Z.of_nat (length otherR)
      else compareLoop thisR otherR
  end.

Lemma compare_compareRanges (a b : CharSet) :
  compare a b
  = if negb (maximum a =? maximum b) then maximum a - maximum b
    else compareRanges (ranges a) (ranges b).
Proof. reflexivity. Qed.

Lemma compareRanges_opp (a b : list CharRange) :
  compareRanges b a = - compareRanges a b.
Proof.
  destruct a as [|t a], b as [|o b]; try reflexivity. unfold compareRanges.
  destruct (min t =? min o) eqn:E1; zcmp.
  - rewrite E1, Z.eqb_refl. cbn [negb].
    rewrite (Nat.eqb_sym (length (o :: b)) (length (t :: a))).
    destruct (length (t :: a) =? length (o :: b))%nat; cbn [negb];
      [apply compareLoop_opp | lia].
  - assert (E : (min o =? min t) = false) by (apply Z.eqb_neq; lia).
    rewrite E. cbn [negb]. lia.
Qed.

Lemma compareRanges_zero (a b : list CharRange) :
  compareRanges a b = 0 <-> a = b.
Proof.
  destruct a as [|t a], b as [|o b]; unfold compareRanges;
    try (split; [lia | discriminate]); [tauto|].
  destruct (min t =? min o) eqn:E1; cbn [negb]; zcmp.
  - destruct (length (t :: a) =? length (o :: b))%nat eqn:E2; cbn [negb].
    + apply Nat.eqb_eq in E2. apply (compareLoop_zero (t :: a) (o :: b) E2).
    + apply Nat.eqb_neq in E2. split; [lia|]. intros H. rewrite H in E2. congruence.
  - split; [lia|]. intros H. injection H as -> _. congruence.
Qed.

Lemma compareRanges_trans (a b c : list CharRange) :
  compareRanges a b <= 0 -> compareRanges b c <= 0 -> compareRanges a c <= 0.
Proof.
  destruct a as [|x a], b as [|y b], c as [|z c]; unfold compareRanges; try lia.
  destruct (min x =? min y) eqn:E1, (min y =? min z) eqn:E2, (min x =? min z) eqn:E3;
    cbn [negb]; zcmp; try lia.
  destruct (Nat.eqb_spec (length (x :: a)) (length (y :: b))) as [L1 | L1],
           (Nat.eqb_spec (length (y :: b)) (length (z :: c))) as [L2 | L2],
           (Nat.eqb_spec (length (x :: a)) (length (z :: c))) as [L3 | L3];
    cbn [negb]; try lia.
  apply compareLoop_trans; assumption.
Qed.

(** The least character of a set. *)
Definition Least (s : CharSet) (c : Z) : Prop :=
  has s c = true /\ forall c', has s c' = true -> c <= c'.

Lemma Least_first (s : CharSet) (c : Z) :
  NormalForm s -> Least s c ->
  exists first rest, ranges s = first :: rest /\ c = min first.
Proof.
  intros Hs [Hc Hleast]. pose proof (NormalForm_ranges s Hs) as Hn.
  assert (Hhas : forall c, has s c = true <-> InRanges c (ranges s))
    by (intros c'; apply (has_InRanges s c' 0 Hn)).
  destruct (ranges s) as [|first rest].
  - apply Hhas in Hc. destruct (InRanges_nil c Hc).
  - exists first, rest. split; [reflexivity|].
    pose proof (normalFrom_nth (first :: rest) 0 _ 0 first Hn eq_refl) as Hf.
    assert (H1 : c <= min first).
    { apply Hleast, Hhas. exists first. split; [left; reflexivity | unfold InRange; lia]. }
    apply Hhas in Hc. destruct Hc as (ri & Hri & Hc).
    destruct (In_nth_error _ _ Hri) as [i Hi].
    destruct (normalFrom_ends rest first 0 _ i ri Hn Hi) as [H2 _].
    unfold InRange in Hc. lia.
Qed.

Lemma first_is_Least (s : CharSet) (first : CharRange) (rest : list CharRange) :
  NormalForm s -> ranges s = first :: rest -> Least s (min first).
Proof.
  intros Hs Er. pose proof (NormalForm_ranges s Hs) as Hn.
  assert (Hhas : forall c, has s c = true <-> InRanges c (ranges s))
    by (intros c'; apply (has_InRanges s c' 0 Hn)).
  rewrite Er in Hn, Hhas.
  pose proof (normalFrom_nth (first :: rest) 0 _ 0 first Hn eq_refl) as Hf.
  split.
  - apply Hhas. exists first. split; [left; reflexivity | unfold InRange; lia].
  - intros c Hc. apply Hhas in Hc. destruct Hc as (ri & Hri & Hc).
    destruct (In_nth_error _ _ Hri) as [i Hi].
    destruct (normalFrom_ends rest first 0 _ i ri Hn Hi) as [H2 _].
    unfold InRange in Hc. lia.
Qed.

(** X11: [compare] is a total order that agrees with [equals]: it returns
    [0] exactly for sets that are [equals], swapping the operands negates the
    result, and it is transitive.  Of two sets in normal form with the same
    [maximum] the one with the smaller least character comes first. *)
Theorem compare_is_total_order (a b : CharSet) :
  (compare a b = 0 <-> equals a b = true)
  /\ compare b a = - compare a b
  /\ (forall c, compare a b <= 0 -> compare b c <= 0 -> compare a c <= 0)
  /\ (NormalForm a -> NormalForm b -> maximum a = maximum b ->
      forall ca cb, Least a ca -> Least b cb -> ca < cb -> compare a b < 0).
Proof.
  split; [|split; [|split]].
  - rewrite equals_spec, compare_compareRanges.
    destruct (maximum a =? maximum b) eqn:E; cbn [negb]; zcmp.
    + rewrite compareRanges_zero. destruct a, b; simpl in *.
      split; [intros ->; congruence | intros H; injection H as _ ->; reflexivity].
    + split; [lia | intros ->; congruence].
  - rewrite !compare_compareRanges.
    destruct (maximum a =? maximum b) eqn:E; zcmp.
    + rewrite E, Z.eqb_refl. cbn [negb]. apply compareRanges_opp.
    + assert (E' : (maximum b =? maximum a) = false) by (apply Z.eqb_neq; lia).
      rewrite E'. cbn [negb]. lia.
  - intros c. rewrite !compare_compareRanges.
    destruct (maximum a =? maximum b) eqn:E1, (maximum b =? maximum c) eqn:E2,
             (maximum a =? maximum c) eqn:E3; cbn [negb]; zcmp; try lia.
    apply compareRanges_trans.
  - intros Ha Hb Em ca cb Hca Hcb Hlt.
    destruct (Least_first a ca Ha Hca) as (fa & resta & Ea & ->).
    destruct (Least_first b cb Hb Hcb) as (fb & restb & Eb & ->).
    rewrite compare_compareRanges, Em, Z.eqb_refl, Ea, Eb. cbn [negb compareRanges].
    assert (E : (min fa =? min fb) = false) by (apply Z.eqb_neq; lia).
    rewrite E. cbn [negb]. lia.
Qed.

Lemma compare_is_total_order_witness :
  (compare digits hexDigits = 0 <-> equals digits hexDigits = true)
  /\ (compare digits hexDigits <= 0 -> compare hexDigits (all 127) <= 0 ->
      compare digits (all 127) <= 0)
  /\ compare (negate digits) digits < 0.
Proof.
  destruct (compare_is_total_order digits hexDigits) as (H1 & _ & H3 & _).
  split; [exact H1|]. split; [exact (H3 (all 127))|].
  apply (proj2 (proj2 (proj2 (compare_is_total_order (negate digits) digits)))
           (negate_normal digits digits_normal) digits_normal eq_refl 0 48).
  - apply (first_is_Least (negate digits) (mkRange 0 47) [mkRange 58 127]);
      [exact (negate_normal digits digits_normal) | reflexivity].
  - apply (first_is_Least digits (mkRange 48 57) []); [exact digits_normal | reflexivity].
  - lia.
Defined.

(* ================================================================= *)
(** * How the operations of [CharSet] compose *)

Lemma mk_normal (m : Z) (rs : list CharRange) :
  0 <= m -> normalFrom 0 m rs -> NormalForm (mkCharSet m rs).
Proof. intros H0 Hn. apply (proj2 (NormalForm_normalFrom _)). split; assumption. Qed.

(** X12: two sets in normal form with the same [maximum] are disjoint for
    [isDisjointWith] exactly when their [intersect] is empty. *)
Theorem disjoint_iff_intersection_empty (a b : CharSet) :
  NormalForm a -> NormalForm b -> maximum a = maximum b ->
  exists i, intersect a (OfSet b) = Ok i /\ isDisjointWith a (ASet b) = isEmpty i.
Proof.
  intros Ha Hb Em. pose proof (NormalForm_ranges a Ha) as Hna.
  pose proof (NormalForm_ranges b Hb) as Hnb. rewrite <- Em in Hnb. symmetry in Em.
  exists (mkCharSet (maximum a) (intersectRanges (ranges a) (ranges b))).
  split; [apply (intersect_set a b Em)|].
  unfold isDisjointWith, isEmpty. cbn [commonCharacter ranges].
  pose proof (commonCharacterSweep_spec (S (length (ranges a) + length (ranges b)))
                (ranges a) (ranges b) 0 0 (maximum a) (maximum a)
                (Nat.lt_succ_diag_r _) Hna Hnb) as H.
  pose proof (intersectRanges_normal _ _ _ Hna Hnb) as Hni.
  destruct (commonCharacterSweep _ (ranges a) (ranges b)) as [c|].
  - destruct H as (H1 & H2 & _).
    assert (Hc : InRanges c (intersectRanges (ranges a) (ranges b)))
      by (apply (intersectRanges_In c _ _ _ Hna Hnb); split; assumption).
    destruct (intersectRanges (ranges a) (ranges b)); [|reflexivity].
    destruct (InRanges_nil c Hc).
  - destruct (intersectRanges (ranges a) (ranges b)) as [|r rs] eqn:Ei; [reflexivity|].
    exfalso. destruct (normalFrom_nonempty (r :: rs) 0 _ Hni) as [c Hc]; [discriminate|].
    rewrite <- Ei in Hc. apply (intersectRanges_In c _ _ _ Hna Hnb) in Hc.
    exact (H c (proj1 Hc) (proj2 Hc)).
Qed.

Lemma disjoint_iff_intersection_empty_witness :
  exists i, intersect hexDigits (OfSet (negate digits)) = Ok i
            /\ isDisjointWith hexDigits (ASet (negate digits)) = isEmpty i.
Proof.
  apply (disjoint_iff_intersection_empty hexDigits (negate digits) hexDigits_normal
           (negate_normal digits digits_normal)).
  reflexivity.
Defined.

(** ** Laws *)

(** Equality of two range lists in normal form, from their characters. *)
Ltac by_characters m c :=
  apply (same_characters_same_ranges _ _ m);
  [ repeat first [ assumption
                 | apply unionRanges_normal | apply intersectRanges_normal
                 | apply withoutRanges_normal ]
  | repeat first [ assumption
                 | apply unionRanges_normal | apply intersectRanges_normal
                 | apply withoutRanges_normal ]
  | intros c ].

Section RangeLaws.
Variable m : Z.
Variables a b c : list CharRange.
Hypothesis Ha : normalFrom 0 m a.
Hypothesis Hb : normalFrom 0 m b.
Hypothesis Hc : normalFrom 0 m c.

Lemma unionRanges_comm : unionRanges a b = unionRanges b a.
Proof.
  by_characters m x.
  rewrite (inRanges_union x a b m Ha Hb), (inRanges_union x b a m Hb Ha). apply orb_comm.
Qed.

Lemma intersectRanges_comm : intersectRanges a b = intersectRanges b a.
Proof.
  by_characters m x.
  rewrite (inRanges_intersect x a b m Ha Hb), (inRanges_intersect x b a m Hb Ha).
  apply andb_comm.
Qed.

Lemma unionRanges_idem : unionRanges a a = a.
Proof. by_characters m x. rewrite (inRanges_union x a a m Ha Ha). apply orb_diag. Qed.

Lemma intersectRanges_idem : intersectRanges a a = a.
Proof. by_characters m x. rewrite (inRanges_intersect x a a m Ha Ha). apply andb_diag. Qed.

Lemma intersectRanges_all : 0 <= m -> intersectRanges a [mkRange 0 m] = a.
Proof.
  intros H0. assert (Hall : normalFrom 0 m [mkRange 0 m]) by (simpl; lia).
  by_characters m x. rewrite (inRanges_intersect x _ _ m Ha Hall). simpl.
  destruct (inRanges x a) eqn:Ex; [|reflexivity].
  apply inRanges_spec in Ex. pose proof (InRanges_bounds _ 0 m x Ha Ex) as [C1 C2].
  apply Z.leb_le in C1, C2. rewrite C1, C2. reflexivity.
Qed.

Lemma withoutRanges_self : withoutRanges a a = [].
Proof.
  assert (Hnil : normalFrom 0 m []) by exact I.
  by_characters m x. rewrite (inRanges_without x _ _ m Ha Ha).
  destruct (inRanges x a); reflexivity.
Qed.

Lemma unionRanges_assoc :
  unionRanges (unionRanges a b) c = unionRanges a (unionRanges b c).
Proof.
  pose proof (unionRanges_normal _ _ _ Ha Hb) as Hab.
  pose proof (unionRanges_normal _ _ _ Hb Hc) as Hbc.
  by_characters m x.
  rewrite (inRanges_union x _ _ m Hab Hc), (inRanges_union x _ _ m Ha Hbc),
    (inRanges_union x _ _ m Ha Hb), (inRanges_union x _ _ m Hb Hc).
  symmetry. apply orb_assoc.
Qed.

Lemma intersectRanges_assoc :
  intersectRanges (intersectRanges a b) c = intersectRanges a (intersectRanges b c).
Proof.
  pose proof (intersectRanges_normal _ _ _ Ha Hb) as Hab.
  pose proof (intersectRanges_normal _ _ _ Hb Hc) as Hbc.
  by_characters m x.
  rewrite (inRanges_intersect x _ _ m Hab Hc), (inRanges_intersect x _ _ m Ha Hbc),
    (inRanges_intersect x _ _ m Ha Hb), (inRanges_intersect x _ _ m Hb Hc).
  symmetry. apply andb_assoc.
Qed.

End RangeLaws.

Lemma union_mismatch (a b : CharSet) :
  maximum b <> maximum a -> union a [OfSet b] = Err DomainMismatch.
Proof.
  intros Em. unfold union, checkCompatibility.
  assert (E : (maximum b =? maximum a) = false) by (apply Z.eqb_neq; exact Em).
  rewrite E. reflexivity.
Qed.

Lemma intersect_mismatch (a b : CharSet) :
  maximum b <> maximum a -> intersect a (OfSet b) = Err DomainMismatch.
Proof.
  intros Em. unfold intersect, asOther, checkCompatibility.
  assert (E : (maximum b =? maximum a) = false) by (apply Z.eqb_neq; exact Em).
  rewrite E. reflexivity.
Qed.

(** X13: on sets in normal form [union] and [intersect] are commutative
    (with the same error when the [maximum] differs), idempotent and
    associative; the empty set is neutral for [union], the set of all
    characters for [intersect], and a set [without] itself is empty. *)
Theorem union_and_intersect_laws (a b : CharSet) :
  NormalForm a -> NormalForm b ->
  union a [OfSet b] = union b [OfSet a]
  /\ intersect a (OfSet b) = intersect b (OfSet a)
  /\ union a [OfSet a] = Ok a
  /\ intersect a (OfSet a) = Ok a
  /\ union a [OfSet (empty (maximum a))] = Ok a
  /\ intersect a (OfSet (all (maximum a))) = Ok a
  /\ without a (OfSet a) = Ok (empty (maximum a))
  /\ (forall c ab bc, NormalForm c ->
        union a [OfSet b] = Ok ab -> union b [OfSet c] = Ok bc ->
        union ab [OfSet c] = union a [OfSet bc])
  /\ (forall c ab bc, NormalForm c ->
        intersect a (OfSet b) = Ok ab -> intersect b (OfSet c) = Ok bc ->
        intersect ab (OfSet c) = intersect a (OfSet bc)).
Proof.
  intros Ha Hb. pose proof (NormalForm_ranges a Ha) as Hna.
  pose proof (NormalForm_ranges b Hb) as Hnb.
  pose proof (NormalForm_maximum a Ha) as H0.
  assert (Hmk : mkCharSet (maximum a) (ranges a) = a) by (destruct a; reflexivity).
  split; [|split].
  - destruct (Z.eq_dec (maximum b) (maximum a)) as [Em | Em].
    + rewrite (union_set a b 0 Hna Em), (union_set b a 0 Hnb (eq_sym Em)), Em.
      rewrite Em in Hnb. rewrite (unionRanges_comm _ _ _ Hna Hnb). reflexivity.
    + rewrite (union_mismatch a b Em), (union_mismatch b a); [reflexivity | congruence].
  - destruct (Z.eq_dec (maximum b) (maximum a)) as [Em | Em].
    + rewrite (intersect_set a b Em), (intersect_set b a (eq_sym Em)), Em.
      rewrite Em in Hnb. rewrite (intersectRanges_comm _ _ _ Hna Hnb). reflexivity.
    + rewrite (intersect_mismatch a b Em), (intersect_mismatch b a);
        [reflexivity | congruence].
  - split; [rewrite (union_set a a 0 Hna eq_refl), (unionRanges_idem _ _ Hna), Hmk;
            reflexivity|].
    split; [rewrite (intersect_set a a eq_refl), (intersectRanges_idem _ _ Hna), Hmk;
            reflexivity|].
    split; [rewrite (union_set a (empty (maximum a)) 0 Hna eq_refl); cbn [empty ranges];
            rewrite (unionRanges_nil_r _ 0 _ Hna), Hmk; reflexivity|].
    split; [rewrite (intersect_set a (all (maximum a)) eq_refl); cbn [all ranges];
            rewrite (intersectRanges_all _ _ Hna H0), Hmk; reflexivity|].
    split; [rewrite (without_set a a eq_refl), (withoutRanges_self _ _ Hna); reflexivity|].
    split.
    + intros c ab bc Hc Hab Hbc. pose proof (NormalForm_ranges c Hc) as Hnc.
      destruct (Z.eq_dec (maximum b) (maximum a)) as [Em | Em];
        [| rewrite (union_mismatch a b Em) in Hab; discriminate].
      destruct (Z.eq_dec (maximum c) (maximum b)) as [Ec | Ec];
        [| rewrite (union_mismatch b c Ec) in Hbc; discriminate].
      rewrite (union_set a b 0 Hna Em) in Hab. injection Hab as <-.
      rewrite (union_set b c 0 Hnb Ec) in Hbc. injection Hbc as <-.
      rewrite Em in Hnb. rewrite Ec, Em in Hnc.
      pose proof (unionRanges_normal _ _ _ Hna Hnb) as Hnab.
      rewrite (union_set (mkCharSet _ _) c 0 Hnab (eq_trans Ec Em)).
      rewrite (union_set a (mkCharSet _ _) 0 Hna Em). cbn [maximum ranges].
      rewrite (unionRanges_assoc _ _ _ _ Hna Hnb Hnc). reflexivity.
    + intros c ab bc Hc Hab Hbc. pose proof (NormalForm_ranges c Hc) as Hnc.
      destruct (Z.eq_dec (maximum b) (maximum a)) as [Em | Em];
        [| rewrite (intersect_mismatch a b Em) in Hab; discriminate].
      destruct (Z.eq_dec (maximum c) (maximum b)) as [Ec | Ec];
        [| rewrite (intersect_mismatch b c Ec) in Hbc; discriminate].
      rewrite (intersect_set a b Em) in Hab. injection Hab as <-.
      rewrite (intersect_set b c Ec) in Hbc. injection Hbc as <-.
      rewrite Em in Hnb. rewrite Ec, Em in Hnc.
      rewrite (intersect_set (mkCharSet _ _) c (eq_trans Ec Em)).
      rewrite (intersect_set a (mkCharSet _ _) Em). cbn [maximum ranges].
      rewrite (intersectRanges_assoc _ _ _ _ Hna Hnb Hnc). reflexivity.
Qed.

Lemma union_and_intersect_laws_witness :
  union hexDigits [OfSet digits] = union digits [OfSet hexDigits]
  /\ intersect hexDigits (OfSet digits) = intersect digits (OfSet hexDigits)
  /\ (forall ab bc,
        union hexDigits [OfSet digits] = Ok ab ->
        union digits [OfSet (negate hexDigits)] = Ok bc ->
        union ab [OfSet (negate hexDigits)] = union hexDigits [OfSet bc]).
Proof.
  destruct (union_and_intersect_laws hexDigits digits hexDigits_normal digits_normal)
    as (H1 & H2 & _ & _ & _ & _ & _ & H8 & _).
  split; [exact H1|]. split; [exact H2|].
  intros ab bc. apply (H8 (negate hexDigits)). exact (negate_normal _ hexDigits_normal).
Defined.

(** X14: the two paths of [union] agree.  For sets in normal form with the
    same [maximum], passing the ranges of a set as an iterable (every range
    checked, the list sorted and merged again) returns the same set as
    passing the set (one merge of two sorted lists), and a call with two sets
    returns the same set as two calls with one set each. *)
Theorem union_paths_agree (a b c : CharSet) :
  NormalForm a -> NormalForm b -> NormalForm c ->
  maximum b = maximum a -> maximum c = maximum a ->
  union a [OfRanges (ranges b)] = union a [OfSet b]
  /\ union a [OfSet b; OfSet c]
     = rbind (union a [OfSet b]) (fun ab => union ab [OfSet c]).
Proof.
  intros Ha Hb Hc Emb Emc. pose proof (NormalForm_ranges a Ha) as Hna.
  pose proof (NormalForm_ranges b Hb) as Hnb. pose proof (NormalForm_ranges c Hc) as Hnc.
  rewrite Emb in Hnb. rewrite Emc in Hnc.
  pose proof (unionRanges_normal _ _ _ Hna Hnb) as Hnab.
  split.
  - destruct (union_accepts a [OfRanges (ranges b)] Ha) as (rs & Hu & Hn & Hchars).
    { constructor; [|constructor]. simpl.
      apply (normalFrom_Forall_valid _ 0 _ (Z.le_refl 0) Hnb). }
    rewrite Hu, (union_set a b 0 Hna Emb). f_equal. f_equal.
    by_characters (maximum a) x. rewrite (Hchars x), (inRanges_union x _ _ _ Hna Hnb).
    simpl. rewrite orb_false_r. reflexivity.
  - destruct (union_accepts a [OfSet b; OfSet c] Ha) as (rs & Hu & Hn & Hchars).
    { constructor; [|constructor; [|constructor]]; split; assumption. }
    rewrite Hu, (union_set a b 0 Hna Emb). cbn [rbind].
    rewrite (union_set (mkCharSet _ _) c 0 Hnab Emc). cbn [maximum ranges].
    f_equal. f_equal. by_characters (maximum a) x.
    rewrite (Hchars x), (inRanges_union x _ _ _ Hnab Hnc), (inRanges_union x _ _ _ Hna Hnb).
    simpl. rewrite orb_false_r, orb_assoc. reflexivity.
Qed.

Lemma union_paths_agree_witness :
  union hexDigits [OfRanges (ranges digits)] = union hexDigits [OfSet digits]
  /\ union hexDigits [OfSet digits; OfSet (negate hexDigits)]
     = rbind (union hexDigits [OfSet digits]) (fun ab => union ab [OfSet (negate hexDigits)]).
Proof.
  apply (union_paths_agree hexDigits digits (negate hexDigits) hexDigits_normal
           digits_normal (negate_normal _ hexDigits_normal)); reflexivity.
Defined.

(* ================================================================= *)
(** * The helpers of the simplifier *)

(** ** [structurallyEqual] *)

Lemma equals_refl (s : CharSet) : equals s s = true.
Proof. apply equals_spec. reflexivity. Qed.

Lemma boundEqb_refl (b : Bound) : boundEqb b b = true.
Proof. destruct b; simpl; [apply Nat.eqb_refl | reflexivity]. Qed.

Lemma assertionKindEqb_refl (k : AssertionKind) : assertionKindEqb k k = true.
Proof. destruct k; reflexivity. Qed.

Lemma alternatives_refl (alts : list (list Element)) :
  Forall (Forall (fun e => structurallyEqual e e = true)) alts ->
  allEqual (allEqual structurallyEqual) alts alts = true.
Proof.
  intros H. apply allEqual_refl. apply Forall_forall. intros c Hc.
  apply allEqual_refl. rewrite Forall_forall in H. exact (H c Hc).
Qed.

Lemma structurallyEqual_refl (e : Element) : structurallyEqual e e = true.
Proof.
  induction e as [cs | alts IH | alts qmin qmax IH | k n alts IH]
    using Element_nested_ind; simpl.
  - apply equals_refl.
  - apply alternatives_refl, IH.
  - rewrite Nat.eqb_refl, boundEqb_refl. simpl. apply alternatives_refl, IH.
  - rewrite assertionKindEqb_refl, Bool.eqb_reflx. simpl. apply alternatives_refl, IH.
Qed.

Lemma structurallyEqualConcatenation_refl (c : Concatenation) :
  structurallyEqualConcatenation c c = true.
Proof.
  apply allEqual_refl. apply Forall_forall. intros e _. apply structurallyEqual_refl.
Qed.

(** X15: [structurallyEqual], [structurallyEqualConcatenation] and
    [structurallyEqualAlternatives] are [true] exactly for two trees that are
    the same node for node, with character classes compared by
    [CharSet.equals]. *)
Theorem structurallyEqual_decides_equality :
  (forall a b : Element, structurallyEqual a b = true <-> a = b)
  /\ (forall a b : Concatenation, structurallyEqualConcatenation a b = true <-> a = b)
  /\ (forall a b : list Concatenation, structurallyEqualAlternatives a b = true <-> a = b).
Proof.
  split; [|split].
  - intros a b. split; [apply structurallyEqual_eq|].
    intros ->. apply structurallyEqual_refl.
  - intros a b. split; [apply structurallyEqualConcatenation_eq|].
    intros ->. apply structurallyEqualConcatenation_refl.
  - intros a b. split; [apply structurallyEqualAlternatives_eq|].
    intros ->. apply allEqual_refl. apply Forall_forall. intros c _.
    apply structurallyEqualConcatenation_refl.
Qed.

(** ** [canMatchEmptyString] *)

Lemma langPow_of_nil (L : Lang) (n : nat) : (0 < n)%nat -> langPow L n [] -> L [].
Proof.
  destruct n as [|n]; [lia|]. intros _ (w1 & w2 & E & H1 & _).
  symmetry in E. apply app_eq_nil in E. destruct E as [-> _]. exact H1.
Qed.

Lemma canMatchEmptyStringConcat_complete (c : Concatenation) :
  Forall (fun e => langElement e [] -> canMatchEmptyString e = true) c ->
  langConcat c [] -> canMatchEmptyStringConcat c = true.
Proof.
  induction c as [|x c IH]; intros Hall H; [reflexivity|].
  inversion Hall as [|? ? Hx Hc]; subst.
  destruct H as (w1 & w2 & E & H1 & H2).
  symmetry in E. apply app_eq_nil in E. destruct E as [-> ->].
  unfold canMatchEmptyStringConcat. simpl. rewrite (Hx H1). apply (IH Hc H2).
Qed.

Lemma canMatchEmptyStringAlts_complete (a : list Concatenation) :
  Forall (Forall (fun e => langElement e [] -> canMatchEmptyString e = true)) a ->
  langAlts a [] -> existsb canMatchEmptyStringConcat a = true.
Proof.
  induction a as [|c a IH]; intros Hall H; [destruct H|].
  inversion Hall as [|? ? Hc Ha]; subst. simpl. apply orb_true_iff.
  destruct H as [H | H].
  - left. apply canMatchEmptyStringConcat_complete; assumption.
  - right. apply IH; assumption.
Qed.

Lemma canMatchEmptyString_complete (e : Element) :
  langElement e [] -> canMatchEmptyString e = true.
Proof.
  induction e as [cs | alts IH | alts qmin qmax IH | k n alts IH]
    using Element_nested_ind; intros H.
  - destruct H as (c & E & _). discriminate.
  - rewrite langElement_Alternation in H.
    apply (canMatchEmptyStringAlts_complete alts IH H).
  - rewrite langElement_Quantifier in H. destruct H as (n & Hn & _ & Hp).
    change (canMatchEmptyString (Quantifier alts qmin qmax))
      with ((qmin =? 0)%nat || existsb canMatchEmptyStringConcat alts).
    destruct qmin as [|qmin]; [reflexivity|]. simpl.
    apply (canMatchEmptyStringAlts_complete alts IH).
    apply (langPow_of_nil _ n); [lia | exact Hp].
  - destruct H.
Qed.

(** X16: [canMatchEmptyString] is [true] exactly when the node matches the
    empty word, for an element, a concatenation and an expression without
    assertions whose quantifiers have [min <= max]. *)
Theorem canMatchEmptyString_decides_empty_word :
  (forall e, wfElement e -> (canMatchEmptyString e = true <-> langElement e []))
  /\ (forall c, wfConcat c -> (canMatchEmptyStringConcat c = true <-> langConcat c []))
  /\ (forall E, wfExpr E -> (canMatchEmptyStringExpr E = true <-> langExpr E [])).
Proof.
  split; [|split].
  - intros e W. split; [apply canMatchEmptyString_sound, W|].
    apply canMatchEmptyString_complete.
  - intros c W. split; [apply canMatchEmptyStringConcat_sound', W|].
    apply canMatchEmptyStringConcat_complete. apply Forall_forall.
    intros e _. apply canMatchEmptyString_complete.
  - intros [alts] W. unfold canMatchEmptyStringExpr, langExpr. simpl.
    split; [apply canMatchEmptyStringAlts_sound', W|].
    apply canMatchEmptyStringAlts_complete. apply Forall_forall. intros c _.
    apply Forall_forall. intros e _. apply canMatchEmptyString_complete.
Qed.

Lemma canMatchEmptyString_decides_empty_word_witness :
  canMatchEmptyString (Quantifier [[CharacterClass digits]] 0 (Fin 1)) = true
  <-> langElement (Quantifier [[CharacterClass digits]] 0 (Fin 1)) [].
Proof.
  apply (proj1 canMatchEmptyString_decides_empty_word).
  apply wfElement_Quantifier. split; [simpl; lia|].
  apply wfAlts_single, wfConcat_single. exact digits_normal.
Defined.

(** ** The simplifier keeps the words *)

(** [n] passes of [optimize], one after the other. *)
Fixpoint optimizePasses (n : nat) (expr : Expression) : Expression :=
  match n with
  | O => expr
  | S n' => optimizePasses n' (fst (optimize expr))
  end.




(** ** The loop of [faToRegex] *)

Lemma optimizeLoop_passes (fuel : nat) : forall passes expr E,
  optimizeLoop fuel passes expr = Ok E ->
  exists k,
    E = optimizePasses k expr
    /\ match passes with
       | Some n => (k <= n)%nat /\ ((k < n)%nat -> optimize E = (E, false))
       | None => optimize E = (E, false)
       end.
Proof.
  induction fuel as [|fuel IH]; intros passes expr E H; [discriminate|].
  assert (Hstep : forall passes',
    (let '(expression', optimized) := optimize expr in
     if optimized then optimizeLoop fuel passes' expression' else Ok expression') = Ok E ->
    (optimize expr = (E, false) /\ E = expr)
    \/ exists k, E = optimizePasses (S k) expr
                 /\ match passes' with
                    | Some n => (k <= n)%nat /\ ((k < n)%nat -> optimize E = (E, false))
                    | None => optimize E = (E, false)
                    end).
  { intros passes' H'. destruct (optimize expr) as [e1 optimized] eqn:Eo.
    destruct optimized.
    - right. destruct (IH passes' e1 E H') as (k & -> & Hk). exists k.
      split; [simpl; rewrite Eo; reflexivity | exact Hk].
    - left. injection H' as <-. pose proof (optimize_unchanged _ _ Eo) as ->.
      split; reflexivity. }
  destruct passes as [[|p]|]; cbn [optimizeLoop option_map] in H.
  - injection H as <-. exists 0%nat. split; [reflexivity|]. split; lia.
  - destruct (Hstep _ H) as [[Hfix ->] | (k & -> & Hle & Hk)].
    + exists 0%nat. split; [reflexivity|]. split; [lia | intros _; exact Hfix].
    + exists (S k). split; [reflexivity|]. simpl in Hle.
      split; [lia | intros Hlt; apply Hk; lia].
  - destruct (Hstep _ H) as [[Hfix ->] | (k & -> & Hk)].
    + exists 0%nat. split; [reflexivity | exact Hfix].
    + exists (S k). split; [reflexivity | exact Hk].
Qed.

(** X18: the loop of [faToRegex] returns the expression after [k] passes of
    [optimize].  With [maximumOptimizationPasses = n] there are at most [n]
    passes, none for [n = 0], and with fewer than [n] passes, or no limit,
    the expression returned is one that [optimize] leaves unchanged. *)
Theorem faToRegex_stops_at_fixed_point (fuel : nat) (iter : FAIterator)
  (options : ToRegexOptions) (E : Expression) :
  faToRegex fuel iter options = Ok E ->
  exists E0 counter k,
    run (ceiling options) (stateElimination fuel iter) 0 = Ok (E0, counter)
    /\ E = optimizePasses k E0
    /\ match maximumOptimizationPasses options with
       | Some n => (k <= n)%nat /\ ((k < n)%nat -> optimize E = (E, false))
       | None => optimize E = (E, false)
       end.
Proof.
  intros H. unfold faToRegex, faToRegexCounting in H. fold (ceiling options) in H.
  destruct (run (ceiling options) (stateElimination fuel iter) 0) as [[E0 counter]|e];
    [|discriminate].
  cbn [rbind] in H.
  destruct (optimizeLoop fuel (maximumOptimizationPasses options) E0) as [E1|e] eqn:Eo;
    [|discriminate].
  cbn [rbind fst] in H. injection H as <-.
  destruct (optimizeLoop_passes fuel _ E0 E1 Eo) as (k & Hk & Hp).
  exists E0, counter, k. split; [reflexivity | split; assumption].
Qed.

Lemma faToRegex_stops_at_fixed_point_witness :
  exists E0 counter k,
    run (ceiling defaultOptions) (stateElimination 20 abOrAcFA) 0 = Ok (E0, counter)
    /\ mkExpression [[letter 97; Alternation [[letter 98]; [letter 99]]]]
       = optimizePasses k E0
    /\ optimize (mkExpression [[letter 97; Alternation [[letter 98]; [letter 99]]]])
       = (mkExpression [[letter 97; Alternation [[letter 98]; [letter 99]]]], false).
Proof.
  apply (faToRegex_stops_at_fixed_point 20 abOrAcFA defaultOptions).
  vm_compute. reflexivity.
Defined.

(* ================================================================= *)
(** * What a computation throws *)

(** The error a computation ends with, whatever the ceiling of the factory. *)
Fixpoint thrown {A : Type} (m : TC A) : option Error :=
  match m with
  | Ret _ => None
  | Tick k => thrown k
  | Throw e => Some e
  end.

Lemma thrown_outcome {A : Type} (m : TC A) :
  match outcome m with
  | Some _ => thrown m = None
  | None => exists e, thrown m = Some e
  end.
Proof.
  induction m as [a | k IH | e]; simpl.
  - reflexivity.
  - destruct (outcome k) as [[a n]|]; exact IH.
  - exists e. reflexivity.
Qed.

Lemma returns_not_thrown {A : Type} (m : TC A) (a : A) :
  returns m a -> thrown m = None.
Proof.
  intros (n & H). pose proof (thrown_outcome m) as Ht. rewrite H in Ht. exact Ht.
Qed.

Lemma not_thrown_returns {A : Type} (m : TC A) :
  thrown m = None -> exists a, returns m a.
Proof.
  intros H. pose proof (thrown_outcome m) as Ht.
  destruct (outcome m) as [[a n]|] eqn:E.
  - exists a, n. exact E.
  - destruct Ht as (e & He). congruence.
Qed.

Lemma thrown_bind {A B : Type} (m : TC A) (f : A -> TC B) :
  thrown (tbind m f)
  = match outcome m with
    | Some (a, _) => thrown (f a)
    | None => thrown m
    end.
Proof.
  induction m as [a | k IH | e]; simpl; [reflexivity | | reflexivity].
  rewrite IH. destruct (outcome k) as [[a n]|]; reflexivity.
Qed.

(** A run fails with [TooManyNodesError] or with what the computation throws. *)
Lemma run_Err {A : Type} (max : Z) (m : TC A) : forall c e,
  run max m c = Err e -> e = TooManyNodes \/ thrown m = Some e.
Proof.
  induction m as [a | k IH | e']; simpl; intros c e H.
  - discriminate.
  - destruct (c + 1 >? max); [left; congruence | apply (IH _ _ H)].
  - right. congruence.
Qed.

(** [throwsOnly P m]: if [m] throws, the error is one of [P]. *)
Definition throwsOnly {A : Type} (P : Error -> Prop) (m : TC A) : Prop :=
  forall e, thrown m = Some e -> P e.

Lemma throwsOnly_returns {A : Type} (P : Error -> Prop) (m : TC A) (a : A) :
  returns m a -> throwsOnly P m.
Proof. intros H e He. rewrite (returns_not_thrown m a H) in He. discriminate. Qed.

Lemma throwsOnly_Ret {A : Type} (P : Error -> Prop) (a : A) : throwsOnly P (Ret a).
Proof. intros e H. discriminate. Qed.

Lemma throwsOnly_Tick {A : Type} (P : Error -> Prop) (k : TC A) :
  throwsOnly P k -> throwsOnly P (Tick k).
Proof. intros H e He. apply H, He. Qed.

Lemma throwsOnly_Throw {A : Type} (P : Error -> Prop) (e : Error) :
  P e -> throwsOnly P (@Throw A e).
Proof. intros H e' He. injection He as <-. exact H. Qed.

Lemma throwsOnly_bind {A B : Type} (P : Error -> Prop) (m : TC A) (f : A -> TC B) :
  throwsOnly P m -> (forall a, returns m a -> throwsOnly P (f a)) ->
  throwsOnly P (tbind m f).
Proof.
  intros Hm Hf e He. rewrite thrown_bind in He.
  destruct (outcome m) as [[a n]|] eqn:E.
  - apply (Hf a); [exists n; exact E | exact He].
  - apply Hm, He.
Qed.

Lemma throwsOnly_weaken {A : Type} (P Q : Error -> Prop) (m : TC A) :
  (forall e, P e -> Q e) -> throwsOnly P m -> throwsOnly Q m.
Proof. intros H Hm e He. apply H, Hm, He. Qed.

Lemma throwsOnly_liftResult {A : Type} (P : Error -> Prop) (r : Result A) :
  (forall e, r = Err e -> P e) -> throwsOnly P (liftResult r).
Proof.
  destruct r as [a | e]; simpl; intros H.
  - apply throwsOnly_Ret.
  - apply throwsOnly_Throw, H. reflexivity.
Qed.

Lemma throwsOnly_unwrap {A : Type} (P : Error -> Prop) (x : option A) :
  x <> None -> throwsOnly P (Elimination.unwrap x).
Proof.
  destruct x as [a|]; simpl; intros H; [apply throwsOnly_Ret | congruence].
Qed.

Lemma throwsOnly_foldM {A St : Type} (P : Error -> Prop) (f : St -> A -> TC St)
  (Inv : list A -> St -> Prop) (l : list A) : forall done st,
  Inv done st ->
  (forall done x st, (exists rest, l = done ++ x :: rest) -> Inv done st ->
     throwsOnly P (f st x)
     /\ forall st', returns (f st x) st' -> Inv (done ++ [x]) st') ->
  forall todo, l = done ++ todo -> throwsOnly P (foldM f todo st).
Proof.
  intros done st HI Hstep todo. revert done st HI.
  induction todo as [|x todo IH]; intros done st HI El; simpl.
  - apply throwsOnly_Ret.
  - destruct (Hstep done x st (ex_intro _ todo El) HI) as [Hs Hn].
    apply throwsOnly_bind; [exact Hs|]. intros st' Hr.
    apply (IH (done ++ [x]) st' (Hn st' Hr)). rewrite <- app_assoc. exact El.
Qed.

(* ================================================================= *)
(** * The methods of [NodeList] *)

Lemma mapDelete_mapSet (m : NodeMap) (k : nat) (v : Transition) :
  mapGet m k = None -> mapDelete (mapSet m k v) k = m.
Proof.
  induction m as [|[k0 v0] m IH]; simpl; intros H.
  - rewrite Nat.eqb_refl. reflexivity.
  - destruct (k0 =? k)%nat eqn:E; [discriminate|]. simpl. rewrite E.
    f_equal. apply IH, H.
Qed.

Lemma node_eq (a b : RegexFANode) : out a = out b -> in_ a = in_ b -> a = b.
Proof. destruct a, b. simpl. intros -> ->. reflexivity. Qed.

Lemma NodeList_ext (a b : NodeList) :
  length (heap a) = length (heap b) -> initial a = initial b -> finals a = finals b ->
  (forall u, out (getNode a u) = out (getNode b u)) ->
  (forall u, in_ (getNode a u) = in_ (getNode b u)) ->
  a = b.
Proof.
  destruct a as [ha ia fa], b as [hb ib fb]. simpl. intros Hl -> -> Ho Hi.
  f_equal. apply (nth_ext ha hb emptyNode emptyNode Hl).
  intros n _. apply node_eq; [apply (Ho n) | apply (Hi n)].
Qed.

Lemma unlink_after_link (nl nl' : NodeList) (from to : nat) (t : Transition) :
  WFG nl -> validNode nl from -> validNode nl to ->
  linkNodes nl from to t = Ok nl' -> unlinkNodes nl' from to = (Some t, nl).
Proof.
  intros W Hf Ht H.
  destruct (linkNodes_spec nl nl' from to t W Hf Ht H) as (Enone & U & W' & Eedge).
  destruct (unlinkNodes nl' from to) as [r nl2] eqn:Eu.
  destruct (unlinkNodes_spec nl' nl2 from to r W' Eu) as (Er & U2 & _ & _).
  rewrite Eedge, !Nat.eqb_refl in Er. simpl in Er. subst r. f_equal.
  destruct U as [L1 I1 F1 O1 N1], U2 as [L2 I2 F2 O2 N2].
  symmetry. apply NodeList_ext; try congruence.
  - intros u. rewrite O2. destruct (u =? from)%nat eqn:E.
    + rewrite O1, Nat.eqb_refl. apply Nat.eqb_eq in E. subst u.
      symmetry. apply mapDelete_mapSet. exact Enone.
    + rewrite O1, E. reflexivity.
  - intros v. rewrite N2. destruct (v =? to)%nat eqn:E.
    + rewrite N1, Nat.eqb_refl. apply Nat.eqb_eq in E. subst v.
      symmetry. apply mapDelete_mapSet. rewrite (edge_in nl from to W). exact Enone.
    + rewrite N1, E. reflexivity.
Qed.

(** X19: the three methods of [NodeList] on a graph whose [in] and [out]
    maps agree.  [linkNodes] throws "already linked" exactly when the edge
    exists and otherwise adds that one edge; [relinkNodes] throws "not
    linked" exactly when the edge is missing and otherwise replaces its
    transition; [unlinkNodes] returns the transition of the edge, or
    [undefined], and removes that one edge; unlinking an edge just linked
    returns its transition and gives the graph back. *)
Theorem nodeList_methods (nl : NodeList) (from to : nat) (t : Transition) :
  WFG nl -> validNode nl from -> validNode nl to ->
  match edge nl from to with
  | Some _ =>
      linkNodes nl from to t = Err AlreadyLinked
      /\ exists nl', relinkNodes nl from to t = Ok nl' /\ WFG nl'
           /\ forall u v, edge nl' u v
                          = if (u =? from)%nat && (v =? to)%nat then Some t
                            else edge nl u v
  | None =>
      relinkNodes nl from to t = Err NotLinked
      /\ exists nl', linkNodes nl from to t = Ok nl' /\ WFG nl'
           /\ (forall u v, edge nl' u v
                           = if (u =? from)%nat && (v =? to)%nat then Some t
                             else edge nl u v)
           /\ unlinkNodes nl' from to = (Some t, nl)
  end
  /\ exists nl', unlinkNodes nl from to = (edge nl from to, nl') /\ WFG nl'
       /\ forall u v, edge nl' u v
                      = if (u =? from)%nat && (v =? to)%nat then None else edge nl u v.
Proof.
  intros W Hf Ht. split.
  - destruct (edge nl from to) as [t0|] eqn:E.
    + assert (Eh : mapHas (out (getNode nl from)) to = true)
        by (apply mapHas_true; exists t0; exact E).
      split; [unfold linkNodes; rewrite Eh; reflexivity|].
      destruct (relinkNodes nl from to t) as [nl'|e] eqn:Er;
        [| unfold relinkNodes in Er; rewrite Eh in Er; discriminate].
      exists nl'. split; [reflexivity|].
      destruct (relinkNodes_spec nl nl' from to t W Er) as (_ & _ & W' & Ee).
      split; assumption.
    + assert (Eh : mapHas (out (getNode nl from)) to = false)
        by (apply mapHas_false; exact E).
      split; [unfold relinkNodes; rewrite Eh; reflexivity|].
      destruct (linkNodes nl from to t) as [nl'|e] eqn:El;
        [| unfold linkNodes in El; rewrite Eh in El; discriminate].
      exists nl'. split; [reflexivity|].
      destruct (linkNodes_spec nl nl' from to t W Hf Ht El) as (_ & _ & W' & Ee).
      split; [exact W'|]. split; [exact Ee|].
      apply (unlink_after_link nl nl' from to t W Hf Ht El).
  - destruct (unlinkNodes nl from to) as [r nl'] eqn:Eu.
    destruct (unlinkNodes_spec nl nl' from to r W Eu) as (-> & _ & W' & Ee).
    exists nl'. split; [reflexivity|]. split; assumption.
Qed.

Lemma nodeList_methods_witness :
  let nl := snd (createNode newNodeList) in
  relinkNodes nl 0 1 (TConcat []) = Err NotLinked
  /\ exists nl', linkNodes nl 0 1 (TConcat []) = Ok nl' /\ WFG nl'
       /\ (forall u v, edge nl' u v
                       = if (u =? 0)%nat && (v =? 1)%nat then Some (TConcat [])
                         else edge nl u v)
       /\ unlinkNodes nl' 0 1 = (Some (TConcat []), nl).
Proof.
  apply (proj1 (nodeList_methods (snd (createNode newNodeList)) 0 1 (TConcat [])
                  (WFG_createNode newNodeList WFG_newNodeList)
                  (Nat.lt_0_succ 1) (Nat.lt_succ_diag_r 1))).
Defined.

(* ================================================================= *)
(** * The combinators of [eliminateStates] *)

Lemma concat_returns (a b : Transition) : exists t, returns (Elimination.concat a b) t.
Proof.
  apply not_thrown_returns. unfold Elimination.concat.
  destruct a as [aElements | aElem], b as [bElements | bElem];
    try destruct (length aElements =? 0)%nat; try destruct (length bElements =? 0)%nat;
    reflexivity.
Qed.

Lemma asConcatenation_returns (a : Transition) :
  exists c, returns (Elimination.asConcatenation a) c.
Proof. apply not_thrown_returns. destruct a; reflexivity. Qed.

Lemma star_returns (a : Transition) : exists t, returns (Elimination.star a) t.
Proof.
  apply not_thrown_returns. unfold Elimination.star.
  destruct a as [elements | [cs | alts | alts qmin qmax | k n alts]];
    try destruct (length elements =? 0)%nat;
    try (destruct (boundIsZero qmax); [|destruct (zeroOrOne qmin)]);
    reflexivity.
Qed.

Lemma plus_returns (a : Transition) : exists t, returns (Elimination.plus a) t.
Proof.
  apply not_thrown_returns. unfold Elimination.plus.
  destruct a as [elements | [cs | alts | alts qmin qmax | k n alts]];
    try destruct (length elements =? 0)%nat;
    try (destruct (boundIsZero qmax);
         [|destruct (qmin =? 0)%nat; [|destruct (qmin =? 1)%nat]]);
    reflexivity.
Qed.

Definition isDomainMismatch (e : Error) : Prop := e = DomainMismatch.

Lemma charset_union_throws (a b : CharSet) (e : Error) :
  union a [OfSet b] = Err e -> e = DomainMismatch.
Proof.
  unfold union, checkCompatibility.
  destruct (negb (maximum b =? maximum a)); simpl; [congruence|].
  destruct (length (ranges b) =? 0)%nat; discriminate.
Qed.

Lemma throwsOnly_asConcatenation (P : Error -> Prop) (a : Transition) :
  throwsOnly P (Elimination.asConcatenation a).
Proof.
  destruct (asConcatenation_returns a) as [c Hc]. apply (throwsOnly_returns P _ c Hc).
Qed.

Lemma unionAlternationAndCharClass_throws (todo : list Concatenation) :
  forall done char characters,
  throwsOnly isDomainMismatch
    (Elimination.unionAlternationAndCharClass done todo char characters).
Proof.
  induction todo as [|alt todo IH]; intros done char characters;
    cbn [Elimination.unionAlternationAndCharClass].
  - apply throwsOnly_bind; [apply throwsOnly_asConcatenation|].
    intros c _. apply throwsOnly_Ret.
  - destruct alt as [|[firstCharacters | | |] [|]]; try apply IH.
    apply throwsOnly_bind; [|intros u _; apply throwsOnly_Ret].
    apply throwsOnly_liftResult. intros e. apply charset_union_throws.
Qed.

Lemma unionAlternatives_throws (bAlternatives : list Concatenation) :
  forall aAlternatives,
  throwsOnly isDomainMismatch (Elimination.unionAlternatives aAlternatives bAlternatives).
Proof.
  induction bAlternatives as [|alt rest IH]; intros aAlternatives;
    cbn [Elimination.unionAlternatives].
  - apply throwsOnly_Ret.
  - destruct alt as [|[characters | | |] [|]]; try apply IH.
    apply throwsOnly_bind; [apply unionAlternationAndCharClass_throws|].
    intros a' _. apply IH.
Qed.

Lemma union_throws (a b : Transition) :
  throwsOnly isDomainMismatch (Elimination.union a b).
Proof.
  assert (Hgen : throwsOnly isDomainMismatch
            (ca <- Elimination.asConcatenation a ;;
             cb <- Elimination.asConcatenation b ;;
             e <- tc.alter [ca; cb] ;;
             Ret (TElem e))).
  { apply throwsOnly_bind; [apply throwsOnly_asConcatenation|]. intros ca _.
    apply throwsOnly_bind; [apply throwsOnly_asConcatenation|]. intros cb _.
    intros e He. discriminate. }
  assert (Has : forall x alts,
            throwsOnly isDomainMismatch
              (c <- Elimination.asConcatenation x ;;
               Ret (TElem (Alternation (alts ++ [c]))))).
  { intros x alts. apply throwsOnly_bind; [apply throwsOnly_asConcatenation|].
    intros c _. apply throwsOnly_Ret. }
  assert (Hcls : forall alts e cs,
            throwsOnly isDomainMismatch
              (alts' <- Elimination.unionAlternationAndCharClass [] alts e cs ;;
               Ret (TElem (Alternation alts')))).
  { intros alts e cs. apply throwsOnly_bind; [apply unionAlternationAndCharClass_throws|].
    intros c _. apply throwsOnly_Ret. }
  unfold Elimination.union.
  destruct a as [ac | [acs | aAlts | aAlts amin amax | ak an aAlts]];
    destruct b as [bc | [bcs | bAlts | bAlts bmin bmax | bk bn bAlts]];
    try exact Hgen;
    try (destruct (length aAlts =? 0)%nat; [apply throwsOnly_Ret|]);
    try (destruct (length bAlts =? 0)%nat; [apply throwsOnly_Ret|]);
    try apply Has; try apply Hcls.
  - apply throwsOnly_bind; [|intros u _; apply throwsOnly_Ret].
    apply throwsOnly_liftResult. intros e. apply charset_union_throws.
  - apply throwsOnly_bind; [apply unionAlternatives_throws|].
    intros alts _. apply throwsOnly_Ret.
Qed.

(** The error that a computation throws and how many nodes the factory has
    counted before it, when it throws. *)
Fixpoint failure {A : Type} (m : TC A) : option (Error * Z) :=
  match m with
  | Ret _ => None
  | Tick k =>
      match failure k with
      | Some (e, n) => Some (e, n + 1)
      | None => None
      end
  | Throw e => Some (e, 0)
  end.

Lemma failure_nonneg {A : Type} (m : TC A) : forall e n,
  failure m = Some (e, n) -> 0 <= n.
Proof.
  induction m as [a | k IH | e']; simpl; intros e n H.
  - discriminate.
  - destruct (failure k) as [[e1 n1]|]; [|discriminate].
    injection H as _ <-. pose proof (IH _ _ eq_refl). lia.
  - injection H as _ <-. lia.
Qed.

Lemma thrown_failure {A : Type} (m : TC A) (e : Error) :
  thrown m = Some e -> exists n, failure m = Some (e, n).
Proof.
  induction m as [a | k IH | e']; simpl; intros H.
  - discriminate.
  - destruct (IH H) as (n & Hn). rewrite Hn. eexists. reflexivity.
  - injection H as <-. eexists. reflexivity.
Qed.

(** With the counter at [c] and the ceiling [max]: [n] nodes more are
    counted, unless one of them is above the ceiling. *)
Definition countedTo {A : Type} (max c n : Z) (r : Result (A * Z)) : Result (A * Z) :=
  if (n =? 0) || (c + n <=? max) then r else Err TooManyNodes.

Lemma run_returning {A : Type} (max : Z) (m : TC A) (c : Z) (a : A) (n : Z) :
  outcome m = Some (a, n) -> run max m c = countedTo max c n (Ok (a, c + n)).
Proof.
  intros H. rewrite (run_of_outcome max m c a n H). unfold countedTo.
  pose proof (outcome_nonneg m a n H) as Hn.
  destruct (n =? 0) eqn:E0.
  - apply Z.eqb_eq in E0. subst n. rewrite Z.add_0_r. simpl.
    destruct (c <=? max); reflexivity.
  - simpl. destruct (c + n <=? max); reflexivity.
Qed.

Lemma run_failing {A : Type} (max : Z) (m : TC A) : forall (c : Z) (e : Error) (n : Z),
  failure m = Some (e, n) -> run max m c = countedTo max c n (Err e).
Proof.
  induction m as [a | k IH | e']; simpl; intros c e n H.
  - discriminate.
  - destruct (failure k) as [[e1 n1]|] eqn:Hf; [|discriminate].
    injection H as <- <-. pose proof (failure_nonneg k _ _ Hf) as Hn.
    unfold countedTo.
    destruct (n1 + 1 =? 0) eqn:E0; [apply Z.eqb_eq in E0; lia|]. cbn [orb].
    destruct (c + 1 >? max) eqn:E1.
    + apply Z.gtb_lt in E1.
      destruct (c + (n1 + 1) <=? max) eqn:E2; [apply Z.leb_le in E2; lia | reflexivity].
    + rewrite (IH (c + 1) e1 n1 eq_refl). unfold countedTo.
      replace (c + 1 + n1) with (c + (n1 + 1)) by lia.
      destruct (n1 =? 0) eqn:E3; cbn [orb]; [|reflexivity].
      apply Z.eqb_eq in E3.
      destruct (c + (n1 + 1) <=? max) eqn:E2; [reflexivity|].
      apply Z.leb_gt in E2. rewrite Z.gtb_ltb in E1. apply Z.ltb_ge in E1. lia.
  - injection H as <- <-. reflexivity.
Qed.

Lemma asConcatenation_outcome (a : Transition) :
  exists c n, outcome (Elimination.asConcatenation a) = Some (c, n) /\ 0 <= n <= 1.
Proof. destruct a; eexists; eexists; (split; [reflexivity | lia]). Qed.

Lemma concat_outcome (a b : Transition) :
  exists t n, outcome (Elimination.concat a b) = Some (t, n) /\ 0 <= n <= 1.
Proof.
  unfold Elimination.concat.
  destruct a as [aElements | aElem], b as [bElements | bElem];
    try destruct (length aElements =? 0)%nat; try destruct (length bElements =? 0)%nat;
    eexists; eexists; (split; [reflexivity | lia]).
Qed.

Lemma star_outcome (a : Transition) :
  exists t n, outcome (Elimination.star a) = Some (t, n) /\ 0 <= n <= 2.
Proof.
  unfold Elimination.star.
  destruct a as [elements | [cs | alts | alts qmin qmax | k n alts]];
    try destruct (length elements =? 0)%nat;
    try (destruct (boundIsZero qmax); [|destruct (zeroOrOne qmin)]);
    eexists; eexists; (split; [reflexivity | lia]).
Qed.

Lemma plus_outcome (a : Transition) :
  exists t n, outcome (Elimination.plus a) = Some (t, n) /\ 0 <= n <= 2.
Proof.
  unfold Elimination.plus.
  destruct a as [elements | [cs | alts | alts qmin qmax | k n alts]];
    try destruct (length elements =? 0)%nat;
    try (destruct (boundIsZero qmax);
         [|destruct (qmin =? 0)%nat; [|destruct (qmin =? 1)%nat]]);
    eexists; eexists; (split; [reflexivity | lia]).
Qed.

(** X20: the four combinators of [eliminateStates] on transitions without
    assertions, with the counter of the factory at [c] and the ceiling
    [max].  [concat] makes at most one node through the factory, [star] and
    [plus] at most two; they throw [TooManyNodesError] when one of these
    nodes is above the ceiling and nothing else, and otherwise return a
    transition for the concatenation, the Kleene star and the Kleene plus of
    the languages.  [union] does the same for the union of the two
    languages, unless two character classes of different [maximum] meet:
    then it throws the [RangeError] of [CharSet.union], or
    [TooManyNodesError] when a node made before is above the ceiling. *)
Theorem transition_combinators (a b : Transition) :
  wfT a -> wfT b ->
  (exists t n,
     0 <= n <= 1 /\ wfT t /\ langSame (langT t) (langCat (langT a) (langT b))
     /\ forall max c,
          run max (Elimination.concat a b) c = countedTo max c n (Ok (t, c + n)))
  /\ (exists t n,
        0 <= n <= 2 /\ wfT t /\ langSame (langT t) (langStar (langT a))
        /\ forall max c,
             run max (Elimination.star a) c = countedTo max c n (Ok (t, c + n)))
  /\ (exists t n,
        0 <= n <= 2 /\ wfT t /\ langSame (langT t) (langPlus (langT a))
        /\ forall max c,
             run max (Elimination.plus a) c = countedTo max c n (Ok (t, c + n)))
  /\ ((exists t n,
         0 <= n /\ wfT t /\ langSame (langT t) (langOr (langT a) (langT b))
         /\ forall max c,
              run max (Elimination.union a b) c = countedTo max c n (Ok (t, c + n)))
      \/ (exists n,
            0 <= n
            /\ forall max c,
                 run max (Elimination.union a b) c
                 = countedTo max c n (Err DomainMismatch))).
Proof.
  intros Wa Wb. split; [|split; [|split]].
  - destruct (concat_outcome a b) as (t & n & Ho & Hn). exists t, n.
    split; [exact Hn|].
    destruct (concat_spec a b t (ex_intro _ n Ho) Wa Wb) as [Wt Lt].
    split; [exact Wt|]. split; [exact Lt|].
    intros max c. apply (run_returning max _ c t n Ho).
  - destruct (star_outcome a) as (t & n & Ho & Hn). exists t, n.
    split; [exact Hn|].
    destruct (star_spec a t (ex_intro _ n Ho) Wa) as [Wt Lt].
    split; [exact Wt|]. split; [exact Lt|].
    intros max c. apply (run_returning max _ c t n Ho).
  - destruct (plus_outcome a) as (t & n & Ho & Hn). exists t, n.
    split; [exact Hn|].
    destruct (plus_spec a t (ex_intro _ n Ho) Wa) as [Wt Lt].
    split; [exact Wt|]. split; [exact Lt|].
    intros max c. apply (run_returning max _ c t n Ho).
  - destruct (thrown (Elimination.union a b)) as [e|] eqn:Et.
    + right. pose proof (union_throws a b e Et) as He. unfold isDomainMismatch in He.
      subst e. destruct (thrown_failure _ _ Et) as (n & Hf). exists n.
      split; [apply (failure_nonneg _ _ _ Hf)|].
      intros max c. apply (run_failing max _ c DomainMismatch n Hf).
    + left. destruct (not_thrown_returns _ Et) as (t & n & Ho). exists t, n.
      split; [apply (outcome_nonneg _ _ _ Ho)|].
      destruct (union_spec a b t (ex_intro _ n Ho) Wa Wb) as [Wt Lt].
      split; [exact Wt|]. split; [exact Lt|].
      intros max c. apply (run_returning max _ c t n Ho).
Qed.

(** [concat] of [a] and [b] makes one node, the [Concatenation]: at the
    ceiling it throws and below it returns [ab]. *)
Lemma transition_combinators_witness :
  exists t n,
    0 <= n <= 1 /\ wfT t
    /\ langSame (langT t) (langCat (langT (TElem (letter 97))) (langT (TElem (letter 98))))
    /\ forall max c,
         run max (Elimination.concat (TElem (letter 97)) (TElem (letter 98))) c
         = countedTo max c n (Ok (t, c + n)).
Proof.
  apply (transition_combinators (TElem (letter 97)) (TElem (letter 98))).
  - apply wfElement_CharacterClass, (letterSet_normal 97). lia.
  - apply wfElement_CharacterClass, (letterSet_normal 98). lia.
Defined.

(* ================================================================= *)
(** * The contracts of [createNodeList] and [eliminateStates] *)

(** [createNodeList] returns [null] only when no final state is reachable. *)
Lemma createNodeList_null (iter : FAIterator) (fuel : nat) :
  NormalSets iter ->
  returns (createNodeList fuel iter) None ->
  forall q, Reachable iter q -> isFinal iter q = false.
Proof.
  intros Hnormal H. unfold createNodeList in H.
  change (createNode newNodeList) with (1%nat, snd (createNode newNodeList)) in H.
  cbv beta iota zeta in H.
  tc_step H. apply returns_emptyConcat in R. subst x.
  tc_step H. tc_step R.
  change (initial (snd (createNode newNodeList))) with 0%nat in R.
  pose proof (build_start iter x R) as HB0.
  tc_step H.
  destruct (DFS_rule (visitState iter) (successors iter) (BInv iter) (Reachable iter))
    with (fuel := fuel) (start := fa_initial iter)
         (st := mkBuild x [(fa_initial iter, 1%nat)]) (st' := x0)
    as (visited & HB & Hstart & Hclosed);
    [| exact R0 | exact HB0 | apply ReachInitial |].
  { intros n vis st0 r0 HI Pn Hn Hr.
    apply (visitState_spec iter Hnormal vis st0 n r0 HI Pn Hn Hr). }
  destruct HB as [HBI _].
  destruct (length (finals (b_nodeList x0)) =? 0)%nat eqn:Efin.
  - apply Nat.eqb_eq in Efin.
    assert (Hvis : forall q, Reachable iter q -> In q visited).
    { induction 1 as [|q q' cs Hq IH Hin]; [exact Hstart|].
      apply (Hclosed q q' IH), successors_In. exists cs. exact Hin. }
    intros q Hq. destruct (isFinal iter q) eqn:Eq; [|reflexivity]. exfalso.
    destruct (bd_finals_complete _ _ _ _ HBI q (conj (Hvis q Hq) Eq)) as (node & _ & Hin).
    destruct (finals (b_nodeList x0)); [destruct Hin | discriminate].
  - exfalso.
    destruct (createNode (b_nodeList x0)) as [tF nl1].
    tc_step H. tc_step H. tc_step H. tc_step H. discriminate.
Qed.

(** X21: the contract of [createNodeList] for an automaton whose
    transitions carry sets in normal form.  It returns [null] exactly when no
    final state is reachable.  Otherwise it returns a graph whose [in] and
    [out] maps agree, with transitions without assertions, in which no edge
    enters the initial node and no edge leaves the final node, and the words
    along the paths from the initial to the final node are the words the
    automaton accepts. *)
Theorem createNodeList_contract (fuel : nat) (iter : FAIterator) (r : option NodeList) :
  NormalSets iter ->
  returns (createNodeList fuel iter) r ->
  match r with
  | None => forall q, Reachable iter q -> isFinal iter q = false
  | Some nl =>
      (exists q, Reachable iter q /\ isFinal iter q = true)
      /\ exists f,
           firstOf (finals nl) = Some f /\ initial nl <> f
           /\ WFG nl /\ wfEdges nl
           /\ (forall u, edge nl u (initial nl) = None)
           /\ (forall v, edge nl f v = None)
           /\ forall w, pathLang (edgeLang nl) (initial nl) f w <-> Accepts iter w
  end.
Proof.
  intros Hnormal H. destruct r as [nl|].
  - destruct (createNodeList_spec iter Hnormal fuel (Some nl) H)
      as [(f & [W We Ef Hne Hin Hout HL]) Hq].
    split; [exact Hq|]. exists f.
    split; [exact Ef|]. split; [exact Hne|]. split; [exact W|]. split; [exact We|].
    split; [exact Hin|]. split; [exact Hout | exact HL].
  - apply (createNodeList_null iter fuel Hnormal H).
Qed.

Lemma createNodeList_contract_witness :
  exists nl,
    returns (createNodeList 20 abOrAcFA) (Some nl)
    /\ (exists q, Reachable abOrAcFA q /\ isFinal abOrAcFA q = true)
    /\ exists f,
         firstOf (finals nl) = Some f /\ initial nl <> f
         /\ WFG nl /\ wfEdges nl
         /\ (forall u, edge nl u (initial nl) = None)
         /\ (forall v, edge nl f v = None)
         /\ forall w, pathLang (edgeLang nl) (initial nl) f w <-> Accepts abOrAcFA w.
Proof.
  destruct (outcome (createNodeList 20 abOrAcFA)) as [[[nl|] n]|] eqn:E;
    try (vm_compute in E; discriminate).
  exists nl. split; [exists n; exact E|].
  apply (createNodeList_contract 20 abOrAcFA (Some nl) abOrAcFA_normal).
  exists n. exact E.
Defined.

(** X22: the contract of [eliminateStates] on such a graph ([L] being the
    words along the paths from the initial to the final node).  When it
    returns, the graph still has its initial and final node, its maps agree,
    every transition that leaves the initial node enters the final node, and
    the transition from the initial to the final node matches the words of
    [L] and no others. *)
Theorem eliminateStates_contract (L : Lang) (fuel : nat) (nl nl' : NodeList) (f : nat) :
  Ready L nl f ->
  returns (eliminateStates fuel nl) nl' ->
  initial nl' = initial nl /\ firstOf (finals nl') = Some f
  /\ WFG nl' /\ wfEdges nl'
  /\ (forall v t, edge nl' (initial nl) v = Some t -> v = f)
  /\ forall w, edgeLang nl' (initial nl) f w <-> L w.
Proof.
  intros Hready H.
  destruct (eliminateStates_spec L fuel nl nl' f Hready H) as (V & HI).
  pose proof (ElimInv_done L V (initial nl) f nl' HI) as Hdone.
  destruct HI as [W We Ei Ef Hne Hi Hf HVi HVR Hin Hout Hedges HL].
  split; [exact Ei|]. split; [exact Ef|]. split; [exact W|]. split; [exact We|].
  split; [|exact Hdone].
  intros v t Hv. destruct (Nat.eq_dec (initial nl) v) as [<- | Hiv].
  - rewrite Hin in Hv. discriminate.
  - destruct (Hedges _ v t Hv HVi Hiv) as [-> | []]. reflexivity.
Qed.

Lemma eliminateStates_contract_witness :
  exists nl nl' f,
    returns (createNodeList 20 abOrAcFA) (Some nl)
    /\ returns (eliminateStates 20 nl) nl'
    /\ forall w, edgeLang nl' (initial nl) f w <-> Accepts abOrAcFA w.
Proof.
  destruct (outcome (createNodeList 20 abOrAcFA)) as [[[nl|] n]|] eqn:E;
    try (vm_compute in E; discriminate).
  assert (Hc : returns (createNodeList 20 abOrAcFA) (Some nl)) by (exists n; exact E).
  destruct (createNodeList_spec abOrAcFA abOrAcFA_normal 20 (Some nl) Hc)
    as [(f & Hready) _].
  destruct (outcome (eliminateStates 20 nl)) as [[nl' n']|] eqn:E'.
  - assert (He : returns (eliminateStates 20 nl) nl') by (exists n'; exact E').
    exists nl, nl', f. split; [exact Hc|]. split; [exact He|].
    apply (eliminateStates_contract (Accepts abOrAcFA) 20 nl nl' f Hready He).
  - exfalso. vm_compute in E. injection E as <- _. vm_compute in E'. discriminate.
Defined.

(* ================================================================= *)
(** * What the state elimination throws *)

(** The errors that the elimination of states can end with: the
    [RangeError] of [CharSet.union] for sets of different [maximum], and the
    loops of the model running out of fuel. *)
Definition Benign (e : Error) : Prop := e = DomainMismatch \/ e = OutOfFuel.

Lemma throwsOnly_total {A : Type} (P : Error -> Prop) (m : TC A) :
  (exists a, returns m a) -> throwsOnly P m.
Proof. intros (a & H). apply (throwsOnly_returns P m a H). Qed.

Lemma benign_of_mismatch {A : Type} (m : TC A) :
  throwsOnly isDomainMismatch m -> throwsOnly Benign m.
Proof. apply throwsOnly_weaken. intros e ->. left. reflexivity. Qed.

Lemma throwsOnly_link (P : Error -> Prop) (nl : NodeList) (from to : nat)
  (t : Transition) :
  edge nl from to = None -> throwsOnly P (liftResult (linkNodes nl from to t)).
Proof.
  intros E. apply throwsOnly_liftResult. intros e He. unfold linkNodes in He.
  apply mapHas_false in E. unfold edge in E. rewrite E in He. discriminate.
Qed.

Lemma throwsOnly_relink (P : Error -> Prop) (nl : NodeList) (from to : nat)
  (t t0 : Transition) :
  edge nl from to = Some t0 -> throwsOnly P (liftResult (relinkNodes nl from to t)).
Proof.
  intros E. apply throwsOnly_liftResult. intros e He. unfold relinkNodes in He.
  assert (Eh : mapHas (out (getNode nl from)) to = true)
    by (apply mapHas_true; exists t0; exact E).
  rewrite Eh in He. discriminate.
Qed.

Lemma linkWithUnion_safe (nl : NodeList) (from to : nat) (trans : Transition) :
  WFG nl -> throwsOnly isDomainMismatch (Elimination.linkWithUnion nl from to trans).
Proof.
  intros W. unfold Elimination.linkWithUnion.
  destruct (unlinkNodes nl from to) as [currentTrans nl1] eqn:EU.
  destruct (unlinkNodes_spec nl nl1 from to currentTrans W EU) as (_ & _ & _ & E1).
  apply throwsOnly_bind.
  - destruct currentTrans; [apply union_throws | apply throwsOnly_Ret].
  - intros t' _. apply throwsOnly_link. rewrite E1, !Nat.eqb_refl. reflexivity.
Qed.

(** The two ways in which a loop is folded into the edge next to it. *)
Lemma fold_safe (nl1 : NodeList) (x y : nat) (ref other t0 : Transition) (swap : bool) :
  edge nl1 x y = Some t0 ->
  throwsOnly isDomainMismatch
    (if structurallyEqualT (if swap then other else ref) (if swap then ref else other)
     then tbind (Elimination.plus ref) (fun t => liftResult (relinkNodes nl1 x y t))
     else tbind (Elimination.star ref) (fun s' =>
          tbind (if swap then Elimination.concat other s' else Elimination.concat s' other)
            (fun t => liftResult (relinkNodes nl1 x y t)))).
Proof.
  intros E.
  destruct (structurallyEqualT (if swap then other else ref) (if swap then ref else other)).
  - apply throwsOnly_bind; [apply throwsOnly_total, plus_returns|].
    intros t _. apply (throwsOnly_relink _ nl1 x y t t0 E).
  - apply throwsOnly_bind; [apply throwsOnly_total, star_returns|]. intros s' _.
    apply throwsOnly_bind;
      [destruct swap; apply throwsOnly_total, concat_returns|].
    intros t _. apply (throwsOnly_relink _ nl1 x y t t0 E).
Qed.

Lemma firstOf_after_delete (m : NodeMap) (s : nat) (c : Transition) :
  length m = 2%nat -> mapGet m s = Some c -> firstOf (mapDelete m s) <> None.
Proof.
  intros Hlen Hs. pose proof (length_mapDelete m s c Hs) as H.
  destruct (mapDelete m s); [simpl in H; lia | discriminate].
Qed.

Lemma removeTrivialReflexiveTransition_safe (nl : NodeList) (s : nat) :
  WFG nl ->
  throwsOnly isDomainMismatch (Elimination.removeTrivialReflexiveTransition nl s).
Proof.
  intros W. unfold Elimination.removeTrivialReflexiveTransition.
  destruct (mapHas (out (getNode nl s)) s) eqn:Hloop; [|apply throwsOnly_Ret].
  apply mapHas_true in Hloop. destruct Hloop as (c & Ec).
  assert (Ec' : mapGet (in_ (getNode nl s)) s = Some c)
    by (rewrite (edge_in nl s s W); exact Ec).
  destruct (unlinkNodes nl s s) as [ref nl1] eqn:EU.
  destruct (unlink_loop nl nl1 s ref W EU) as (Er & W1 & F1 & Eout & Ein & E1).
  fold (edge nl s s) in Ec. rewrite Ec in Er. subst ref.
  assert (Hout : length (out (getNode nl s)) = 2%nat ->
            forall o b, firstOf (out (getNode nl1 s)) = Some (o, b) ->
                        edge nl1 s o = Some b).
  { intros _ o b Hf. apply (firstOf_mapGet _ o b Hf). }
  assert (Hin : length (in_ (getNode nl s)) = 2%nat ->
            forall p a, firstOf (in_ (getNode nl1 s)) = Some (p, a) ->
                        edge nl1 p s = Some a).
  { intros _ p a Hf. rewrite <- (edge_in nl1 p s W1). apply (firstOf_mapGet _ p a Hf). }
  assert (Hfo : length (out (getNode nl s)) = 2%nat ->
            firstOf (out (getNode nl1 s)) <> None).
  { intros Hl. rewrite Eout. apply (firstOf_after_delete _ s c Hl Ec). }
  assert (Hfi : length (in_ (getNode nl s)) = 2%nat ->
            firstOf (in_ (getNode nl1 s)) <> None).
  { intros Hl. rewrite Ein. apply (firstOf_after_delete _ s c Hl Ec'). }
  destruct (length (in_ (getNode nl s)) =? 2)%nat eqn:Hin2;
    destruct (length (out (getNode nl s)) =? 2)%nat eqn:Hout2; cbn [andb];
    try apply Nat.eqb_eq in Hin2; try apply Nat.eqb_eq in Hout2.
  - apply throwsOnly_bind; [apply throwsOnly_unwrap; discriminate|].
    intros refTrans _.
    apply throwsOnly_bind; [apply throwsOnly_unwrap, Hfo, Hout2|].
    intros [o b] Ho. apply returns_unwrap in Ho.
    apply throwsOnly_bind; [apply throwsOnly_unwrap, Hfi, Hin2|].
    intros [p a] Hp. apply returns_unwrap in Hp.
    destruct (structurallyEqualT a refTrans) eqn:E2.
    + apply throwsOnly_bind; [apply throwsOnly_total, plus_returns|].
      intros t _. apply (throwsOnly_relink _ nl1 p s t a (Hin Hin2 p a Hp)).
    + apply (fold_safe nl1 s o refTrans b b false (Hout Hout2 o b Ho)).
  - apply throwsOnly_bind; [apply throwsOnly_unwrap; discriminate|].
    intros refTrans _.
    apply throwsOnly_bind; [apply throwsOnly_unwrap, Hfi, Hin2|].
    intros [p a] Hp. apply returns_unwrap in Hp.
    apply (fold_safe nl1 p s refTrans a a true (Hin Hin2 p a Hp)).
  - apply throwsOnly_bind; [apply throwsOnly_unwrap; discriminate|].
    intros refTrans _.
    apply throwsOnly_bind; [apply throwsOnly_unwrap, Hfo, Hout2|].
    intros [o b] Ho. apply returns_unwrap in Ho.
    apply (fold_safe nl1 s o refTrans b b false (Hout Hout2 o b Ho)).
  - apply throwsOnly_Ret.
Qed.

Lemma firstOf_of_one (m : NodeMap) : length m = 1%nat -> firstOf m <> None.
Proof. destruct m; simpl; [discriminate | discriminate]. Qed.

Lemma removeTrivialConcat_safe (st : Elimination.State) (s : nat) :
  WFG (Elimination.nodeList st) ->
  throwsOnly isDomainMismatch (Elimination.removeTrivialConcat st s).
Proof.
  destruct st as [nl Rs]. simpl. intros W. unfold Elimination.removeTrivialConcat. simpl.
  destruct ((length (in_ (getNode nl s)) =? 1)%nat
            && (length (out (getNode nl s)) =? 1)%nat) eqn:E; [|apply throwsOnly_Ret].
  apply andb_true_iff in E. destruct E as [Ei Eo]. apply Nat.eqb_eq in Ei, Eo.
  apply throwsOnly_bind; [apply throwsOnly_unwrap, firstOf_of_one, Ei|].
  intros [p a] _.
  apply throwsOnly_bind; [apply throwsOnly_unwrap, firstOf_of_one, Eo|].
  intros [o b] _.
  apply throwsOnly_bind; [apply throwsOnly_total, concat_returns|]. intros t _.
  destruct (unlinkNodes nl p s) as [r1 nl1] eqn:E1.
  destruct (unlinkNodes_spec nl nl1 p s r1 W E1) as (_ & _ & W1 & _).
  cbn [snd].
  destruct (unlinkNodes nl1 s o) as [r2 nl2] eqn:E2.
  destruct (unlinkNodes_spec nl1 nl2 s o r2 W1 E2) as (_ & _ & W2 & _).
  cbn [snd].
  apply throwsOnly_bind; [apply (linkWithUnion_safe nl2 p o t W2)|].
  intros nl3 _. apply throwsOnly_Ret.
Qed.

Section EliminationSafe.
Variable L : Lang.
Variable V : nat -> Prop.
Variables i f : nat.

Lemma processState_safe (acc : Elimination.State * list nat) (s : nat) :
  StateInv L V i f (fst acc) ->
  throwsOnly isDomainMismatch (Elimination.processState acc s).
Proof.
  destruct acc as [[nl Rs] newToProcess]. unfold StateInv. simpl. intros HI.
  destruct (setHas Rs s) eqn:E; simpl; [|apply throwsOnly_Ret].
  apply setHas_In in E.
  apply throwsOnly_bind;
    [apply removeTrivialReflexiveTransition_safe, (ei_wfg _ _ _ _ _ _ HI)|].
  intros nl1 R1.
  pose proof (removeTrivialReflexiveTransition_keeps L V i f nl nl1 Rs s HI E R1) as HI1.
  apply throwsOnly_bind;
    [apply removeTrivialConcat_safe; simpl; apply (ei_wfg _ _ _ _ _ _ HI1)|].
  intros [[states|] st'] _; apply throwsOnly_Ret.
Qed.

Lemma trivialOperations_safe (fuel : nat) : forall (st : Elimination.State) toProcess,
  StateInv L V i f st -> throwsOnly Benign (Elimination.trivialOperations fuel st toProcess).
Proof.
  induction fuel as [|fuel IH]; intros st toProcess HI; simpl.
  - apply throwsOnly_Throw. right. reflexivity.
  - destruct (0 <? length toProcess)%nat; [|apply throwsOnly_Ret].
    assert (Hstep : forall acc acc' x, StateInv L V i f (fst acc) ->
              returns (Elimination.processState acc x) acc' -> StateInv L V i f (fst acc')).
    { intros acc acc' x HP Hret. apply (processState_keeps L V i f acc acc' x HP Hret). }
    apply throwsOnly_bind.
    + apply (throwsOnly_foldM Benign Elimination.processState
               (fun _ acc => StateInv L V i f (fst acc)) toProcess [] (st, [])
               HI); [|reflexivity].
      intros done x acc _ HP. split; [apply benign_of_mismatch, (processState_safe acc x HP)|].
      intros acc' Hret. apply (Hstep acc acc' x HP Hret).
    + intros [st1 newToProcess] R. apply IH.
      apply (foldM_returns Elimination.processState
               (fun _ acc => StateInv L V i f (fst acc)) toProcess) with (st := (st, []))
        (st' := (st1, newToProcess)); [| exact HI | exact R].
      intros done x acc acc' _ HP Hret. apply (Hstep acc acc' x HP Hret).
Qed.
End EliminationSafe.

Lemma copy_total (t : Transition) : wfT t -> exists t', returns (tc.copy t) t'.
Proof.
  intros W. exists t. exists (Z.of_nat (nodeCountT t)).
  apply (copy_outcome t (wfT_assertionFreeT t W)).
Qed.

Lemma bridge_safe (refStar : option Transition) (a b : nat) (ta tb : Transition)
  (cur : NodeList) :
  WFG cur -> wfT ta -> wfT tb -> wfOption refStar ->
  throwsOnly isDomainMismatch (Elimination.bridge refStar (a, ta) (b, tb) cur).
Proof.
  intros W Wa Wb Wr. unfold Elimination.bridge.
  destruct refStar as [r|]; simpl in Wr.
  - apply throwsOnly_bind; [apply throwsOnly_total, copy_total, Wa|]. intros x _.
    apply throwsOnly_bind; [apply throwsOnly_total, copy_total, Wr|]. intros r' _.
    apply throwsOnly_bind; [apply throwsOnly_total, copy_total, Wb|]. intros o _.
    apply throwsOnly_bind; [apply throwsOnly_total, concat_returns|]. intros ro _.
    apply throwsOnly_bind; [apply throwsOnly_total, concat_returns|]. intros t _.
    apply (linkWithUnion_safe cur a b t W).
  - apply throwsOnly_bind; [apply throwsOnly_total, copy_total, Wa|]. intros x _.
    apply throwsOnly_bind; [apply throwsOnly_total, copy_total, Wb|]. intros o _.
    apply throwsOnly_bind; [apply throwsOnly_total, concat_returns|]. intros t _.
    apply (linkWithUnion_safe cur a b t W).
Qed.

Section BridgeSafe.
Variable nl1 : NodeList.
Variable s : nat.
Variable refStar : option Transition.
Hypothesis W1 : WFG nl1.
Hypothesis Hloop : edge nl1 s s = None.
Hypothesis Wr : wfOption refStar.
Hypothesis We1 : wfEdges nl1.

Lemma bridge_outs_safe (D : nat -> nat -> Prop) (cur : NodeList) (a : nat) (ta : Transition) :
  BridgeInv nl1 s refStar D cur ->
  edge nl1 a s = Some ta ->
  throwsOnly isDomainMismatch
    (foldM (fun nl outEdge => Elimination.bridge refStar (a, ta) outEdge nl)
           (out (getNode nl1 s)) cur).
Proof.
  intros HB Ea.
  apply (throwsOnly_foldM isDomainMismatch
           (fun nl outEdge => Elimination.bridge refStar (a, ta) outEdge nl)
           (fun done c => BridgeInv nl1 s refStar
                            (fun u v => D u v \/ (u = a /\ In v (mapKeys done))) c)
           (out (getNode nl1 s)) [] cur); [| |reflexivity].
  - revert HB. apply BridgeInv_ext. intros u v. simpl. tauto.
  - intros done [b tb] c (rest & Hrest) HP.
    assert (Eb : edge nl1 s b = Some tb).
    { apply mapGet_of_In; [apply (wfg_out nl1 W1 s)|].
      rewrite Hrest. apply in_or_app. right. left. reflexivity. }
    split.
    + apply bridge_safe; [apply (bi_wfg _ _ _ _ _ HP) | apply (We1 a s ta Ea)
                          | apply (We1 s b tb Eb) | exact Wr].
    + intros c' Hret.
      pose proof (BridgeInv_step nl1 s refStar W1 Hloop Wr We1 _ c c' a b ta tb
                    HP Ea Eb Hret) as HB'.
      revert HB'. apply BridgeInv_ext. intros u v.
      rewrite mapKeys_app, in_app_iff. simpl. intuition congruence.
Qed.

Lemma bridge_ins_safe :
  throwsOnly isDomainMismatch
    (foldM (fun nl inEdge =>
              foldM (fun nl outEdge => Elimination.bridge refStar inEdge outEdge nl)
                    (out (getNode nl1 s)) nl)
           (in_ (getNode nl1 s)) nl1).
Proof.
  apply (throwsOnly_foldM isDomainMismatch
           (fun nl inEdge =>
              foldM (fun nl outEdge => Elimination.bridge refStar inEdge outEdge nl)
                    (out (getNode nl1 s)) nl)
           (fun done c => BridgeInv nl1 s refStar
                            (fun u v => In u (mapKeys done)
                                        /\ In v (mapKeys (out (getNode nl1 s)))) c)
           (in_ (getNode nl1 s)) [] nl1); [| |reflexivity].
  - generalize (BridgeInv_start nl1 s refStar W1 We1). apply BridgeInv_ext.
    intros u v. simpl. tauto.
  - intros done [a ta] c (rest & Hrest) HP.
    assert (Ea : edge nl1 a s = Some ta).
    { rewrite <- (edge_in nl1 a s W1). apply mapGet_of_In; [apply (wfg_in nl1 W1 s)|].
      rewrite Hrest. apply in_or_app. right. left. reflexivity. }
    split.
    + apply (bridge_outs_safe _ c a ta HP Ea).
    + intros c' Hret.
      pose proof (bridge_outs nl1 s refStar W1 Hloop Wr We1 _ c c' a ta HP Ea Hret) as HB'.
      revert HB'. apply BridgeInv_ext. intros u v.
      rewrite mapKeys_app, in_app_iff. simpl. intuition congruence.
Qed.
End BridgeSafe.

Lemma removeState_safe (L : Lang) (V : nat -> Prop) (i f : nat)
  (st : Elimination.State) (s : nat) :
  StateInv L V i f st -> throwsOnly isDomainMismatch (Elimination.removeState st s).
Proof.
  destruct st as [nl Rs]. unfold StateInv. simpl. intros HI.
  pose proof (ei_wfg _ _ _ _ _ _ HI) as W. pose proof (ei_wfT _ _ _ _ _ _ HI) as We.
  unfold Elimination.removeState. simpl.
  destruct (unlinkNodes nl s s) as [refTrans nl1] eqn:EU.
  destruct (unlink_loop nl nl1 s refTrans W EU) as (Er & W1 & F1 & _ & _ & E1).
  assert (Hloop : edge nl1 s s = None) by (rewrite E1, !Nat.eqb_refl; reflexivity).
  assert (We1 : wfEdges nl1).
  { intros u v t Huv. rewrite E1 in Huv.
    destruct ((u =? s)%nat && (v =? s)%nat); [discriminate | apply (We u v t Huv)]. }
  apply throwsOnly_bind.
  { destruct refTrans as [r|]; [|apply throwsOnly_Ret].
    apply throwsOnly_bind; [apply throwsOnly_total, star_returns|].
    intros x _. apply throwsOnly_Ret. }
  intros x R.
  destruct (refStar_spec refTrans x (edgeLang nl s s)) as [Wx _]; [| | | exact R |].
  { rewrite Er. destruct (edge nl s s) as [c|] eqn:Ec; [apply (We s s c Ec) | exact I]. }
  { intros c Hc. apply edgeLang_Some. congruence. }
  { intros Hn. apply edgeLang_None. congruence. }
  apply throwsOnly_bind; [apply (bridge_ins_safe nl1 s x W1 Hloop Wx We1)|].
  intros nl2 _. apply throwsOnly_Ret.
Qed.

Lemma minOf_some (iterable : list nat) (costOf : nat -> Z) :
  (0 < length iterable)%nat -> Elimination.minOf iterable costOf <> None.
Proof. destruct iterable; simpl; [lia | discriminate]. Qed.

Lemma mainLoop_safe (L : Lang) (V : nat -> Prop) (i f : nat) (fuel : nat) :
  forall st : Elimination.State,
  StateInv L V i f st -> throwsOnly Benign (Elimination.mainLoop fuel st).
Proof.
  induction fuel as [|fuel IH]; intros st HI.
  - apply throwsOnly_Throw. right. reflexivity.
  - change (throwsOnly Benign
              (if (0 <? length (Elimination.remainingStates st))%nat
               then
                 tbind (Elimination.unwrap
                          (Elimination.minOf (Elimination.remainingStates st)
                             (Elimination.cost (Elimination.nodeList st))))
                   (fun pickedState =>
                    tbind (Elimination.removeState st pickedState)
                      (fun x => let '(affected, st1) := x in
                       tbind (Elimination.trivialOperations (S fuel) st1 affected)
                         (fun st2 => Elimination.mainLoop fuel st2)))
               else Ret st)).
    destruct (0 <? length (Elimination.remainingStates st))%nat eqn:E;
      [|apply throwsOnly_Ret].
    apply Nat.ltb_lt in E.
    apply throwsOnly_bind; [apply throwsOnly_unwrap, minOf_some, E|].
    intros s Rs. apply returns_unwrap, minOf_In in Rs.
    apply throwsOnly_bind; [apply benign_of_mismatch, (removeState_safe L V i f st s HI)|].
    intros [affected st1] R1.
    pose proof (removeState_keeps L V i f st st1 s affected HI Rs R1) as HI1.
    apply throwsOnly_bind; [apply (trivialOperations_safe L V i f (S fuel) st1 affected HI1)|].
    intros st2 R2. apply IH.
    apply (trivialOperations_keeps L V i f (S fuel) st1 st2 affected HI1 R2).
Qed.

(* ================================================================= *)
(** ** The traversals *)

Section DFSSafe.
Context {St : Type}.
Variable next : nat -> St -> TC (list nat * St).
Variable succ : nat -> list nat.
Variable Inv : list nat -> St -> Prop.
Variable P : nat -> Prop.
Variable Q : Error -> Prop.
Hypothesis HQ : Q OutOfFuel.
Hypothesis Hstep : forall n visited st r,
  Inv visited st -> P n -> ~ In n visited -> returns (next n st) r ->
  fst r = succ n /\ Inv (n :: visited) (snd r) /\ Forall P (succ n).
Hypothesis Hsafe : forall n visited st,
  Inv visited st -> P n -> ~ In n visited -> throwsOnly Q (next n st).

Lemma DFSLoop_safe (fuel : nat) : forall visited stack st,
  Inv visited st -> Forall P stack -> throwsOnly Q (DFSLoop next fuel visited stack st).
Proof.
  induction fuel as [|fuel IH]; intros visited stack st HI HP; cbn [DFSLoop].
  - apply throwsOnly_Throw, HQ.
  - destruct stack as [|n stack']; [apply throwsOnly_Ret|].
    inversion HP as [|? ? Pn Pstack]. subst.
    destruct (setHas visited n) eqn:E.
    + apply (IH visited stack' st HI Pstack).
    + apply setHas_not_In in E.
      apply throwsOnly_bind; [apply (Hsafe n visited st HI Pn E)|].
      intros [successors st'] R.
      destruct (Hstep n visited st (successors, st') HI Pn E R) as (Es & HI' & Ps).
      simpl in Es, HI'. subst successors.
      apply (IH (n :: visited) (succ n ++ stack') st' HI').
      apply Forall_app. split; assumption.
Qed.
End DFSSafe.

(** A traversal whose callback does not throw. *)
Lemma DFSLoop_pure_safe {St : Type} (Q : Error -> Prop) (g : nat -> St -> list nat * St)
  (fuel : nat) : forall (visited stack : list nat) (st : St),
  Q OutOfFuel -> throwsOnly Q (DFSLoop (fun n s => Ret (g n s)) fuel visited stack st).
Proof.
  induction fuel as [|fuel IH]; intros visited stack st HQ; cbn [DFSLoop].
  - apply throwsOnly_Throw, HQ.
  - destruct stack as [|n stack']; [apply throwsOnly_Ret|].
    destruct (setHas visited n); [apply IH, HQ|].
    cbn [tbind]. destruct (g n st) as [successors st']. apply IH, HQ.
Qed.

Lemma DFS_pure_safe {St : Type} (Q : Error -> Prop) (g : nat -> St -> list nat * St)
  (fuel start : nat) (st : St) :
  Q OutOfFuel -> throwsOnly Q (DFS (fun n s => Ret (g n s)) fuel start st).
Proof. apply DFSLoop_pure_safe. Qed.

(* ================================================================= *)
(** ** [eliminateStates] *)

(** The states that the first traversal of [eliminateStates] leaves to be
    eliminated. *)
Lemma eliminate_start (L : Lang) (fuel : nat) (nl : NodeList) (f : nat) (x : list nat) :
  Ready L nl f ->
  returns (DFS (fun n remaining =>
                  Ret (mapKeys (out (getNode nl n)),
                       if negb (n =? initial nl)%nat && negb (n =? f)%nat
                       then setAdd remaining n else remaining))
               fuel (initial nl) []) x ->
  exists V, StateInv L V (initial nl) f (Elimination.mkState nl x).
Proof.
  intros [W We Ef Hne Hin Hout HL] R.
  set (i := initial nl) in *.
  destruct (DFS_rule
              (fun n remaining =>
                 Ret (mapKeys (out (getNode nl n)),
                      if negb (n =? i)%nat && negb (n =? f)%nat
                      then setAdd remaining n else remaining))
              (fun n => mapKeys (out (getNode nl n)))
              (fun visited remaining =>
                 forall x, In x remaining <-> In x visited /\ x <> i /\ x <> f)
              (fun _ => True)) with (fuel := fuel) (start := i) (st := @nil nat) (st' := x)
    as (visited & HR & Hi & Hclosed).
  - intros n visited remaining r HInv _ Hn Hr. apply returns_Ret in Hr. subst r. simpl.
    split; [reflexivity|]. split; [|apply Forall_forall; intros; exact I].
    intros y. destruct (negb (n =? i)%nat && negb (n =? f)%nat) eqn:X.
    + apply andb_true_iff in X. rewrite !negb_true_iff, !Nat.eqb_neq in X.
      rewrite setAdd_In, (HInv y). simpl. intuition congruence.
    + rewrite (HInv y). simpl.
      assert (Hn' : n = i \/ n = f).
      { apply andb_false_iff in X. rewrite !negb_false_iff, !Nat.eqb_eq in X. exact X. }
      intuition congruence.
  - exact R.
  - intros y. simpl. tauto.
  - exact I.
  - exists (fun n => In n visited).
    unfold StateInv. simpl. split; try assumption.
    + reflexivity.
    + rewrite (HR i). tauto.
    + rewrite (HR f). tauto.
    + intros n Hn. apply (HR n), Hn.
    + intros u v t Huv Hu Huv'.
      assert (Hv : In v visited).
      { apply (Hclosed u v Hu). apply (mapGet_Some_key _ _ t Huv). }
      destruct (Nat.eq_dec v f) as [-> | Hvf]; [left; reflexivity | right].
      apply (HR v). split; [exact Hv|]. split; [|exact Hvf].
      intros ->. rewrite Hin in Huv. discriminate.
Qed.

Lemma eliminateStates_safe (L : Lang) (fuel : nat) (nl : NodeList) (f : nat) :
  Ready L nl f -> throwsOnly Benign (eliminateStates fuel nl).
Proof.
  intros HR. unfold eliminateStates.
  apply throwsOnly_bind;
    [apply throwsOnly_unwrap; rewrite (rd_finals L nl f HR); discriminate|].
  intros f' Rf. apply returns_unwrap in Rf. rewrite (rd_finals L nl f HR) in Rf.
  injection Rf as <-.
  apply throwsOnly_bind.
  { apply (DFS_pure_safe Benign
             (fun n remaining =>
                (mapKeys (out (getNode nl n)),
                 if negb (n =? initial nl)%nat && negb (n =? f)%nat
                 then setAdd remaining n else remaining))).
    right. reflexivity. }
  intros x R. destruct (eliminate_start L fuel nl f x HR R) as (V & HI).
  apply throwsOnly_bind; [apply (trivialOperations_safe L V (initial nl) f fuel _ x HI)|].
  intros st1 R1.
  pose proof (trivialOperations_keeps L V (initial nl) f fuel _ st1 x HI R1) as HI1.
  apply throwsOnly_bind; [apply (mainLoop_safe L V (initial nl) f fuel st1 HI1)|].
  intros st2 _. apply throwsOnly_Ret.
Qed.

(* ================================================================= *)
(** ** [createNodeList] *)

Lemma setAdd_NoDup (s : list nat) (x : nat) : NoDup s -> NoDup (setAdd s x).
Proof.
  intros H. unfold setAdd. destruct (setHas s x) eqn:E; [exact H|].
  apply setHas_not_In in E. apply NoDup_app; [exact H | repeat constructor; intros [] |].
  intros y Hy [<- | []]. exact (E Hy).
Qed.

Lemma linkNodes_finals (nl nl' : NodeList) (from to : nat) (t : Transition) :
  linkNodes nl from to t = Ok nl' -> finals nl' = finals nl.
Proof.
  unfold linkNodes. destruct (mapHas (out (getNode nl from)) to); [discriminate|].
  intros H. injection H as <-. reflexivity.
Qed.

Lemma translate_finals (n : nat) (st : Build) :
  finals (b_nodeList (snd (translate n st))) = finals (b_nodeList st).
Proof. unfold translate. destruct (cacheGet (b_cache st) n); reflexivity. Qed.

Lemma linkOut_finals (n : nat) (st st' : Build) (e : nat * CharSet) :
  returns (linkOut n st e) st' -> finals (b_nodeList st') = finals (b_nodeList st).
Proof.
  destruct e as [q' cs]. unfold linkOut. intros H.
  pose proof (translate_finals n st) as F1.
  destruct (translate n st) as [from st1].
  pose proof (translate_finals q' st1) as F2.
  destruct (translate q' st1) as [to st2]. simpl in F1, F2.
  tc_step H. tc_step H. tc_step R0. apply linkNodes_finals in R0.
  tc_step H. subst st'. simpl. congruence.
Qed.

Lemma visitState_finals (iter : FAIterator) (n : nat) (st : Build) (r : list nat * Build) :
  returns (visitState iter n st) r ->
  NoDup (finals (b_nodeList st)) -> NoDup (finals (b_nodeList (snd r))).
Proof.
  unfold visitState. intros H Hnd. tc_step H. tc_step H. subst r. simpl.
  assert (G : finals (b_nodeList x)
              = finals (b_nodeList
                  (if isFinal iter n
                   then let '(node, st') := translate n st in
                        mkBuild (setFinals (b_nodeList st')
                                   (setAdd (finals (b_nodeList st')) node)) (b_cache st')
                   else st))).
  { apply (foldM_returns (linkOut n)
             (fun _ cur => finals (b_nodeList cur) = finals (b_nodeList _))
             (sortOut (getOut iter n)) (fun done e cur cur' _ HP Hret =>
                eq_trans (linkOut_finals n cur cur' e Hret) HP) _ x eq_refl R). }
  rewrite G. destruct (isFinal iter n); [|exact Hnd].
  pose proof (translate_finals n st) as F1.
  destruct (translate n st) as [node st1]. simpl in F1 |- *. rewrite F1.
  apply setAdd_NoDup, Hnd.
Qed.

Lemma foldM_snoc {A St : Type} (g : St -> A -> TC St) (done : list A) (x : A) :
  forall st st1 st2,
  returns (foldM g done st) st1 -> returns (g st1 x) st2 ->
  returns (foldM g (done ++ [x]) st) st2.
Proof.
  induction done as [|y done IH]; intros st st1 st2 H1 H2; simpl in *.
  - apply returns_Ret in H1. subst st1. apply returns_bind. exists st2.
    split; [exact H2 | apply returns_Ret; reflexivity].
  - apply returns_bind in H1. destruct H1 as (st' & Hy & H1).
    apply returns_bind. exists st'. split; [exact Hy | apply (IH st' st1 st2 H1 H2)].
Qed.

(** Every final node gets its edge to the new final node. *)
Lemma drain_safe (P : Error -> Prop) (nl1 : NodeList) (tF : nat) (fs : list nat) :
  WFG nl1 -> validNode nl1 tF -> (forall x, In x fs -> validNode nl1 x) ->
  NoDup fs -> (forall u, edge nl1 u tF = None) ->
  throwsOnly P
    (foldM (fun nl n => tbind tc.emptyConcat (fun eps =>
                        liftResult (linkNodes nl n tF (TConcat eps)))) fs nl1).
Proof.
  intros W1 VtF Vfs Hnd Hfree.
  apply (throwsOnly_foldM P _
           (fun done cur =>
              returns (foldM (fun nl n => tbind tc.emptyConcat (fun eps =>
                               liftResult (linkNodes nl n tF (TConcat eps)))) done nl1) cur)
           fs [] nl1); [apply returns_Ret; reflexivity | | reflexivity].
  intros done x cur (rest & Hrest) HP. split.
  - apply throwsOnly_bind; [apply throwsOnly_total; exists []; apply returns_emptyConcat;
                            reflexivity|].
    intros eps _. apply throwsOnly_link.
    destruct (drain_fold nl1 cur tF done W1 VtF) as (_ & _ & E); [| exact HP |].
    { intros y Hy. apply Vfs. rewrite Hrest. apply in_or_app. left. exact Hy. }
    rewrite E, Nat.eqb_refl. simpl.
    assert (Hx : setHas done x = false).
    { apply setHas_not_In. intros Hin. rewrite Hrest in Hnd.
      apply NoDup_remove_2 in Hnd. apply Hnd, in_or_app. left. exact Hin. }
    rewrite Hx. apply Hfree.
  - intros cur' Hret. apply (foldM_snoc _ done x nl1 cur cur' HP Hret).
Qed.

Section CreateSafe.
Variable iter : FAIterator.
Hypothesis Hnormal : NormalSets iter.
Hypothesis Htargets : forall q, Reachable iter q -> NoDup (map fst (getOut iter q)).

Lemma visitState_safe (P : Error -> Prop) (visited : list nat) (st : Build) (n : nat) :
  BInv iter visited st -> Reachable iter n -> ~ In n visited ->
  throwsOnly P (visitState iter n st).
Proof.
  intros HB Hn Hnew.
  destruct (visitState_outcome iter [n] Hnormal) with (visited := visited) (st := st) (n := n)
    as (st' & H); [| exact HB | exact Hnew | left; reflexivity |].
  - intros q [<- | []]. apply Htargets, Hn.
  - apply (throwsOnly_returns P _ (successors iter n, st')).
    exists (Z.of_nat (length (getOut iter n))). exact H.
Qed.

Lemma createNodeList_safe (fuel : nat) : throwsOnly Benign (createNodeList fuel iter).
Proof.
  unfold createNodeList.
  change (createNode newNodeList) with (1%nat, snd (createNode newNodeList)).
  cbv beta iota zeta.
  apply throwsOnly_bind;
    [apply throwsOnly_total; exists []; apply returns_emptyConcat; reflexivity|].
  intros eps Re. apply returns_emptyConcat in Re. subst eps.
  change (initial (snd (createNode newNodeList))) with 0%nat.
  apply throwsOnly_bind.
  { apply throwsOnly_link. rewrite edge_createNode. apply edge_newNodeList. }
  intros x R. tc_step R.
  pose proof (build_start iter x R) as HB0.
  assert (Hf0 : NoDup (finals x)).
  { rewrite (linkNodes_finals _ _ _ _ _ R). simpl. constructor. }
  set (Inv := fun visited st => BInv iter visited st /\ NoDup (finals (b_nodeList st))).
  assert (Hstep : forall n visited st r,
            Inv visited st -> Reachable iter n -> ~ In n visited ->
            returns (visitState iter n st) r ->
            fst r = successors iter n /\ Inv (n :: visited) (snd r)
            /\ Forall (Reachable iter) (successors iter n)).
  { intros n vis st0 r0 [HI Hnd] Pn Hn Hr.
    destruct (visitState_spec iter Hnormal vis st0 n r0 HI Pn Hn Hr) as (H1 & H2 & H3).
    split; [exact H1|]. split; [|exact H3].
    split; [exact H2 | apply (visitState_finals iter n st0 r0 Hr Hnd)]. }
  apply throwsOnly_bind.
  { apply (DFSLoop_safe (visitState iter) (successors iter) Inv (Reachable iter) Benign).
    - right. reflexivity.
    - exact Hstep.
    - intros n vis st0 [HI _] Pn Hn. apply (visitState_safe Benign vis st0 n HI Pn Hn).
    - split; [exact HB0 | exact Hf0].
    - constructor; [apply ReachInitial | constructor]. }
  intros x0 R0.
  destruct (DFS_rule (visitState iter) (successors iter) Inv (Reachable iter) Hstep)
    with (fuel := fuel) (start := fa_initial iter)
         (st := mkBuild x [(fa_initial iter, 1%nat)]) (st' := x0)
    as (visited & [HB Hnd] & Hstart & Hclosed);
    [exact R0 | split; [exact HB0 | exact Hf0] | apply ReachInitial |].
  pose proof HB as [HBI HReach].
  set (nl0 := b_nodeList x0) in *.
  destruct (length (finals nl0) =? 0)%nat eqn:Efin; [apply throwsOnly_Ret|].
  pose proof (bd_wfg _ _ _ _ HBI) as W0. fold nl0 in W0.
  destruct (createNode nl0) as [tF nl1] eqn:EC.
  assert (Enl : nl1 = snd (createNode nl0)) by (rewrite EC; reflexivity).
  assert (EtF : tF = length (heap nl0)).
  { unfold createNode in EC. injection EC as <- _. reflexivity. }
  clear EC.
  assert (E1 : forall u v, edge nl1 u v = edge nl0 u v)
    by (subst nl1; apply edge_createNode).
  assert (L1 : length (heap nl1) = S (length (heap nl0))).
  { subst nl1. unfold createNode. simpl. rewrite length_app. simpl. lia. }
  assert (F1 : finals nl1 = finals nl0) by (subst nl1; reflexivity).
  assert (W1 : WFG nl1) by (subst nl1; apply (WFG_createNode nl0 W0)).
  clear Enl.
  assert (Hrange : forall node, In node (finals nl0) ->
            (1 <= node < length (heap nl0))%nat).
  { intros node Hin. destruct (bd_finals_sound _ _ _ _ HBI node Hin) as (q & _ & Hc).
    apply (bd_range _ _ _ _ HBI q node (cacheGet_In _ _ _ Hc)). }
  apply throwsOnly_bind.
  { rewrite F1. apply (drain_safe Benign nl1 tF (finals nl0) W1).
    - unfold validNode. lia.
    - intros y Hy. pose proof (Hrange y Hy). unfold validNode. lia.
    - exact Hnd.
    - intros u. rewrite E1. destruct (edge nl0 u tF) as [t|] eqn:E; [|reflexivity].
      destruct (wfg_valid nl0 W0 u tF t E) as [_ Hv]. unfold validNode in Hv. lia. }
  intros x1 _.
  apply throwsOnly_bind.
  { apply (DFS_pure_safe Benign
             (fun n alive => (mapKeys (in_ (getNode (setFinals x1 [tF]) n)), setAdd alive n))).
    right. reflexivity. }
  intros alive _.
  apply throwsOnly_bind.
  { apply (DFS_pure_safe Benign
             (fun n dead => (mapKeys (out (getNode (setFinals x1 [tF]) n)),
                             if negb (setHas alive n) then setAdd dead n else dead))).
    right. reflexivity. }
  intros dead _. apply throwsOnly_Ret.
Qed.
End CreateSafe.

(* ================================================================= *)
(** * The elimination ends with one edge *)

(** ** The nodes that an edge joins, and the nodes that are reached *)

Definition linked (nl : NodeList) (u v : nat) : Prop := exists t, edge nl u v = Some t.

Inductive reach (nl : NodeList) (a : nat) : nat -> Prop :=
| reach_refl : reach nl a a
| reach_step (b c : nat) : reach nl a b -> linked nl b c -> reach nl a c.

Lemma reach_trans (nl : NodeList) (a b c : nat) :
  reach nl a b -> reach nl b c -> reach nl a c.
Proof.
  intros Hab Hbc. induction Hbc as [|c d _ IH Hcd]; [exact Hab|].
  apply (reach_step nl a c d IH Hcd).
Qed.

(** A loop is of no use to reach a node. *)
Lemma reach_without_loops (nl nl' : NodeList) (a b : nat) :
  (forall u v, u <> v -> linked nl u v -> linked nl' u v) ->
  reach nl a b -> reach nl' a b.
Proof.
  intros H R. induction R as [|b c _ IH Hbc]; [constructor|].
  destruct (Nat.eq_dec b c) as [<- | Hne]; [exact IH|].
  apply (reach_step nl' a b c IH (H b c Hne Hbc)).
Qed.

(** When the edges through [s] are bridged the other nodes are reached as
    before. *)
Lemma reach_remove (nl nl' : NodeList) (s a b : nat) :
  (forall u v, u <> s -> v <> s ->
     linked nl u v \/ (linked nl u s /\ linked nl s v) -> linked nl' u v) ->
  a <> s -> reach nl a b ->
  (b <> s -> reach nl' a b)
  /\ (b = s -> exists u, u <> s /\ reach nl' a u /\ linked nl u s).
Proof.
  intros H Ha R. induction R as [|b c _ [IH1 IH2] Hbc].
  - split; [intros _; constructor | intros E; congruence].
  - destruct (Nat.eq_dec b s) as [-> | Hb].
    + destruct (IH2 eq_refl) as (u & Hu & Ru & Lu). split.
      * intros Hc. apply (reach_step nl' a u c Ru). apply (H u c Hu Hc). right. tauto.
      * intros ->. exists u. tauto.
    + split.
      * intros Hc. apply (reach_step nl' a b c (IH1 Hb)). apply (H b c Hb Hc). left. exact Hbc.
      * intros ->. exists b. split; [exact Hb|]. split; [apply IH1, Hb | exact Hbc].
Qed.

(** The last edge of a way to another node does not leave that node. *)
Lemma reach_last (nl : NodeList) (a b : nat) :
  reach nl a b -> a <> b -> exists u, u <> b /\ linked nl u b.
Proof.
  intros R. induction R as [|b c _ IH Hbc]; intros Hne; [congruence|].
  destruct (Nat.eq_dec b c) as [<- | Hbc']; [apply IH, Hne|].
  exists b. split; assumption.
Qed.

(** What a traversal along the edges out has visited. *)
Lemma reach_closed (nl : NodeList) (visited : list nat) (a b : nat) :
  (forall n m, In n visited -> In m (mapKeys (out (getNode nl n))) -> In m visited) ->
  In a visited -> reach nl a b -> In b visited.
Proof.
  intros Hclosed Ha R. induction R as [|b c _ IH (t & Hbc)]; [exact Ha|].
  apply (Hclosed b c IH). apply (mapGet_Some_key _ _ t Hbc).
Qed.

(** ** The edges after a trivial operation *)

Lemma relink_linked (nl1 nl' : NodeList) (x y : nat) (t : Transition) :
  WFG nl1 -> relinkNodes nl1 x y t = Ok nl' ->
  forall u v, linked nl' u v <-> linked nl1 u v.
Proof.
  intros W H u v. destruct (relinkNodes_spec nl1 nl' x y t W H) as ((t0 & E0) & _ & _ & E).
  unfold linked. rewrite E. destruct ((u =? x)%nat && (v =? y)%nat) eqn:X; [|tauto].
  apply eqb_pair_true in X. destruct X as [-> ->]. split; intros _; eauto.
Qed.

Lemma fold_relinks (nl1 nl' : NodeList) (x y : nat) (ref other : Transition) (swap : bool) :
  returns
    (if structurallyEqualT (if swap then other else ref) (if swap then ref else other)
     then tbind (Elimination.plus ref) (fun t => liftResult (relinkNodes nl1 x y t))
     else tbind (Elimination.star ref) (fun s' =>
          tbind (if swap then Elimination.concat other s' else Elimination.concat s' other)
            (fun t => liftResult (relinkNodes nl1 x y t)))) nl' ->
  exists t, relinkNodes nl1 x y t = Ok nl'.
Proof.
  intros H.
  destruct (structurallyEqualT (if swap then other else ref) (if swap then ref else other)).
  - tc_inv H. exists x0. exact H.
  - tc_inv H. exists x1. exact H.
Qed.

Lemma removeTrivialReflexiveTransition_linked (nl nl' : NodeList) (s : nat) :
  WFG nl ->
  returns (Elimination.removeTrivialReflexiveTransition nl s) nl' ->
  (forall u v, linked nl' u v -> linked nl u v)
  /\ (forall u v, u <> v -> linked nl u v -> linked nl' u v).
Proof.
  intros W H. unfold Elimination.removeTrivialReflexiveTransition in H.
  assert (Hsame : nl' = nl ->
            (forall u v, linked nl' u v -> linked nl u v)
            /\ (forall u v, u <> v -> linked nl u v -> linked nl' u v)).
  { intros ->. split; intros; assumption. }
  destruct (mapHas (out (getNode nl s)) s) eqn:Hloop;
    [|apply returns_Ret in H; symmetry in H; apply Hsame, H].
  destruct (unlinkNodes nl s s) as [ref nl1] eqn:EU.
  destruct (unlink_loop nl nl1 s ref W EU) as (Er & W1 & F1 & Eout & Ein & E1).
  assert (Hrel : (exists x y t, relinkNodes nl1 x y t = Ok nl') ->
            (forall u v, linked nl' u v -> linked nl u v)
            /\ (forall u v, u <> v -> linked nl u v -> linked nl' u v)).
  { intros (x & y & t & Hr). pose proof (relink_linked nl1 nl' x y t W1 Hr) as Hl.
    split.
    - intros u v Huv. apply Hl in Huv. destruct Huv as (t1 & Huv). rewrite E1 in Huv.
      destruct ((u =? s)%nat && (v =? s)%nat); [discriminate | exists t1; exact Huv].
    - intros u v Hne (t1 & Huv). apply Hl. exists t1. rewrite E1.
      destruct ((u =? s)%nat && (v =? s)%nat) eqn:X; [|exact Huv].
      apply eqb_pair_true in X. destruct X as [-> ->]. congruence. }
  destruct (length (in_ (getNode nl s)) =? 2)%nat eqn:Hin2;
    destruct (length (out (getNode nl s)) =? 2)%nat eqn:Hout2; cbn [andb] in H.
  - tc_step H. tc_step H. destruct x0 as [o b]. tc_step H. destruct x0 as [p a].
    apply Hrel. destruct (structurallyEqualT a x) eqn:E2.
    + tc_inv H. exists p, s, x0. exact H.
    + destruct (fold_relinks nl1 nl' s o x b false H) as (t & Ht). exists s, o, t. exact Ht.
  - tc_step H. tc_step H. destruct x0 as [p a].
    apply Hrel. destruct (fold_relinks nl1 nl' p s x a true H) as (t & Ht).
    exists p, s, t. exact Ht.
  - tc_step H. tc_step H. destruct x0 as [o b].
    apply Hrel. destruct (fold_relinks nl1 nl' s o x b false H) as (t & Ht).
    exists s, o, t. exact Ht.
  - apply returns_Ret in H. symmetry in H. apply Hsame, H.
Qed.

(** ** The invariant *)

(** Every edge joins the initial node, the final node and the states that
    remain, and the initial node reaches these. *)
Record Joined (i f : nat) (nl : NodeList) (R : list nat) : Prop := mkJoined {
  jn_edges : forall u v, linked nl u v -> (u = i \/ In u R) /\ (v = f \/ In v R);
  jn_reach : forall u, In u R -> reach nl i u;
  jn_final : reach nl i f
}.

Lemma Joined_loops (i f : nat) (nl nl' : NodeList) (R : list nat) :
  Joined i f nl R ->
  (forall u v, linked nl' u v -> linked nl u v) ->
  (forall u v, u <> v -> linked nl u v -> linked nl' u v) ->
  Joined i f nl' R.
Proof.
  intros [H1 H2 H3] Hsub Hsup. split.
  - intros u v Huv. apply (H1 u v), Hsub, Huv.
  - intros u Hu. apply (reach_without_loops nl nl' i u Hsup), H2, Hu.
  - apply (reach_without_loops nl nl' i f Hsup), H3.
Qed.

Lemma Joined_remove (i f : nat) (nl nl' : NodeList) (R : list nat) (s : nat) :
  i <> s -> f <> s ->
  Joined i f nl R ->
  (forall u v, linked nl' u v ->
     u <> s /\ v <> s /\ (linked nl u v \/ (linked nl u s /\ linked nl s v))) ->
  (forall u v, u <> s -> v <> s ->
     linked nl u v \/ (linked nl u s /\ linked nl s v) -> linked nl' u v) ->
  Joined i f nl' (setDelete R s).
Proof.
  intros His Hfs [H1 H2 H3] Hsub Hsup. split.
  - intros u v Huv. destruct (Hsub u v Huv) as (Hu & Hv & [Hold | [Hus Hsv]]).
    + destruct (H1 u v Hold) as [Hu' Hv']. rewrite !setDelete_In. tauto.
    + destruct (H1 u s Hus) as [Hu' _]. destruct (H1 s v Hsv) as [_ Hv'].
      rewrite !setDelete_In. tauto.
  - intros u Hu. apply setDelete_In in Hu. destruct Hu as [Hu Hus].
    apply (reach_remove nl nl' s i u Hsup His (H2 u Hu)), Hus.
  - apply (reach_remove nl nl' s i f Hsup His H3), Hfs.
Qed.

(** ** A state with one edge in and one edge out *)

Lemma removeTrivialConcat_shape (nl : NodeList) (Rs : list nat) (s : nat)
  (r : option (list nat)) (st' : Elimination.State) :
  WFG nl -> wfEdges nl ->
  returns (Elimination.removeTrivialConcat (Elimination.mkState nl Rs) s) (r, st') ->
  st' = Elimination.mkState nl Rs
  \/ exists p o a b t',
       (forall u, edge nl u s = if (u =? p)%nat then Some a else None)
       /\ (forall v, edge nl s v = if (v =? o)%nat then Some b else None)
       /\ Elimination.remainingStates st' = setDelete Rs s
       /\ forall u v, edge (Elimination.nodeList st') u v
            = if (u =? p)%nat && (v =? o)%nat then Some t'
              else if (u =? s)%nat && (v =? o)%nat then None
              else if (u =? p)%nat && (v =? s)%nat then None
              else edge nl u v.
Proof.
  intros W We H. unfold Elimination.removeTrivialConcat in H. simpl in H.
  destruct ((length (in_ (getNode nl s)) =? 1)%nat
            && (length (out (getNode nl s)) =? 1)%nat) eqn:E11;
    [|apply returns_Ret in H; injection H as _ <-; left; reflexivity].
  right.
  apply andb_true_iff in E11. rewrite !Nat.eqb_eq in E11. destruct E11 as [Hin1 Hout1].
  tc_step H. tc_step R. destruct x as [p a].
  tc_step H. tc_step R0. destruct x as [o b].
  pose proof (map_of_one _ p a Hin1 R) as Hin.
  pose proof (map_of_one _ o b Hout1 R0) as Hout.
  assert (Hin' : forall u, edge nl u s = if (u =? p)%nat then Some a else None).
  { intros u. rewrite <- (edge_in nl u s W). apply Hin. }
  assert (Hout' : forall v, edge nl s v = if (v =? o)%nat then Some b else None)
    by exact Hout.
  clear Hin Hout. rename Hout' into Hout.
  assert (Ea : edge nl p s = Some a) by (rewrite Hin', Nat.eqb_refl; reflexivity).
  assert (Eb : edge nl s o = Some b) by (rewrite Hout, Nat.eqb_refl; reflexivity).
  destruct (wfg_valid nl W p s a Ea) as [Vp _].
  destruct (wfg_valid nl W s o b Eb) as [_ Vo].
  destruct (unlinkNodes nl p s) as [r1 nl1] eqn:EU1.
  destruct (unlinkNodes_spec nl nl1 p s r1 W EU1) as (_ & U1 & W1 & E1).
  simpl in H.
  destruct (unlinkNodes nl1 s o) as [r2 nl2] eqn:EU2.
  destruct (unlinkNodes_spec nl1 nl2 s o r2 W1 EU2) as (_ & U2 & W2 & E2).
  simpl in H.
  pose proof (sameFrame_trans nl nl1 nl2 (Updated_sameFrame _ _ _ _ _ _ U1)
                (Updated_sameFrame _ _ _ _ _ _ U2)) as F2.
  tc_step H. tc_step H. tc_step H. injection H as _ <-. simpl.
  destruct (concat_spec a b x R1 (We p s a Ea) (We s o b Eb)) as [Wx Lx].
  assert (We2 : wfEdges nl2).
  { intros u v t Huv. rewrite E2, E1 in Huv.
    destruct ((u =? s)%nat && (v =? o)%nat); [discriminate|].
    destruct ((u =? p)%nat && (v =? s)%nat); [discriminate|].
    apply (We u v t Huv). }
  destruct (linkWithUnion_spec nl2 x0 p o x W2 We2) as (W3 & We3 & F3 & t' & Wt' & Lt' & E3);
    [apply (sameFrame_valid nl nl2 p F2), Vp | apply (sameFrame_valid nl nl2 o F2), Vo
    | exact Wx | exact R2 |].
  exists p, o, a, b, t'. split; [exact Hin'|]. split; [exact Hout|].
  split; [reflexivity|]. intros u v. rewrite E3, E2, E1. reflexivity.
Qed.

Lemma removeTrivialConcat_joined (L : Lang) (V : nat -> Prop) (i f : nat)
  (st st' : Elimination.State) (s : nat) (r : option (list nat)) :
  StateInv L V i f st ->
  Joined i f (Elimination.nodeList st) (Elimination.remainingStates st) ->
  In s (Elimination.remainingStates st) ->
  returns (Elimination.removeTrivialConcat st s) (r, st') ->
  Joined i f (Elimination.nodeList st') (Elimination.remainingStates st').
Proof.
  destruct st as [nl Rs]. unfold StateInv. simpl. intros HI HJ Hs H.
  pose proof (ei_wfg _ _ _ _ _ _ HI) as W. pose proof (ei_wfT _ _ _ _ _ _ HI) as We.
  destruct (removeTrivialConcat_shape nl Rs s r st' W We H)
    as [-> | (p & o & a & b & t' & Hin & Hout & ER & Hedge)]; [exact HJ|].
  rewrite ER.
  assert (Hfs : f <> s) by (intros <-; exact (ei_f _ _ _ _ _ _ HI Hs)).
  assert (His : i <> s) by (intros <-; exact (ei_i _ _ _ _ _ _ HI Hs)).
  destruct (reach_last nl i s (jn_reach _ _ _ _ HJ s Hs) His) as (u0 & Hu0 & (t0 & Eu0)).
  assert (Hp : p <> s).
  { intros ->. rewrite Hin in Eu0. apply Nat.eqb_neq in Hu0. rewrite Hu0 in Eu0.
    discriminate. }
  assert (Ho : o <> s).
  { intros ->. specialize (Hin s). rewrite Hout, Nat.eqb_refl in Hin.
    apply Nat.eqb_neq in Hp. rewrite (Nat.eqb_sym s p), Hp in Hin. discriminate. }
  assert (Ea : linked nl p s) by (exists a; rewrite Hin, Nat.eqb_refl; reflexivity).
  assert (Eb : linked nl s o) by (exists b; rewrite Hout, Nat.eqb_refl; reflexivity).
  apply (Joined_remove i f nl (Elimination.nodeList st') Rs s His Hfs HJ).
  - intros u v (t & Huv). rewrite Hedge in Huv.
    destruct ((u =? p)%nat && (v =? o)%nat) eqn:X.
    { apply eqb_pair_true in X. destruct X as [-> ->]. tauto. }
    destruct ((u =? s)%nat && (v =? o)%nat) eqn:X1; [discriminate|].
    destruct ((u =? p)%nat && (v =? s)%nat) eqn:X2; [discriminate|].
    assert (Hu : u <> s).
    { intros ->. rewrite Hout in Huv. destruct (v =? o)%nat; [|discriminate].
      rewrite Nat.eqb_refl in X1. discriminate. }
    assert (Hv : v <> s).
    { intros ->. rewrite Hin in Huv. destruct (u =? p)%nat; [|discriminate].
      rewrite Nat.eqb_refl in X2. discriminate. }
    split; [exact Hu|]. split; [exact Hv|]. left. exists t. exact Huv.
  - intros u v Hu Hv Hcase. unfold linked. rewrite Hedge.
    destruct ((u =? p)%nat && (v =? o)%nat) eqn:X; [eauto|].
    apply Nat.eqb_neq in Hu, Hv. rewrite Hu, Hv, andb_false_r. simpl.
    destruct Hcase as [Huv | [(t1 & Hus) (t2 & Hsv)]]; [exact Huv|].
    rewrite Hin in Hus. rewrite Hout in Hsv.
    destruct (u =? p)%nat; [|discriminate]. destruct (v =? o)%nat; discriminate.
Qed.

(** ** Removing a state *)

Section BridgeCovers.
Variable nl1 : NodeList.
Variable s : nat.
Variable refStar : option Transition.
Hypothesis W1 : WFG nl1.
Hypothesis Hloop : edge nl1 s s = None.
Hypothesis Wr : wfOption refStar.
Hypothesis We1 : wfEdges nl1.

(** The edges that were there and the pairs that have been bridged are
    edges. *)
Definition Covers (D : nat -> nat -> Prop) (cur : NodeList) : Prop :=
  BridgeInv nl1 s refStar D cur
  /\ forall u v, linked nl1 u v \/ D u v -> linked cur u v.

Lemma Covers_ext (D D' : nat -> nat -> Prop) (cur : NodeList) :
  (forall u v, D u v <-> D' u v) -> Covers D cur -> Covers D' cur.
Proof.
  intros Hext [HB HC]. split; [apply (BridgeInv_ext nl1 s refStar D D' cur Hext HB)|].
  intros u v Huv. apply HC. rewrite (Hext u v). exact Huv.
Qed.

Lemma Covers_step (D : nat -> nat -> Prop) (cur cur' : NodeList) (a b : nat)
  (ta tb : Transition) :
  Covers D cur ->
  edge nl1 a s = Some ta -> edge nl1 s b = Some tb ->
  returns (Elimination.bridge refStar (a, ta) (b, tb) cur) cur' ->
  Covers (fun u v => D u v \/ (u = a /\ v = b)) cur'.
Proof.
  intros [HB HC] Ea Eb H.
  split; [apply (BridgeInv_step nl1 s refStar W1 Hloop Wr We1 D cur cur' a b ta tb HB Ea Eb H)|].
  destruct (wfg_valid nl1 W1 a s ta Ea) as [Va _].
  destruct (wfg_valid nl1 W1 s b tb Eb) as [_ Vb].
  destruct (bridge_spec refStar a b ta tb cur cur'
              (bi_wfg _ _ _ _ _ HB) (bi_wfT _ _ _ _ _ HB))
    as (_ & _ & _ & t' & _ & _ & E');
    [apply (sameFrame_valid nl1 cur a (bi_frame _ _ _ _ _ HB)), Va
    | apply (sameFrame_valid nl1 cur b (bi_frame _ _ _ _ _ HB)), Vb
    | apply (We1 a s ta Ea) | apply (We1 s b tb Eb) | exact Wr | exact H |].
  intros u v Huv. unfold linked. rewrite E'.
  destruct ((u =? a)%nat && (v =? b)%nat) eqn:X; [eauto|].
  apply eqb_pair_false in X. apply HC. tauto.
Qed.

Lemma Covers_outs (D : nat -> nat -> Prop) (cur cur' : NodeList) (a : nat) (ta : Transition) :
  Covers D cur ->
  edge nl1 a s = Some ta ->
  returns (foldM (fun nl outEdge => Elimination.bridge refStar (a, ta) outEdge nl)
                 (out (getNode nl1 s)) cur) cur' ->
  Covers (fun u v => D u v \/ (u = a /\ In v (mapKeys (out (getNode nl1 s))))) cur'.
Proof.
  intros HB Ea H.
  apply (Covers_ext
           (fun u v => D u v \/ (u = a /\ In v (mapKeys (out (getNode nl1 s))))));
    [tauto|].
  apply (foldM_returns
           (fun nl outEdge => Elimination.bridge refStar (a, ta) outEdge nl)
           (fun done c => Covers (fun u v => D u v \/ (u = a /\ In v (mapKeys done))) c)
           (out (getNode nl1 s))) with (st := cur); [| | exact H].
  - intros done [b tb] c c' (rest & Hrest) HP Hret.
    assert (Eb : edge nl1 s b = Some tb).
    { apply mapGet_of_In; [apply (wfg_out nl1 W1 s)|].
      rewrite Hrest. apply in_or_app. right. left. reflexivity. }
    pose proof (Covers_step _ c c' a b ta tb HP Ea Eb Hret) as HB'.
    revert HB'. apply Covers_ext. intros u v.
    rewrite mapKeys_app, in_app_iff. simpl. intuition congruence.
  - revert HB. apply Covers_ext. intros u v. simpl. tauto.
Qed.

Lemma Covers_ins (nl2 : NodeList) :
  returns (foldM (fun nl inEdge =>
                    foldM (fun nl outEdge => Elimination.bridge refStar inEdge outEdge nl)
                          (out (getNode nl1 s)) nl)
                 (in_ (getNode nl1 s)) nl1) nl2 ->
  Covers (fun u v => In u (mapKeys (in_ (getNode nl1 s)))
                     /\ In v (mapKeys (out (getNode nl1 s)))) nl2.
Proof.
  intros H.
  apply (foldM_returns
           (fun nl inEdge =>
              foldM (fun nl outEdge => Elimination.bridge refStar inEdge outEdge nl)
                    (out (getNode nl1 s)) nl)
           (fun done c => Covers (fun u v => In u (mapKeys done)
                                   /\ In v (mapKeys (out (getNode nl1 s)))) c)
           (in_ (getNode nl1 s))) with (st := nl1); [| | exact H].
  - intros done [a ta] c c' (rest & Hrest) HP Hret.
    assert (Ea : edge nl1 a s = Some ta).
    { rewrite <- (edge_in nl1 a s W1). apply mapGet_of_In; [apply (wfg_in nl1 W1 s)|].
      rewrite Hrest. apply in_or_app. right. left. reflexivity. }
    pose proof (Covers_outs _ c c' a ta HP Ea Hret) as HB'.
    revert HB'. apply Covers_ext. intros u v.
    rewrite mapKeys_app, in_app_iff. simpl. intuition congruence.
  - split.
    + generalize (BridgeInv_start nl1 s refStar W1 We1). apply BridgeInv_ext.
      intros u v. simpl. tauto.
    + intros u v [Huv | [[] _]]. exact Huv.
Qed.
End BridgeCovers.

Lemma removeState_linked (L : Lang) (V : nat -> Prop) (i f : nat)
  (st st' : Elimination.State) (s : nat) (affected : list nat) :
  StateInv L V i f st ->
  returns (Elimination.removeState st s) (affected, st') ->
  Elimination.remainingStates st' = setDelete (Elimination.remainingStates st) s
  /\ (forall u v, linked (Elimination.nodeList st') u v ->
        u <> s /\ v <> s
        /\ (linked (Elimination.nodeList st) u v
            \/ (linked (Elimination.nodeList st) u s /\ linked (Elimination.nodeList st) s v)))
  /\ (forall u v, u <> s -> v <> s ->
        linked (Elimination.nodeList st) u v
        \/ (linked (Elimination.nodeList st) u s /\ linked (Elimination.nodeList st) s v) ->
        linked (Elimination.nodeList st') u v).
Proof.
  destruct st as [nl Rs]. unfold StateInv. simpl. intros HI H.
  pose proof (ei_wfg _ _ _ _ _ _ HI) as W. pose proof (ei_wfT _ _ _ _ _ _ HI) as We.
  unfold Elimination.removeState in H. simpl in H.
  destruct (unlinkNodes nl s s) as [refTrans nl1] eqn:EU.
  destruct (unlink_loop nl nl1 s refTrans W EU) as (Er & W1 & F1 & _ & _ & E1).
  tc_step H. tc_step H. tc_step H. injection H as _ <-. simpl.
  assert (Hloop : edge nl1 s s = None) by (rewrite E1, !Nat.eqb_refl; reflexivity).
  assert (We1 : wfEdges nl1).
  { intros u v t Huv. rewrite E1 in Huv.
    destruct ((u =? s)%nat && (v =? s)%nat); [discriminate | apply (We u v t Huv)]. }
  destruct (refStar_spec refTrans x (edgeLang nl s s)) as [Wx Lx]; [| | | exact R |].
  { rewrite Er. destruct (edge nl s s) as [c|] eqn:Ec; [apply (We s s c Ec) | exact I]. }
  { intros c Hc. apply edgeLang_Some. congruence. }
  { intros Hn. apply edgeLang_None. congruence. }
  destruct (Covers_ins nl1 s x W1 Hloop Wx We1 x0 R0) as [HB HC].
  destruct HB as [W2 We2 F2 Hin2 Hout2 HL2 Hedges2].
  destruct (unlink_state x0 s W2) as (W4 & F4 & E4).
  set (nl4 := unlinkAll _ (map (fun outState => (s, outState)) _)) in *.
  assert (Hold : forall u v, u <> s -> v <> s -> edge nl1 u v = edge nl u v).
  { intros u v Hu Hv. rewrite E1. apply Nat.eqb_neq in Hu. rewrite Hu. reflexivity. }
  assert (Hins : forall u, In u (mapKeys (in_ (getNode nl1 s))) <-> u <> s /\ linked nl u s).
  { intros u. split.
    - intros Hu. apply mapGet_key in Hu. destruct Hu as (t & Hu).
      rewrite (edge_in nl1 u s W1) in Hu.
      assert (Hus : u <> s) by (intros ->; congruence).
      split; [exact Hus|]. exists t. rewrite E1 in Hu.
      apply Nat.eqb_neq in Hus. rewrite Hus in Hu. exact Hu.
    - intros [Hus (t & Hu)]. apply (mapGet_Some_key _ _ t).
      rewrite (edge_in nl1 u s W1), E1. apply Nat.eqb_neq in Hus. rewrite Hus. exact Hu. }
  assert (Houts : forall v, In v (mapKeys (out (getNode nl1 s))) <-> v <> s /\ linked nl s v).
  { intros v. split.
    - intros Hv. apply mapGet_key in Hv. destruct Hv as (t & Hv).
      change (edge nl1 s v = Some t) in Hv.
      assert (Hvs : v <> s) by (intros ->; congruence).
      split; [exact Hvs|]. exists t. rewrite E1 in Hv.
      apply Nat.eqb_neq in Hvs. rewrite Hvs, andb_false_r in Hv. exact Hv.
    - intros [Hvs (t & Hv)]. apply (mapGet_Some_key _ _ t).
      change (edge nl1 s v = Some t). rewrite E1. apply Nat.eqb_neq in Hvs.
      rewrite Hvs, andb_false_r. exact Hv. }
  split; [reflexivity|]. split.
  - intros u v (t & Huv). rewrite E4 in Huv.
    destruct (u =? s)%nat eqn:X; [discriminate|].
    destruct (v =? s)%nat eqn:Y; [discriminate|]. simpl in Huv.
    apply Nat.eqb_neq in X, Y. split; [exact X|]. split; [exact Y|].
    destruct (Hedges2 u v t Huv) as [(t0 & H0) | [Hu Hv]].
    + left. exists t0. rewrite <- (Hold u v X Y). exact H0.
    + right. split; [apply (Hins u), Hu | apply (Houts v), Hv].
  - intros u v Hu Hv Hcase. unfold linked. rewrite E4.
    pose proof Hu as Hu'. pose proof Hv as Hv'.
    apply Nat.eqb_neq in Hu', Hv'. rewrite Hu', Hv'. simpl.
    apply HC. destruct Hcase as [(t & Huv) | [Hus Hsv]].
    + left. exists t. rewrite (Hold u v Hu Hv). exact Huv.
    + right. split; [apply (Hins u) | apply (Houts v)]; tauto.
Qed.

Section JoinedLoops.
Variable L : Lang.
Variable V : nat -> Prop.
Variables i f : nat.

(** The invariant of the loops of [eliminateStates]. *)
Definition JoinedInv (st : Elimination.State) : Prop :=
  StateInv L V i f st
  /\ Joined i f (Elimination.nodeList st) (Elimination.remainingStates st).

Lemma processState_joined (acc acc' : Elimination.State * list nat) (s : nat) :
  JoinedInv (fst acc) ->
  returns (Elimination.processState acc s) acc' ->
  JoinedInv (fst acc').
Proof.
  intros [HI HJ] H. split; [apply (processState_keeps L V i f acc acc' s HI H)|].
  destruct acc as [[nl Rs] newToProcess]. unfold StateInv in HI. simpl in HI, HJ, H.
  destruct (setHas Rs s) eqn:E; simpl in H;
    [|apply returns_Ret in H; subst acc'; exact HJ].
  apply setHas_In in E.
  tc_step H. tc_step H. destruct x0 as [affected st'].
  pose proof (removeTrivialReflexiveTransition_keeps L V i f nl x Rs s HI E R) as HI1.
  destruct (removeTrivialReflexiveTransition_linked nl x s (ei_wfg _ _ _ _ _ _ HI) R)
    as [Hsub Hsup].
  pose proof (Joined_loops i f nl x Rs HJ Hsub Hsup) as HJ1.
  pose proof (removeTrivialConcat_joined L V i f (Elimination.mkState x Rs) st' s affected
                HI1 HJ1 E R0) as HJ2.
  destruct affected as [states|]; apply returns_Ret in H; subst acc'; exact HJ2.
Qed.

Lemma trivialOperations_joined (fuel : nat) :
  forall (st st' : Elimination.State) (toProcess : list nat),
  JoinedInv st ->
  returns (Elimination.trivialOperations fuel st toProcess) st' ->
  JoinedInv st'.
Proof.
  induction fuel as [|fuel IH]; intros st st' toProcess HI H; simpl in H.
  - destruct (returns_Throw _ _ H).
  - destruct (0 <? length toProcess)%nat;
      [|apply returns_Ret in H; subst st'; exact HI].
    tc_step H. destruct x as [st1 newToProcess].
    apply (IH st1 st' newToProcess); [|exact H].
    apply (foldM_returns Elimination.processState
             (fun _ acc => JoinedInv (fst acc)) toProcess) with (st := (st, []))
      (st' := (st1, newToProcess)); [| exact HI | exact R].
    intros done x acc acc' _ HP Hret. apply (processState_joined acc acc' x HP Hret).
Qed.

Lemma removeState_joined (st st' : Elimination.State) (s : nat) (affected : list nat) :
  JoinedInv st ->
  In s (Elimination.remainingStates st) ->
  returns (Elimination.removeState st s) (affected, st') ->
  JoinedInv st'.
Proof.
  intros [HI HJ] Hs H. split; [apply (removeState_keeps L V i f st st' s affected HI Hs H)|].
  destruct (removeState_linked L V i f st st' s affected HI H) as (ER & Hsub & Hsup).
  rewrite ER.
  apply (Joined_remove i f (Elimination.nodeList st) (Elimination.nodeList st')
           (Elimination.remainingStates st) s); try assumption.
  - intros <-. exact (ei_i _ _ _ _ _ _ HI Hs).
  - intros <-. exact (ei_f _ _ _ _ _ _ HI Hs).
Qed.

Lemma mainLoop_joined (fuel : nat) :
  forall st st' : Elimination.State,
  JoinedInv st ->
  returns (Elimination.mainLoop fuel st) st' ->
  JoinedInv st' /\ Elimination.remainingStates st' = [].
Proof.
  induction fuel as [|fuel IH]; intros st st' HI H.
  - destruct (returns_Throw _ _ H).
  - change (returns
              (if (0 <? length (Elimination.remainingStates st))%nat
               then
                 tbind (Elimination.unwrap
                          (Elimination.minOf (Elimination.remainingStates st)
                             (Elimination.cost (Elimination.nodeList st))))
                   (fun pickedState =>
                    tbind (Elimination.removeState st pickedState)
                      (fun x => let '(affected, st1) := x in
                       tbind (Elimination.trivialOperations (S fuel) st1 affected)
                         (fun st2 => Elimination.mainLoop fuel st2)))
               else Ret st) st') in H.
    destruct (0 <? length (Elimination.remainingStates st))%nat eqn:E.
    + tc_step H. tc_step R. apply minOf_In in R.
      tc_step H. destruct x0 as [affected st1]. tc_step H.
      apply (IH x0 st'); [|exact H].
      apply (trivialOperations_joined (S fuel) st1 x0 affected); [|exact R1].
      apply (removeState_joined st st1 x affected HI R R0).
    + apply returns_Ret in H. subst st'. split; [exact HI|].
      apply Nat.ltb_ge in E. destruct (Elimination.remainingStates st); [reflexivity|].
      simpl in E. lia.
Qed.
End JoinedLoops.

(** ** [eliminateStates] *)

(** What [createNodeList] hands over, with the nodes reached. *)
Record Connected (nl : NodeList) (f : nat) : Prop := mkConnected {
  cn_sources : forall u v, linked nl u v -> reach nl (initial nl) u;
  cn_final : reach nl (initial nl) f
}.

Lemma eliminate_start_joined (L : Lang) (fuel : nat) (nl : NodeList) (f : nat)
  (x : list nat) :
  Ready L nl f -> Connected nl f ->
  returns (DFS (fun n remaining =>
                  Ret (mapKeys (out (getNode nl n)),
                       if negb (n =? initial nl)%nat && negb (n =? f)%nat
                       then setAdd remaining n else remaining))
               fuel (initial nl) []) x ->
  exists V, JoinedInv L V (initial nl) f (Elimination.mkState nl x).
Proof.
  intros [W We Ef Hne Hin Hout HL] [Hsrc Hfin] R.
  set (i := initial nl) in *.
  destruct (DFS_rule
              (fun n remaining =>
                 Ret (mapKeys (out (getNode nl n)),
                      if negb (n =? i)%nat && negb (n =? f)%nat
                      then setAdd remaining n else remaining))
              (fun n => mapKeys (out (getNode nl n)))
              (fun visited remaining =>
                 (forall x, In x remaining <-> In x visited /\ x <> i /\ x <> f)
                 /\ forall x, In x visited -> reach nl i x)
              (fun n => reach nl i n)) with (fuel := fuel) (start := i) (st := @nil nat)
                                            (st' := x)
    as (visited & [HR Hsound] & Hi & Hclosed).
  - intros n visited remaining r [HInv Hs] Pn Hn Hr. apply returns_Ret in Hr. subst r.
    simpl. split; [reflexivity|]. split; [split|].
    + intros y. destruct (negb (n =? i)%nat && negb (n =? f)%nat) eqn:X.
      * apply andb_true_iff in X. rewrite !negb_true_iff, !Nat.eqb_neq in X.
        rewrite setAdd_In, (HInv y). simpl. intuition congruence.
      * rewrite (HInv y). simpl.
        assert (Hn' : n = i \/ n = f).
        { apply andb_false_iff in X. rewrite !negb_false_iff, !Nat.eqb_eq in X. exact X. }
        intuition congruence.
    + intros y [<- | Hy]; [exact Pn | apply Hs, Hy].
    + apply Forall_forall. intros m Hm. apply mapGet_key in Hm. destruct Hm as (t & Hm).
      apply (reach_step nl i n m Pn). exists t. exact Hm.
  - exact R.
  - split; [intros y; simpl; tauto | intros y []].
  - constructor.
  - exists (fun n => In n visited).
    assert (Hvis : forall y, reach nl i y -> In y visited).
    { intros y Hy. apply (reach_closed nl visited i y Hclosed Hi Hy). }
    split.
    + unfold StateInv. simpl. split; try assumption.
      * reflexivity.
      * rewrite (HR i). tauto.
      * rewrite (HR f). tauto.
      * intros n Hn. apply (HR n), Hn.
      * intros u v t Huv Hu Huv'.
        assert (Hv : In v visited).
        { apply (Hclosed u v Hu). apply (mapGet_Some_key _ _ t Huv). }
        destruct (Nat.eq_dec v f) as [-> | Hvf]; [left; reflexivity | right].
        apply (HR v). split; [exact Hv|]. split; [|exact Hvf].
        intros ->. rewrite Hin in Huv. discriminate.
    + simpl. split.
      * intros u v Huv. pose proof (Hsrc u v Huv) as Ru.
        pose proof (reach_step nl i u v Ru Huv) as Rv. destruct Huv as (t & Huv).
        split.
        -- destruct (Nat.eq_dec u i) as [-> | Hui]; [left; reflexivity | right].
           apply (HR u). split; [apply Hvis, Ru|]. split; [exact Hui|].
           intros ->. rewrite Hout in Huv. discriminate.
        -- destruct (Nat.eq_dec v f) as [-> | Hvf]; [left; reflexivity | right].
           apply (HR v). split; [apply Hvis, Rv|]. split; [|exact Hvf].
           intros ->. rewrite Hin in Huv. discriminate.
      * intros u Hu. apply Hsound, (HR u), Hu.
      * exact Hfin.
Qed.

(** The elimination leaves the edge from the initial to the final node and
    no other edge. *)
Lemma eliminateStates_one_edge (L : Lang) (fuel : nat) (nl nl' : NodeList) (f : nat) :
  Ready L nl f -> Connected nl f ->
  returns (eliminateStates fuel nl) nl' ->
  firstOf (finals nl') = Some f
  /\ initial nl' = initial nl
  /\ length (in_ (getNode nl' f)) = 1%nat
  /\ mapHas (in_ (getNode nl' f)) (initial nl) = true.
Proof.
  intros HR HC H. pose proof HR as [_ _ Ef _ _ _ _]. unfold eliminateStates in H.
  tc_step H. tc_step R. rewrite Ef in R. injection R as <-.
  tc_step H. tc_step H. tc_step H. tc_step H. subst nl'.
  destruct (eliminate_start_joined L fuel nl f x HR HC R) as (V & HI).
  pose proof (trivialOperations_joined L V (initial nl) f fuel _ x0 x HI R0) as HI1.
  destruct (mainLoop_joined L V (initial nl) f fuel x0 x1 HI1 R1) as [[HE HJ] Hempty].
  unfold StateInv in HE. rewrite Hempty in HE, HJ.
  set (nl' := Elimination.nodeList x1) in *. set (i := initial nl) in *.
  pose proof (ei_wfg _ _ _ _ _ _ HE) as W.
  split; [apply (ei_finals _ _ _ _ _ _ HE)|].
  split; [apply (ei_initial _ _ _ _ _ _ HE)|].
  assert (Hfrom : forall u, linked nl' u f -> u = i).
  { intros u Hu. destruct (jn_edges _ _ _ _ HJ u f Hu) as [[-> | []] _]. reflexivity. }
  destruct (reach_last nl' i f (jn_final _ _ _ _ HJ) (ei_ne _ _ _ _ _ _ HE))
    as (u & _ & Hu).
  pose proof (Hfrom u Hu) as ->. destruct Hu as (t & Hif).
  rewrite <- (edge_in nl' i f W) in Hif.
  split; [|apply mapHas_true; exists t; exact Hif].
  pose proof (wfg_in nl' W f) as Hnd.
  assert (Hkeys : forall k, In k (mapKeys (in_ (getNode nl' f))) -> k = i).
  { intros k Hk. apply mapGet_key in Hk. destruct Hk as (t' & Hk).
    rewrite (edge_in nl' k f W) in Hk. apply Hfrom. exists t'. exact Hk. }
  apply mapGet_Some_key in Hif. unfold mapKeys in *.
  rewrite <- (length_map fst).
  destruct (map fst (in_ (getNode nl' f))) as [|k1 [|k2 ks]]; [destruct Hif | reflexivity|].
  exfalso. inversion Hnd as [|? ? Hnot _]. subst. apply Hnot.
  rewrite (Hkeys k1), (Hkeys k2); [left; reflexivity | right; left; reflexivity
                                   | left; reflexivity].
Qed.

(** ** [createNodeList] *)

Lemma reach_restrict (nl nl' : NodeList) (K : nat -> Prop) (a b : nat) :
  (forall x y, linked nl x y -> K y -> K x /\ linked nl' x y) ->
  reach nl a b -> K b -> reach nl' a b.
Proof.
  intros H R. induction R as [|b c _ IH Hbc]; intros Kb; [constructor|].
  destruct (H b c Hbc Kb) as [Kb' Hbc']. apply (reach_step nl' a b c (IH Kb') Hbc').
Qed.

Section BuiltReach.
Variable iter : FAIterator.
Variable visited : list nat.
Variable st : Build.
Hypothesis HB : BInv iter visited st.
Hypothesis Hclosed : forall n m, In n visited -> In m (successors iter n) -> In m visited.
Hypothesis Hstart : In (fa_initial iter) visited.

Lemma reachable_visited (q : nat) : Reachable iter q -> In q visited.
Proof.
  induction 1 as [|q q' cs _ IH Hin]; [exact Hstart|].
  apply (Hclosed q q' IH), successors_In. exists cs. exact Hin.
Qed.

Lemma built_reach (q : nat) :
  Reachable iter q ->
  forall u, cacheGet (b_cache st) q = Some u -> reach (b_nodeList st) 0 u.
Proof.
  destruct HB as [HBI _].
  induction 1 as [|q q' cs Hq IH Hin]; intros u Hu.
  - rewrite (bd_start _ _ _ _ HBI) in Hu. injection Hu as <-.
    apply (reach_step _ 0%nat 0%nat 1%nat); [constructor|].
    exists (TConcat []). rewrite (bd_source _ _ _ _ HBI). reflexivity.
  - destruct (bd_complete _ _ _ _ HBI q q' cs) as (u0 & v0 & C0 & C1 & E).
    { split; [apply reachable_visited, Hq | exact Hin]. }
    rewrite C1 in Hu. injection Hu as <-.
    apply (reach_step _ 0%nat u0 v0 (IH u0 C0)). eexists. exact E.
Qed.

Lemma built_sources (u v : nat) :
  linked (b_nodeList st) u v -> reach (b_nodeList st) 0 u.
Proof.
  destruct HB as [HBI HReach]. intros (t & Huv).
  destruct (Nat.eq_dec u 0) as [-> | Hu]; [constructor|].
  destruct (bd_sound _ _ _ _ HBI u v t Huv Hu) as (q & q' & cs & C0 & _ & [Hq _] & _).
  apply (built_reach q (HReach q Hq) u C0).
Qed.

Lemma built_finals (node : nat) :
  In node (finals (b_nodeList st)) -> reach (b_nodeList st) 0 node.
Proof.
  destruct HB as [HBI HReach]. intros Hin.
  destruct (bd_finals_sound _ _ _ _ HBI node Hin) as (q & [Hq _] & C0).
  apply (built_reach q (HReach q Hq) node C0).
Qed.
End BuiltReach.

Lemma createNodeList_connected (iter : FAIterator) (fuel : nat) (nl : NodeList) (f : nat) :
  NormalSets iter ->
  returns (createNodeList fuel iter) (Some nl) ->
  firstOf (finals nl) = Some f ->
  Connected nl f.
Proof.
  intros Hnormal H Hf. unfold createNodeList in H.
  change (createNode newNodeList) with (1%nat, snd (createNode newNodeList)) in H.
  cbv beta iota zeta in H.
  tc_step H. apply returns_emptyConcat in R. subst x.
  tc_step H. tc_step R.
  change (initial (snd (createNode newNodeList))) with 0%nat in R.
  pose proof (build_start iter x R) as HB0.
  tc_step H.
  destruct (DFS_rule (visitState iter) (successors iter) (BInv iter) (Reachable iter))
    with (fuel := fuel) (start := fa_initial iter)
         (st := mkBuild x [(fa_initial iter, 1%nat)]) (st' := x0)
    as (visited & HB & Hstart & Hclosed);
    [| exact R0 | exact HB0 | apply ReachInitial |].
  { intros n vis st0 r0 HI Pn Hn Hr.
    apply (visitState_spec iter Hnormal vis st0 n r0 HI Pn Hn Hr). }
  clear R0 HB0 R. pose proof HB as [HBI HReach].
  pose proof (built_sources iter visited x0 HB Hclosed Hstart) as Hsrc0.
  pose proof (built_finals iter visited x0 HB Hclosed Hstart) as Hfin0.
  set (nl0 := b_nodeList x0) in *.
  destruct (length (finals nl0) =? 0)%nat eqn:Efin;
    [apply returns_Ret in H; discriminate|].
  pose proof (bd_wfg _ _ _ _ HBI) as W0. fold nl0 in W0.
  assert (Hinit0 : initial nl0 = 0%nat) by apply (bd_initial _ _ _ _ HBI).
  destruct (createNode nl0) as [tF nl1] eqn:EC.
  assert (Enl : nl1 = snd (createNode nl0)) by (rewrite EC; reflexivity).
  assert (EtF : tF = length (heap nl0)).
  { unfold createNode in EC. injection EC as <- _. reflexivity. }
  clear EC.
  assert (E1 : forall u v, edge nl1 u v = edge nl0 u v)
    by (subst nl1; apply edge_createNode).
  assert (L1 : length (heap nl1) = S (length (heap nl0))).
  { subst nl1. unfold createNode. simpl. rewrite length_app. simpl. lia. }
  assert (F1 : finals nl1 = finals nl0) by (subst nl1; reflexivity).
  assert (I1 : initial nl1 = initial nl0) by (subst nl1; reflexivity).
  assert (W1 : WFG nl1) by (subst nl1; apply (WFG_createNode nl0 W0)).
  clear Enl.
  assert (Hrange : forall node, In node (finals nl0) ->
            (1 <= node < length (heap nl0))%nat).
  { intros node Hin. destruct (bd_finals_sound _ _ _ _ HBI node Hin) as (q & _ & Hc).
    apply (bd_range _ _ _ _ HBI q node (cacheGet_In _ _ _ Hc)). }
  tc_step H. rewrite F1 in R.
  destruct (drain_fold nl1 x1 tF (finals nl0) W1) as (W2 & F2 & E2);
    [unfold validNode; lia
    | intros y Hy; pose proof (Hrange y Hy); unfold validNode; lia
    | exact R |].
  destruct F2 as (L2 & I2 & Ff2).
  set (nl3 := setFinals x1 [tF]) in *.
  assert (W3 : WFG nl3) by apply (WFG_setFinals x1 [tF] W2).
  assert (E3 : forall u v, edge nl3 u v
            = if (v =? tF)%nat && setHas (finals nl0) u then Some (TConcat [])
              else edge nl0 u v).
  { intros u v. unfold nl3. rewrite edge_setFinals, E2, E1. reflexivity. }
  assert (Hi3 : initial nl3 = 0%nat).
  { unfold nl3. simpl. rewrite I2, I1. exact Hinit0. }
  tc_step H. tc_step H. tc_step H. injection H as <-.
  destruct (DFS_rule
              (fun n alive => Ret (mapKeys (in_ (getNode nl3 n)), setAdd alive n))
              (fun n => mapKeys (in_ (getNode nl3 n)))
              (fun vis alive => forall y, In y alive <-> In y vis)
              (fun _ => True))
    with (fuel := fuel) (start := tF) (st := @nil nat) (st' := x2)
    as (aliveV & Halive & HaliveF & HaliveC);
    [| exact R0 | intros y; simpl; tauto | exact I |].
  { intros n vis alive r0 HI _ Hn Hr. apply returns_Ret in Hr. subst r0. simpl.
    split; [reflexivity|]. split; [|apply Forall_forall; intros; exact I].
    intros y. rewrite setAdd_In, (HI y). simpl. intuition congruence. }
  destruct (DFS_rule
              (fun n dead => Ret (mapKeys (out (getNode nl3 n)),
                                  if negb (setHas x2 n) then setAdd dead n else dead))
              (fun n => mapKeys (out (getNode nl3 n)))
              (fun vis dead => (forall y, In y dead -> ~ In y x2)
                               /\ forall y, In y vis -> In y x2 \/ In y dead)
              (fun _ => True))
    with (fuel := fuel) (start := initial nl3) (st := @nil nat) (st' := x3)
    as (deadV & [Hdead Hsplit] & HdeadS & HdeadC);
    [| exact R1 | split; [intros y [] | intros y []] | exact I |].
  { intros n vis dead r0 [HI HS] _ Hn Hr. apply returns_Ret in Hr. subst r0. simpl.
    split; [reflexivity|]. split; [|apply Forall_forall; intros; exact I].
    destruct (setHas x2 n) eqn:X; simpl.
    - apply setHas_In in X. split; [exact HI|].
      intros y [<- | Hy]; [left; exact X | apply HS, Hy].
    - apply setHas_not_In in X. split.
      + intros y Hy. apply setAdd_In in Hy. destruct Hy as [-> | Hy]; [exact X|].
        apply (HI y Hy).
      + intros y [<- | Hy]; [right; apply setAdd_In; left; reflexivity|].
        destruct (HS y Hy) as [Ha | Hd]; [left; exact Ha|].
        right. apply setAdd_In. right. exact Hd. }
  destruct (fold_isolate_spec x3 nl3 W3) as (W4 & (L4 & I4 & Ff4) & E4).
  set (nl4 := fold_left isolate x3 nl3) in *.
  assert (Hf4 : f = tF).
  { rewrite Ff4 in Hf. unfold nl3 in Hf. simpl in Hf. congruence. }
  subst f.
  assert (Hi4 : initial nl4 = 0%nat) by (rewrite I4; exact Hi3).
  rewrite Hi3 in HdeadS.
  (* the nodes of the graph with the new final node *)
  assert (Hmono : forall u v, linked nl0 u v -> linked nl3 u v).
  { intros u v (t & Huv). unfold linked. rewrite E3.
    destruct ((v =? tF)%nat && setHas (finals nl0) u); eauto. }
  assert (Hup : forall u, reach nl0 0 u -> reach nl3 0 u).
  { intros u. apply reach_without_loops. intros a b _. apply Hmono. }
  assert (Hsrc3 : forall u v, linked nl3 u v -> reach nl3 0 u).
  { intros u v (t & Huv). rewrite E3 in Huv.
    destruct ((v =? tF)%nat && setHas (finals nl0) u) eqn:X.
    - apply andb_true_iff in X. destruct X as [_ X]. apply setHas_In in X.
      apply Hup, Hfin0, X.
    - apply Hup, (Hsrc0 u v). exists t. exact Huv. }
  assert (Hvisited : forall y, reach nl3 0 y -> In y deadV).
  { intros y. apply (reach_closed nl3 deadV 0 y HdeadC HdeadS). }
  assert (Halive' : forall y, In y x2 -> setHas x3 y = false).
  { intros y Hy. apply setHas_not_In. intros Hd. exact (Hdead y Hd Hy). }
  assert (Hback : forall a b, linked nl3 a b -> In b x2 -> In a x2 /\ linked nl4 a b).
  { intros a b (t & Hab) Hb.
    assert (Ha : In a x2).
    { apply (Halive a). apply (HaliveC b a); [apply (Halive b), Hb|].
      rewrite <- (edge_in nl3 a b W3) in Hab. apply (mapGet_Some_key _ _ _ Hab). }
    split; [exact Ha|]. exists t. rewrite E4, (Halive' a Ha), (Halive' b Hb). exact Hab. }
  split; rewrite Hi4.
  - intros u v (t & Huv). rewrite E4 in Huv.
    destruct (setHas x3 u) eqn:Du; [discriminate|].
    destruct (setHas x3 v) eqn:Dv; [discriminate|]. simpl in Huv.
    assert (L3 : linked nl3 u v) by (exists t; exact Huv).
    pose proof (Hsrc3 u v L3) as Ru.
    assert (Av : In v x2).
    { destruct (Hsplit v (Hvisited v (reach_step nl3 0%nat u v Ru L3))) as [A | D];
        [exact A|].
      apply setHas_not_In in Dv. contradiction. }
    apply (reach_restrict nl3 nl4 (fun y => In y x2) 0%nat u Hback Ru).
    apply (Hback u v L3 Av).
  - assert (Hsome : exists node, In node (finals nl0)).
    { destruct (finals nl0) as [|node fs]; [discriminate|].
      exists node. left. reflexivity. }
    destruct Hsome as (node & Hn).
    assert (L3 : linked nl3 node tF).
    { exists (TConcat []). rewrite E3, Nat.eqb_refl.
      apply setHas_In in Hn. rewrite Hn. reflexivity. }
    apply (reach_restrict nl3 nl4 (fun y => In y x2) 0%nat tF Hback).
    + apply (reach_step nl3 0%nat node tF); [|exact L3].
      apply Hup, Hfin0, Hn.
    + apply (Halive tF), HaliveF.
Qed.

(* ================================================================= *)
(** * The errors of [faToRegex] *)

Lemma stateElimination_safe (iter : FAIterator) (fuel : nat) :
  NormalSets iter ->
  (forall q, Reachable iter q -> NoDup (map fst (getOut iter q))) ->
  throwsOnly Benign (stateElimination fuel iter).
Proof.
  intros Hnormal Htargets. unfold stateElimination.
  apply throwsOnly_bind; [apply (createNodeList_safe iter Hnormal Htargets fuel)|].
  intros [nl|] R;
    [|apply throwsOnly_total; exists (mkExpression []); apply returns_emptyExpression;
      reflexivity].
  destruct (createNodeList_spec iter Hnormal fuel (Some nl) R) as [(f & HR) _].
  pose proof (createNodeList_connected iter fuel nl f Hnormal R (rd_finals _ _ _ HR)) as HC.
  apply throwsOnly_bind; [apply (eliminateStates_safe (Accepts iter) fuel nl f HR)|].
  intros nl' R'.
  destruct (eliminateStates_one_edge (Accepts iter) fuel nl nl' f HR HC R')
    as (Ef & Ei & Hlen & Hhas).
  apply throwsOnly_bind; [apply throwsOnly_unwrap; rewrite Ef; discriminate|].
  intros f' Rf. apply returns_unwrap in Rf. rewrite Ef in Rf. injection Rf as <-.
  rewrite Ei, Hlen, Hhas. cbn [Nat.eqb negb orb].
  apply throwsOnly_bind.
  { apply throwsOnly_unwrap. apply mapHas_true in Hhas. destruct Hhas as (t & Ht).
    rewrite Ht. discriminate. }
  intros t _. intros e He. destruct t as [c | [cs | alts | alts qmin qmax | k n alts]];
    cbn in He; discriminate.
Qed.

Lemma optimizeLoop_error (fuel : nat) : forall passes expression e,
  optimizeLoop fuel passes expression = Err e -> e = OutOfFuel.
Proof.
  induction fuel as [|fuel IH]; intros passes expression e H; simpl in H.
  - congruence.
  - destruct passes as [[|n]|]; try discriminate;
      destruct (optimize expression) as [expression' [|]]; try discriminate;
      apply (IH _ _ _ H).
Qed.

(** X23: for an automaton whose sets are in normal form and whose states
    have no two transitions to the same state, [faToRegex] throws nothing but
    the [TooManyNodesError] of the ceiling and the [RangeError] of
    [CharSet.union] for sets of different maximum: the two nodes of
    [linkNodes] are never linked already, those of [relinkNodes] always
    are, no non-null assertion fails, and the elimination never ends with
    "State elimination failed".  [OutOfFuel] is the loops of the model
    running out of fuel. *)
Theorem faToRegex_throws_only (fuel : nat) (iter : FAIterator) (options : ToRegexOptions)
  (e : Error) :
  NormalSets iter ->
  (forall q, Reachable iter q -> NoDup (map fst (getOut iter q))) ->
  faToRegex fuel iter options = Err e ->
  e = TooManyNodes \/ e = DomainMismatch \/ e = OutOfFuel.
Proof.
  intros Hnormal Htargets H. unfold faToRegex, faToRegexCounting in H.
  destruct (run _ (stateElimination fuel iter) 0) as [[expression counter] | e'] eqn:Erun.
  - simpl in H.
    destruct (optimizeLoop fuel (maximumOptimizationPasses options) expression)
      as [expression' | e'] eqn:Eopt; simpl in H; [discriminate|].
    injection H as <-. right. right. apply (optimizeLoop_error _ _ _ _ Eopt).
  - simpl in H. injection H as <-.
    destruct (run_Err _ _ _ _ Erun) as [-> | Ht]; [left; reflexivity | right].
    apply (stateElimination_safe iter fuel Hnormal Htargets e' Ht).
Qed.

(** [0 -a-> 1], [0 -b-> 2], [1] and [2] final, with [a] a set of maximum
    [0xFFFF] and [b] a set of maximum [0x7F]. *)
Definition asciiSet (c : Z) : CharSet := mkCharSet 127 [mkRange c c].

Definition mixedFA : FAIterator :=
  tableFA 0 [(0%nat, [(1%nat, letterSet 97); (2%nat, asciiSet 98)])] [1%nat; 2%nat].

Lemma mixedFA_normal : NormalSets mixedFA.
Proof.
  apply tableFA_NormalSets.
  repeat (apply Forall_cons || apply Forall_nil); simpl;
    apply NormalForm_normalFrom; simpl; lia.
Qed.

Lemma mixedFA_targets (q : nat) :
  Reachable mixedFA q -> NoDup (map fst (getOut mixedFA q)).
Proof.
  intros _. destruct q as [|q]; simpl; [|constructor].
  constructor; [intros [H | []]; discriminate|].
  constructor; [intros [] | constructor].
Qed.

Lemma faToRegex_throws_only_witness :
  faToRegex 50 mixedFA defaultOptions = Err DomainMismatch
  /\ (DomainMismatch = TooManyNodes \/ DomainMismatch = DomainMismatch
      \/ DomainMismatch = OutOfFuel).
Proof.
  split; [vm_compute; reflexivity|].
  apply (faToRegex_throws_only 50 mixedFA defaultOptions DomainMismatch
           mixedFA_normal mixedFA_targets).
  vm_compute. reflexivity.
Defined.

(* ================================================================= *)
(** * The conversion of a finite automaton ends *)

(** ** The loops of [eliminateStates]: one round for every state that
    remains *)

Lemma setDelete_length (s : list nat) (x : nat) :
  In x s -> (length (setDelete s x) < length s)%nat.
Proof.
  unfold setDelete. induction s as [|y s IH]; simpl; [tauto|].
  intros [-> | Hin].
  - rewrite Nat.eqb_refl. simpl. pose proof (filter_length_le (fun y => negb (y =? x)%nat) s).
    lia.
  - specialize (IH Hin). destruct (negb (y =? x)%nat); simpl; lia.
Qed.

Lemma removeTrivialConcat_remaining (st st' : Elimination.State) (s : nat)
  (r : option (list nat)) :
  returns (Elimination.removeTrivialConcat st s) (r, st') ->
  (r = None /\ st' = st)
  \/ ((exists states, r = Some states)
      /\ Elimination.remainingStates st' = setDelete (Elimination.remainingStates st) s).
Proof.
  unfold Elimination.removeTrivialConcat. intros H.
  destruct ((length (in_ (getNode (Elimination.nodeList st) s)) =? 1)%nat
            && (length (out (getNode (Elimination.nodeList st) s)) =? 1)%nat).
  - right. tc_step H. destruct x as [p a]. tc_step H. destruct x as [o b].
    tc_step H. tc_step H. tc_step H. injection H as <- <-.
    split; [eexists; reflexivity | reflexivity].
  - left. apply returns_Ret in H. injection H as <- <-. split; reflexivity.
Qed.

(** Whenever a round of [trivialOperations] gives states to process, a
    state has been removed. *)
Definition Fewer (n0 : nat) (acc : Elimination.State * list nat) : Prop :=
  (length (Elimination.remainingStates (fst acc)) <= n0)%nat
  /\ (snd acc <> [] -> (length (Elimination.remainingStates (fst acc)) < n0)%nat).

Lemma processState_fewer (n0 : nat) (acc acc' : Elimination.State * list nat) (s : nat) :
  Fewer n0 acc -> returns (Elimination.processState acc s) acc' -> Fewer n0 acc'.
Proof.
  destruct acc as [[nl Rs] newToProcess]. unfold Fewer. simpl. intros [Hle Hlt] H.
  destruct (setHas Rs s) eqn:E; simpl in H;
    [|apply returns_Ret in H; subst acc'; simpl; tauto].
  apply setHas_In in E.
  tc_step H. tc_step H. destruct x0 as [affected st'].
  destruct (removeTrivialConcat_remaining _ st' s affected R0)
    as [[-> ->] | [(states & ->) ER]]; apply returns_Ret in H; subst acc'; simpl.
  - tauto.
  - simpl in ER. rewrite ER. pose proof (setDelete_length Rs s E). split; intros; lia.
Qed.

Lemma round_fewer (st st1 : Elimination.State) (toProcess newToProcess : list nat) :
  returns (foldM Elimination.processState toProcess (st, [])) (st1, newToProcess) ->
  Fewer (length (Elimination.remainingStates st)) (st1, newToProcess).
Proof.
  intros H.
  apply (foldM_returns Elimination.processState
           (fun _ acc => Fewer (length (Elimination.remainingStates st)) acc) toProcess)
    with (st := (st, [])) (st' := (st1, newToProcess)); [| | exact H].
  - intros done x acc acc' _ HP Hret. apply (processState_fewer _ acc acc' x HP Hret).
  - split; simpl; [lia | congruence].
Qed.

Lemma trivialOperations_remaining (fuel : nat) :
  forall (st st' : Elimination.State) (toProcess : list nat),
  returns (Elimination.trivialOperations fuel st toProcess) st' ->
  (length (Elimination.remainingStates st') <= length (Elimination.remainingStates st))%nat.
Proof.
  induction fuel as [|fuel IH]; intros st st' toProcess H; simpl in H.
  - destruct (returns_Throw _ _ H).
  - destruct (0 <? length toProcess)%nat;
      [|apply returns_Ret in H; subst st'; lia].
    tc_step H. destruct x as [st1 newToProcess].
    destruct (round_fewer st st1 toProcess newToProcess R) as [Hle _]. simpl in Hle.
    specialize (IH st1 st' newToProcess H). lia.
Qed.

Section LoopsEnd.
Variable L : Lang.
Variable V : nat -> Prop.
Variables i f : nat.

Lemma trivialOperations_ends (fuel : nat) : forall (st : Elimination.State) toProcess,
  StateInv L V i f st ->
  (length (Elimination.remainingStates st) + 2 <= fuel)%nat ->
  throwsOnly isDomainMismatch (Elimination.trivialOperations fuel st toProcess).
Proof.
  induction fuel as [|fuel IH]; intros st toProcess HI Hfuel; [lia|]. simpl.
  destruct (0 <? length toProcess)%nat; [|apply throwsOnly_Ret].
  apply throwsOnly_bind.
  - apply (throwsOnly_foldM isDomainMismatch Elimination.processState
             (fun _ acc => StateInv L V i f (fst acc)) toProcess [] (st, [])
             HI); [|reflexivity].
    intros done x acc _ HP. split; [apply (processState_safe L V i f acc x HP)|].
    intros acc' Hret. apply (processState_keeps L V i f acc acc' x HP Hret).
  - intros [st1 newToProcess] R.
    assert (HI1 : StateInv L V i f st1).
    { apply (foldM_returns Elimination.processState
               (fun _ acc => StateInv L V i f (fst acc)) toProcess) with (st := (st, []))
        (st' := (st1, newToProcess)); [| exact HI | exact R].
      intros done x acc acc' _ HP Hret.
      apply (processState_keeps L V i f acc acc' x HP Hret). }
    destruct (round_fewer st st1 toProcess newToProcess R) as [Hle Hlt]. simpl in Hle, Hlt.
    destruct newToProcess as [|n rest].
    + destruct fuel as [|fuel']; [lia|]. simpl. apply throwsOnly_Ret.
    + apply (IH st1 (n :: rest) HI1). specialize (Hlt ltac:(discriminate)). lia.
Qed.

Lemma removeState_remaining (st st' : Elimination.State) (s : nat) (affected : list nat) :
  returns (Elimination.removeState st s) (affected, st') ->
  Elimination.remainingStates st' = setDelete (Elimination.remainingStates st) s.
Proof.
  unfold Elimination.removeState. intros H.
  destruct (unlinkNodes (Elimination.nodeList st) s s) as [refTrans nl1].
  tc_step H. tc_step H. tc_step H. injection H as _ <-. reflexivity.
Qed.

Lemma mainLoop_ends (fuel : nat) : forall st : Elimination.State,
  StateInv L V i f st ->
  (length (Elimination.remainingStates st) + 2 <= fuel)%nat ->
  throwsOnly isDomainMismatch (Elimination.mainLoop fuel st).
Proof.
  induction fuel as [|fuel IH]; intros st HI Hfuel; [lia|].
  change (throwsOnly isDomainMismatch
            (if (0 <? length (Elimination.remainingStates st))%nat
             then
               tbind (Elimination.unwrap
                        (Elimination.minOf (Elimination.remainingStates st)
                           (Elimination.cost (Elimination.nodeList st))))
                 (fun pickedState =>
                  tbind (Elimination.removeState st pickedState)
                    (fun x => let '(affected, st1) := x in
                     tbind (Elimination.trivialOperations (S fuel) st1 affected)
                       (fun st2 => Elimination.mainLoop fuel st2)))
             else Ret st)).
  destruct (0 <? length (Elimination.remainingStates st))%nat eqn:E;
    [|apply throwsOnly_Ret].
  apply Nat.ltb_lt in E.
  apply throwsOnly_bind; [apply throwsOnly_unwrap, minOf_some, E|].
  intros s Rs. apply returns_unwrap, minOf_In in Rs.
  apply throwsOnly_bind; [apply (removeState_safe L V i f st s HI)|].
  intros [affected st1] R1.
  pose proof (removeState_keeps L V i f st st1 s affected HI Rs R1) as HI1.
  pose proof (removeState_remaining st st1 s affected R1) as ER.
  pose proof (setDelete_length _ s Rs) as Hlt. rewrite <- ER in Hlt.
  apply throwsOnly_bind;
    [apply (trivialOperations_ends (S fuel) st1 affected HI1); lia|].
  intros st2 R2.
  pose proof (trivialOperations_remaining (S fuel) st1 st2 affected R2) as Hle.
  apply IH; [|lia].
  apply (trivialOperations_keeps L V i f (S fuel) st1 st2 affected HI1 R2).
Qed.
End LoopsEnd.

(** ** A traversal of a finite graph *)

Section TraversalEnds.
Context {St : Type}.
Variable succ : nat -> list nat.
Variable g : nat -> St -> St.
Variable U : list nat.
Hypothesis Hsucc : forall n m, In n U -> In m (succ n) -> In m U.

(** The elements not visited, each with the elements it leads to. *)
Definition work (visited : list nat) : nat :=
  list_sum (map (fun n => if setHas visited n then 0%nat else S (length (succ n))) U).

Lemma work_visit (visited : list nat) (n : nat) :
  In n U -> ~ In n visited ->
  (work (n :: visited) + S (length (succ n)) <= work visited)%nat.
Proof.
  intros Hn Hnew. unfold work. apply list_sum_visit with (n := n); [| exact Hn |].
  - intros q. rewrite setHas_cons. destruct (q =? n)%nat, (setHas visited q); simpl; lia.
  - rewrite setHas_cons, Nat.eqb_refl. simpl.
    apply setHas_not_In in Hnew. rewrite Hnew. lia.
Qed.

Lemma DFSLoop_ends (fuel : nat) : forall visited stack st,
  (forall x, In x stack -> In x U) ->
  (length stack + work visited < fuel)%nat ->
  exists st', returns (DFSLoop (fun n s => Ret (succ n, g n s)) fuel visited stack st) st'.
Proof.
  induction fuel as [|fuel IH]; intros visited stack st Hstack Hfuel; [lia|].
  destruct stack as [|n stack']; cbn [DFSLoop].
  - exists st. apply returns_Ret. reflexivity.
  - destruct (setHas visited n) eqn:E.
    + apply (IH visited stack' st).
      * intros x Hx. apply Hstack. right. exact Hx.
      * simpl in Hfuel. lia.
    + apply setHas_not_In in E. cbn [tbind].
      pose proof (Hstack n (or_introl eq_refl)) as Hn.
      pose proof (work_visit visited n Hn E) as Hw.
      apply (IH (n :: visited) (succ n ++ stack') (g n st)).
      * intros x Hx. apply in_app_or in Hx. destruct Hx as [Hx | Hx].
        -- apply (Hsucc n x Hn Hx).
        -- apply Hstack. right. exact Hx.
      * rewrite length_app. simpl in Hfuel. lia.
Qed.

Lemma work_bound (D : nat) :
  (forall n, In n U -> length (succ n) <= D)%nat ->
  (work [] <= length U * S D)%nat.
Proof.
  intros HD. unfold work. simpl.
  assert (G : forall l, incl l U ->
            (list_sum (map (fun n => S (length (succ n))) l) <= length l * S D)%nat).
  { induction l as [|x l IH]; intros Hl; simpl; [lia|].
    pose proof (HD x (Hl x (or_introl eq_refl))).
    assert (Hl' : incl l U) by (intros y Hy; apply Hl; right; exact Hy).
    specialize (IH Hl'). lia. }
  apply G, incl_refl.
Qed.
End TraversalEnds.

(** The nodes of a graph, and the traversals along its edges. *)
Lemma keys_bound (nl : NodeList) (keys : list nat) :
  NoDup keys -> (forall k, In k keys -> validNode nl k) ->
  (length keys <= length (heap nl))%nat.
Proof.
  intros Hnd Hv.
  pose proof (NoDup_incl_length (l' := seq 0 (length (heap nl))) Hnd) as H.
  rewrite length_seq in H. apply H.
  intros k Hk. apply in_seq. specialize (Hv k Hk). unfold validNode in Hv. lia.
Qed.

Lemma out_keys_valid (nl : NodeList) (n m : nat) :
  WFG nl -> In m (mapKeys (out (getNode nl n))) -> validNode nl m.
Proof.
  intros W Hm. apply mapGet_key in Hm. destruct Hm as (t & Hm).
  apply (wfg_valid nl W n m t Hm).
Qed.

Lemma in_keys_valid (nl : NodeList) (n m : nat) :
  WFG nl -> In m (mapKeys (in_ (getNode nl n))) -> validNode nl m.
Proof.
  intros W Hm. apply mapGet_key in Hm. destruct Hm as (t & Hm).
  rewrite (edge_in nl m n W) in Hm. apply (wfg_valid nl W m n t Hm).
Qed.

Lemma DFS_out_ends {St : Type} (nl : NodeList) (g : nat -> St -> St) (fuel start : nat)
  (st : St) :
  WFG nl -> validNode nl start ->
  (1 + length (heap nl) * S (length (heap nl)) < fuel)%nat ->
  exists st',
    returns (DFS (fun n s => Ret (mapKeys (out (getNode nl n)), g n s)) fuel start st) st'.
Proof.
  intros W Hstart Hfuel. unfold DFS.
  apply (DFSLoop_ends (fun n => mapKeys (out (getNode nl n))) g
           (seq 0 (length (heap nl)))).
  - intros n m _ Hm. apply in_seq. pose proof (out_keys_valid nl n m W Hm) as Hv.
    unfold validNode in Hv. lia.
  - intros x [<- | []]. apply in_seq. unfold validNode in Hstart. lia.
  - pose proof (work_bound (fun n => mapKeys (out (getNode nl n)))
                  (seq 0 (length (heap nl))) (length (heap nl))) as Hw.
    rewrite length_seq in Hw. simpl length.
    assert (Hd : forall n, In n (seq 0 (length (heap nl))) ->
              (length (mapKeys (out (getNode nl n))) <= length (heap nl))%nat).
    { intros n _. apply keys_bound; [apply (wfg_out nl W n)|].
      intros k Hk. apply (out_keys_valid nl n k W Hk). }
    specialize (Hw Hd). lia.
Qed.

Lemma DFS_in_ends {St : Type} (nl : NodeList) (g : nat -> St -> St) (fuel start : nat)
  (st : St) :
  WFG nl -> validNode nl start ->
  (1 + length (heap nl) * S (length (heap nl)) < fuel)%nat ->
  exists st',
    returns (DFS (fun n s => Ret (mapKeys (in_ (getNode nl n)), g n s)) fuel start st) st'.
Proof.
  intros W Hstart Hfuel. unfold DFS.
  apply (DFSLoop_ends (fun n => mapKeys (in_ (getNode nl n))) g
           (seq 0 (length (heap nl)))).
  - intros n m _ Hm. apply in_seq. pose proof (in_keys_valid nl n m W Hm) as Hv.
    unfold validNode in Hv. lia.
  - intros x [<- | []]. apply in_seq. unfold validNode in Hstart. lia.
  - pose proof (work_bound (fun n => mapKeys (in_ (getNode nl n)))
                  (seq 0 (length (heap nl))) (length (heap nl))) as Hw.
    rewrite length_seq in Hw. simpl length.
    assert (Hd : forall n, In n (seq 0 (length (heap nl))) ->
              (length (mapKeys (in_ (getNode nl n))) <= length (heap nl))%nat).
    { intros n _. apply keys_bound; [apply (wfg_in nl W n)|].
      intros k Hk. apply (in_keys_valid nl n k W Hk). }
    specialize (Hw Hd). lia.
Qed.

Lemma returns_bind_ex {A B : Type} (m : TC A) (f : A -> TC B) (Q : B -> Prop) (a : A) :
  returns m a -> (exists b, returns (f a) b /\ Q b) ->
  exists b, returns (tbind m f) b /\ Q b.
Proof.
  intros Ha (b & Hb & HQ). exists b. split; [|exact HQ].
  apply returns_bind. exists a. split; assumption.
Qed.

Lemma never_throws_returns {A : Type} (m : TC A) :
  throwsOnly (fun _ => False) m -> exists a, returns m a.
Proof.
  intros H. apply not_thrown_returns. destruct (thrown m) as [e|] eqn:E; [|reflexivity].
  destruct (H e E).
Qed.

(** ** The size of the graph of [createNodeList] *)

Lemma cacheGet_None (cache : list (nat * nat)) (n : nat) :
  cacheGet cache n = None -> ~ In n (map fst cache).
Proof.
  induction cache as [|[k v] cache IH]; simpl; [tauto|].
  destruct (k =? n)%nat eqn:E; [discriminate|]. apply Nat.eqb_neq in E.
  intros H [Hk | Hin]; [exact (E Hk) | exact (IH H Hin)].
Qed.

Lemma linkNodes_heap (nl nl' : NodeList) (from to : nat) (t : Transition) :
  linkNodes nl from to t = Ok nl' -> length (heap nl') = length (heap nl).
Proof.
  unfold linkNodes. destruct (mapHas (out (getNode nl from)) to); [discriminate|].
  intros H. injection H as <-. unfold setIn, setOut, setNode. simpl.
  rewrite !replaceNth_length. reflexivity.
Qed.

Section Counted.
Variable iter : FAIterator.
Variable states : list nat.
Hypothesis Hclosed : forall q q' cs,
  In q states -> In (q', cs) (getOut iter q) -> In q' states.

(** One node for the initial node and one for every state in the cache of
    [translate]. *)
Definition Counted (st : Build) : Prop :=
  length (heap (b_nodeList st)) = S (length (b_cache st))
  /\ NoDup (map fst (b_cache st))
  /\ incl (map fst (b_cache st)) states.

Lemma Counted_bound (st : Build) :
  Counted st -> (length (heap (b_nodeList st)) <= S (length states))%nat.
Proof.
  intros (Hh & Hnd & Hincl). rewrite Hh, <- (length_map fst (b_cache st)).
  apply le_n_S, (NoDup_incl_length Hnd Hincl).
Qed.

Lemma translate_counted (n : nat) (st : Build) :
  Counted st -> In n states -> Counted (snd (translate n st)).
Proof.
  intros (Hh & Hnd & Hincl) Hn. unfold translate.
  destruct (cacheGet (b_cache st) n) eqn:E; [split; [|split]; assumption|].
  apply cacheGet_None in E. unfold Counted. simpl.
  rewrite !length_app, map_app. simpl. split; [lia|]. split.
  - apply NoDup_app; [exact Hnd | repeat constructor; intros [] |].
    intros y Hy [<- | []]. exact (E Hy).
  - apply incl_app; [exact Hincl|]. intros y [<- | []]. exact Hn.
Qed.

Lemma linkOut_counted (n : nat) (st st' : Build) (e : nat * CharSet) :
  returns (linkOut n st e) st' ->
  Counted st -> In n states -> In (fst e) states -> Counted st'.
Proof.
  destruct e as [q' cs]. unfold linkOut. intros H HC Hn Hq'. simpl in Hq'.
  pose proof (translate_counted n st HC Hn) as C1.
  destruct (translate n st) as [from st1]. simpl in C1.
  pose proof (translate_counted q' st1 C1 Hq') as C2.
  destruct (translate q' st1) as [to st2]. simpl in C2.
  tc_step H. tc_step H. tc_step R0. apply linkNodes_heap in R0.
  tc_step H. subst st'. destruct C2 as (Hh & Hnd & Hincl).
  split; [simpl; rewrite R0; exact Hh|]. split; assumption.
Qed.

Lemma visitState_counted (n : nat) (st : Build) (r : list nat * Build) :
  returns (visitState iter n st) r ->
  Counted st -> In n states -> Counted (snd r).
Proof.
  unfold visitState. intros H HC Hn. tc_step H. tc_step H. subst r. simpl.
  apply (foldM_returns (linkOut n) (fun _ cur => Counted cur)
           (sortOut (getOut iter n))) with (st' := x) in R; [exact R | |].
  - intros done e cur cur' (rest & Hrest) HP Hret.
    apply (linkOut_counted n cur cur' e Hret HP Hn).
    destruct e as [q' cs]. apply (Hclosed n q' cs Hn). apply sortOut_In.
    rewrite Hrest. apply in_or_app. right. left. reflexivity.
  - destruct (isFinal iter n); [|exact HC].
    pose proof (translate_counted n st HC Hn) as C1.
    destruct (translate n st) as [node st1]. exact C1.
Qed.
End Counted.

Lemma mul_succ_mono (n m : nat) : (n <= m)%nat -> (n * S n <= m * S m)%nat.
Proof. intros H. apply Nat.mul_le_mono; lia. Qed.

Section CreateEnds.
Variable iter : FAIterator.
Variable states : list nat.
Hypothesis Hnormal : NormalSets iter.
Hypothesis Hinit : In (fa_initial iter) states.
Hypothesis Hclosed : forall q q' cs,
  In q states -> In (q', cs) (getOut iter q) -> In q' states.
Hypothesis Htargets : forall q, In q states -> NoDup (map fst (getOut iter q)).

Lemma reachable_states (q : nat) : Reachable iter q -> In q states.
Proof.
  induction 1 as [|q q' cs _ IH Hin]; [exact Hinit | apply (Hclosed q q' cs IH Hin)].
Qed.

Lemma createNodeList_ends (fuel : nat) :
  (1 + length states + transitionCount iter states < fuel)%nat ->
  (1 + (length states + 2) * S (length states + 2) < fuel)%nat ->
  exists r, returns (createNodeList fuel iter) r
            /\ match r with
               | Some nl => validNode nl (initial nl)
                            /\ (length (heap nl) <= length states + 2)%nat
               | None => True
               end.
Proof.
  intros Hfuel1 Hfuel2. unfold createNodeList.
  change (createNode newNodeList) with (1%nat, snd (createNode newNodeList)).
  cbv beta iota zeta.
  apply (returns_bind_ex _ _ _ []); [apply returns_emptyConcat; reflexivity|].
  change (initial (snd (createNode newNodeList))) with 0%nat.
  assert (Hlink : exists nl0,
            linkNodes (snd (createNode newNodeList)) 0 1 (TConcat []) = Ok nl0)
    by (eexists; reflexivity).
  destruct Hlink as (x & Hlink).
  apply (returns_bind_ex _ _ _ x); [rewrite Hlink; apply returns_Ret; reflexivity|].
  pose proof (build_start iter x Hlink) as HB0.
  destruct (DFSLoop_outcome iter states Hnormal Hclosed Htargets fuel []
              [fa_initial iter] (mkBuild x [(fa_initial iter, 1%nat)]) HB0)
    as (x0 & n & Hn & _).
  { intros y [<- | []]. split; [exact Hinit | apply ReachInitial]. }
  { rewrite pendingWork_nil. simpl. lia. }
  apply outcome_returns in Hn.
  apply (returns_bind_ex _ _ _ x0); [exact Hn|].
  set (Inv := fun visited st =>
                BInv iter visited st /\ NoDup (finals (b_nodeList st))
                /\ Counted states st).
  destruct (DFS_rule (visitState iter) (successors iter) Inv
              (fun q => Reachable iter q /\ In q states))
    with (fuel := fuel) (start := fa_initial iter)
         (st := mkBuild x [(fa_initial iter, 1%nat)]) (st' := x0)
    as (visited & (HB & Hnd & HC) & _ & _).
  { intros q vis st0 r0 (HI & Hf & Hc) [Pq Hq] Hnew Hr.
    destruct (visitState_spec iter Hnormal vis st0 q r0 HI Pq Hnew Hr) as (H1 & H2 & H3).
    split; [exact H1|]. split.
    - split; [exact H2|]. split; [apply (visitState_finals iter q st0 r0 Hr Hf)|].
      apply (visitState_counted iter states Hclosed q st0 r0 Hr Hc Hq).
    - rewrite Forall_forall in H3. apply Forall_forall. intros m Hm.
      split; [apply H3, Hm | apply reachable_states, H3, Hm]. }
  { exact Hn. }
  { split; [exact HB0|]. split.
    - simpl. rewrite (linkNodes_finals _ _ _ _ _ Hlink). simpl. constructor.
    - split; [simpl; rewrite (linkNodes_heap _ _ _ _ _ Hlink); reflexivity|].
      simpl. split; [repeat constructor; intros []|].
      intros y [<- | []]. exact Hinit. }
  { split; [apply ReachInitial | exact Hinit]. }
  pose proof HB as [HBI HReach].
  pose proof (Counted_bound states x0 HC) as Hsize.
  set (nl0 := b_nodeList x0) in *.
  destruct (length (finals nl0) =? 0)%nat eqn:Efin.
  { exists None. split; [apply returns_Ret; reflexivity | exact I]. }
  pose proof (bd_wfg _ _ _ _ HBI) as W0. fold nl0 in W0.
  assert (Hinit0 : initial nl0 = 0%nat) by apply (bd_initial _ _ _ _ HBI).
  destruct (createNode nl0) as [tF nl1] eqn:EC.
  assert (Enl : nl1 = snd (createNode nl0)) by (rewrite EC; reflexivity).
  assert (EtF : tF = length (heap nl0)).
  { unfold createNode in EC. injection EC as <- _. reflexivity. }
  clear EC.
  assert (E1 : forall u v, edge nl1 u v = edge nl0 u v)
    by (subst nl1; apply edge_createNode).
  assert (L1 : length (heap nl1) = S (length (heap nl0))).
  { subst nl1. unfold createNode. simpl. rewrite length_app. simpl. lia. }
  assert (F1 : finals nl1 = finals nl0) by (subst nl1; reflexivity).
  assert (I1 : initial nl1 = initial nl0) by (subst nl1; reflexivity).
  assert (W1 : WFG nl1) by (subst nl1; apply (WFG_createNode nl0 W0)).
  clear Enl.
  assert (Hrange : forall node, In node (finals nl0) ->
            (1 <= node < length (heap nl0))%nat).
  { intros node Hin. destruct (bd_finals_sound _ _ _ _ HBI node Hin) as (q & _ & Hc).
    apply (bd_range _ _ _ _ HBI q node (cacheGet_In _ _ _ Hc)). }
  assert (VtF : validNode nl1 tF) by (unfold validNode; lia).
  assert (Vfs : forall y, In y (finals nl0) -> validNode nl1 y).
  { intros y Hy. pose proof (Hrange y Hy). unfold validNode. lia. }
  rewrite F1.
  destruct (never_throws_returns
              (foldM (fun nl n => tbind tc.emptyConcat (fun eps =>
                                  liftResult (linkNodes nl n tF (TConcat eps))))
                     (finals nl0) nl1)) as (x1 & R1).
  { apply (drain_safe _ nl1 tF (finals nl0) W1 VtF Vfs Hnd).
    intros u. rewrite E1. destruct (edge nl0 u tF) as [t|] eqn:E; [|reflexivity].
    destruct (wfg_valid nl0 W0 u tF t E) as [_ Hv]. unfold validNode in Hv. lia. }
  apply (returns_bind_ex _ _ _ x1 R1).
  destruct (drain_fold nl1 x1 tF (finals nl0) W1 VtF Vfs R1) as (W2 & (L2 & I2 & _) & _).
  set (nl3 := setFinals x1 [tF]) in *.
  assert (W3 : WFG nl3) by apply (WFG_setFinals x1 [tF] W2).
  assert (L3 : length (heap nl3) = S (length (heap nl0))).
  { unfold nl3. simpl. rewrite L2. exact L1. }
  assert (Hi3 : initial nl3 = 0%nat).
  { unfold nl3. simpl. rewrite I2, I1. exact Hinit0. }
  assert (Hfuel3 : (1 + length (heap nl3) * S (length (heap nl3)) < fuel)%nat).
  { pose proof (mul_succ_mono (length (heap nl3)) (length states + 2)). lia. }
  destruct (DFS_in_ends nl3 (fun n alive => setAdd alive n) fuel tF [] W3)
    as (alive & Ra); [unfold validNode; lia | exact Hfuel3 |].
  apply (returns_bind_ex _ _ _ alive Ra).
  destruct (DFS_out_ends nl3
              (fun n dead => if negb (setHas alive n) then setAdd dead n else dead)
              fuel (initial nl3) [] W3)
    as (dead & Rd); [rewrite Hi3; unfold validNode; lia | exact Hfuel3 |].
  apply (returns_bind_ex _ _ _ dead Rd).
  exists (Some (fold_left isolate dead nl3)).
  split; [apply returns_Ret; reflexivity|].
  destruct (fold_isolate_spec dead nl3 W3) as (_ & (L4 & I4 & _) & _).
  unfold validNode. rewrite I4, L4, Hi3. lia.
Qed.
End CreateEnds.

(** ** [eliminateStates] *)

Lemma eliminateStates_ends (L : Lang) (fuel : nat) (nl : NodeList) (f : nat) :
  Ready L nl f -> validNode nl (initial nl) ->
  (1 + length (heap nl) * S (length (heap nl)) < fuel)%nat ->
  throwsOnly isDomainMismatch (eliminateStates fuel nl).
Proof.
  intros HR Hvalid Hfuel. pose proof (rd_wfg L nl f HR) as W. unfold eliminateStates.
  apply throwsOnly_bind;
    [apply throwsOnly_unwrap; rewrite (rd_finals L nl f HR); discriminate|].
  intros f' Rf. apply returns_unwrap in Rf. rewrite (rd_finals L nl f HR) in Rf.
  injection Rf as <-.
  destruct (DFS_out_ends nl
              (fun n remaining => if negb (n =? initial nl)%nat && negb (n =? f)%nat
                                  then setAdd remaining n else remaining)
              fuel (initial nl) [] W Hvalid Hfuel) as (x0 & R0).
  apply throwsOnly_bind; [apply (throwsOnly_returns _ _ x0 R0)|].
  intros x R. destruct (eliminate_start L fuel nl f x HR R) as (V & HI).
  assert (Hsize : (length x <= length (heap nl))%nat).
  { destruct (DFS_rule
                (fun n remaining =>
                   Ret (mapKeys (out (getNode nl n)),
                        if negb (n =? initial nl)%nat && negb (n =? f)%nat
                        then setAdd remaining n else remaining))
                (fun n => mapKeys (out (getNode nl n)))
                (fun _ remaining => NoDup remaining
                                    /\ forall y, In y remaining -> validNode nl y)
                (validNode nl)) with (fuel := fuel) (start := initial nl)
                                     (st := @nil nat) (st' := x)
      as (visited & [Hnd Hv] & _).
    - intros n visited remaining r [Hnd Hv] Pn _ Hr. apply returns_Ret in Hr. subst r.
      simpl. split; [reflexivity|]. split.
      + destruct (negb (n =? initial nl)%nat && negb (n =? f)%nat);
          [|split; assumption].
        split; [apply setAdd_NoDup, Hnd|]. intros y Hy. apply setAdd_In in Hy.
        destruct Hy as [-> | Hy]; [exact Pn | apply Hv, Hy].
      + apply Forall_forall. intros m Hm. apply (out_keys_valid nl n m W Hm).
    - exact R.
    - split; [constructor | intros y []].
    - exact Hvalid.
    - apply (keys_bound nl x Hnd Hv). }
  assert (Hloops : (length x + 2 <= fuel)%nat).
  { rewrite Nat.mul_succ_r in Hfuel. lia. }
  apply throwsOnly_bind;
    [apply (trivialOperations_ends L V (initial nl) f fuel _ x HI); exact Hloops|].
  intros st1 R1.
  pose proof (trivialOperations_keeps L V (initial nl) f fuel _ st1 x HI R1) as HI1.
  pose proof (trivialOperations_remaining fuel _ st1 x R1) as Hle. simpl in Hle.
  apply throwsOnly_bind; [apply (mainLoop_ends L V (initial nl) f fuel st1 HI1); lia|].
  intros st2 _. apply throwsOnly_Ret.
Qed.

(* ================================================================= *)
(** * [faToRegex] on a finite automaton *)

Section Finite.
Variable iter : FAIterator.
Variable states : list nat.
Hypothesis Hnormal : NormalSets iter.
Hypothesis Hinit : In (fa_initial iter) states.
Hypothesis Hclosed : forall q q' cs,
  In q states -> In (q', cs) (getOut iter q) -> In q' states.
Hypothesis Htargets : forall q, In q states -> NoDup (map fst (getOut iter q)).

Lemma stateElimination_ends (fuel : nat) :
  ((length states + 3) * (length states + 3) + transitionCount iter states < fuel)%nat ->
  throwsOnly isDomainMismatch (stateElimination fuel iter).
Proof.
  intros Hfuel.
  assert (Hfuel2 : (1 + (length states + 2) * S (length states + 2) < fuel)%nat).
  { replace (S (length states + 2)) with (length states + 3)%nat by lia.
    rewrite Nat.mul_add_distr_r in Hfuel |- *. lia. }
  assert (Hfuel1 : (1 + length states + transitionCount iter states < fuel)%nat).
  { rewrite Nat.mul_add_distr_r, Nat.mul_add_distr_l in Hfuel. lia. }
  assert (Hreach : forall q, Reachable iter q -> NoDup (map fst (getOut iter q))).
  { intros q Hq. apply Htargets, (reachable_states iter states Hinit Hclosed q Hq). }
  unfold stateElimination.
  destruct (createNodeList_ends iter states Hnormal Hinit Hclosed Htargets fuel
              Hfuel1 Hfuel2) as (r & Hr & Hsize).
  apply throwsOnly_bind; [apply (throwsOnly_returns _ _ r Hr)|].
  intros r' R. pose proof (returns_functional _ _ _ Hr R) as <-.
  destruct r as [nl|];
    [|apply throwsOnly_total; exists (mkExpression []); apply returns_emptyExpression;
      reflexivity].
  destruct Hsize as [Hvalid Hsize].
  destruct (createNodeList_spec iter Hnormal fuel (Some nl) R) as [(f & HR) _].
  pose proof (createNodeList_connected iter fuel nl f Hnormal R (rd_finals _ _ _ HR)) as HC.
  apply throwsOnly_bind.
  { apply (eliminateStates_ends (Accepts iter) fuel nl f HR Hvalid).
    pose proof (mul_succ_mono (length (heap nl)) (length states + 2) Hsize). lia. }
  intros nl' R'.
  destruct (eliminateStates_one_edge (Accepts iter) fuel nl nl' f HR HC R')
    as (Ef & Ei & Hlen & Hhas).
  apply throwsOnly_bind; [apply throwsOnly_unwrap; rewrite Ef; discriminate|].
  intros f' Rf. apply returns_unwrap in Rf. rewrite Ef in Rf. injection Rf as <-.
  rewrite Ei, Hlen, Hhas. cbn [Nat.eqb negb orb].
  apply throwsOnly_bind.
  { apply throwsOnly_unwrap. apply mapHas_true in Hhas. destruct Hhas as (t & Ht).
    rewrite Ht. discriminate. }
  intros t _. intros e He. destruct t as [c | [cs | alts | alts qmin qmax | k n alts]];
    cbn in He; discriminate.
Qed.

Lemma optimizeLoop_ends (k : nat) : forall fuel expression,
  (k < fuel)%nat -> exists expression', optimizeLoop fuel (Some k) expression = Ok expression'.
Proof.
  induction k as [|k IH]; intros [|fuel] expression Hfuel; try lia; simpl.
  - eexists. reflexivity.
  - destruct (optimize expression) as [expression' [|]]; [|eexists; reflexivity].
    apply IH. lia.
Qed.

End Finite.

(** X24: for a finite automaton (a list of states that has the initial
    state and is closed under the transitions) whose sets are in normal form
    and whose states have no two transitions to the same state, [faToRegex]
    with a limit on the optimisation passes ends: given fuel for the states
    and transitions, it returns an expression without assertions that
    matches exactly the words the automaton accepts, or it throws the
    [TooManyNodesError] of the ceiling or the [RangeError] of [CharSet.union]
    for sets of different maximum. *)
Theorem faToRegex_total (iter : FAIterator) (states : list nat)
  (options : ToRegexOptions) (k fuel : nat) :
  NormalSets iter ->
  In (fa_initial iter) states ->
  (forall q q' cs, In q states -> In (q', cs) (getOut iter q) -> In q' states) ->
  (forall q, In q states -> NoDup (map fst (getOut iter q))) ->
  maximumOptimizationPasses options = Some k ->
  ((length states + 3) * (length states + 3) + transitionCount iter states + k < fuel)%nat ->
  (exists E, faToRegex fuel iter options = Ok E
             /\ wfExpr E /\ forall w, Accepts iter w <-> langExpr E w)
  \/ faToRegex fuel iter options = Err TooManyNodes
  \/ faToRegex fuel iter options = Err DomainMismatch.
Proof.
  intros Hnormal Hinit Hclosed Htargets Hk Hfuel.
  unfold faToRegex, faToRegexCounting. rewrite Hk.
  destruct (run _ (stateElimination fuel iter) 0) as [[E0 counter] | e] eqn:Erun.
  - left. cbn [rbind].
    destruct (optimizeLoop_ends k fuel E0) as (E1 & Eopt); [lia|].
    rewrite Eopt. cbn [rbind fst]. exists E1. split; [reflexivity|].
    apply run_returns in Erun.
    destruct (stateElimination_spec fuel iter E0 Hnormal Erun) as [W0 L0].
    destruct (optimizeLoop_keeps fuel _ E0 E1 W0 Eopt) as [W1 L1].
    split; [exact W1|]. intros w. rewrite (L1 w), (L0 w). reflexivity.
  - right. cbn [rbind].
    destruct (run_Err _ _ _ _ Erun) as [-> | Ht]; [left; reflexivity | right].
    assert (He : isDomainMismatch e).
    { apply (stateElimination_ends iter states Hnormal Hinit Hclosed Htargets fuel);
        [lia | exact Ht]. }
    rewrite He. reflexivity.
Qed.

Lemma abOrAcFA_closed (q q' : nat) (cs : CharSet) :
  In q [0%nat; 1%nat; 2%nat; 3%nat] -> In (q', cs) (getOut abOrAcFA q) ->
  In q' [0%nat; 1%nat; 2%nat; 3%nat].
Proof.
  intros [<- | [<- | [<- | [<- | []]]]]; simpl; intros H;
    repeat (destruct H as [H | H]; [injection H as <- _; simpl; tauto|]); destruct H.
Qed.

Lemma abOrAcFA_targets (q : nat) :
  In q [0%nat; 1%nat; 2%nat; 3%nat] -> NoDup (map fst (getOut abOrAcFA q)).
Proof.
  intros [<- | [<- | [<- | [<- | []]]]]; simpl;
    repeat (constructor; [simpl; intros H; repeat (destruct H as [H | H]; [discriminate|]);
                          destruct H|]); constructor.
Qed.

Lemma faToRegex_total_witness :
  (exists E, faToRegex 100 abOrAcFA (mkOptions None (Some 5%nat)) = Ok E
             /\ wfExpr E /\ forall w, Accepts abOrAcFA w <-> langExpr E w)
  \/ faToRegex 100 abOrAcFA (mkOptions None (Some 5%nat)) = Err TooManyNodes
  \/ faToRegex 100 abOrAcFA (mkOptions None (Some 5%nat)) = Err DomainMismatch.
Proof.
  apply (faToRegex_total abOrAcFA [0%nat; 1%nat; 2%nat; 3%nat]
           (mkOptions None (Some 5%nat)) 5 100 abOrAcFA_normal
           (or_introl eq_refl) abOrAcFA_closed abOrAcFA_targets).
  - reflexivity.
  - vm_compute. lia.
Defined.
